(** * Coup table engine (newbot.py): model of the game state and of the
      action-resolution protocol, with the properties of the specification.

    The Python source keeps one dictionary per guild ([game_state]) and
    mutates it in place from [async] command handlers.  The model threads
    that dictionary explicitly through a small monad whose results keep
    the table as it stands when a handler returns, raises or hangs, and
    the list of announcements the handler made on the channel. *)

From Stdlib Require Import List ZArith Bool Arith Lia Permutation RelationClasses.
Import ListNotations.

Set Implicit Arguments.

(** ** Cards, players, table *)

Inductive card : Type := Duke | Assassin | Contessa | Captain | Ambassador.

Definition card_eqb (a b : card) : bool :=
  match a, b with
  | Duke, Duke | Assassin, Assassin | Contessa, Contessa
  | Captain, Captain | Ambassador, Ambassador => true
  | _, _ => false
  end.

(** A [discord.Member] is compared and hashed by its id. *)
Definition user := nat.

(** [{"cards": [...], "coins": n}] *)
Record pdata : Type := mkP { cards : list card; coins : Z }.

(** [game_state['players']]: a Python dict, which iterates in insertion
    order; turn order is read from it. *)
Definition roster := list (user * pdata).

Record table : Type := mkTable {
  players : roster;
  court_deck : list card;
  discarded_cards : list card;
  game_started : bool;
  current_player : option user
}.

(** *** Python list operations used by the source *)

(** [l.pop()]: removes and returns the last element. *)
Definition pop {A} (l : list A) : option (A * list A) :=
  match rev l with
  | [] => None
  | x :: r => Some (x, rev r)
  end.

(** [l.remove(c)]: removes the first occurrence. *)
Fixpoint remove_first (c : card) (l : list card) : list card :=
  match l with
  | [] => []
  | x :: t => if card_eqb x c then t else x :: remove_first c t
  end.

(** [c in l] *)
Definition card_in (c : card) (l : list card) : bool := existsb (card_eqb c) l.

(** [l.index(u)] *)
Fixpoint index_of (u : user) (l : list user) : option nat :=
  match l with
  | [] => None
  | x :: t => if Nat.eqb x u then Some 0
              else match index_of u t with Some i => Some (S i) | None => None end
  end.

(** [l[i] = x] for [i] in range. *)
Fixpoint upd {A} (l : list A) (i : nat) (x : A) : list A :=
  match l, i with
  | [], _ => []
  | _ :: t, 0 => x :: t
  | y :: t, S i' => y :: upd t i' x
  end.

(** [l[i], l[j] = l[j], l[i]] *)
Definition swap {A} (l : list A) (i j : nat) : list A :=
  match nth_error l i, nth_error l j with
  | Some a, Some b => upd (upd l i b) j a
  | _, _ => l
  end.

(** [random.shuffle(l)]: Fisher-Yates from the last index down to 1; the
    random draws are an input, the draw for index [i] is reduced modulo
    [i + 1] as [randbelow(i + 1)] does. *)
Fixpoint shuffle_from {A} (i : nat) (rs : list nat) (l : list A) : list A :=
  match i with
  | 0 => l
  | S i' => shuffle_from i' (tl rs) (swap l i (hd 0 rs mod (S i)))
  end.

Definition shuffle {A} (rs : list nat) (l : list A) : list A :=
  shuffle_from (length l - 1) rs l.

(** *** Python dict operations on the roster *)

Fixpoint lookup (r : roster) (u : user) : option pdata :=
  match r with
  | [] => None
  | (k, d) :: t => if Nat.eqb k u then Some d else lookup t u
  end.

(** [u in r] *)
Definition mem (r : roster) (u : user) : bool :=
  match lookup r u with Some _ => true | None => false end.

(** [r[u] = d]: an existing key keeps its position, a new key goes last. *)
Fixpoint assign (r : roster) (u : user) (d : pdata) : roster :=
  match r with
  | [] => [(u, d)]
  | (k, v) :: t => if Nat.eqb k u then (k, d) :: t else (k, v) :: assign t u d
  end.

(** [del r[u]] *)
Fixpoint delete (r : roster) (u : user) : roster :=
  match r with
  | [] => []
  | (k, v) :: t => if Nat.eqb k u then t else (k, v) :: delete t u
  end.

(** [list(r.keys())] *)
Definition keys (r : roster) : list user := map fst r.

(** [["Duke", "Assassin", "Contessa", "Captain", "Ambassador"] * 3] *)
Definition fresh_deck : list card :=
  [Duke; Assassin; Contessa; Captain; Ambassador] ++
  [Duke; Assassin; Contessa; Captain; Ambassador] ++
  [Duke; Assassin; Contessa; Captain; Ambassador].

(** ** Announcements and outcomes *)

Inductive emoji : Type := EBlock | EChallenge | EOther.

Definition emoji_eqb (a b : emoji) : bool :=
  match a, b with
  | EBlock, EBlock | EChallenge, EChallenge | EOther, EOther => true
  | _, _ => false
  end.

(** The titles of the [send_error] messages. *)
Inductive reason : Type :=
| NotYourTurn | NotInGame | TargetEliminated | InsufficientCoins | MustCoup
| CannotTargetYourself | InvalidTarget | NoCoinsToSteal | DeckError
| NotEnoughPlayers | GameAlreadyInProgress | NoGameInProgress | GameError.

(** What a handler posts on the channel.  A [Prompt] records the table as
    it stands when the response window opens. *)
Inductive event : Type :=
| Err (r : reason)
| Prompt (valid : list emoji) (initiator : user) (snapshot : table)
| Lost (p : user) (c : card)
| Revealed (p : user) (c : card)
| GameOver (winner : user)
| Turn (p : user) (forced : bool)
| PlayerLeft (p : user).

Inductive exn : Type := KeyError | ValueError | IndexError | AttributeError.

(** A handler returns a value, raises, or never returns (a [while] loop
    that does not end, a wait without timeout that is never answered). *)
Inductive outcome (A : Type) : Type :=
| Val (a : A)
| Exn (e : exn)
| Hang.
Arguments Exn {A} e.
Arguments Hang {A}.

Record res (A : Type) : Type := mkRes {
  oc : outcome A;
  final : table;
  trace : list event
}.

Definition M (A : Type) : Type := table -> res A.

Definition ret {A} (a : A) : M A := fun st => mkRes (Val a) st [].

Definition bind {A B} (c : M A) (k : A -> M B) : M B := fun st =>
  let r1 := c st in
  match oc r1 with
  | Val a => let r2 := k a (final r1) in
             mkRes (oc r2) (final r2) (trace r1 ++ trace r2)
  | Exn e => mkRes (Exn e) (final r1) (trace r1)
  | Hang => mkRes Hang (final r1) (trace r1)
  end.

Declare Scope coup_scope.
Delimit Scope coup_scope with coup.
Notation "x <- c ;; k" := (bind c (fun x => k))
  (at level 61, c at next level, right associativity) : coup_scope.
Notation "c ;; k" := (bind c (fun _ => k))
  (at level 61, right associativity) : coup_scope.
Open Scope coup_scope.

Definition get : M table := fun st => mkRes (Val st) st [].
Definition modify (f : table -> table) : M unit := fun st => mkRes (Val tt) (f st) [].
Definition emit (e : event) : M unit := fun st => mkRes (Val tt) st [e].
Definition raise {A} (e : exn) : M A := fun st => mkRes (Exn e) st [].
Definition hang {A} : M A := fun st => mkRes Hang st [].

(** [await send_error(ctx, title, ...)] *)
Definition send_error (r : reason) : M unit := emit (Err r).

(** Field updates of [game_state]. *)
Definition set_players (r : roster) (st : table) : table :=
  mkTable r (court_deck st) (discarded_cards st) (game_started st) (current_player st).
Definition set_court_deck (d : list card) (st : table) : table :=
  mkTable (players st) d (discarded_cards st) (game_started st) (current_player st).
Definition set_discarded_cards (d : list card) (st : table) : table :=
  mkTable (players st) (court_deck st) d (game_started st) (current_player st).
Definition set_game_started (b : bool) (st : table) : table :=
  mkTable (players st) (court_deck st) (discarded_cards st) b (current_player st).
Definition set_current_player (p : option user) (st : table) : table :=
  mkTable (players st) (court_deck st) (discarded_cards st) (game_started st) p.

(** [game_state['players'][p]]: raises [KeyError] when [p] is absent. *)
Definition player_data (p : user) : M pdata := fun st =>
  match lookup (players st) p with
  | Some d => ret d st
  | None => raise KeyError st
  end.

(** [game_state['players'][p]["cards"] = cs] *)
Definition set_cards (p : user) (cs : list card) : M unit :=
  d <- player_data p ;;
  modify (fun st => set_players (assign (players st) p (mkP cs (coins d))) st).

(** [game_state['players'][p]["coins"] += n] *)
Definition add_coins (p : user) (n : Z) : M unit :=
  d <- player_data p ;;
  modify (fun st => set_players (assign (players st) p (mkP (cards d) (coins d + n))) st).

(** ** What the handlers take from outside

    One record per command invocation: the invoking member, the guild's
    member list, the reactions observed (in the order the arbiter sees
    them) on the first and on the second prompt of the command, whether
    direct messages get through, the random draws, and for [start] the
    members who reacted to the join message. *)
Record env : Type := mkEnv {
  author : user;
  get_member : user -> bool;
  is_bot : user -> bool;
  first_window : list (emoji * user);
  second_window : list (emoji * user);
  has_perms : bool;
  joiners : list user;
  dm_cards_ok : user -> bool;
  dm_exchange_ok : bool;
  rand_deck : list nat;
  rand_order : list nat;
  rand_pool : list nat;
  picks : list nat
}.

(** [get_game_state] on a guild id not seen before. *)
Definition new_table (rs : list nat) : table :=
  mkTable [] (shuffle rs fresh_deck) [] false None.

(** ** Helper functions of the source *)

Definition shuffle_deck (e : env) : M unit :=
  modify (fun st => set_court_deck (shuffle (rand_deck e) (court_deck st)) st).

(** [game_state['court_deck'].pop()] *)
Definition pop_deck : M card := fun st =>
  match pop (court_deck st) with
  | Some (c, d) => mkRes (Val c) (set_court_deck d st) []
  | None => raise IndexError st
  end.

Fixpoint deal_loop (ps : list user) : M bool :=
  match ps with
  | [] => ret true
  | p :: t =>
      st <- get ;;
      if length (court_deck st) <? 2 then ret false
      else c1 <- pop_deck ;; c2 <- pop_deck ;;
           set_cards p [c1; c2] ;;
           deal_loop t
  end.

Definition deal_cards : M bool :=
  st <- get ;;
  if length (court_deck st) <? length (players st) * 2 then ret false
  else deal_loop (keys (players st)).

(** Returns the card lost, or [None] where the source returns [False]. *)
Definition lose_influence_with_reveal (p : user) : M (option card) :=
  d <- player_data p ;;
  match pop (cards d) with
  | None => ret None
  | Some (c, rest) =>
      set_cards p rest ;;
      modify (fun st => set_discarded_cards (discarded_cards st ++ [c]) st) ;;
      emit (Lost p c) ;;
      ret (Some c)
  end.

Definition is_player_alive (st : table) (p : user) : bool :=
  match lookup (players st) p with
  | None => false
  | Some d => 0 <? length (cards d)
  end.

Definition check_win_condition (st : table) : option user :=
  match filter (is_player_alive st) (keys (players st)) with
  | [w] => Some w
  | _ => None
  end.

(** The [while] loop of [get_next_player]; it runs out of fuel only when
    it has looked at [fuel] consecutive seats without finding a live
    player. *)
Fixpoint next_alive (fuel : nat) (st : table) (l : list user) (i : nat) : option user :=
  match fuel with
  | 0 => None
  | S f =>
      match nth_error l i with
      | Some p => if is_player_alive st p then Some p
                  else next_alive f st l ((i + 1) mod length l)
      | None => None
      end
  end.

Definition get_next_player (current : user) : M user :=
  st <- get ;;
  let player_list := keys (players st) in
  match index_of current player_list with
  | None => raise ValueError
  | Some i =>
      match next_alive (length player_list) st player_list
                       ((i + 1) mod length player_list) with
      | Some p => ret p
      | None => hang
      end
  end.

(** The eligibility filter shared by [check_existing_reactions] and
    [check_new_reaction]. *)
Definition eligible (e : env) (st : table) (valid : list emoji) (initiator : user)
    (r : emoji * user) : bool :=
  mem (players st) (snd r) && is_player_alive st (snd r)
  && negb (Nat.eqb (snd r) initiator) && negb (is_bot e (snd r))
  && existsb (emoji_eqb (fst r)) valid.

(** Returns the first eligible reaction, or [None] for [(None, None)]. *)
Definition wait_for_reaction (e : env) (valid : list emoji) (initiator : user)
    (reactions : list (emoji * user)) : M (option (emoji * user)) :=
  st <- get ;;
  emit (Prompt valid initiator st) ;;
  ret (find (eligible e st valid initiator) reactions).

Fixpoint reveal_all (p : user) (cs : list card) : M unit :=
  match cs with
  | [] => ret tt
  | c :: t => emit (Revealed p c) ;; reveal_all p t
  end.

(** [reveal_winner_hand] *)
Definition reveal_winner_hand (winner : user) : M unit :=
  d <- player_data winner ;;
  reveal_all winner (cards d).

(** The reset block of [handle_player_elimination] (and of [end]). *)
Definition reset_table (st : table) : table :=
  mkTable [] fresh_deck [] false None.

(** Returns [(eliminated, game_ended, next_player)]. *)
Definition handle_player_elimination (e : env) (p : user)
    : M (bool * bool * option user) :=
  d <- player_data p ;;
  if length (cards d) =? 0 then
    next_player_candidate <- get_next_player p ;;
    modify (fun st => set_players (delete (players st) p) st) ;;
    st <- get ;;
    match check_win_condition st with
    | Some winner =>
        emit (GameOver winner) ;;
        reveal_winner_hand winner ;;
        modify reset_table ;;
        shuffle_deck e ;;
        ret (true, true, None)
    | None => ret (true, false, Some next_player_candidate)
    end
  else ret (false, false, None).

Definition handle_card_swap (p : user) (card_name : card) : M unit :=
  st <- get ;;
  if length (court_deck st) <? 1 then send_error DeckError
  else
    d <- player_data p ;;
    if card_in card_name (cards d) then
      set_cards p (remove_first card_name (cards d)) ;;
      modify (fun st => set_court_deck (card_name :: court_deck st) st) ;;
      c <- pop_deck ;;
      d' <- player_data p ;;
      set_cards p (cards d' ++ [c])
    else ret tt.

(** What [handle_challenge] and [handle_block_challenge] return. *)
Record verdict : Type := mkVerdict {
  claim_legitimate : bool;
  game_ended : bool;
  eliminated_player : option user;
  next_player_result : option user
}.

(** The part both branches of a challenge share: the loser, when still
    holding a card, loses one and goes through the elimination check. *)
Definition challenge_loss (e : env) (legit : bool) (loser : user) : M verdict :=
  d <- player_data loser ;;
  if 0 <? length (cards d) then
    lose_influence_with_reveal loser ;;
    r <- handle_player_elimination e loser ;;
    let '(eliminated, ended, next) := r in
    ret (mkVerdict legit ended (if eliminated then Some loser else None) next)
  else ret (mkVerdict legit false None None).

Definition handle_challenge (e : env) (claimer challenger : user)
    (required_card : card) : M verdict :=
  d <- player_data claimer ;;
  if card_in required_card (cards d) then
    emit (Revealed claimer required_card) ;;
    handle_card_swap claimer required_card ;;
    challenge_loss e true challenger
  else
    challenge_loss e false claimer.

(** The [for card in valid_cards] search of [handle_block_challenge]. *)
Definition valid_card_found (valid_cards blocker_cards : list card) : option card :=
  find (fun c => card_in c blocker_cards) valid_cards.

Definition handle_block_challenge (e : env) (blocker challenger : user)
    (valid_cards : list card) : M verdict :=
  d <- player_data blocker ;;
  match valid_card_found valid_cards (cards d) with
  | Some found =>
      emit (Revealed blocker found) ;;
      handle_card_swap blocker found ;;
      challenge_loss e true challenger
  | None =>
      challenge_loss e false blocker
  end.

Definition enhanced_turn_announcement (e : env) (p : option user)
    (is_forced_coup : bool) : M unit :=
  match p with
  | None => send_error GameError
  | Some u => if get_member e u then emit (Turn u is_forced_coup)
              else emit (PlayerLeft u)
  end.

Definition check_forced_coup (e : env) (p : user) : M bool :=
  d <- player_data p ;;
  if (10 <=? coins d)%Z then
    enhanced_turn_announcement e (Some p) true ;; ret true
  else ret false.

(** The reset block of [advance_turn] when a departure leaves a winner. *)
Definition departure_reset (st : table) : table :=
  mkTable [] (court_deck st) (discarded_cards st) false None.

(** [advance_turn] calls itself after it has removed a member who left
    the guild; [fuel] bounds these calls. *)
Fixpoint advance_turn_fuel (fuel : nat) (e : env) (current_turn_player : user) : M unit :=
  match fuel with
  | 0 => hang
  | S f =>
      st <- get ;;
      chosen <-
        (if mem (players st) current_turn_player then
           np <- get_next_player current_turn_player ;;
           modify (set_current_player (Some np)) ;; ret true
         else
           match keys (players st) with
           | p :: _ => modify (set_current_player (Some p)) ;; ret true
           | [] => ret false
           end) ;;
      if negb chosen then ret tt
      else
        st1 <- get ;;
        match current_player st1 with
        | None => send_error GameError
        | Some cp =>
            if get_member e cp then
              forced_coup <- check_forced_coup e cp ;;
              if forced_coup then ret tt
              else enhanced_turn_announcement e (Some cp) false
            else
              emit (PlayerLeft cp) ;;
              modify (fun s => if mem (players s) cp
                               then set_players (delete (players s) cp) s else s) ;;
              st2 <- get ;;
              match check_win_condition st2 with
              | Some winner =>
                  emit (GameOver winner) ;;
                  modify departure_reset
              | None => advance_turn_fuel f e cp
              end
        end
  end.

Definition advance_turn (e : env) (current_turn_player : user) : M unit :=
  st <- get ;;
  advance_turn_fuel (S (length (players st))) e current_turn_player.

(** ** Validation *)

Inductive action : Type :=
| AIncome | AForeignAid | ACoup | ATax | AAssassinate | ASteal | AExchange.

Definition is_coup (a : action) : bool :=
  match a with ACoup => true | _ => false end.

Definition validate_turn (p : user) : M bool :=
  st <- get ;;
  match current_player st with
  | Some cp => if Nat.eqb p cp then ret true
               else send_error NotYourTurn ;; ret false
  | None => send_error NotYourTurn ;; ret false
  end.

Definition validate_target (target : user) : M bool :=
  st <- get ;;
  if negb (mem (players st) target) then send_error NotInGame ;; ret false
  else if negb (is_player_alive st target) then send_error TargetEliminated ;; ret false
  else ret true.

Definition validate_coins (p : user) (required_coins : Z) : M bool :=
  d <- player_data p ;;
  if (coins d <? required_coins)%Z then send_error InsufficientCoins ;; ret false
  else ret true.

Definition validate_action_allowed (p : user) (a : action) : M bool :=
  d <- player_data p ;;
  if (10 <=? coins d)%Z && negb (is_coup a) then send_error MustCoup ;; ret false
  else ret true.

Definition validate_self_target (p target : user) : M bool :=
  if Nat.eqb p target then send_error CannotTargetYourself ;; ret false
  else ret true.

(** [if not await validate(...): return] *)
Definition checked (v : M bool) (k : M unit) : M unit :=
  ok <- v ;; if ok then k else ret tt.

Notation "'check' v ;; k" := (checked v k)
  (at level 61, v at next level, right associativity) : coup_scope.

(** The "extra safety check" of the targeted commands. *)
Definition target_in_game (target : user) : M bool :=
  st <- get ;;
  if negb (mem (players st) target) then send_error InvalidTarget ;; ret false
  else ret true.

(** ** Commands

    A handler that leaves by [return] in the middle of its resolution is
    written as a body that answers whether the closing [advance_turn] is
    still to run. *)
Definition then_advance (e : env) (body : M bool) : M unit :=
  go <- body ;;
  if go then advance_turn e (author e) else ret tt.

(** [eliminated_player == ctx.author] *)
Definition is_author (e : env) (p : option user) : bool :=
  match p with Some u => Nat.eqb u (author e) | None => false end.

(** The turn hand-over of [tax], [assassinate] and [exchange] after the
    author's bluff was exposed; the announcement reads
    [game_state['current_player'].mention]. *)
Definition bluff_exposed (e : env) (v : verdict) : M unit :=
  if is_author e (eliminated_player v) then
    modify (set_current_player (next_player_result v)) ;;
    match next_player_result v with
    | Some u => emit (Turn u false)
    | None => raise AttributeError
    end
  else advance_turn e (author e).

(** The target, if still seated with a card, loses one; answers whether
    the game goes on. *)
Definition strike (e : env) (target : user) : M bool :=
  lose_influence_with_reveal target ;;
  r <- handle_player_elimination e target ;;
  let '(_, ended, _) := r in ret (negb ended).

Definition income (e : env) : M unit :=
  check validate_turn (author e) ;;
  check validate_action_allowed (author e) AIncome ;;
  add_coins (author e) 1 ;;
  advance_turn e (author e).

Definition foreign_aid (e : env) : M unit :=
  check validate_turn (author e) ;;
  check validate_action_allowed (author e) AForeignAid ;;
  then_advance e (
    r <- wait_for_reaction e [EBlock] (author e) (first_window e) ;;
    match r with
    | Some (EBlock, blocker) =>
        r2 <- wait_for_reaction e [EChallenge] blocker (second_window e) ;;
        match r2 with
        | Some (EChallenge, challenger) =>
            v <- handle_challenge e blocker challenger Duke ;;
            if game_ended v then ret false
            else if claim_legitimate v then ret true
            else add_coins (author e) 2 ;; ret true
        | _ => ret true
        end
    | _ => add_coins (author e) 2 ;; ret true
    end).

Definition coup (e : env) (target : user) : M unit :=
  check validate_turn (author e) ;;
  check validate_target target ;;
  check validate_self_target (author e) target ;;
  check validate_coins (author e) 7 ;;
  check target_in_game target ;;
  add_coins (author e) (-7) ;;
  then_advance e (
    td <- player_data target ;;
    if 0 <? length (cards td) then strike e target else ret true).

(** The effect of an assassination that goes through. *)
Definition assassinate_target (e : env) (target : user) : M bool :=
  st <- get ;;
  if is_player_alive st target then strike e target else ret true.

Definition assassinate (e : env) (target : user) : M unit :=
  check validate_turn (author e) ;;
  check validate_target target ;;
  check validate_self_target (author e) target ;;
  check validate_coins (author e) 3 ;;
  check validate_action_allowed (author e) AAssassinate ;;
  check target_in_game target ;;
  add_coins (author e) (-3) ;;
  then_advance e (
    r <- wait_for_reaction e [EChallenge; EBlock] (author e) (first_window e) ;;
    match r with
    | Some (EChallenge, reactor) =>
        v <- handle_challenge e (author e) reactor Assassin ;;
        if game_ended v then ret false
        else if claim_legitimate v then assassinate_target e target
        else bluff_exposed e v ;; ret false
    | Some (EBlock, reactor) =>
        r2 <- wait_for_reaction e [EChallenge] reactor (second_window e) ;;
        match r2 with
        | Some (EChallenge, challenger) =>
            v <- handle_challenge e reactor challenger Contessa ;;
            if game_ended v then ret false
            else if claim_legitimate v then ret true
            else assassinate_target e target
        | _ => ret true
        end
    | _ => assassinate_target e target
    end).

Definition tax (e : env) : M unit :=
  check validate_turn (author e) ;;
  check validate_action_allowed (author e) ATax ;;
  then_advance e (
    r <- wait_for_reaction e [EChallenge] (author e) (first_window e) ;;
    match r with
    | Some (EChallenge, challenger) =>
        v <- handle_challenge e (author e) challenger Duke ;;
        if game_ended v then ret false
        else if claim_legitimate v then add_coins (author e) 3 ;; ret true
        else bluff_exposed e v ;; ret false
    | _ => add_coins (author e) 3 ;; ret true
    end).

(** [if game_state['players'][target]["coins"] < 1: ... return] *)
Definition target_has_coins (target : user) : M bool :=
  td <- player_data target ;;
  if (coins td <? 1)%Z then send_error NoCoinsToSteal ;; ret false
  else ret true.

(** The transfer of a steal that goes through. *)
Definition steal_coins (e : env) (target : user) : M unit :=
  st <- get ;;
  if is_player_alive st target then
    td <- player_data target ;;
    let stolen_coins := Z.min 2 (coins td) in
    add_coins (author e) stolen_coins ;;
    add_coins target (- stolen_coins)
  else ret tt.

Definition steal (e : env) (target : user) : M unit :=
  check validate_turn (author e) ;;
  check validate_target target ;;
  check validate_self_target (author e) target ;;
  check validate_action_allowed (author e) ASteal ;;
  check target_in_game target ;;
  check target_has_coins target ;;
  then_advance e (
    r <- wait_for_reaction e [EBlock; EChallenge] (author e) (first_window e) ;;
    match r with
    | Some (EBlock, reactor) =>
        r2 <- wait_for_reaction e [EChallenge] reactor (second_window e) ;;
        match r2 with
        | Some (EChallenge, challenger) =>
            v <- handle_block_challenge e reactor challenger [Captain; Ambassador] ;;
            if game_ended v then ret false
            else if claim_legitimate v then ret true
            else steal_coins e target ;; ret true
        | _ => ret true
        end
    | Some (EChallenge, reactor) =>
        v <- handle_challenge e (author e) reactor Captain ;;
        if game_ended v then ret false
        else if claim_legitimate v then steal_coins e target ;; ret true
        else if is_author e (eliminated_player v) then
          modify (set_current_player (next_player_result v)) ;;
          enhanced_turn_announcement e (next_player_result v) false ;;
          ret false
        else ret true
    | _ => steal_coins e target ;; ret true
    end).

(** The selection loop of [exchange]: the author reacts with number
    emojis until [initial_card_count] distinct cards are chosen.  The
    wait has no timeout; reactions other than the four number emojis are
    not delivered; an index past the pool raises [IndexError]. *)
Inductive selection : Type :=
| Selected (selected_indices : list nat) (chosen_cards : list card)
| SelectionIndexError
| SelectionHang.

Fixpoint select_cards (reactions : list nat) (initial_card_count : nat)
    (all_cards : list card) (selected_indices : list nat) (chosen_cards : list card)
    : selection :=
  if initial_card_count <=? length chosen_cards
  then Selected selected_indices chosen_cards
  else match reactions with
       | [] => SelectionHang
       | card_index :: rest =>
           if 4 <=? card_index then
             select_cards rest initial_card_count all_cards selected_indices chosen_cards
           else if existsb (Nat.eqb card_index) selected_indices then
             select_cards rest initial_card_count all_cards selected_indices chosen_cards
           else match nth_error all_cards card_index with
                | None => SelectionIndexError
                | Some c =>
                    select_cards rest initial_card_count all_cards
                      (selected_indices ++ [card_index]) (chosen_cards ++ [c])
                end
       end.

(** [[card for i, card in enumerate(all_cards) if i not in selected_indices]] *)
Fixpoint unchosen_from (i : nat) (all_cards : list card) (selected_indices : list nat)
    : list card :=
  match all_cards with
  | [] => []
  | c :: t =>
      if existsb (Nat.eqb i) selected_indices
      then unchosen_from (S i) t selected_indices
      else c :: unchosen_from (S i) t selected_indices
  end.

(** [game_state['court_deck'].extend(cs)] *)
Definition extend_deck (cs : list card) : M unit :=
  modify (fun st => set_court_deck (court_deck st ++ cs) st).

(** [exchange] from "Draw 2 cards from the Court Deck" on. *)
Definition exchange_cards (e : env) (initial_card_count : nat) : M unit :=
  st <- get ;;
  if length (court_deck st) <? 2 then
    send_error DeckError ;; advance_turn e (author e)
  else
    c1 <- pop_deck ;; c2 <- pop_deck ;;
    d <- player_data (author e) ;;
    let all_cards := shuffle (rand_pool e) (cards d ++ [c1; c2]) in
    if negb (dm_exchange_ok e) then
      extend_deck [c1; c2] ;; advance_turn e (author e)
    else
      match select_cards (picks e) initial_card_count all_cards [] [] with
      | SelectionHang => hang
      | SelectionIndexError => raise IndexError
      | Selected selected_indices chosen_cards =>
          set_cards (author e) chosen_cards ;;
          extend_deck (unchosen_from 0 all_cards selected_indices) ;;
          advance_turn e (author e)
      end.

Definition exchange (e : env) : M unit :=
  check validate_turn (author e) ;;
  check validate_action_allowed (author e) AExchange ;;
  d0 <- player_data (author e) ;;
  let initial_card_count := length (cards d0) in
  r <- wait_for_reaction e [EChallenge] (author e) (first_window e) ;;
  proceeds <-
    match r with
    | Some (EChallenge, challenger) =>
        v <- handle_challenge e (author e) challenger Ambassador ;;
        if game_ended v then ret false
        else if negb (claim_legitimate v) then bluff_exposed e v ;; ret false
        else ret true
    | _ => ret true
    end ;;
  if proceeds then exchange_cards e initial_card_count else ret tt.

(** [for user in reactors: game_state['players'][user] = {"cards": [], "coins": 2}] *)
Definition seat_joiners (us : list user) (r : roster) : roster :=
  fold_left (fun acc u => assign acc u (mkP [] 2)) us r.

(** [for player in player_list: shuffled_players[player] = game_state['players'][player]] *)
Fixpoint reorder (old : roster) (player_list : list user) (acc : roster) : option roster :=
  match player_list with
  | [] => Some acc
  | p :: t => match lookup old p with
              | Some d => reorder old t (assign acc p d)
              | None => None
              end
  end.

(** [for player in failed_players: if player in game_state['players']: del ...] *)
Definition drop_players (failed : list user) (r : roster) : roster :=
  fold_left (fun acc p => if mem acc p then delete acc p else acc) failed r.

Definition start (e : env) : M unit :=
  if negb (has_perms e) then ret tt
  else
    st <- get ;;
    if game_started st then send_error GameAlreadyInProgress
    else
      modify (fun s => set_discarded_cards [] (set_court_deck fresh_deck (set_players [] s))) ;;
      shuffle_deck e ;;
      modify (fun s => set_players (seat_joiners (joiners e) (players s)) s) ;;
      st1 <- get ;;
      if length (players st1) <? 2 then send_error NotEnoughPlayers
      else
        modify (set_game_started true) ;;
        dealt <- deal_cards ;;
        if negb dealt then
          send_error DeckError ;; modify (set_game_started false)
        else
          st2 <- get ;;
          let player_list := shuffle (rand_order e) (keys (players st2)) in
          match reorder (players st2) player_list [], player_list with
          | None, _ => raise KeyError
          | Some _, [] => raise IndexError
          | Some shuffled_players, first :: _ =>
              modify (set_players shuffled_players) ;;
              modify (set_current_player (Some first)) ;;
              let failed_players :=
                filter (fun p => negb (dm_cards_ok e p)) (keys shuffled_players) in
              modify (fun s => set_players (drop_players failed_players (players s)) s) ;;
              st3 <- get ;;
              if length (players st3) <? 2 then
                send_error NotEnoughPlayers ;; modify (set_game_started false)
              else
                forced_coup <- check_forced_coup e first ;;
                if forced_coup then ret tt
                else enhanced_turn_announcement e (Some first) false
          end.

Definition end_ (e : env) : M unit :=
  st <- get ;;
  if negb (game_started st) then send_error NoGameInProgress
  else modify reset_table ;; shuffle_deck e.

(** ** Tables a guild can be in *)

Inductive command : Type :=
| CStart | CEnd | CIncome | CForeignAid | CCoup (target : user)
| CAssassinate (target : user) | CTax | CSteal (target : user) | CExchange.

Definition run (c : command) (e : env) : M unit :=
  match c with
  | CStart => start e
  | CEnd => end_ e
  | CIncome => income e
  | CForeignAid => foreign_aid e
  | CCoup t => coup e t
  | CAssassinate t => assassinate e t
  | CTax => tax e
  | CSteal t => steal e t
  | CExchange => exchange e
  end.

(** A handler that returned or raised leaves the table to the next
    command. *)
Definition completes {A} (r : res A) : bool :=
  match oc r with Hang => false | _ => true end.

Inductive reachable : table -> Prop :=
| reach_new rs : reachable (new_table rs)
| reach_run st c e :
    reachable st -> completes (run c e st) = true ->
    reachable (final (run c e st)).

(** ** Quantities and predicates the properties are stated with *)

(** [sum(len(p["cards"]) for p in players)] as in [debug_cards]. *)
Definition hand_total (r : roster) : nat :=
  list_sum (map (fun kv => length (cards (snd kv))) r).

(** The "Total" line of [debug_cards]. *)
Definition total (st : table) : nat :=
  length (court_deck st) + hand_total (players st) + length (discarded_cards st).

(** [len(alive_players)] in [check_win_condition]. *)
Definition alive_count (st : table) : nat :=
  length (filter (is_player_alive st) (keys (players st))).

(** The table after [game_state['players'][p]["coins"] += n]. *)
Definition with_coins (st : table) (p : user) (d : pdata) (n : Z) : table :=
  set_players (assign (players st) p (mkP (cards d) (coins d + n))) st.

(** A command turned down: the table is the one it found, the only
    announcement is the error. *)
Definition rejection (st : table) (r : reason) : res unit :=
  mkRes (Val tt) st [Err r].

(** [player == game_state['current_player']] *)
Definition is_turn (st : table) (p : user) : bool :=
  match current_player st with
  | Some cp => Nat.eqb p cp
  | None => false
  end.

(** The action descriptors of the specification: target and cost. *)
Definition target_of (c : command) : option user :=
  match c with
  | CCoup t | CAssassinate t | CSteal t => Some t
  | _ => None
  end.

Definition cost_of (c : command) : option Z :=
  match c with
  | CCoup _ => Some 7%Z
  | CAssassinate _ => Some 3%Z
  | _ => None
  end.

Definition is_action (c : command) : bool :=
  match c with CStart | CEnd => false | _ => true end.

Definition is_coup_command (c : command) : bool :=
  match c with CCoup _ => true | _ => false end.

(** The preconditions of the specification, each under the reason it is
    reported with: [violation st actor c r] says that the precondition
    named [r] fails for command [c] issued by [actor] on table [st]. *)
Definition violation (st : table) (actor : user) (c : command) (r : reason) : bool :=
  match r with
  | NotYourTurn => negb (is_turn st actor)
  | NotInGame =>
      match target_of c with
      | Some t => negb (mem (players st) t)
      | None => false
      end
  | TargetEliminated =>
      match target_of c with
      | Some t => mem (players st) t && negb (is_player_alive st t)
      | None => false
      end
  | CannotTargetYourself =>
      match target_of c with
      | Some t => Nat.eqb actor t
      | None => false
      end
  | InsufficientCoins =>
      match cost_of c, lookup (players st) actor with
      | Some n, Some d => (coins d <? n)%Z
      | _, _ => false
      end
  | MustCoup =>
      match lookup (players st) actor with
      | Some d => (10 <=? coins d)%Z && negb (is_coup_command c)
      | None => false
      end
  | _ => false
  end.

(** The target checks of a command pass: there is no target, or the
    target is seated, alive and not the actor. *)
Definition target_ok (st : table) (actor : user) (c : command) : bool :=
  match target_of c with
  | Some t => is_player_alive st t && negb (Nat.eqb actor t)
  | None => true
  end.

(** The table after [p], whose entry is [d], loses the last card [c] of
    a hand [rest ++ [c]] to the discard pile. *)
Definition after_loss (st : table) (p : user) (d : pdata) (c : card) (rest : list card)
    : table :=
  set_discarded_cards (discarded_cards st ++ [c])
    (set_players (assign (players st) p (mkP rest (coins d))) st).

(** A prompt was posted. *)
Definition is_prompt (ev : event) : bool :=
  match ev with Prompt _ _ _ => true | _ => false end.

(** What [handle_card_swap] leaves behind when the deck is not empty and
    the player holds the card. *)
Definition swapped (st : table) (p : user) (d : pdata) (card_name top : card)
    (below : list card) : table :=
  set_players
    (assign (assign (players st) p (mkP (remove_first card_name (cards d)) (coins d)))
            p (mkP (remove_first card_name (cards d) ++ [top]) (coins d)))
    (set_court_deck (card_name :: below) st).

(** [c] run on [st] returns a value, and value and table satisfy [Q]. *)
Definition returns {A} (c : M A) (st : table) (Q : A -> table -> Prop) : Prop :=
  match oc (c st) with
  | Val a => Q a (final (c st))
  | _ => False
  end.

(** Seat [j] of [l] holds a live player. *)
Definition live_seat (st : table) (l : list user) (j : nat) : Prop :=
  exists p, nth_error l j = Some p /\ is_player_alive st p = true.

(** [c] run on [st], if it returns a value, satisfies [Q]. *)
Definition ensures {A} (c : M A) (st : table) (Q : A -> table -> Prop) : Prop :=
  match oc (c st) with
  | Val a => Q a (final (c st))
  | _ => True
  end.

(** Which outcomes a relational statement speaks about: handlers that
    returned, handlers that raised when [x] is set, never those that hang. *)
Definition covers (x : bool) {A} (o : outcome A) : bool :=
  match o with
  | Val _ => true
  | Exn _ => x
  | Hang => false
  end.

(** [c] run on [st] relates [st] to the table it leaves. *)
Definition rel_at (x : bool) {A} (R : table -> table -> Prop) (c : M A) (st : table)
    : Prop :=
  covers x (oc (c st)) = true -> R st (final (c st)).

Definition rel (x : bool) {A} (R : table -> table -> Prop) (c : M A) : Prop :=
  forall st, rel_at x R c st.

(** No entry of the roster gained or lost coins: every player seated
    afterwards was seated before with the same balance (and the roster is
    still a dictionary). *)
Definition coins_kept (st st' : table) : Prop :=
  NoDup (keys (players st)) ->
  NoDup (keys (players st')) /\
  forall p d', lookup (players st') p = Some d' ->
    exists d, lookup (players st) p = Some d /\ coins d' = coins d.

(** Nobody left the table. *)
Definition seats_kept (st st' : table) : Prop :=
  forall q, mem (players st) q = true -> mem (players st') q = true.

(** Everybody but [loser] has the entry they had. *)
Definition others_untouched (loser : user) (st st' : table) : Prop :=
  forall q, q <> loser -> lookup (players st') q = lookup (players st) q.

(** Every seated player holds two cards and the two starting coins. *)
Definition dealt_two (r : roster) : Prop :=
  forall u d, lookup r u = Some d -> exists c1 c2, d = mkP [c1; c2] 2%Z.

(** Every seated player has just sat down. *)
Definition undealt (r : roster) : Prop :=
  forall u d, lookup r u = Some d -> d = mkP [] 2%Z.

(** The roster [start] builds from the members who reacted. *)
Definition seated_at_start (e : env) : roster := seat_joiners (joiners e) [].

(** [failed_players]: the seated players the cards could not be sent to. *)
Definition unreachable (e : env) (r : roster) : list user :=
  filter (fun p => negb (dm_cards_ok e p)) (keys r).

(** [start] from the shuffle of the seats on, with [dealt] the roster
    after the deal. *)
Definition start_after_deal (e : env) : M unit :=
  st2 <- get ;;
  let player_list := shuffle (rand_order e) (keys (players st2)) in
  match reorder (players st2) player_list [], player_list with
  | None, _ => raise KeyError
  | Some _, [] => raise IndexError
  | Some shuffled_players, first :: _ =>
      modify (set_players shuffled_players) ;;
      modify (set_current_player (Some first)) ;;
      let failed_players :=
        filter (fun p => negb (dm_cards_ok e p)) (keys shuffled_players) in
      modify (fun s => set_players (drop_players failed_players (players s)) s) ;;
      st3 <- get ;;
      if length (players st3) <? 2 then
        send_error NotEnoughPlayers ;; modify (set_game_started false)
      else
        forced_coup <- check_forced_coup e first ;;
        if forced_coup then ret tt
        else enhanced_turn_announcement e (Some first) false
  end.

(** The handler left the card count where it was. *)
Definition same_total (st st' : table) : Prop := total st' = total st.

(** The card count of the table: exactly fifteen ([strict]) or at most
    fifteen. *)
Definition bound (strict : bool) (st : table) : Prop :=
  if strict then total st = 15 else total st <= 15.

Definition keeps (strict : bool) (st st' : table) : Prop :=
  bound strict st -> bound strict st'.

(** Nobody seated has left the guild, and everybody can be sent direct
    messages. *)
Definition nobody_lost (e : env) : Prop :=
  (forall u, get_member e u = true) /\ (forall u, dm_cards_ok e u = true).

Definition clean (strict : bool) (e : env) : Prop :=
  strict = true -> nobody_lost e.

(** Tables reached through commands that all returned, with nobody
    leaving the guild and nobody out of reach of direct messages. *)
Inductive reachable_clean : table -> Prop :=
| clean_new rs : reachable_clean (new_table rs)
| clean_run st c e :
    reachable_clean st -> nobody_lost e -> oc (run c e st) = Val tt ->
    reachable_clean (final (run c e st)).

(** The runs of [steal] that reach the transfer: nobody responds; a block
    is challenged and defeated; a direct challenge is defeated.  [stc] is
    the table at that point and [tr] what was announced up to it. *)
Definition steal_goes_through (e : env) (st stc : table) (tr : list event) : Prop :=
  let first := find (eligible e st [EBlock; EChallenge] (author e)) (first_window e) in
  let p1 := Prompt [EBlock; EChallenge] (author e) st in
  (first = None /\ stc = st /\ tr = [p1])
  \/ (exists reactor challenger v tc,
        first = Some (EBlock, reactor) /\
        find (eligible e st [EChallenge] reactor) (second_window e)
          = Some (EChallenge, challenger) /\
        handle_block_challenge e reactor challenger [Captain; Ambassador] st
          = mkRes (Val v) stc tc /\
        game_ended v = false /\ claim_legitimate v = false /\
        tr = p1 :: Prompt [EChallenge] reactor st :: tc)
  \/ (exists reactor v tc,
        first = Some (EChallenge, reactor) /\
        handle_challenge e (author e) reactor Captain st = mkRes (Val v) stc tc /\
        game_ended v = false /\ claim_legitimate v = true /\
        tr = p1 :: tc).

(** *** Sample tables and environments *)

Definition quiet_env (a : user) : env :=
  mkEnv a (fun _ => true) (fun _ => false) [] [] true []
        (fun _ => true) true [] [] [] [].

(** Two players in mid-game, player 1 to move. *)
Definition duel : table :=
  mkTable [(1, mkP [Duke; Captain] 2%Z); (2, mkP [Contessa; Assassin] 2%Z)]
          [Assassin; Captain; Ambassador; Contessa; Duke; Contessa; Duke;
           Assassin; Ambassador; Captain; Ambassador]
          [] true (Some 1).

(** The same with player 1 holding ten coins. *)
Definition rich_duel : table :=
  mkTable [(1, mkP [Duke; Captain] 10%Z); (2, mkP [Contessa; Assassin] 2%Z)]
          [Assassin; Captain; Ambassador; Contessa; Duke; Contessa; Duke;
           Assassin; Ambassador; Captain; Ambassador]
          [] true (Some 1).


Definition block_env : env :=
  mkEnv 1 (fun _ => true) (fun _ => false) [(EBlock, 2)] [] true []
        (fun _ => true) true [] [] [] [].

(** The same with player 2 out of coins. *)
Definition poor_target : table :=
  mkTable [(1, mkP [Duke; Captain] 4%Z); (2, mkP [Contessa; Assassin] 0%Z)]
          [Assassin; Captain; Ambassador; Contessa; Duke; Contessa; Duke;
           Assassin; Ambassador; Captain; Ambassador]
          [] true (Some 1).

(** Mid-game: player 1 has lost a card, player 2 has left the guild
    since the last turn. *)
Definition late_duel : table :=
  mkTable [(1, mkP [Duke] 2%Z); (2, mkP [Contessa; Assassin] 2%Z)]
          [Assassin; Captain; Ambassador; Contessa; Duke; Contessa; Duke;
           Assassin; Ambassador; Captain; Ambassador]
          [Captain] true (Some 1).

Definition leave_env : env :=
  mkEnv 1 (fun u => negb (Nat.eqb u 2)) (fun _ => false) [] [] true []
        (fun _ => true) true [] [] [] [].

(** Three members join; member 2 cannot be sent direct messages. *)
Definition drop_env : env :=
  mkEnv 0 (fun _ => true) (fun _ => false) [] [] true [1; 2; 3]
        (fun u => negb (Nat.eqb u 2)) true [3; 1; 4; 1; 5; 9; 2; 6] [1; 0] [] [].

(** Three members join; member 2 cannot be sent direct messages, and the
    shuffle of the seats puts member 2 first. *)
Definition head_drop_env : env :=
  mkEnv 0 (fun _ => true) (fun _ => false) [] [] true [1; 2; 3]
        (fun u => negb (Nat.eqb u 2)) true [3; 1; 4; 1; 5; 9; 2; 6] [2; 0] [] [].

(** Three members join and all of them can be sent direct messages. *)
Definition join_env : env :=
  mkEnv 0 (fun _ => true) (fun _ => false) [] [] true [1; 2; 3]
        (fun _ => true) true [3; 1; 4; 1; 5; 9; 2; 6] [1; 0] [] [].

(** Player 3 issues a command after member 1 has left the guild. *)
Definition away_env : env :=
  mkEnv 3 (fun u => negb (Nat.eqb u 1)) (fun _ => false) [] [] true []
        (fun _ => true) true [] [] [] [].

(** ** Further quantities the properties of the engine are stated with *)

(** The hand of [p], empty for somebody not seated. *)
Definition hand_of (r : roster) (p : user) : list card :=
  match lookup r p with
  | Some d => cards d
  | None => []
  end.

(** The cards held around the table, seat by seat. *)
Definition hands (r : roster) : list card :=
  flat_map (fun kv => cards (snd kv)) r.

(** The table once [del game_state['players'][p]] has run. *)
Definition without (st : table) (p : user) : table :=
  set_players (delete (players st) p) st.

(** Two members seated, nothing dealt yet. *)
Definition lobby : table :=
  mkTable [(1, mkP [] 2%Z); (2, mkP [] 2%Z)] fresh_deck [] true None.

(** How many copies of [c] a pile holds. *)
Definition copies (c : card) (l : list card) : nat :=
  length (filter (card_eqb c) l).

(** What the three money-making commands pay when they go through. *)
Definition gain_of (c : command) : option Z :=
  match c with
  | CIncome => Some 1%Z
  | CForeignAid => Some 2%Z
  | CTax => Some 3%Z
  | _ => None
  end.

(** The reactions the first prompt of a command accepts. *)
Definition responses (c : command) : list emoji :=
  match c with
  | CForeignAid => [EBlock]
  | CTax => [EChallenge]
  | CAssassinate _ => [EChallenge; EBlock]
  | CSteal _ => [EBlock; EChallenge]
  | CExchange => [EChallenge]
  | _ => []
  end.

(** The first prompt of a command, for those that have one. *)
Definition opening_prompt (c : command) (a : user) (st : table) : list event :=
  match responses c with
  | [] => []
  | valid => [Prompt valid a st]
  end.

(** Players may have been taken off the roster, nobody still seated was
    touched; and unless the roster was wiped, deck and discard pile are
    the ones found. *)
Definition only_removals (st st' : table) : Prop :=
  NoDup (keys (players st)) ->
  NoDup (keys (players st')) /\
  (forall u d, lookup (players st') u = Some d -> lookup (players st) u = Some d) /\
  (players st' <> [] ->
   court_deck st' = court_deck st /\ discarded_cards st' = discarded_cards st).

(** Every seated player holds a card. *)
Definition all_alive (st : table) : Prop :=
  forall u, In u (keys (players st)) -> is_player_alive st u = true.

(** Three players in mid-game, player 1 to move. *)
Definition trio : table :=
  mkTable [(1, mkP [Duke; Captain] 7%Z); (2, mkP [Contessa; Assassin] 2%Z);
           (3, mkP [Ambassador] 2%Z)]
          [Assassin; Captain; Ambassador; Contessa; Duke; Contessa; Duke;
           Assassin; Ambassador]
          [Captain] true (Some 1).

(** Player 1 holds the Assassin and the three coins of an assassination. *)
Definition ambush : table :=
  mkTable [(1, mkP [Duke; Assassin] 3%Z); (2, mkP [Contessa; Captain] 2%Z);
           (3, mkP [Ambassador] 2%Z)]
          [Assassin; Captain; Ambassador; Contessa; Duke; Contessa; Duke;
           Assassin; Ambassador]
          [Captain] true (Some 1).

(** Player 2 challenges the first prompt of player 1's command. *)
Definition doubt_env : env :=
  mkEnv 1 (fun _ => true) (fun _ => false) [(EChallenge, 2)] [] true []
        (fun _ => true) true [] [] [] [].

(** Whose balance a command may change: its author's and, for a steal,
    the target's. *)
Definition parties (c : command) (e : env) : list user :=
  match c with
  | CSteal t => [author e; t]
  | _ => [author e]
  end.

(** Nobody has sat down, and only the balances of [who] may differ. *)
Definition ledger (who : list user) (st st' : table) : Prop :=
  NoDup (keys (players st)) ->
  NoDup (keys (players st')) /\
  forall p d', lookup (players st') p = Some d' ->
    exists d, lookup (players st) p = Some d /\ (In p who \/ coins d' = coins d).

(** Eight members react to the join message. *)
Definition crowd_env : env :=
  mkEnv 0 (fun _ => true) (fun _ => false) [] [] true [1; 2; 3; 4; 5; 6; 7; 8]
        (fun _ => true) true [3; 1; 4; 1; 5; 9; 2; 6] [1; 0] [] [].

(** The trio after player 3 has lost their last card. *)
Definition trio_after_loss : table :=
  mkTable [(1, mkP [Duke; Captain] 7%Z); (2, mkP [Contessa; Assassin] 2%Z);
           (3, mkP [] 2%Z)]
          [Assassin; Captain; Ambassador; Contessa; Duke; Contessa; Duke;
           Assassin; Ambassador]
          [Captain; Ambassador] true (Some 1).

(** Two players, player 2 has lost both cards. *)
Definition duel_after_loss : table :=
  mkTable [(1, mkP [Duke; Captain] 2%Z); (2, mkP [] 2%Z)]
          [Assassin; Captain; Ambassador; Contessa; Duke; Contessa; Duke;
           Assassin; Ambassador; Captain; Ambassador]
          [Assassin; Contessa] true (Some 1).

(** ** The polling loop of [wait_for_reaction]

    What the loop reads from outside: the reactions the action message
    shows each time it is fetched, and the [reaction_add] events the
    gateway delivers during each second of the countdown. *)

(** What [fetch_message] shows: the reactions on the message, in the
    order of the message, each with the users who gave it; [None] when
    the fetch fails. *)
Definition snapshot : Type := option (list (emoji * list user)).

(** One second of the countdown: the events of that second in order of
    arrival, each with whether it is on the action message, and what the
    message shows once the second has passed. *)
Record tick : Type := mkTick {
  arrivals : list (bool * emoji * user);
  shown_after : snapshot
}.

(** The conditions on the user in [check_existing_reactions];
    [processed_reactions] is empty whenever it is read, since the
    function returns as soon as it has added to it. *)
Definition user_counts (e : env) (st : table) (initiator : user) (u : user) : bool :=
  mem (players st) u && is_player_alive st u && negb (Nat.eqb u initiator)
  && negb (is_bot e u).

(** [async for user in reaction.users()] *)
Fixpoint first_user (e : env) (st : table) (initiator : user) (em : emoji)
    (us : list user) : option (emoji * user) :=
  match us with
  | [] => None
  | u :: t => if user_counts e st initiator u then Some (em, u)
              else first_user e st initiator em t
  end.

(** [for reaction in fresh_message.reactions] *)
Fixpoint scan_reactions (e : env) (st : table) (valid : list emoji) (initiator : user)
    (rs : list (emoji * list user)) : option (emoji * user) :=
  match rs with
  | [] => None
  | (em, us) :: t =>
      if existsb (emoji_eqb em) valid then
        match first_user e st initiator em us with
        | Some x => Some x
        | None => scan_reactions e st valid initiator t
        end
      else scan_reactions e st valid initiator t
  end.

Definition check_existing_reactions (e : env) (st : table) (valid : list emoji)
    (initiator : user) (s : snapshot) : option (emoji * user) :=
  match s with
  | None => None
  | Some rs => scan_reactions e st valid initiator rs
  end.

Definition check_new_reaction (e : env) (st : table) (valid : list emoji)
    (initiator : user) (ev : bool * emoji * user) : bool :=
  let '(on_message, em, u) := ev in
  mem (players st) u && is_player_alive st u && negb (Nat.eqb u initiator)
  && on_message && existsb (emoji_eqb em) valid && negb (is_bot e u).

(** [for i in range(timeout, -1, -1)], with [k] the seconds gone by:
    [bot.wait_for] hands over the first event of the second that passes
    the check, and on a timeout the message is fetched again. *)
Fixpoint countdown (e : env) (st : table) (valid : list emoji) (initiator : user)
    (ticks : nat -> tick) (rounds k : nat) : option (emoji * user) :=
  match rounds with
  | 0 => None
  | S r =>
      match find (check_new_reaction e st valid initiator) (arrivals (ticks k)) with
      | Some (_, em, u) => Some (em, u)
      | None =>
          match check_existing_reactions e st valid initiator (shown_after (ticks k)) with
          | Some x => Some x
          | None => countdown e st valid initiator ticks r (S k)
          end
      end
  end.

Definition wait_for_reaction_loop (e : env) (st : table) (valid : list emoji)
    (initiator : user) (timeout : nat) (first : snapshot) (ticks : nat -> tick)
    : option (emoji * user) :=
  match check_existing_reactions e st valid initiator first with
  | Some x => Some x
  | None => countdown e st valid initiator ticks (S timeout) 0
  end.

(** The reactions in the order the loop comes to look at them. *)
Definition shown_pairs (s : snapshot) : list (emoji * user) :=
  match s with
  | None => []
  | Some rs => concat (map (fun r => map (fun u => (fst r, u)) (snd r)) rs)
  end.

Definition arrived_pairs (evs : list (bool * emoji * user)) : list (emoji * user) :=
  map (fun ev => (snd (fst ev), snd ev)) (filter (fun ev => fst (fst ev)) evs).

Definition observed (timeout : nat) (first : snapshot) (ticks : nat -> tick)
    : list (emoji * user) :=
  shown_pairs first
  ++ concat (map (fun k => arrived_pairs (arrivals (ticks k))
                           ++ shown_pairs (shown_after (ticks k)))
                 (seq 0 (S timeout))).

(** The table an exchange leaves to [advance_turn]: the chosen cards in
    hand, the others at the end of what was left of the deck. *)
Definition exchanged (st : table) (a : user) (d : pdata) (below : list card)
    (chosen returned : list card) : table :=
  set_court_deck (below ++ returned)
    (set_players (assign (players st) a (mkP chosen (coins d))) st).

(** Player 1 exchanges and keeps options 1 and 3. *)
Definition pick_env : env :=
  mkEnv 1 (fun _ => true) (fun _ => false) [] [] true []
        (fun _ => true) true [] [] [2; 0; 1] [0; 0; 2].

(** The roster is a dictionary, and every seated player has a balance
    that is not negative and a hand of at most two cards. *)
Definition well_kept (st : table) : Prop :=
  NoDup (keys (players st)) /\
  forall u d, lookup (players st) u = Some d ->
              (0 <= coins d)%Z /\ length (cards d) <= 2.

Definition stays_well_kept (st st' : table) : Prop :=
  well_kept st -> well_kept st'.

(** ** Sending messages

    Times are seconds, as rationals. *)

From Stdlib Require Import QArith Lqa.
Close Scope Q_scope.

(** What one attempt to send a message does: it is delivered, or it
    raises [discord.Forbidden], an [HTTPException] with status 429 that
    carries [retry_after], another [HTTPException], or an exception of
    another kind. *)
Inductive attempt : Type :=
| Delivered
| Forbidden
| RateLimited (retry_after : Q)
| HttpError
| OtherError.

(** The [error_reason] of [safe_send_dm]. *)
Inductive dm_failure : Type :=
| DmsDisabled | DiscordApiError | UnexpectedError | FailedAfterRetries.

(** What [safe_send_dm] returns ([dm_result] is [None] for
    [(True, None)]), how many times it called [user.send] and the pauses
    it made. *)
Record dm_report : Type := mkDm {
  dm_result : option dm_failure;
  dm_attempts : nat;
  dm_sleeps : list Q
}.

Definition after_pause (pause : Q) (r : dm_report) : dm_report :=
  mkDm (dm_result r) (S (dm_attempts r)) (pause :: dm_sleeps r).

(** The [for attempt in range(max_retries)] loop of [safe_send_dm], from
    [attempt] on with [todo] rounds to go; [send k] is what the call of
    [user.send] in round [k] does. *)
Fixpoint safe_send_dm_from (send : nat -> attempt) (max_retries attempt todo : nat)
    (retry_delay : Q) : dm_report :=
  match todo with
  | 0 => mkDm (Some FailedAfterRetries) 0 []
  | S todo' =>
      match send attempt with
      | Delivered => mkDm None 1 []
      | Forbidden => mkDm (Some DmsDisabled) 1 []
      | RateLimited retry_after =>
          after_pause retry_after
            (safe_send_dm_from send max_retries (S attempt) todo' retry_delay)
      | HttpError =>
          if attempt <? max_retries - 1 then
            after_pause retry_delay
              (safe_send_dm_from send max_retries (S attempt) todo' (retry_delay * 2)%Q)
          else mkDm (Some DiscordApiError) 1 []
      | OtherError =>
          if attempt <? max_retries - 1 then
            after_pause retry_delay
              (safe_send_dm_from send max_retries (S attempt) todo' retry_delay)
          else mkDm (Some UnexpectedError) 1 []
      end
  end.

Definition safe_send_dm (send : nat -> attempt) : dm_report :=
  safe_send_dm_from send 3 0 3 1%Q.

(** [safe_send_with_retry]: the message was sent, the exception of the
    last attempt was raised again, or the loop ran out and the function
    returned [None]. *)
Inductive send_outcome : Type :=
| Sent
| Reraised (a : attempt)
| ReturnedNone.

Record send_report : Type := mkSend {
  send_result : send_outcome;
  send_attempts : nat;
  send_sleeps : list Q
}.

Fixpoint safe_send_with_retry_from (send : nat -> attempt) (max_retries attempt todo : nat)
    : send_report :=
  match todo with
  | 0 => mkSend ReturnedNone 0 []
  | S todo' =>
      match send attempt with
      | Delivered => mkSend Sent 1 []
      | RateLimited retry_after =>
          if attempt =? max_retries - 1 then
            mkSend (Reraised (RateLimited retry_after)) 1 [retry_after]
          else
            let r := safe_send_with_retry_from send max_retries (S attempt) todo' in
            mkSend (send_result r) (S (send_attempts r)) (retry_after :: send_sleeps r)
      | a => mkSend (Reraised a) 1 []
      end
  end.

Definition safe_send_with_retry (send : nat -> attempt) (max_retries : nat) : send_report :=
  safe_send_with_retry_from send max_retries 0 max_retries.

(** [isinstance(e, discord.HTTPException)] for what an attempt raised. *)
Definition is_http (a : attempt) : bool :=
  match a with
  | Forbidden | RateLimited _ | HttpError => true
  | Delivered | OtherError => false
  end.

(** What [send_embed] does: the embed went out, the plain-text fallback
    went out, [None] was returned, or an exception that is not an
    [HTTPException] got through. *)
Inductive embed_outcome : Type :=
| EmbedSent | FallbackSent | NothingSent | Escaped (a : attempt).

(** [send_embed], with the attempts on the embed and those on the
    fallback text. *)
Definition send_embed (send_e send_t : nat -> attempt) : embed_outcome * nat :=
  let r := safe_send_with_retry send_e 3 in
  match send_result r with
  | Sent => (EmbedSent, send_attempts r)
  | ReturnedNone => (NothingSent, send_attempts r)
  | Reraised a =>
      if is_http a then
        let r2 := safe_send_with_retry send_t 3 in
        (match send_result r2 with
         | Sent => FallbackSent
         | ReturnedNone => NothingSent
         | Reraised a2 => if is_http a2 then NothingSent else Escaped a2
         end, send_attempts r + send_attempts r2)
      else (Escaped a, send_attempts r)
  end.

(** *** The hands sent at the start of a game *)

(** What a call of [send_function] does in [safe_send_multiple_dms]. *)
Inductive call_result : Type := ReturnedTrue | ReturnedFalse | RaisedError.

(** [safe_send_multiple_dms]: the players the send failed for. *)
Fixpoint safe_send_multiple_dms (players : list user) (send_function : user -> call_result)
    : list user :=
  match players with
  | [] => []
  | player :: rest =>
      match send_function player with
      | ReturnedTrue => safe_send_multiple_dms rest send_function
      | ReturnedFalse | RaisedError => player :: safe_send_multiple_dms rest send_function
      end
  end.

(** [send_player_cards] either raises after the header could not be
    sent, or goes through header, one message a card and the footer and
    returns; [undelivered] lists the later messages that failed (1 for
    the first card, and so on, the footer last). *)
Inductive cards_sent : Type :=
| HeaderFailed (why : dm_failure)
| CardsSent (undelivered : list nat).

(** [net m] is what the attempts to send the [m]-th message of the hand
    do; message 0 is the header. *)
Definition send_player_cards (net : nat -> nat -> attempt) (cards : list card) : cards_sent :=
  match dm_result (safe_send_dm (net 0)) with
  | Some why => HeaderFailed why
  | None =>
      CardsSent
        (filter (fun m => match dm_result (safe_send_dm (net m)) with
                          | Some _ => true
                          | None => false
                          end)
                (seq 1 (length cards + 1)))
  end.

(** [send_cards_to_player] of [start]: [True], or [False] on
    [discord.Forbidden].  [send_player_cards] raises with
    [discord.Forbidden(message)]; should that constructor refuse its
    single argument ([forbidden_ok] unset), the [TypeError] goes through
    to [safe_send_multiple_dms]. *)
Definition send_cards_to_player (forbidden_ok : bool) (net : user -> nat -> nat -> attempt)
    (r : roster) (player : user) : call_result :=
  match send_player_cards (net player) (hand_of r player) with
  | CardsSent _ => ReturnedTrue
  | HeaderFailed _ => if forbidden_ok then ReturnedFalse else RaisedError
  end.

(** The header of the hand gets through within the three attempts. *)
Definition header_delivered (net : user -> nat -> nat -> attempt) (p : user) : bool :=
  match dm_result (safe_send_dm (net p 0)) with
  | None => true
  | Some _ => false
  end.


Definition is_rate_limited (a : attempt) : bool :=
  match a with RateLimited _ => true | _ => false end.

(** ** Clean-up of inactive games *)

(** A guild's entry of [games]: the table and the two time stamps. *)
Record guild_game : Type := mkGame {
  state : table;
  last_activity : Q;
  created_at : Q
}.

(** [games]: a dictionary from guild ids. *)
Definition games := list (nat * guild_game).

Inductive cleanup_reason : Type := NeverStarted | InactiveGame | InactiveLobby.

Definition inactive_threshold : Q := (2 * 60 * 60)%Q.
Definition abandoned_threshold : Q := (24 * 60 * 60)%Q.

(** [x > y] *)
Definition Qgtb (x y : Q) : bool := negb (Qle_bool x y).

(** The three tests of [cleanup_inactive_games] on one game. *)
Definition should_remove (current_time : Q) (g : guild_game) : option cleanup_reason :=
  let time_since_activity := (current_time - last_activity g)%Q in
  let time_since_creation := (current_time - created_at g)%Q in
  if negb (game_started (state g)) && Qgtb time_since_creation abandoned_threshold
  then Some NeverStarted
  else if game_started (state g) && Qgtb time_since_activity inactive_threshold
  then Some InactiveGame
  else if negb (game_started (state g)) && Qgtb time_since_activity inactive_threshold
  then Some InactiveLobby
  else None.

Fixpoint to_remove (current_time : Q) (gs : games) : list (nat * cleanup_reason) :=
  match gs with
  | [] => []
  | (guild_id, g) :: t =>
      match should_remove current_time g with
      | Some reason => (guild_id, reason) :: to_remove current_time t
      | None => to_remove current_time t
      end
  end.

(** [del games[guild_id]] *)
Fixpoint del_game (gs : games) (guild_id : nat) : games :=
  match gs with
  | [] => []
  | (k, g) :: t => if Nat.eqb k guild_id then t else (k, g) :: del_game t guild_id
  end.

Definition cleanup_inactive_games (current_time : Q) (gs : games) : games :=
  fold_left (fun acc kr => del_game acc (fst kr)) (to_remove current_time gs) gs.

(** The two numbers [force_cleanup] reports: removed and remaining. *)
Definition force_cleanup (current_time : Q) (gs : games) : nat * nat :=
  let after := cleanup_inactive_games current_time gs in
  (length gs - length after, length after).

(** [get_game_state] on a guild that has an entry: the entry is touched. *)
Definition touch (current_time : Q) (g : guild_game) : guild_game :=
  mkGame (state g) current_time (created_at g).

(** The game survives a clean-up. *)
Definition survives (current_time : Q) (kv : nat * guild_game) : bool :=
  match should_remove current_time (snd kv) with
  | None => true
  | Some _ => false
  end.

(** ** The [table] command *)

Inductive seat_status : Type := CurrentTurn | Eliminated | Waiting.

Inductive action_hint : Type :=
| MustCoupHint | CanCoupHint | CanAssassinateHint | SeeActionsHint.

(** What the embed of [table] shows. *)
Record table_view : Type := mkView {
  ordered_players : list user;
  rows : list (user * seat_status * Z * nat);
  alive_shown : nat;
  turn_shown : option (user * bool);
  discard_shown : list (card * nat);
  deck_shown : nat;
  deck_running_low : bool;
  hint_shown : option action_hint;
  next_turn_shown : option user
}.

(** A read-only command answers, refuses with an error message, or
    raises. *)
Inductive shown (A : Type) : Type :=
| Shown (a : A)
| Refused
| Crashed (e : exn).
Arguments Refused {A}.
Arguments Crashed {A} e.

(** [l[i:] + l[:i]] *)
Definition rotate {A} (i : nat) (l : list A) : list A := skipn i l ++ firstn i l.

(** [game_state['players'][p]['coins']], for [p] a key. *)
Definition coins_of (r : roster) (p : user) : Z :=
  match lookup r p with
  | Some d => coins d
  | None => 0%Z
  end.

Definition seat_row (st : table) (p : user) : user * seat_status * Z * nat :=
  (p,
   match current_player st with
   | Some cp =>
       if Nat.eqb p cp then CurrentTurn
       else if negb (is_player_alive st p) then Eliminated else Waiting
   | None => if negb (is_player_alive st p) then Eliminated else Waiting
   end,
   coins_of (players st) p,
   length (hand_of (players st) p)).

(** [sorted(card_counts.items())]: the cards discarded, by name, each
    with its count. *)
Definition count_discards (discards : list card) : list (card * nat) :=
  filter (fun cn => 0 <? snd cn)
         (map (fun c => (c, copies c discards))
              [Ambassador; Assassin; Captain; Contessa; Duke]).

Definition hint_for (balance : Z) : action_hint :=
  if (10 <=? balance)%Z then MustCoupHint
  else if (7 <=? balance)%Z then CanCoupHint
  else if (3 <=? balance)%Z then CanAssassinateHint
  else SeeActionsHint.

Definition table_cmd (st : table) : shown table_view :=
  match players st with
  | [] => Refused
  | _ :: _ =>
      let player_list := keys (players st) in
      let ordered :=
        match current_player st with
        | Some cp =>
            match index_of cp player_list with
            | Some current_index => Some (rotate current_index player_list)
            | None => None
            end
        | None => Some player_list
        end in
      match ordered with
      | None => Crashed ValueError
      | Some ordered_players =>
          Shown
            (mkView
               ordered_players
               (map (seat_row st) ordered_players)
               (length (filter (is_player_alive st) ordered_players))
               (match current_player st with
                | Some cp => Some (cp, (10 <=? coins_of (players st) cp)%Z)
                | None => None
                end)
               (count_discards (discarded_cards st))
               (length (court_deck st))
               (length (court_deck st) <=? 5)
               (match current_player st with
                | Some cp =>
                    if is_player_alive st cp
                    then Some (hint_for (coins_of (players st) cp))
                    else None
                | None => None
                end)
               (match ordered_players with
                | _ :: next_player :: _ =>
                    if is_player_alive st next_player then Some next_player else None
                | _ => None
                end))
      end
  end.

(** ** The [debug_cards] command *)



(** Three guilds: a game played a minute ago, a lobby opened two days
    ago, a game left alone for three hours. *)
Definition sample_games : games :=
  [(10, mkGame duel 940%Q 0%Q);
   (20, mkGame (new_table []) (-100)%Q (-172000)%Q);
   (30, mkGame trio (-9800)%Q (-20000)%Q)].

(** * Properties *)

Unset Implicit Arguments.

(** ** Lists and dictionaries *)

Lemma card_eqb_spec a b : reflect (a = b) (card_eqb a b).
Proof. destruct a, b; simpl; constructor; congruence. Qed.

Lemma card_in_In c l : card_in c l = true <-> In c l.
Proof.
  unfold card_in. rewrite existsb_exists. split.
  - intros (x & Hx & E). destruct (card_eqb_spec c x); congruence.
  - intros H. exists c. split; auto. destruct (card_eqb_spec c c); congruence.
Qed.

Lemma pop_nil {A} : @pop A [] = None.
Proof. reflexivity. Qed.

Lemma pop_snoc {A} (l : list A) x : pop (l ++ [x]) = Some (x, l).
Proof. unfold pop. rewrite rev_app_distr. simpl. now rewrite rev_involutive. Qed.

Lemma pop_Some {A} (l l' : list A) x : pop l = Some (x, l') <-> l = l' ++ [x].
Proof.
  split.
  - unfold pop. destruct (rev l) eqn:E; [discriminate|].
    intros H. injection H as <- <-.
    rewrite <- (rev_involutive l), E. reflexivity.
  - intros ->. apply pop_snoc.
Qed.

Lemma pop_None {A} (l : list A) : pop l = None <-> l = [].
Proof.
  unfold pop. split.
  - destruct (rev l) eqn:E; [|discriminate]. intros _.
    rewrite <- (rev_involutive l), E. reflexivity.
  - intros ->. reflexivity.
Qed.

Lemma pop_length {A} {l l' : list A} {x} : pop l = Some (x, l') -> length l = S (length l').
Proof. intros H%pop_Some. subst. rewrite length_app. simpl. lia. Qed.

Lemma remove_first_length c l :
  card_in c l = true -> S (length (remove_first c l)) = length l.
Proof.
  induction l as [|x t IH]; simpl; [discriminate|].
  destruct (card_eqb_spec c x) as [->|N]; simpl.
  - destruct (card_eqb_spec x x); [reflexivity|congruence].
  - intros H. destruct (card_eqb_spec x c); [congruence|]. simpl. now rewrite IH.
Qed.

Lemma remove_first_perm c l :
  card_in c l = true -> Permutation l (c :: remove_first c l).
Proof.
  induction l as [|x t IH]; simpl; [discriminate|].
  destruct (card_eqb_spec c x) as [->|N]; simpl.
  - destruct (card_eqb_spec x x); [reflexivity|congruence].
  - intros H. destruct (card_eqb_spec x c); [congruence|].
    rewrite perm_swap. constructor. now apply IH.
Qed.

Lemma lookup_assign_same r u d : lookup (assign r u d) u = Some d.
Proof.
  induction r as [|[k v] t IH]; simpl.
  - now rewrite Nat.eqb_refl.
  - destruct (Nat.eqb_spec k u); simpl.
    + subst. now rewrite Nat.eqb_refl.
    + destruct (Nat.eqb_spec k u); [contradiction|]. exact IH.
Qed.

Lemma lookup_assign_other r u v d : u <> v -> lookup (assign r u d) v = lookup r v.
Proof.
  intros N. induction r as [|[k w] t IH]; simpl.
  - destruct (Nat.eqb_spec u v); [contradiction|reflexivity].
  - destruct (Nat.eqb_spec k u); simpl.
    + subst. destruct (Nat.eqb_spec u v); [contradiction|reflexivity].
    + destruct (Nat.eqb_spec k v); [reflexivity|exact IH].
Qed.

Lemma lookup_delete_other r u v : u <> v -> lookup (delete r u) v = lookup r v.
Proof.
  intros N. induction r as [|[k w] t IH]; simpl; [reflexivity|].
  destruct (Nat.eqb_spec k u); simpl.
  - subst. destruct (Nat.eqb_spec u v); [contradiction|reflexivity].
  - destruct (Nat.eqb_spec k v); [reflexivity|exact IH].
Qed.

Lemma keys_assign_present r u d :
  mem r u = true -> keys (assign r u d) = keys r.
Proof.
  unfold mem. induction r as [|[k w] t IH]; simpl; [discriminate|].
  destruct (Nat.eqb_spec k u); simpl; [reflexivity|].
  intros H. now rewrite IH.
Qed.

Lemma mem_lookup r u : mem r u = true <-> exists d, lookup r u = Some d.
Proof.
  unfold mem. destruct (lookup r u); split; eauto; try discriminate.
  intros (d & H). discriminate.
Qed.

Lemma mem_keys r u : mem r u = true <-> In u (keys r).
Proof.
  unfold mem. induction r as [|[k w] t IH]; simpl.
  - split; [discriminate|tauto].
  - destruct (Nat.eqb_spec k u).
    + split; auto.
    + rewrite IH. split; auto. intros [E|H]; [contradiction|exact H].
Qed.

Lemma hand_total_assign r u old d :
  lookup r u = Some old ->
  hand_total (assign r u d) + length (cards old) = hand_total r + length (cards d).
Proof.
  unfold hand_total. induction r as [|[k w] t IH]; simpl; [discriminate|].
  destruct (Nat.eqb_spec k u); simpl.
  - intros H. injection H as ->. lia.
  - intros H. specialize (IH H). lia.
Qed.

Lemma hand_total_delete r u old :
  lookup r u = Some old ->
  hand_total (delete r u) + length (cards old) = hand_total r.
Proof.
  unfold hand_total. induction r as [|[k w] t IH]; simpl; [discriminate|].
  destruct (Nat.eqb_spec k u); simpl.
  - intros H. injection H as ->. lia.
  - intros H. specialize (IH H). lia.
Qed.

(** ** The monad *)

Lemma res_eta {A} (r : res A) : mkRes (oc r) (final r) (trace r) = r.
Proof. now destruct r. Qed.

Lemma bind_val {A B} {c : M A} (k : A -> M B) {st a st1 t1} :
  c st = mkRes (Val a) st1 t1 ->
  bind c k st = mkRes (oc (k a st1)) (final (k a st1)) (t1 ++ trace (k a st1)).
Proof. intros H. unfold bind. now rewrite H. Qed.

Lemma bind_pure {A B} {c : M A} (k : A -> M B) {st a} :
  c st = mkRes (Val a) st [] -> bind c k st = k a st.
Proof. intros H. rewrite (bind_val _ H). simpl. apply res_eta. Qed.

Lemma bind_exn {A B} {c : M A} (k : A -> M B) {st e st1 t1} :
  c st = mkRes (Exn e) st1 t1 -> bind c k st = mkRes (Exn e) st1 t1.
Proof. intros H. unfold bind. now rewrite H. Qed.

Lemma bind_hang {A B} {c : M A} (k : A -> M B) {st st1 t1} :
  c st = mkRes Hang st1 t1 -> bind c k st = mkRes Hang st1 t1.
Proof. intros H. unfold bind. now rewrite H. Qed.

Lemma bind_get {B} (k : table -> M B) st : bind get k st = k st st.
Proof. now apply bind_pure. Qed.

Lemma bind_ret {A B} (a : A) (k : A -> M B) st : bind (ret a) k st = k a st.
Proof. now apply bind_pure. Qed.

Lemma bind_modify {B} f (k : unit -> M B) st : bind (modify f) k st = k tt (f st).
Proof.
  unfold bind, modify. simpl. apply res_eta.
Qed.

Lemma bind_emit {B} ev (k : unit -> M B) st :
  bind (emit ev) k st = mkRes (oc (k tt st)) (final (k tt st)) (ev :: trace (k tt st)).
Proof. reflexivity. Qed.

Lemma bind_assoc {A B C} (c : M A) (k : A -> M B) (h : B -> M C) st :
  bind (bind c k) h st = bind c (fun a => bind (k a) h) st.
Proof.
  unfold bind. destruct (c st) as [[a| |] st1 t1]; simpl; try reflexivity.
  destruct (k a st1) as [[b| |] st2 t2]; simpl; try reflexivity.
  now rewrite app_assoc.
Qed.

Lemma player_data_found {p st d} :
  lookup (players st) p = Some d -> player_data p st = mkRes (Val d) st [].
Proof. intros H. unfold player_data. now rewrite H. Qed.

Lemma player_data_missing {p st} :
  lookup (players st) p = None -> player_data p st = mkRes (Exn KeyError) st [].
Proof. intros H. unfold player_data. now rewrite H. Qed.

Lemma add_coins_found p n st d :
  lookup (players st) p = Some d ->
  add_coins p n st = mkRes (Val tt) (with_coins st p d n) [].
Proof.
  intros H. unfold add_coins. rewrite (bind_pure _ (player_data_found H)).
  reflexivity.
Qed.

(** ** Validation: what each check does to the rest of a command *)

Lemma checked_turn p k st :
  checked (validate_turn p) k st =
  if is_turn st p then k st else rejection st NotYourTurn.
Proof.
  unfold checked, validate_turn, is_turn. rewrite bind_assoc, bind_get.
  destruct (current_player st) as [cp|]; [destruct (Nat.eqb p cp)|];
    try (now rewrite bind_ret); reflexivity.
Qed.

Lemma checked_target t k st :
  checked (validate_target t) k st =
  if negb (mem (players st) t) then rejection st NotInGame
  else if negb (is_player_alive st t) then rejection st TargetEliminated
  else k st.
Proof.
  unfold checked, validate_target. rewrite bind_assoc, bind_get.
  destruct (mem (players st) t); simpl; [|reflexivity].
  destruct (is_player_alive st t); simpl; [now rewrite bind_ret|reflexivity].
Qed.

Lemma checked_self p t k st :
  checked (validate_self_target p t) k st =
  if Nat.eqb p t then rejection st CannotTargetYourself else k st.
Proof.
  unfold checked, validate_self_target.
  destruct (Nat.eqb p t); [reflexivity|now rewrite bind_ret].
Qed.

Lemma checked_coins p n k st :
  checked (validate_coins p n) k st =
  match lookup (players st) p with
  | None => mkRes (Exn KeyError) st []
  | Some d => if (coins d <? n)%Z then rejection st InsufficientCoins else k st
  end.
Proof.
  unfold checked, validate_coins. rewrite bind_assoc.
  destruct (lookup (players st) p) as [d|] eqn:E.
  - rewrite (bind_pure _ (player_data_found E)).
    destruct (coins d <? n)%Z; [reflexivity|now rewrite bind_ret].
  - now rewrite (bind_exn _ (player_data_missing E)).
Qed.

Lemma checked_allowed p a k st :
  checked (validate_action_allowed p a) k st =
  match lookup (players st) p with
  | None => mkRes (Exn KeyError) st []
  | Some d => if (10 <=? coins d)%Z && negb (is_coup a)
              then rejection st MustCoup else k st
  end.
Proof.
  unfold checked, validate_action_allowed. rewrite bind_assoc.
  destruct (lookup (players st) p) as [d|] eqn:E.
  - rewrite (bind_pure _ (player_data_found E)).
    destruct ((10 <=? coins d)%Z && negb (is_coup a)); [reflexivity|now rewrite bind_ret].
  - now rewrite (bind_exn _ (player_data_missing E)).
Qed.

Lemma checked_in_game t k st :
  checked (target_in_game t) k st =
  if negb (mem (players st) t) then rejection st InvalidTarget else k st.
Proof.
  unfold checked, target_in_game. rewrite bind_assoc, bind_get.
  destruct (mem (players st) t); simpl; [now rewrite bind_ret|reflexivity].
Qed.

Lemma checked_has_coins t k st :
  checked (target_has_coins t) k st =
  match lookup (players st) t with
  | None => mkRes (Exn KeyError) st []
  | Some d => if (coins d <? 1)%Z then rejection st NoCoinsToSteal else k st
  end.
Proof.
  unfold checked, target_has_coins. rewrite bind_assoc.
  destruct (lookup (players st) t) as [d|] eqn:E.
  - rewrite (bind_pure _ (player_data_found E)).
    destruct (coins d <? 1)%Z; [reflexivity|now rewrite bind_ret].
  - now rewrite (bind_exn _ (player_data_missing E)).
Qed.

Lemma alive_mem st p : is_player_alive st p = true -> mem (players st) p = true.
Proof. unfold is_player_alive, mem. now destruct (lookup (players st) p). Qed.

(** ** Validation precedes mutation *)

(** Rewrites the chain of checks a command opens with into nested
    conditionals. *)
Ltac open_checks :=
  repeat first
    [ rewrite checked_turn | rewrite checked_target | rewrite checked_self
    | rewrite checked_coins | rewrite checked_allowed | rewrite checked_in_game
    | rewrite checked_has_coins ].

Ltac no_violation Hr :=
  exfalso;
  match type of Hr with
  | violation _ _ _ ?r = true =>
      destruct r; unfold violation in Hr;
      cbn [target_of cost_of is_coup_command is_coup] in Hr;
      repeat match goal with
             | H : _ = _ |- _ => tryif constr_eq H Hr then fail else rewrite H in Hr
             end;
      cbn [negb andb] in Hr; try discriminate
  end.

Lemma rejection_retry c e st r :
  run c e st = rejection st r -> run c e (final (run c e st)) = run c e st.
Proof. intros H. rewrite H. simpl. exact H. Qed.

(** C9.  Whenever a precondition of an action command fails (not the
    actor's turn, target not in the game, target eliminated, self-target,
    fewer coins than the cost, ten or more coins on a command other than
    coup), the command answers with the error naming a failed
    precondition and leaves the table (coins, hands, deck, discard pile,
    current player) exactly as it was; issuing it again does the same. *)
Theorem validation_rejects_before_mutation (c : command) (e : env) (st : table) :
  is_action c = true ->
  (exists r, violation st (author e) c r = true) ->
  exists r, violation st (author e) c r = true /\
            run c e st = rejection st r /\
            run c e (final (run c e st)) = run c e st.
Proof.
  intros Ha (r0 & Hr).
  assert (G : exists r, violation st (author e) c r = true /\ run c e st = rejection st r).
  2: { destruct G as (r & Hv & Hrun). exists r. repeat split; auto.
       now apply rejection_retry with r. }
  destruct c; try discriminate; clear Ha; simpl run;
    unfold income, foreign_aid, coup, assassinate, tax, steal, exchange;
    open_checks;
    (destruct (is_turn st (author e)) eqn:Ht;
       [| exists NotYourTurn; split; [simpl; now rewrite Ht | reflexivity]]).
  - (* income *)
    destruct (lookup (players st) (author e)) as [d|] eqn:El.
    + destruct (10 <=? coins d)%Z eqn:Ec; simpl.
      * exists MustCoup. split; [simpl; now rewrite El, Ec | reflexivity].
      * no_violation Hr.
    + no_violation Hr.
  - (* foreign_aid *)
    destruct (lookup (players st) (author e)) as [d|] eqn:El.
    + destruct (10 <=? coins d)%Z eqn:Ec; simpl.
      * exists MustCoup. split; [simpl; now rewrite El, Ec | reflexivity].
      * no_violation Hr.
    + no_violation Hr.
  - (* coup *)
    destruct (mem (players st) target) eqn:Em; simpl.
    2: { exists NotInGame. split; [simpl; now rewrite Em | reflexivity]. }
    destruct (is_player_alive st target) eqn:Eal; simpl.
    2: { exists TargetEliminated. split; [simpl; now rewrite Em, Eal | reflexivity]. }
    destruct (Nat.eqb (author e) target) eqn:Es.
    { exists CannotTargetYourself. split; [simpl; now rewrite Es | reflexivity]. }
    destruct (lookup (players st) (author e)) as [d|] eqn:El.
    + destruct (coins d <? 7)%Z eqn:Ec.
      * exists InsufficientCoins. split; [simpl; now rewrite El, Ec | reflexivity].
      * no_violation Hr. now rewrite andb_false_r in Hr.
    + no_violation Hr.
  - (* assassinate *)
    destruct (mem (players st) target) eqn:Em; simpl.
    2: { exists NotInGame. split; [simpl; now rewrite Em | reflexivity]. }
    destruct (is_player_alive st target) eqn:Eal; simpl.
    2: { exists TargetEliminated. split; [simpl; now rewrite Em, Eal | reflexivity]. }
    destruct (Nat.eqb (author e) target) eqn:Es.
    { exists CannotTargetYourself. split; [simpl; now rewrite Es | reflexivity]. }
    destruct (lookup (players st) (author e)) as [d|] eqn:El.
    + destruct (coins d <? 3)%Z eqn:Ec.
      * exists InsufficientCoins. split; [simpl; now rewrite El, Ec | reflexivity].
      * destruct (10 <=? coins d)%Z eqn:Ef; simpl.
        -- exists MustCoup. split; [simpl; now rewrite El, Ef | reflexivity].
        -- no_violation Hr.
    + no_violation Hr.
  - (* tax *)
    destruct (lookup (players st) (author e)) as [d|] eqn:El.
    + destruct (10 <=? coins d)%Z eqn:Ec; simpl.
      * exists MustCoup. split; [simpl; now rewrite El, Ec | reflexivity].
      * no_violation Hr.
    + no_violation Hr.
  - (* steal *)
    destruct (mem (players st) target) eqn:Em; simpl.
    2: { exists NotInGame. split; [simpl; now rewrite Em | reflexivity]. }
    destruct (is_player_alive st target) eqn:Eal; simpl.
    2: { exists TargetEliminated. split; [simpl; now rewrite Em, Eal | reflexivity]. }
    destruct (Nat.eqb (author e) target) eqn:Es.
    { exists CannotTargetYourself. split; [simpl; now rewrite Es | reflexivity]. }
    destruct (lookup (players st) (author e)) as [d|] eqn:El.
    + destruct (10 <=? coins d)%Z eqn:Ef; simpl.
      * exists MustCoup. split; [simpl; now rewrite El, Ef | reflexivity].
      * no_violation Hr.
    + no_violation Hr.
  - (* exchange *)
    destruct (lookup (players st) (author e)) as [d|] eqn:El.
    + destruct (10 <=? coins d)%Z eqn:Ec; simpl.
      * exists MustCoup. split; [simpl; now rewrite El, Ec | reflexivity].
      * no_violation Hr.
    + no_violation Hr.
Qed.

Lemma validation_rejects_before_mutation_witness :
  exists r, violation duel (author (quiet_env 1)) (CCoup 2) r = true /\
            run (CCoup 2) (quiet_env 1) duel = rejection duel r /\
            run (CCoup 2) (quiet_env 1) (final (run (CCoup 2) (quiet_env 1) duel))
            = run (CCoup 2) (quiet_env 1) duel.
Proof.
  apply (validation_rejects_before_mutation (CCoup 2) (quiet_env 1) duel).
  - reflexivity.
  - exists InsufficientCoins. reflexivity.
Defined.

(** ** Steal from a player without coins *)

(** C10.  When the target's balance is below 1 the steal command leaves
    the table as it was and posts no prompt, whatever else holds; and
    when the earlier checks pass (actor's turn, target seated and alive,
    not the actor, actor below ten coins) it is turned down with the
    no-coins reason. *)
Theorem steal_from_empty_target_rejected (e : env) (st : table) (target : user)
    (dt : pdata) :
  lookup (players st) target = Some dt ->
  (coins dt < 1)%Z ->
  final (steal e target st) = st /\
  existsb is_prompt (trace (steal e target st)) = false /\
  (forall da,
      is_turn st (author e) = true ->
      is_player_alive st target = true ->
      author e <> target ->
      lookup (players st) (author e) = Some da -> (coins da < 10)%Z ->
      steal e target st = rejection st NoCoinsToSteal).
Proof.
  intros Ht Hc. apply Z.ltb_lt in Hc.
  assert (Em : mem (players st) target = true) by (apply mem_lookup; eauto).
  unfold steal. open_checks. rewrite Em, Ht, Hc. simpl negb. cbv iota.
  destruct (is_turn st (author e)); [|repeat split; try reflexivity; discriminate].
  destruct (is_player_alive st target); simpl negb; cbv iota;
    [|repeat split; try reflexivity; discriminate].
  destruct (Nat.eqb_spec (author e) target) as [E|N];
    [repeat split; try reflexivity; intros; contradiction|].
  destruct (lookup (players st) (author e)) as [da|];
    [|repeat split; try reflexivity; discriminate].
  destruct (Z.leb_spec 10 (coins da)); simpl.
  - repeat split; try reflexivity. intros da' _ _ _ [= <-] ?. lia.
  - repeat split; reflexivity.
Qed.

Lemma steal_from_empty_target_rejected_witness :
  final (steal (quiet_env 1) 2 poor_target) = poor_target /\
  existsb is_prompt (trace (steal (quiet_env 1) 2 poor_target)) = false /\
  (forall da,
      is_turn poor_target (author (quiet_env 1)) = true ->
      is_player_alive poor_target 2 = true ->
      author (quiet_env 1) <> 2 ->
      lookup (players poor_target) (author (quiet_env 1)) = Some da ->
      (coins da < 10)%Z ->
      steal (quiet_env 1) 2 poor_target = rejection poor_target NoCoinsToSteal).
Proof.
  apply (steal_from_empty_target_rejected (quiet_env 1) poor_target 2
           (mkP [Contessa; Assassin] 0%Z)).
  - reflexivity.
  - reflexivity.
Defined.

(** ** Forced coup *)

Lemma trace_bind_val {A B} {c : M A} (k : A -> M B) {st a st1 t1} :
  c st = mkRes (Val a) st1 t1 ->
  trace (bind c k st) = t1 ++ trace (k a st1).
Proof. intros H. now rewrite (bind_val _ H). Qed.

Lemma set_cards_found {p cs st d} :
  lookup (players st) p = Some d ->
  set_cards p cs st =
  mkRes (Val tt) (set_players (assign (players st) p (mkP cs (coins d))) st) [].
Proof.
  intros H. unfold set_cards. now rewrite (bind_pure _ (player_data_found H)).
Qed.

Lemma lose_influence_found {p st d c rest} :
  lookup (players st) p = Some d ->
  pop (cards d) = Some (c, rest) ->
  lose_influence_with_reveal p st =
  mkRes (Val (Some c)) (after_loss st p d c rest) [Lost p c].
Proof.
  intros H Hp. unfold lose_influence_with_reveal.
  rewrite (bind_pure _ (player_data_found H)), Hp.
  rewrite (bind_val _ (set_cards_found H)). reflexivity.
Qed.

Lemma lose_influence_empty {p st d} :
  lookup (players st) p = Some d ->
  cards d = [] ->
  lose_influence_with_reveal p st = mkRes (Val None) st [].
Proof.
  intros H Hp. unfold lose_influence_with_reveal.
  rewrite (bind_pure _ (player_data_found H)), Hp. reflexivity.
Qed.

Lemma alive_hand st p :
  is_player_alive st p = true <->
  exists d, lookup (players st) p = Some d /\ cards d <> [].
Proof.
  unfold is_player_alive. destruct (lookup (players st) p) as [d|].
  - split.
    + intros H. exists d. split; auto. intros E. rewrite E in H. discriminate.
    + intros (d' & [= <-] & N). destruct (cards d); [contradiction|reflexivity].
  - split; [discriminate|]. intros (d & H & _). discriminate.
Qed.

Lemma pop_nonempty {A} (l : list A) : l <> [] -> exists x l', pop l = Some (x, l').
Proof.
  intros N. destruct (pop l) as [[x l']|] eqn:E; eauto.
  apply pop_None in E. contradiction.
Qed.

(** C4, as amended.  A current player holding ten coins or more has each
    of income, foreign aid, tax, assassinate, steal and exchange turned
    down with the table unchanged.  The reason given is the forced-coup
    one whenever the target checks pass (always for the commands without
    target); a targeted command whose target is absent, eliminated or the
    actor is turned down for its target first.  A coup on a seated, live
    target other than the actor goes through: its first announcement is
    the target's lost card. *)
Theorem forced_coup (c : command) (e : env) (st : table) (d : pdata) :
  is_turn st (author e) = true ->
  lookup (players st) (author e) = Some d ->
  (10 <= coins d)%Z ->
  is_action c = true ->
  (is_coup_command c = false ->
     exists r, run c e st = rejection st r /\
               (target_ok st (author e) c = true -> r = MustCoup) /\
               (target_ok st (author e) c = false ->
                  r = NotInGame \/ r = TargetEliminated \/ r = CannotTargetYourself)) /\
  (is_coup_command c = true -> target_ok st (author e) c = true ->
     exists t lost rest, c = CCoup t /\ trace (run c e st) = Lost t lost :: rest).
Proof.
  intros Ht El Hc Ha. apply Z.leb_le in Hc.
  assert (H7 : (coins d <? 7)%Z = false) by (apply Z.ltb_ge; apply Z.leb_le in Hc; lia).
  assert (H3 : (coins d <? 3)%Z = false) by (apply Z.ltb_ge; apply Z.leb_le in Hc; lia).
  destruct c; try discriminate; clear Ha; simpl run; unfold target_ok; simpl target_of;
    (split; intros Hk; simpl in Hk; try discriminate Hk; clear Hk);
    unfold income, foreign_aid, coup, assassinate, tax, steal, exchange;
    open_checks; rewrite ?Ht, ?El, ?Hc, ?H7, ?H3; simpl andb; cbv iota.
  - exists MustCoup. repeat split; auto. discriminate.
  - exists MustCoup. repeat split; auto. discriminate.
  - (* coup *)
    intros Hok. apply andb_prop in Hok as [Hal Hs]. apply negb_true_iff in Hs.
    rewrite (alive_mem _ _ Hal), Hal, Hs. simpl negb. cbv iota.
    exists target.
    apply alive_hand in Hal as (td & Etd & Ncards).
    destruct (pop_nonempty _ Ncards) as (lost & rest & Hpop).
    assert (N : author e <> target) by (now apply Nat.eqb_neq).
    assert (Etd' : lookup (players (with_coins st (author e) d (-7))) target = Some td).
    { simpl. now rewrite lookup_assign_other. }
    rewrite (trace_bind_val _ (add_coins_found _ _ _ _ El)). simpl app.
    unfold then_advance, strike.
    rewrite bind_assoc, (trace_bind_val _ (player_data_found Etd')). simpl app.
    destruct (cards td) as [|c0 cs] eqn:Ecs; [contradiction|].
    cbn [length Nat.ltb Nat.leb].
    rewrite !bind_assoc.
    rewrite <- Ecs in Hpop.
    rewrite (trace_bind_val _ (lose_influence_found Etd' Hpop)).
    simpl app. eauto.
  - (* assassinate *)
    destruct (mem (players st) target) eqn:Em; simpl negb; cbv iota.
    2: { exists NotInGame. repeat split; auto.
         unfold is_player_alive. unfold mem in Em.
         destruct (lookup (players st) target); discriminate. }
    destruct (is_player_alive st target) eqn:Eal; simpl negb; cbv iota.
    2: { exists TargetEliminated. repeat split; auto. discriminate. }
    destruct (Nat.eqb (author e) target) eqn:Es; simpl.
    + exists CannotTargetYourself. repeat split; auto. discriminate.
    + exists MustCoup. repeat split; auto. discriminate.
  - exists MustCoup. repeat split; auto. discriminate.
  - (* steal *)
    destruct (mem (players st) target) eqn:Em; simpl negb; cbv iota.
    2: { exists NotInGame. repeat split; auto.
         unfold is_player_alive. unfold mem in Em.
         destruct (lookup (players st) target); discriminate. }
    destruct (is_player_alive st target) eqn:Eal; simpl negb; cbv iota.
    2: { exists TargetEliminated. repeat split; auto. discriminate. }
    destruct (Nat.eqb (author e) target) eqn:Es; simpl.
    + exists CannotTargetYourself. repeat split; auto. discriminate.
    + exists MustCoup. repeat split; auto. discriminate.
  - exists MustCoup. repeat split; auto. discriminate.
Qed.

Lemma forced_coup_witness :
  (is_coup_command (CCoup 2) = false ->
     exists r, run (CCoup 2) (quiet_env 1) rich_duel = rejection rich_duel r /\
               (target_ok rich_duel (author (quiet_env 1)) (CCoup 2) = true -> r = MustCoup) /\
               (target_ok rich_duel (author (quiet_env 1)) (CCoup 2) = false ->
                  r = NotInGame \/ r = TargetEliminated \/ r = CannotTargetYourself)) /\
  (is_coup_command (CCoup 2) = true ->
   target_ok rich_duel (author (quiet_env 1)) (CCoup 2) = true ->
     exists t lost rest, CCoup 2 = CCoup t /\
       trace (run (CCoup 2) (quiet_env 1) rich_duel) = Lost t lost :: rest).
Proof.
  apply (forced_coup (CCoup 2) (quiet_env 1) rich_duel (mkP [Duke; Captain] 10%Z)).
  - reflexivity.
  - reflexivity.
  - simpl. lia.
  - reflexivity.
Defined.

(** The forced-coup reason is not the answer of every one of the six
    commands.  Player 1, to move with ten coins, who
    tries to assassinate player 1 is told not to target themselves. *)
Lemma forced_coup_reason_counterexample :
  is_turn rich_duel 1 = true /\
  lookup (players rich_duel) 1 = Some (mkP [Duke; Captain] 10%Z) /\
  run (CAssassinate 1) (quiet_env 1) rich_duel = rejection rich_duel CannotTargetYourself /\
  run (CAssassinate 1) (quiet_env 1) rich_duel <> rejection rich_duel MustCoup.
Proof.
  repeat split. discriminate.
Qed.

(** ** Card swap after an upheld claim *)

Lemma pop_deck_found {st c d} :
  pop (court_deck st) = Some (c, d) ->
  pop_deck st = mkRes (Val c) (set_court_deck d st) [].
Proof. intros H. unfold pop_deck. now rewrite H. Qed.

Lemma pop_cons {A} (x top : A) l below :
  pop l = Some (top, below) -> pop (x :: l) = Some (top, x :: below).
Proof. intros H%pop_Some. subst. apply (pop_snoc (x :: below)). Qed.

Lemma handle_card_swap_done {st p card_name d top below} :
  lookup (players st) p = Some d ->
  card_in card_name (cards d) = true ->
  pop (court_deck st) = Some (top, below) ->
  handle_card_swap p card_name st =
  mkRes (Val tt) (swapped st p d card_name top below) [].
Proof.
  intros El Hin Hpop. unfold handle_card_swap. rewrite bind_get.
  rewrite (pop_length Hpop). cbn [Nat.ltb Nat.leb].
  rewrite (bind_pure _ (player_data_found El)), Hin.
  rewrite (bind_val _ (set_cards_found El)). cbn [app].
  rewrite bind_modify.
  match goal with |- context [bind pop_deck ?k ?s] =>
    assert (Hp : pop (court_deck s) = Some (top, card_name :: below))
      by (simpl; now apply pop_cons);
    rewrite (bind_val k (pop_deck_found Hp))
  end.
  cbn [app].
  match goal with |- context [bind (player_data p) ?k ?s] =>
    assert (El' : lookup (players s) p
                  = Some (mkP (remove_first card_name (cards d)) (coins d)))
      by (simpl; apply lookup_assign_same);
    rewrite (bind_pure k (player_data_found El'))
  end.
  rewrite (set_cards_found El'). reflexivity.
Qed.

(** C7.  For a player holding the revealed card and a deck that is not
    empty, the swap puts the revealed card under the deck and gives the
    player the top card: the deck keeps its size, the hand keeps its size,
    the cards of the hand other than the one swapped stay (the hand is
    the old one without its first copy of the revealed card, followed by
    the card drawn), and nobody else's entry, nor the player's coins, nor
    the discard pile changes. *)
Theorem card_swap_neutral (st : table) (p : user) (card_name : card) (d : pdata) :
  lookup (players st) p = Some d ->
  card_in card_name (cards d) = true ->
  court_deck st <> [] ->
  exists top below kept,
    pop (court_deck st) = Some (top, below) /\
    Permutation (cards d) (card_name :: kept) /\
    let r := handle_card_swap p card_name st in
    oc r = Val tt /\
    court_deck (final r) = card_name :: below /\
    length (court_deck (final r)) = length (court_deck st) /\
    lookup (players (final r)) p = Some (mkP (kept ++ [top]) (coins d)) /\
    length (kept ++ [top]) = length (cards d) /\
    (forall q, q <> p -> lookup (players (final r)) q = lookup (players st) q) /\
    discarded_cards (final r) = discarded_cards st.
Proof.
  intros El Hin Hne.
  destruct (pop_nonempty _ Hne) as (top & below & Hpop).
  exists top, below, (remove_first card_name (cards d)).
  split; [exact Hpop|]. split; [now apply remove_first_perm|].
  rewrite (handle_card_swap_done El Hin Hpop). simpl.
  repeat split.
  - rewrite (pop_length Hpop). reflexivity.
  - apply lookup_assign_same.
  - rewrite length_app. simpl. rewrite <- (remove_first_length _ _ Hin). lia.
  - intros q N. rewrite !lookup_assign_other by congruence. reflexivity.
Qed.

Lemma card_swap_neutral_witness :
  exists top below kept,
    pop (court_deck duel) = Some (top, below) /\
    Permutation (cards (mkP [Duke; Captain] 2%Z)) (Duke :: kept) /\
    let r := handle_card_swap 1 Duke duel in
    oc r = Val tt /\
    court_deck (final r) = Duke :: below /\
    length (court_deck (final r)) = length (court_deck duel) /\
    lookup (players (final r)) 1 = Some (mkP (kept ++ [top]) (coins (mkP [Duke; Captain] 2%Z))) /\
    length (kept ++ [top]) = length (cards (mkP [Duke; Captain] 2%Z)) /\
    (forall q, q <> 1 -> lookup (players (final r)) q = lookup (players duel) q) /\
    discarded_cards (final r) = discarded_cards duel.
Proof.
  apply (card_swap_neutral duel 1 Duke (mkP [Duke; Captain] 2%Z)).
  - reflexivity.
  - reflexivity.
  - simpl. discriminate.
Defined.

(** ** The turn scheduler terminates *)

Lemma next_alive_sound fuel st l i q :
  next_alive fuel st l i = Some q -> In q l /\ is_player_alive st q = true.
Proof.
  revert i. induction fuel as [|f IH]; simpl; [discriminate|].
  intros i. destruct (nth_error l i) as [p|] eqn:E; [|discriminate].
  destruct (is_player_alive st p) eqn:Ea.
  - intros [= <-]. split; auto. eapply nth_error_In; eauto.
  - apply IH.
Qed.

(** The loop finds a player once a live seat lies within [fuel] steps. *)
Lemma next_alive_within fuel st l i k :
  i < length l -> k < fuel -> live_seat st l ((i + k) mod length l) ->
  exists q, next_alive fuel st l i = Some q.
Proof.
  revert i k. induction fuel as [|f IH]; intros i k Hi Hk Hlive; [lia|].
  simpl. destruct (nth_error l i) as [p|] eqn:E.
  2: { apply nth_error_None in E. lia. }
  destruct (is_player_alive st p) eqn:Ea; [eauto|].
  destruct k as [|k'].
  - rewrite Nat.add_0_r, Nat.mod_small in Hlive by exact Hi.
    destruct Hlive as (p' & E' & Ha'). congruence.
  - apply (IH _ k').
    + apply Nat.mod_upper_bound. lia.
    + lia.
    + rewrite Nat.Div0.add_mod_idemp_l.
      replace (i + 1 + k') with (i + S k') by lia. exact Hlive.
Qed.

Lemma next_alive_total st l i p :
  i < length l -> In p l -> is_player_alive st p = true ->
  exists q, next_alive (length l) st l i = Some q.
Proof.
  intros Hi Hin Ha. apply In_nth_error in Hin as (j & Hj).
  assert (Hjl : j < length l) by (apply nth_error_Some; congruence).
  apply (next_alive_within (length l) st l i ((j + length l - i) mod length l)).
  - exact Hi.
  - apply Nat.mod_upper_bound. lia.
  - rewrite Nat.Div0.add_mod_idemp_r.
    replace (i + (j + length l - i)) with (j + 1 * length l) by lia.
    rewrite Nat.Div0.mod_add, Nat.mod_small by exact Hjl.
    exists p. auto.
Qed.

(** The model's [Hang] of the loop is the loop of the source going round
    for ever: it is reached only when no seat holds a live player. *)
Lemma next_alive_none st l i :
  i < length l -> next_alive (length l) st l i = None ->
  forall p, In p l -> is_player_alive st p = false.
Proof.
  intros Hi Hn p Hin. destruct (is_player_alive st p) eqn:Ea; [|reflexivity].
  destruct (next_alive_total st l i p Hi Hin Ea) as (q & Hq). congruence.
Qed.

Lemma index_of_Some u l :
  In u l -> exists i, index_of u l = Some i /\ i < length l.
Proof.
  induction l as [|x t IH]; simpl; [tauto|].
  intros H. destruct (Nat.eqb_spec x u).
  - exists 0. split; auto. lia.
  - destruct H as [E|H]; [contradiction|].
    destruct (IH H) as (i & -> & Hi). exists (S i). split; auto. lia.
Qed.

Lemma get_next_player_returns st current p :
  mem (players st) current = true ->
  is_player_alive st p = true ->
  exists q, get_next_player current st = mkRes (Val q) st [] /\
            is_player_alive st q = true.
Proof.
  intros Hm Ha. unfold get_next_player. rewrite bind_get.
  apply mem_keys in Hm. destruct (index_of_Some _ _ Hm) as (i & -> & Hi).
  assert (Hp : In p (keys (players st))) by (apply mem_keys; now apply alive_mem).
  destruct (next_alive_total st (keys (players st))
              ((i + 1) mod length (keys (players st))) p) as (q & Hq); auto.
  { apply Nat.mod_upper_bound. lia. }
  rewrite Hq. exists q. split; [reflexivity|].
  now apply next_alive_sound in Hq.
Qed.

(** ** Handlers that return *)

Lemma returns_bind {A B} (c : M A) (k : A -> M B) st Q :
  returns c st (fun a s => returns (k a) s Q) -> returns (bind c k) st Q.
Proof.
  unfold returns, bind. destruct (c st) as [[a| |] s t]; simpl; try tauto.
Qed.

Lemma returns_weaken {A} (c : M A) st (Q Q' : A -> table -> Prop) :
  (forall a s, Q a s -> Q' a s) -> returns c st Q -> returns c st Q'.
Proof.
  unfold returns. intros H. destruct (oc (c st)); auto.
Qed.

Lemma returns_eq {A} (c : M A) st a s t (Q : A -> table -> Prop) :
  c st = mkRes (Val a) s t -> Q a s -> returns c st Q.
Proof. intros H HQ. unfold returns. now rewrite H. Qed.

Lemma returns_inv {A} (c : M A) st (Q : A -> table -> Prop) :
  returns c st Q -> exists a, oc (c st) = Val a /\ Q a (final (c st)).
Proof.
  unfold returns. destruct (oc (c st)) as [a| |]; try tauto. eauto.
Qed.

(** ** Challenges *)

Lemma check_win_alive st w :
  check_win_condition st = Some w -> is_player_alive st w = true.
Proof.
  unfold check_win_condition.
  destruct (filter (is_player_alive st) (keys (players st))) as [|x [|y t]] eqn:E;
    try discriminate.
  intros [= <-].
  assert (H : In x (filter (is_player_alive st) (keys (players st))))
    by (rewrite E; now left).
  now apply filter_In in H.
Qed.

Lemma reveal_all_returns p cs st (Q : unit -> table -> Prop) :
  Q tt st -> returns (reveal_all p cs) st Q.
Proof.
  intros HQ. induction cs as [|c t IH]; cbn [reveal_all]; [exact HQ|].
  unfold returns in *. rewrite bind_emit. exact IH.
Qed.

Lemma handle_player_elimination_returns e p st q :
  mem (players st) p = true ->
  is_player_alive st q = true ->
  returns (handle_player_elimination e p) st (fun _ _ => True).
Proof.
  intros Hm Ha. apply mem_lookup in Hm as (d & El).
  unfold handle_player_elimination. apply returns_bind.
  eapply returns_eq; [exact (player_data_found El)|].
  destruct (length (cards d) =? 0); [|exact I].
  apply returns_bind.
  destruct (get_next_player_returns st p q) as (n & Hn & _); auto.
  { apply mem_lookup; eauto. }
  eapply returns_eq; [exact Hn|].
  apply returns_bind. eapply returns_eq; [reflexivity|].
  apply returns_bind. eapply returns_eq; [reflexivity|].
  match goal with |- context [check_win_condition ?s] =>
    destruct (check_win_condition s) as [w|] eqn:Ew; [|exact I] end.
  apply returns_bind. eapply returns_eq; [reflexivity|].
  apply returns_bind. unfold reveal_winner_hand. apply returns_bind.
  apply check_win_alive, alive_hand in Ew as (dw & Elw & _).
  eapply returns_eq; [exact (player_data_found Elw)|].
  apply reveal_all_returns.
  apply returns_bind. eapply returns_eq; [reflexivity|].
  apply returns_bind. eapply returns_eq; [reflexivity|].
  exact I.
Qed.

Lemma alive_after_loss st p d c rest q :
  q <> p ->
  is_player_alive (after_loss st p d c rest) q = is_player_alive st q.
Proof.
  intros N. unfold is_player_alive. simpl.
  now rewrite lookup_assign_other by congruence.
Qed.

Lemma challenge_loss_returns e legit loser st q :
  mem (players st) loser = true ->
  q <> loser -> is_player_alive st q = true ->
  returns (challenge_loss e legit loser) st (fun v _ => claim_legitimate v = legit).
Proof.
  intros Hm N Ha. apply mem_lookup in Hm as (d & El).
  unfold challenge_loss. apply returns_bind.
  eapply returns_eq; [exact (player_data_found El)|].
  destruct (cards d) as [|c0 cs] eqn:Ecs; [reflexivity|].
  cbn [length Nat.ltb Nat.leb].
  assert (Hne : cards d <> []) by (rewrite Ecs; discriminate).
  destruct (pop_nonempty _ Hne) as (c & rest & Hpop).
  apply returns_bind. eapply returns_eq; [exact (lose_influence_found El Hpop)|].
  apply returns_bind.
  eapply returns_weaken;
    [|apply (handle_player_elimination_returns e loser _ q)].
  - intros [[eliminated ended] next] s _. reflexivity.
  - apply mem_lookup. simpl. rewrite lookup_assign_same. eauto.
  - now rewrite alive_after_loss.
Qed.

(** After the swap the claimer still holds a card and nobody else's
    entry has moved. *)
Lemma handle_card_swap_keeps p card_name st d :
  lookup (players st) p = Some d ->
  card_in card_name (cards d) = true ->
  exists st' tr,
    handle_card_swap p card_name st = mkRes (Val tt) st' tr /\
    is_player_alive st' p = true /\
    (forall q, q <> p -> lookup (players st') q = lookup (players st) q).
Proof.
  intros El Hin.
  destruct (pop (court_deck st)) as [[top below]|] eqn:Hpop.
  - rewrite (handle_card_swap_done El Hin Hpop). do 2 eexists.
    split; [reflexivity|]. split.
    + unfold is_player_alive. simpl. rewrite lookup_assign_same. simpl.
      rewrite length_app. simpl. apply Nat.ltb_lt. lia.
    + intros q N. simpl. now rewrite !lookup_assign_other by congruence.
  - apply pop_None in Hpop. unfold handle_card_swap. rewrite bind_get, Hpop.
    simpl. do 2 eexists. split; [reflexivity|]. split; [|reflexivity].
    apply alive_hand. exists d. split; auto.
    intros E. rewrite E in Hin. discriminate.
Qed.

Lemma upheld_returns e claimer challenger found st d :
  lookup (players st) claimer = Some d ->
  card_in found (cards d) = true ->
  is_player_alive st challenger = true ->
  claimer <> challenger ->
  returns (emit (Revealed claimer found) ;;
           handle_card_swap claimer found ;;
           challenge_loss e true challenger) st
          (fun v _ => claim_legitimate v = true).
Proof.
  intros El Hin Ha N.
  apply returns_bind. eapply returns_eq; [reflexivity|].
  destruct (handle_card_swap_keeps claimer found st d El Hin)
    as (st' & tr & Hswap & Hal & Hfr).
  apply returns_bind. eapply returns_eq; [exact Hswap|].
  apply (challenge_loss_returns e true challenger st' claimer).
  - apply mem_lookup. rewrite Hfr by congruence.
    apply mem_lookup. now apply alive_mem.
  - exact N.
  - exact Hal.
Qed.

(** C5.  The verdict of a challenge is a function of the accused's hand
    and of the claimed cards alone: [handle_challenge] upholds the claim
    exactly when the required card is in the claimer's hand, and
    [handle_block_challenge] exactly when the blocker's hand holds one of
    the valid block cards.  Both return, whatever the deck order, the
    random draws and the other inputs are. *)
Theorem challenge_outcome_determined (e : env) (st : table)
    (claimer challenger : user) (required_card : card) (valid_cards : list card)
    (d : pdata) :
  lookup (players st) claimer = Some d ->
  is_player_alive st challenger = true ->
  claimer <> challenger ->
  returns (handle_challenge e claimer challenger required_card) st
    (fun v _ => claim_legitimate v = card_in required_card (cards d) /\
                (claim_legitimate v = true <-> In required_card (cards d))) /\
  returns (handle_block_challenge e claimer challenger valid_cards) st
    (fun v _ => claim_legitimate v = existsb (fun c => card_in c (cards d)) valid_cards /\
                (claim_legitimate v = true <->
                 exists c, In c valid_cards /\ In c (cards d))).
Proof.
  intros El Ha N.
  assert (Hm : mem (players st) claimer = true) by (apply mem_lookup; eauto).
  split.
  - unfold handle_challenge. apply returns_bind.
    eapply returns_eq; [exact (player_data_found El)|].
    destruct (card_in required_card (cards d)) eqn:Hin.
    + eapply returns_weaken; [|now apply (upheld_returns e _ _ _ st d)].
      intros v _ ->. split; auto. split; auto. intros _. now apply card_in_In.
    + eapply returns_weaken;
        [|apply (challenge_loss_returns e false claimer st challenger); auto].
      intros v _ ->. split; auto. split; [discriminate|].
      intros H%card_in_In. congruence.
  - unfold handle_block_challenge. apply returns_bind.
    eapply returns_eq; [exact (player_data_found El)|].
    unfold valid_card_found.
    destruct (find (fun c => card_in c (cards d)) valid_cards) as [found|] eqn:Ef.
    + apply find_some in Ef as [Hv Hin].
      assert (Hex : existsb (fun c => card_in c (cards d)) valid_cards = true)
        by (apply existsb_exists; eauto).
      eapply returns_weaken; [|now apply (upheld_returns e _ _ _ st d)].
      intros v _ ->. rewrite Hex. split; auto. split; auto. intros _.
      exists found. split; auto. now apply card_in_In.
    + assert (Hex : existsb (fun c => card_in c (cards d)) valid_cards = false).
      { apply not_true_is_false. intros (c & Hc & Hin)%existsb_exists.
        now rewrite (find_none _ _ Ef c Hc) in Hin. }
      eapply returns_weaken;
        [|apply (challenge_loss_returns e false claimer st challenger); auto].
      intros v _ ->. rewrite Hex. split; auto. split; [discriminate|].
      intros (c & Hc & Hin%card_in_In).
      now rewrite (find_none _ _ Ef c Hc) in Hin.
Qed.

Lemma challenge_outcome_determined_witness :
  returns (handle_challenge (quiet_env 1) 1 2 Duke) duel
    (fun v _ => claim_legitimate v = card_in Duke (cards (mkP [Duke; Captain] 2%Z)) /\
                (claim_legitimate v = true <-> In Duke (cards (mkP [Duke; Captain] 2%Z)))) /\
  returns (handle_block_challenge (quiet_env 1) 1 2 [Captain; Ambassador]) duel
    (fun v _ => claim_legitimate v
                = existsb (fun c => card_in c (cards (mkP [Duke; Captain] 2%Z)))
                          [Captain; Ambassador] /\
                (claim_legitimate v = true <->
                 exists c, In c [Captain; Ambassador] /\
                           In c (cards (mkP [Duke; Captain] 2%Z)))).
Proof.
  apply (challenge_outcome_determined (quiet_env 1) duel 1 2 Duke
           [Captain; Ambassador] (mkP [Duke; Captain] 2%Z)).
  - reflexivity.
  - reflexivity.
  - discriminate.
Defined.

(** ** Turn hand-over and assassination *)

Lemma wait_for_reaction_eq e valid initiator reactions st :
  wait_for_reaction e valid initiator reactions st =
  mkRes (Val (find (eligible e st valid initiator) reactions)) st
        [Prompt valid initiator st].
Proof. reflexivity. Qed.


Lemma alive_with_coins st p d n q :
  lookup (players st) p = Some d ->
  is_player_alive (with_coins st p d n) q = is_player_alive st q.
Proof.
  intros El. unfold is_player_alive. simpl.
  destruct (Nat.eq_dec p q) as [<-|N].
  - now rewrite lookup_assign_same, El.
  - now rewrite lookup_assign_other.
Qed.

Lemma mem_with_coins st p d n q :
  lookup (players st) p = Some d ->
  mem (players (with_coins st p d n)) q = mem (players st) q.
Proof.
  intros El. unfold mem. simpl.
  destruct (Nat.eq_dec p q) as [<-|N].
  - now rewrite lookup_assign_same, El.
  - now rewrite lookup_assign_other.
Qed.



(** ** Relational reasoning over handlers *)

Lemma ensures_bind {A B} (c : M A) (k : A -> M B) st Q :
  ensures c st (fun a s => ensures (k a) s Q) -> ensures (bind c k) st Q.
Proof.
  unfold ensures, bind. destruct (c st) as [[a| |] s t]; simpl; tauto.
Qed.

Lemma ensures_bind_all {A B} (c : M A) (k : A -> M B) st Q :
  (forall a s, ensures (k a) s Q) -> ensures (bind c k) st Q.
Proof.
  intros H. apply ensures_bind. unfold ensures at 1.
  destruct (oc (c st)); auto.
Qed.

Lemma ensures_weaken {A} (c : M A) st (Q Q' : A -> table -> Prop) :
  (forall a s, Q a s -> Q' a s) -> ensures c st Q -> ensures c st Q'.
Proof.
  unfold ensures. intros H. destruct (oc (c st)); auto.
Qed.

Lemma ensures_eq {A} (c : M A) st r (Q : A -> table -> Prop) :
  c st = r -> match oc r with Val a => Q a (final r) | _ => True end ->
  ensures c st Q.
Proof. intros <-. auto. Qed.

Lemma ensures_inv {A} (c : M A) st a s t (Q : A -> table -> Prop) :
  ensures c st Q -> c st = mkRes (Val a) s t -> Q a s.
Proof. unfold ensures. intros H E. now rewrite E in H. Qed.

Section Relational.
Context (x : bool) (R : table -> table -> Prop) {HR : PreOrder R}.

Lemma rel_at_same {A} (c : M A) st : final (c st) = st -> rel_at x R c st.
Proof. intros E _. rewrite E. reflexivity. Qed.

Lemma rel_at_ret {A} (a : A) st : rel_at x R (ret a) st.
Proof. now apply rel_at_same. Qed.

Lemma rel_at_emit ev st : rel_at x R (emit ev) st.
Proof. now apply rel_at_same. Qed.

Lemma rel_at_raise {A} e st : rel_at x R (@raise A e) st.
Proof. now apply rel_at_same. Qed.

Lemma rel_at_hang {A} st : rel_at x R (@hang A) st.
Proof. now apply rel_at_same. Qed.

Lemma rel_at_modify f st : R st (f st) -> rel_at x R (modify f) st.
Proof. intros H _. exact H. Qed.

Lemma rel_at_bind {A B} (c : M A) (k : A -> M B) st :
  rel_at x R c st ->
  (forall a, oc (c st) = Val a -> rel_at x R (k a) (final (c st))) ->
  rel_at x R (bind c k) st.
Proof.
  unfold rel_at, bind. intros Hc Hk.
  destruct (c st) as [[a| |] s t]; simpl in *.
  - intros Hcov. transitivity s; auto.
  - exact Hc.
  - discriminate.
Qed.

Lemma rel_at_get {B} (k : table -> M B) st :
  rel_at x R (k st) st -> rel_at x R (bind get k) st.
Proof. unfold rel_at. now rewrite bind_get. Qed.

Lemma rel_at_ret_bind {A B} (a : A) (k : A -> M B) st :
  rel_at x R (k a) st -> rel_at x R (bind (ret a) k) st.
Proof. unfold rel_at. now rewrite bind_ret. Qed.

Lemma rel_at_emit_bind {B} ev (k : unit -> M B) st :
  rel_at x R (k tt) st -> rel_at x R (bind (emit ev) k) st.
Proof. unfold rel_at. now rewrite bind_emit. Qed.

Lemma rel_at_modify_bind {B} f (k : unit -> M B) st :
  R st (f st) -> rel_at x R (k tt) (f st) -> rel_at x R (bind (modify f) k) st.
Proof.
  intros H Hk. apply rel_at_bind; [now apply rel_at_modify|].
  intros []. simpl. auto.
Qed.

Lemma rel_at_player_data {B} p (k : pdata -> M B) st :
  (forall d, lookup (players st) p = Some d -> rel_at x R (k d) st) ->
  rel_at x R (bind (player_data p) k) st.
Proof.
  intros H. destruct (lookup (players st) p) as [d|] eqn:E.
  - unfold rel_at. rewrite (bind_pure _ (player_data_found E)). now apply H.
  - unfold rel_at. rewrite (bind_exn _ (player_data_missing E)). reflexivity.
Qed.

(** A callee known to respect [R], followed by a continuation that
    respects it from every table. *)
Lemma rel_at_call {A B} (c : M A) (k : A -> M B) st :
  rel x R c -> (forall a s, rel_at x R (k a) s) -> rel_at x R (bind c k) st.
Proof. intros Hc Hk. apply rel_at_bind; auto. Qed.

(** A callee that leaves the table alone. *)
Lemma rel_at_reader {A B} (c : M A) (k : A -> M B) st :
  (forall s, final (c s) = s) ->
  (forall a, oc (c st) = Val a -> rel_at x R (k a) st) ->
  rel_at x R (bind c k) st.
Proof.
  intros Hc Hk. apply rel_at_bind; [now apply rel_at_same|].
  intros a Ha. rewrite Hc. auto.
Qed.
End Relational.

Lemma get_next_player_final current st : final (get_next_player current st) = st.
Proof.
  unfold get_next_player. rewrite bind_get.
  destruct (index_of current (keys (players st))); [|reflexivity].
  match goal with |- context [next_alive ?a ?b ?c ?d] =>
    destruct (next_alive a b c d) end; reflexivity.
Qed.

Lemma reveal_all_final p cs st : final (reveal_all p cs st) = st.
Proof.
  induction cs as [|c t IH]; cbn [reveal_all]; [reflexivity|].
  rewrite bind_emit. exact IH.
Qed.

Lemma reveal_winner_hand_final w st : final (reveal_winner_hand w st) = st.
Proof.
  unfold reveal_winner_hand. destruct (lookup (players st) w) as [d|] eqn:E.
  - rewrite (bind_pure _ (player_data_found E)). apply reveal_all_final.
  - now rewrite (bind_exn _ (player_data_missing E)).
Qed.

Lemma wait_for_reaction_final e v i rs st : final (wait_for_reaction e v i rs st) = st.
Proof. reflexivity. Qed.

Lemma enhanced_turn_announcement_final e p f st :
  final (enhanced_turn_announcement e p f st) = st.
Proof.
  unfold enhanced_turn_announcement. destruct p as [u|]; [|reflexivity].
  destruct (get_member e u); reflexivity.
Qed.

Lemma check_forced_coup_final e p st : final (check_forced_coup e p st) = st.
Proof.
  unfold check_forced_coup. destruct (lookup (players st) p) as [d|] eqn:E.
  - rewrite (bind_pure _ (player_data_found E)). destruct (10 <=? coins d)%Z; [|reflexivity].
    unfold bind. rewrite enhanced_turn_announcement_final.
    destruct (oc (enhanced_turn_announcement e (Some p) true st)); simpl;
      auto using enhanced_turn_announcement_final.
  - now rewrite (bind_exn _ (player_data_missing E)).
Qed.

Lemma rel_at_assoc x R {A B C} (c : M A) (k : A -> M B) (h : B -> M C) st :
  rel_at x R (bind c (fun a => bind (k a) h)) st ->
  rel_at x R (bind (bind c k) h) st.
Proof. unfold rel_at. now rewrite bind_assoc. Qed.

(** Steps through the shape of a handler; leaves the obligations on the
    mutations and on the callees. *)
Ltac rapply l := apply l; try solve [typeclasses eauto].

Ltac rel_step :=
  lazymatch goal with
  | |- rel_at _ _ (ret _) _ => rapply rel_at_ret
  | |- rel_at _ _ (emit _) _ => rapply rel_at_emit
  | |- rel_at _ _ (send_error _) _ => rapply rel_at_emit
  | |- rel_at _ _ (raise _) _ => rapply rel_at_raise
  | |- rel_at _ _ hang _ => rapply rel_at_hang
  | |- rel_at _ _ (bind (bind _ _) _) _ => apply rel_at_assoc
  | |- rel_at _ _ (bind get _) _ => apply rel_at_get
  | |- rel_at _ _ (bind (ret _) _) _ => apply rel_at_ret_bind
  | |- rel_at _ _ (bind (emit _) _) _ => apply rel_at_emit_bind
  | |- rel_at _ _ (bind (send_error _) _) _ => apply rel_at_emit_bind
  | |- rel_at _ _ (bind (player_data _) _) _ => rapply rel_at_player_data; intros ? ?
  end.

(** ** Coins are untouched by a challenge *)

Lemma In_keys_delete r u k : In k (keys (delete r u)) -> In k (keys r).
Proof.
  induction r as [|[k' v] t IH]; simpl; [tauto|].
  destruct (Nat.eqb k' u); simpl; tauto.
Qed.

Lemma NoDup_keys_delete r u : NoDup (keys r) -> NoDup (keys (delete r u)).
Proof.
  induction r as [|[k v] t IH]; simpl; [auto|].
  intros H. inversion H as [|? ? Hn Hd]; subst.
  destruct (Nat.eqb k u); simpl; [exact Hd|].
  constructor; auto. intros Hin. apply Hn. eapply In_keys_delete; eauto.
Qed.

Lemma lookup_None_keys r u : lookup r u = None <-> ~ In u (keys r).
Proof.
  rewrite <- mem_keys. unfold mem. destruct (lookup r u); split; congruence.
Qed.

Lemma lookup_delete_same r u : NoDup (keys r) -> lookup (delete r u) u = None.
Proof.
  induction r as [|[k v] t IH]; simpl; [auto|].
  intros H. inversion H as [|? ? Hn Hd]; subst.
  destruct (Nat.eqb_spec k u); simpl.
  - subst. now apply lookup_None_keys.
  - destruct (Nat.eqb_spec k u); [contradiction|]. auto.
Qed.

#[global] Instance coins_kept_preorder : PreOrder coins_kept.
Proof.
  split.
  - intros st Hn. split; eauto.
  - intros a b c Hab Hbc Hn.
    destruct (Hab Hn) as [Hnb Hb]. destruct (Hbc Hnb) as [Hnc Hc].
    split; auto. intros p d' Hl.
    destruct (Hc p d' Hl) as (d1 & H1 & E1).
    destruct (Hb p d1 H1) as (d0 & H0 & E0).
    exists d0. split; congruence.
Qed.

Lemma coins_kept_same st st' : players st' = players st -> coins_kept st st'.
Proof. intros E Hn. rewrite E. split; eauto. Qed.

Lemma coins_kept_cards st p d cs :
  lookup (players st) p = Some d ->
  coins_kept st (set_players (assign (players st) p (mkP cs (coins d))) st).
Proof.
  intros El Hn. simpl. split.
  - rewrite keys_assign_present; auto. apply mem_lookup; eauto.
  - intros q d' Hl. destruct (Nat.eq_dec p q) as [<-|N].
    + rewrite lookup_assign_same in Hl. injection Hl as <-. eauto.
    + rewrite lookup_assign_other in Hl by exact N. eauto.
Qed.

Lemma coins_kept_delete st p :
  coins_kept st (set_players (delete (players st) p) st).
Proof.
  intros Hn. simpl. split; [now apply NoDup_keys_delete|].
  intros q d' Hl. destruct (Nat.eq_dec p q) as [<-|N].
  - rewrite lookup_delete_same in Hl by exact Hn. discriminate.
  - rewrite lookup_delete_other in Hl by exact N. eauto.
Qed.

Lemma coins_kept_empty st st' : players st' = [] -> coins_kept st st'.
Proof. intros E Hn. rewrite E. split; [constructor|]. discriminate. Qed.

Lemma set_cards_coins_kept p cs : rel true coins_kept (set_cards p cs).
Proof.
  intros st. unfold set_cards. rel_step.
  rapply rel_at_modify. now apply coins_kept_cards.
Qed.

Lemma lose_influence_coins_kept p : rel true coins_kept (lose_influence_with_reveal p).
Proof.
  intros st. unfold lose_influence_with_reveal. rel_step.
  destruct (pop (cards d)) as [[c rest]|]; [|rel_step].
  rapply rel_at_call; [apply set_cards_coins_kept|]. intros _ s.
  rapply rel_at_modify_bind; [now apply coins_kept_same|].
  repeat rel_step.
Qed.

Lemma pop_deck_coins_kept : rel true coins_kept pop_deck.
Proof.
  intros st. unfold rel_at, pop_deck.
  destruct (pop (court_deck st)) as [[c d]|]; simpl; intros _.
  - now apply coins_kept_same.
  - reflexivity.
Qed.

Lemma handle_card_swap_coins_kept p c : rel true coins_kept (handle_card_swap p c).
Proof.
  intros st. unfold handle_card_swap. rel_step.
  destruct (length (court_deck st) <? 1); [rapply rel_at_emit|].
  rel_step. destruct (card_in c (cards d)); [|rel_step].
  rapply rel_at_call; [apply set_cards_coins_kept|]. intros _ s.
  rapply rel_at_modify_bind; [now apply coins_kept_same|].
  rapply rel_at_call; [apply pop_deck_coins_kept|]. intros top s'.
  rel_step. apply set_cards_coins_kept.
Qed.

Lemma handle_player_elimination_coins_kept e p :
  rel true coins_kept (handle_player_elimination e p).
Proof.
  intros st. unfold handle_player_elimination. rel_step.
  destruct (length (cards d) =? 0); [|rel_step].
  rapply rel_at_reader; [apply get_next_player_final|]. intros next _.
  rapply rel_at_modify_bind; [apply coins_kept_delete|].
  rel_step.
  match goal with |- context [check_win_condition ?s] =>
    destruct (check_win_condition s) as [w|] end; [|rel_step].
  rel_step.
  rapply rel_at_reader; [apply reveal_winner_hand_final|]. intros _ _.
  rapply rel_at_modify_bind; [now apply coins_kept_empty|].
  rapply rel_at_modify_bind; [now apply coins_kept_same|].
  rel_step.
Qed.

Lemma challenge_loss_coins_kept e legit loser :
  rel true coins_kept (challenge_loss e legit loser).
Proof.
  intros st. unfold challenge_loss. rel_step.
  destruct (0 <? length (cards d)); [|rel_step].
  rapply rel_at_call; [apply lose_influence_coins_kept|]. intros _ s.
  rapply rel_at_call; [apply handle_player_elimination_coins_kept|].
  intros [[el en] nx] s'. rel_step.
Qed.

Lemma handle_challenge_coins_kept e claimer challenger c :
  rel true coins_kept (handle_challenge e claimer challenger c).
Proof.
  intros st. unfold handle_challenge. rel_step.
  destruct (card_in c (cards d)); [|apply challenge_loss_coins_kept].
  rel_step.
  rapply rel_at_call; [apply handle_card_swap_coins_kept|]. intros _ s.
  apply challenge_loss_coins_kept.
Qed.

Lemma handle_block_challenge_coins_kept e blocker challenger vs :
  rel true coins_kept (handle_block_challenge e blocker challenger vs).
Proof.
  intros st. unfold handle_block_challenge. rel_step.
  destruct (valid_card_found vs (cards d)); [|apply challenge_loss_coins_kept].
  rel_step.
  rapply rel_at_call; [apply handle_card_swap_coins_kept|]. intros _ s.
  apply challenge_loss_coins_kept.
Qed.

(** ** Who stays seated through a challenge *)

Lemma ensures_get {B} (k : table -> M B) st Q :
  ensures (k st) st Q -> ensures (bind get k) st Q.
Proof. unfold ensures. now rewrite bind_get. Qed.

Lemma ensures_ret_bind {A B} (a : A) (k : A -> M B) st Q :
  ensures (k a) st Q -> ensures (bind (ret a) k) st Q.
Proof. unfold ensures. now rewrite bind_ret. Qed.

Lemma ensures_emit_bind {B} ev (k : unit -> M B) st Q :
  ensures (k tt) st Q -> ensures (bind (emit ev) k) st Q.
Proof. unfold ensures. now rewrite bind_emit. Qed.

Lemma ensures_modify_bind {B} f (k : unit -> M B) st Q :
  ensures (k tt) (f st) Q -> ensures (bind (modify f) k) st Q.
Proof. unfold ensures. now rewrite bind_modify. Qed.

Lemma ensures_player_data {B} p (k : pdata -> M B) st Q :
  (forall d, lookup (players st) p = Some d -> ensures (k d) st Q) ->
  ensures (bind (player_data p) k) st Q.
Proof.
  intros H. unfold ensures. destruct (lookup (players st) p) as [d|] eqn:E.
  - rewrite (bind_pure _ (player_data_found E)). now apply H.
  - now rewrite (bind_exn _ (player_data_missing E)).
Qed.

Lemma ensures_reader {A B} (c : M A) (k : A -> M B) st Q :
  (forall s, final (c s) = s) ->
  (forall a, ensures (k a) st Q) ->
  ensures (bind c k) st Q.
Proof.
  intros Hc Hk. apply ensures_bind. unfold ensures at 1.
  destruct (oc (c st)) eqn:E; auto. rewrite Hc. apply Hk.
Qed.

Lemma ensures_assoc {A B C} (c : M A) (k : A -> M B) (h : B -> M C) st Q :
  ensures (bind c (fun a => bind (k a) h)) st Q ->
  ensures (bind (bind c k) h) st Q.
Proof. unfold ensures. now rewrite bind_assoc. Qed.

Lemma handle_player_elimination_others e p st :
  ensures (handle_player_elimination e p) st
    (fun r s => snd (fst r) = false -> others_untouched p st s).
Proof.
  unfold handle_player_elimination. apply ensures_player_data. intros d El.
  destruct (length (cards d) =? 0).
  2: { intros _ q _. reflexivity. }
  apply ensures_reader; [apply get_next_player_final|]. intros next.
  apply ensures_modify_bind, ensures_get.
  match goal with |- context [check_win_condition ?s] =>
    destruct (check_win_condition s) as [w|] end.
  - do 4 (apply ensures_bind_all; intros ? ?). intros H. discriminate.
  - intros _ q N. simpl. now apply lookup_delete_other.
Qed.

Lemma challenge_loss_others e legit loser st :
  ensures (challenge_loss e legit loser) st
    (fun v s => claim_legitimate v = legit /\
                (game_ended v = false -> others_untouched loser st s)).
Proof.
  unfold challenge_loss. apply ensures_player_data. intros d El.
  destruct (0 <? length (cards d)).
  2: { split; auto. intros _ q _. reflexivity. }
  destruct (pop (cards d)) as [[c rest]|] eqn:Hpop.
  - apply ensures_bind.
    eapply ensures_eq; [exact (lose_influence_found El Hpop)|]. simpl.
    apply ensures_bind.
    eapply ensures_weaken; [|apply handle_player_elimination_others].
    intros [[el en] nx] s H. simpl in H. split; auto. simpl.
    intros Hen q N. rewrite (H Hen q N). simpl. now apply lookup_assign_other.
  - apply pop_None in Hpop. apply ensures_bind.
    eapply ensures_eq; [exact (lose_influence_empty El Hpop)|]. simpl.
    apply ensures_bind.
    eapply ensures_weaken; [|apply handle_player_elimination_others].
    intros [[el en] nx] s H. simpl in H. split; auto.
Qed.

#[global] Instance seats_kept_preorder : PreOrder seats_kept.
Proof.
  split.
  - intros st q H. exact H.
  - intros a b c Hab Hbc q H. auto.
Qed.

Lemma seats_kept_same st st' : players st' = players st -> seats_kept st st'.
Proof. intros E q. now rewrite E. Qed.

Lemma mem_assign r p d q : mem r q = true -> mem (assign r p d) q = true.
Proof.
  unfold mem. destruct (Nat.eq_dec p q) as [<-|N].
  - now rewrite lookup_assign_same.
  - now rewrite lookup_assign_other.
Qed.

Lemma set_cards_seats_kept p cs : rel true seats_kept (set_cards p cs).
Proof.
  intros st. unfold set_cards. rel_step.
  rapply rel_at_modify. intros q Hq. simpl. now apply mem_assign.
Qed.

Lemma handle_card_swap_seats_kept p c : rel true seats_kept (handle_card_swap p c).
Proof.
  intros st. unfold handle_card_swap. rel_step.
  destruct (length (court_deck st) <? 1); [rel_step|].
  rel_step. destruct (card_in c (cards d)); [|rel_step].
  rapply rel_at_call; [apply set_cards_seats_kept|]. intros _ s.
  rapply rel_at_modify_bind; [now apply seats_kept_same|].
  rapply rel_at_bind.
  { unfold rel_at, pop_deck.
    destruct (pop (court_deck _)) as [[t b]|]; simpl; intros _;
      [now apply seats_kept_same | reflexivity]. }
  intros top _. rel_step. apply set_cards_seats_kept.
Qed.

(** After a challenge that does not end the game, everybody but the
    loser is still seated: the challenger loses when the claim is
    upheld, the accused otherwise. *)
Lemma handle_challenge_seats e claimer challenger c st :
  ensures (handle_challenge e claimer challenger c) st
    (fun v s => game_ended v = false ->
                forall q, q <> (if claim_legitimate v then challenger else claimer) ->
                          mem (players st) q = true -> mem (players s) q = true).
Proof.
  unfold handle_challenge. apply ensures_player_data. intros d El.
  destruct (card_in c (cards d)).
  - apply ensures_emit_bind. apply ensures_bind.
    pose proof (handle_card_swap_seats_kept claimer c st) as Hs.
    unfold rel_at in Hs. unfold ensures at 1.
    destruct (oc (handle_card_swap claimer c st)) eqn:Eo; auto.
    specialize (Hs eq_refl).
    eapply ensures_weaken; [|apply challenge_loss_others].
    intros v s [-> H] Hen q N Hq. specialize (H Hen q N).
    unfold mem. rewrite H. apply (Hs q Hq).
  - eapply ensures_weaken; [|apply challenge_loss_others].
    intros v s [-> H] Hen q N Hq. specialize (H Hen q N).
    unfold mem. rewrite H. exact Hq.
Qed.

Lemma handle_block_challenge_seats e blocker challenger vs st :
  ensures (handle_block_challenge e blocker challenger vs) st
    (fun v s => game_ended v = false ->
                forall q, q <> (if claim_legitimate v then challenger else blocker) ->
                          mem (players st) q = true -> mem (players s) q = true).
Proof.
  unfold handle_block_challenge. apply ensures_player_data. intros d El.
  destruct (valid_card_found vs (cards d)) as [found|].
  - apply ensures_emit_bind. apply ensures_bind.
    pose proof (handle_card_swap_seats_kept blocker found st) as Hs.
    unfold rel_at in Hs. unfold ensures at 1.
    destruct (oc (handle_card_swap blocker found st)) eqn:Eo; auto.
    specialize (Hs eq_refl).
    eapply ensures_weaken; [|apply challenge_loss_others].
    intros v s [-> H] Hen q N Hq. specialize (H Hen q N).
    unfold mem. rewrite H. apply (Hs q Hq).
  - eapply ensures_weaken; [|apply challenge_loss_others].
    intros v s [-> H] Hen q N Hq. specialize (H Hen q N).
    unfold mem. rewrite H. exact Hq.
Qed.

(** ** Steal *)

Lemma steal_coins_run e target st da dt :
  is_player_alive st target = true ->
  lookup (players st) (author e) = Some da ->
  lookup (players st) target = Some dt ->
  author e <> target ->
  steal_coins e target st =
  mkRes (Val tt)
        (with_coins (with_coins st (author e) da (Z.min 2 (coins dt)))
                    target dt (- Z.min 2 (coins dt))) [].
Proof.
  intros Ha Ela Elt N. unfold steal_coins. rewrite bind_get, Ha.
  rewrite (bind_pure _ (player_data_found Elt)).
  rewrite (bind_val _ (add_coins_found _ _ _ _ Ela)). cbn [app].
  match goal with |- context [add_coins target ?n ?s] =>
    assert (Elt' : lookup (players s) target = Some dt)
      by (simpl; now rewrite lookup_assign_other);
    rewrite (add_coins_found target n s dt Elt')
  end.
  reflexivity.
Qed.

Lemma eligible_facts e st valid initiator r :
  eligible e st valid initiator r = true ->
  mem (players st) (snd r) = true /\ is_player_alive st (snd r) = true /\
  snd r <> initiator.
Proof.
  unfold eligible. intros H.
  repeat (apply andb_prop in H as [H ?]).
  repeat split; auto.
  apply Nat.eqb_neq. now apply negb_true_iff.
Qed.

(** The table and balances at the transfer, however the steal got there. *)
Lemma steal_goes_through_frame e st stc tr da :
  NoDup (keys (players st)) ->
  lookup (players st) (author e) = Some da ->
  steal_goes_through e st stc tr ->
  coins_kept st stc /\ mem (players stc) (author e) = true.
Proof.
  intros Hn Ela [(_ & -> & _)|[(reactor & challenger & v & tc & Hf & Hs & Hb & Hen & Hl & _)
                               |(reactor & v & tc & Hf & Hc & Hen & Hl & _)]].
  - split; [reflexivity|]. apply mem_lookup; eauto.
  - apply find_some in Hf as [_ Hel]. apply eligible_facts in Hel as (_ & _ & Hne).
    simpl in Hne. split.
    + pose proof (handle_block_challenge_coins_kept e reactor challenger
                    [Captain; Ambassador] st) as H.
      unfold rel_at in H. rewrite Hb in H. now apply H.
    + pose proof (handle_block_challenge_seats e reactor challenger
                    [Captain; Ambassador] st) as H.
      pose proof (ensures_inv _ _ _ _ _ _ H Hb) as Hb'. simpl in Hb'.
      rewrite Hl in Hb'.
      apply (Hb' Hen (author e)); [congruence|]. apply mem_lookup; eauto.
  - apply find_some in Hf as [_ Hel]. apply eligible_facts in Hel as (_ & _ & Hne).
    simpl in Hne. split.
    + pose proof (handle_challenge_coins_kept e (author e) reactor Captain st) as H.
      unfold rel_at in H. rewrite Hc in H. now apply H.
    + pose proof (handle_challenge_seats e (author e) reactor Captain st) as H.
      pose proof (ensures_inv _ _ _ _ _ _ H Hc) as Hc'. simpl in Hc'.
      rewrite Hl in Hc'.
      apply (Hc' Hen (author e)); [congruence|]. apply mem_lookup; eauto.
Qed.

(** C8.  Whenever a steal that passed its checks goes through (nobody
    responds, or the block is defeated by a challenge, or the direct
    challenge is defeated) with the target still seated and alive, the
    handler moves exactly [min(2, target's balance)] coins: the actor's
    balance goes up by that amount, the target's goes down by it and
    stays non-negative, and the handler then passes the turn. *)
Theorem steal_transfers_min (e : env) (st stc : table) (target : user)
    (da dt : pdata) (tr : list event) :
  NoDup (keys (players st)) ->
  is_turn st (author e) = true ->
  is_player_alive st target = true ->
  author e <> target ->
  lookup (players st) (author e) = Some da -> (coins da < 10)%Z ->
  lookup (players st) target = Some dt -> (1 <= coins dt)%Z ->
  steal_goes_through e st stc tr ->
  is_player_alive stc target = true ->
  exists da' dt',
    lookup (players stc) (author e) = Some da' /\ coins da' = coins da /\
    lookup (players stc) target = Some dt' /\ coins dt' = coins dt /\
    let m := Z.min 2 (coins dt) in
    let moved := with_coins (with_coins stc (author e) da' m) target dt' (- m) in
    let adv := advance_turn e (author e) moved in
    steal e target st = mkRes (oc adv) (final adv) (tr ++ trace adv) /\
    lookup (players moved) (author e) = Some (mkP (cards da') (coins da + m)) /\
    lookup (players moved) target = Some (mkP (cards dt') (coins dt - m)) /\
    (0 <= coins dt - m)%Z /\ (1 <= m <= 2)%Z.
Proof.
  intros Hn Ht Hal N Ela Hda Elt Hdt Hgo Halc.
  destruct (steal_goes_through_frame e st stc tr da Hn Ela Hgo) as [Hck Hseat].
  destruct (Hck Hn) as [_ Hcoins].
  apply mem_lookup in Hseat as (da' & Ela').
  pose proof Halc as Halc'. apply alive_hand in Halc' as (dt' & Elt' & _).
  destruct (Hcoins _ _ Ela') as (x & Hx & Eca). rewrite Ela in Hx. injection Hx as <-.
  destruct (Hcoins _ _ Elt') as (y & Hy & Ect). rewrite Elt in Hy. injection Hy as <-.
  exists da', dt'. repeat (split; [assumption|]).
  cbv zeta. rewrite <- Ect, <- Eca.
  assert (Hrun : steal_coins e target stc =
                 mkRes (Val tt)
                   (with_coins (with_coins stc (author e) da' (Z.min 2 (coins dt')))
                               target dt' (- Z.min 2 (coins dt'))) [])
    by (now apply steal_coins_run).
  assert (H10 : (10 <=? coins da)%Z = false) by (apply Z.leb_gt; lia).
  assert (H1 : (coins dt <? 1)%Z = false) by (apply Z.ltb_ge; lia).
  assert (Hs : Nat.eqb (author e) target = false) by (now apply Nat.eqb_neq).
  split; [|repeat split].
  - unfold steal. open_checks.
    rewrite Ht, (alive_mem _ _ Hal), Hal, Hs, Ela, H10, Elt, H1. cbn [negb andb].
    unfold then_advance.
    rewrite bind_assoc, (bind_val _ (wait_for_reaction_eq _ _ _ _ _)).
    destruct Hgo as [(Hf & -> & ->)
                    |[(reactor & challenger & v & tc & Hf & Hsd & Hb & Hen & Hl & ->)
                     |(reactor & v & tc & Hf & Hc & Hen & Hl & ->)]];
      cbv zeta in Hf; rewrite Hf.
    + rewrite bind_assoc, (bind_val _ Hrun), bind_ret. reflexivity.
    + rewrite !bind_assoc, (bind_val _ (wait_for_reaction_eq _ _ _ _ _)), Hsd.
      rewrite !bind_assoc, (bind_val _ Hb), Hen, Hl.
      rewrite bind_assoc, (bind_val _ Hrun), bind_ret.
      cbn [oc final trace app]. rewrite <- ?app_assoc. reflexivity.
    + rewrite !bind_assoc, (bind_val _ Hc), Hen, Hl.
      rewrite bind_assoc, (bind_val _ Hrun), bind_ret.
      cbn [oc final trace app]. rewrite <- ?app_assoc. reflexivity.
  - simpl. rewrite lookup_assign_other by congruence.
    rewrite lookup_assign_same. reflexivity.
  - simpl. rewrite lookup_assign_same. reflexivity.
  - rewrite Ect. lia.
  - rewrite Ect. lia.
  - rewrite Ect. lia.
Qed.

Lemma steal_transfers_min_witness :
  exists da' dt',
    lookup (players duel) (author (quiet_env 1)) = Some da' /\
    coins da' = coins (mkP [Duke; Captain] 2%Z) /\
    lookup (players duel) 2 = Some dt' /\
    coins dt' = coins (mkP [Contessa; Assassin] 2%Z) /\
    let m := Z.min 2 (coins (mkP [Contessa; Assassin] 2%Z)) in
    let moved := with_coins (with_coins duel (author (quiet_env 1)) da' m) 2 dt' (- m) in
    let adv := advance_turn (quiet_env 1) (author (quiet_env 1)) moved in
    steal (quiet_env 1) 2 duel
      = mkRes (oc adv) (final adv)
              ([Prompt [EBlock; EChallenge] 1 duel] ++ trace adv) /\
    lookup (players moved) (author (quiet_env 1))
      = Some (mkP (cards da') (coins (mkP [Duke; Captain] 2%Z) + m)) /\
    lookup (players moved) 2
      = Some (mkP (cards dt') (coins (mkP [Contessa; Assassin] 2%Z) - m)) /\
    (0 <= coins (mkP [Contessa; Assassin] 2%Z) - m)%Z /\ (1 <= m <= 2)%Z.
Proof.
  apply (steal_transfers_min (quiet_env 1) duel duel 2
           (mkP [Duke; Captain] 2%Z) (mkP [Contessa; Assassin] 2%Z)
           [Prompt [EBlock; EChallenge] 1 duel]).
  - simpl. repeat constructor; simpl; lia.
  - reflexivity.
  - reflexivity.
  - simpl. lia.
  - reflexivity.
  - simpl. lia.
  - reflexivity.
  - simpl. lia.
  - left. repeat split; reflexivity.
  - reflexivity.
Defined.

(** ** Shuffling *)

Lemma upd_length {A} (l : list A) i x : length (upd l i x) = length l.
Proof.
  revert i. induction l as [|y t IH]; intros [|i]; simpl; auto.
Qed.

Lemma upd_perm_cons {A} (t : list A) j b x :
  nth_error t j = Some b -> Permutation (b :: upd t j x) (x :: t).
Proof.
  revert j. induction t as [|y t IH]; intros [|j]; simpl; try discriminate.
  - intros [= ->]. apply perm_swap.
  - intros H. etransitivity; [apply perm_swap|].
    etransitivity; [|apply perm_swap]. constructor. now apply IH.
Qed.

Lemma swap_perm {A} (l : list A) i j : Permutation (swap l i j) l.
Proof.
  unfold swap. revert i j. induction l as [|x t IH]; intros i j.
  - destruct i, j; reflexivity.
  - destruct i as [|i], j as [|j]; simpl.
    + reflexivity.
    + destruct (nth_error t j) as [b|] eqn:E; [|reflexivity].
      now apply upd_perm_cons.
    + destruct (nth_error t i) as [a|] eqn:E; [|reflexivity].
      now apply upd_perm_cons.
    + specialize (IH i j).
      destruct (nth_error t i) as [a|]; [|reflexivity].
      destruct (nth_error t j) as [b|]; [|reflexivity].
      now constructor.
Qed.

Lemma shuffle_from_perm {A} i rs (l : list A) : Permutation (shuffle_from i rs l) l.
Proof.
  revert rs l. induction i as [|i IH]; intros rs l; simpl; [reflexivity|].
  rewrite IH. apply swap_perm.
Qed.

Lemma shuffle_perm {A} rs (l : list A) : Permutation (shuffle rs l) l.
Proof. apply shuffle_from_perm. Qed.

Lemma shuffle_length {A} rs (l : list A) : length (shuffle rs l) = length l.
Proof. apply Permutation_length, shuffle_perm. Qed.

(** ** Who wins, and what a win by elimination leaves *)

Lemma win_check_iff st :
  (exists w, check_win_condition st = Some w) <-> alive_count st = 1.
Proof.
  unfold check_win_condition, alive_count.
  destruct (filter (is_player_alive st) (keys (players st))) as [|x [|y t]]; simpl;
    split; try discriminate; try (intros (w & H); discriminate); eauto.
Qed.

Lemma elimination_win_resets e p st :
  ensures (handle_player_elimination e p) st
    (fun r s => snd (fst r) = true ->
                players s = [] /\ Permutation (court_deck s) fresh_deck /\
                length (court_deck s) = 15 /\ discarded_cards s = [] /\
                game_started s = false /\ current_player s = None).
Proof.
  unfold handle_player_elimination. apply ensures_player_data. intros d El.
  destruct (length (cards d) =? 0).
  2: { intros H. discriminate. }
  apply ensures_reader; [apply get_next_player_final|]. intros next.
  apply ensures_modify_bind, ensures_get.
  match goal with |- context [check_win_condition ?s] =>
    destruct (check_win_condition s) as [w|] end.
  2: { intros H. discriminate. }
  apply ensures_emit_bind.
  apply ensures_reader; [apply reveal_winner_hand_final|]. intros _.
  apply ensures_modify_bind. unfold shuffle_deck. apply ensures_modify_bind.
  intros _. simpl. repeat split.
  - apply shuffle_perm.
  - now rewrite shuffle_length.
Qed.

(** C2.  The win check names a winner exactly when one live player is
    left ([win_check_iff]), and a win by elimination resets roster, deck
    and discard pile ([elimination_win_resets]).  The win declared in
    [advance_turn] when the next player has left the guild does not:
    player 1 takes income, player 2 is gone, player 1 is announced as the
    winner, the roster is emptied and the game flagged as over, but the
    court deck still holds the eleven cards of the game just played and
    the discard pile still holds the card lost in it. *)
Theorem departure_win_keeps_deck_and_discards :
  let r := income leave_env late_duel in
  oc r = Val tt /\
  trace r = [PlayerLeft 2; GameOver 1] /\
  players (final r) = [] /\
  game_started (final r) = false /\
  current_player (final r) = None /\
  court_deck (final r) = court_deck late_duel /\
  length (court_deck (final r)) = 11 /\
  discarded_cards (final r) = [Captain].
Proof. vm_compute. repeat split. Qed.

(** ** The roster as a dictionary *)

Lemma lookup_In_keys r u d : lookup r u = Some d -> In u (keys r).
Proof. intros H. apply mem_keys, mem_lookup. eauto. Qed.

Lemma assign_absent r u d : lookup r u = None -> assign r u d = r ++ [(u, d)].
Proof.
  induction r as [|[k v] t IH]; simpl; [reflexivity|].
  destruct (Nat.eqb k u); [discriminate|]. intros H. now rewrite IH.
Qed.

Lemma keys_assign r u d :
  keys (assign r u d) = if mem r u then keys r else keys r ++ [u].
Proof.
  destruct (mem r u) eqn:E.
  - now apply keys_assign_present.
  - unfold mem in E. destruct (lookup r u) eqn:El; [discriminate|].
    rewrite assign_absent by exact El. unfold keys. now rewrite map_app.
Qed.

Lemma NoDup_keys_assign r u d : NoDup (keys r) -> NoDup (keys (assign r u d)).
Proof.
  intros H. rewrite keys_assign. destruct (mem r u) eqn:E; [exact H|].
  apply NoDup_app; [exact H | repeat constructor; simpl; tauto |].
  intros k Hk [<-|[]]. apply mem_keys in Hk. congruence.
Qed.

Lemma length_assign_present r u d : mem r u = true -> length (assign r u d) = length r.
Proof.
  intros H.
  pose proof (keys_assign_present r u d H) as E.
  apply (f_equal (@length _)) in E. unfold keys in E. now rewrite !length_map in E.
Qed.

Lemma length_delete r u : length (delete r u) <= length r.
Proof.
  induction r as [|[k v] t IH]; simpl; [lia|].
  destruct (Nat.eqb k u); simpl; lia.
Qed.

Lemma seat_joiners_spec js acc :
  NoDup (keys acc) -> undealt acc ->
  NoDup (keys (seat_joiners js acc)) /\ undealt (seat_joiners js acc) /\
  (forall u, In u (keys (seat_joiners js acc)) <-> In u (keys acc) \/ In u js).
Proof.
  unfold seat_joiners. revert acc. induction js as [|j js IH]; intros acc Hn Hu; simpl.
  - repeat split; auto. intros [H|[]]; auto.
  - destruct (IH (assign acc j (mkP [] 2%Z))) as (H1 & H2 & H3).
    + now apply NoDup_keys_assign.
    + intros u d. destruct (Nat.eq_dec j u) as [<-|N].
      * rewrite lookup_assign_same. now intros [= <-].
      * rewrite lookup_assign_other by exact N. apply Hu.
    + repeat split; auto.
      * intros Hin. apply H3 in Hin as [H|H]; auto.
        rewrite keys_assign in H. destruct (mem acc j); auto.
        apply in_app_or in H as [H|[<-|[]]]; auto.
      * intros H. apply H3. rewrite keys_assign.
        destruct (mem acc j) eqn:E.
        -- destruct H as [H|[<-|H]]; auto. left. now apply mem_keys.
        -- rewrite in_app_iff. simpl. tauto.
Qed.

Lemma reorder_spec old pl acc :
  NoDup pl ->
  (forall p, In p pl -> ~ In p (keys acc)) ->
  (forall p, In p pl -> mem old p = true) ->
  exists r', reorder old pl acc = Some r' /\
             keys r' = keys acc ++ pl /\
             (forall u, In u pl -> lookup r' u = lookup old u) /\
             (forall u, ~ In u pl -> lookup r' u = lookup acc u).
Proof.
  revert acc. induction pl as [|p t IH]; intros acc Hn Hd Hm; simpl.
  - exists acc. rewrite app_nil_r. repeat split; auto. intros u [].
  - inversion Hn as [|? ? Hp Ht]; subst.
    destruct (lookup old p) as [d|] eqn:El.
    2: { specialize (Hm p (or_introl eq_refl)). apply mem_lookup in Hm as (d & Hd').
         congruence. }
    assert (Ha : lookup acc p = None).
    { apply lookup_None_keys. apply Hd. now left. }
    destruct (IH (assign acc p d)) as (r' & Hr & Hk & Hin & Hout); auto.
    + intros q Hq. rewrite keys_assign.
      assert (Hmem : mem acc p = false) by (unfold mem; now rewrite Ha).
      rewrite Hmem. intros H. apply in_app_or in H as [H|[<-|[]]].
      * apply (Hd q); auto. now right.
      * contradiction.
    + intros q Hq. apply Hm. now right.
    + exists r'. split; [exact Hr|]. split; [|split].
      * rewrite Hk, keys_assign.
        assert (Hmem : mem acc p = false) by (unfold mem; now rewrite Ha).
        rewrite Hmem, <- app_assoc. reflexivity.
      * intros u [<-|Hu]; [|now apply Hin].
        rewrite Hout by exact Hp. rewrite lookup_assign_same. now rewrite El.
      * intros u Hu. rewrite Hout by tauto.
        apply lookup_assign_other. intros <-. apply Hu. now left.
Qed.

Lemma drop_players_spec failed r :
  NoDup (keys r) ->
  NoDup (keys (drop_players failed r)) /\
  (forall u, In u failed -> lookup (drop_players failed r) u = None) /\
  (forall u, ~ In u failed -> lookup (drop_players failed r) u = lookup r u) /\
  length (drop_players failed r) <= length r.
Proof.
  unfold drop_players. revert r. induction failed as [|p t IH]; intros r Hn; simpl.
  - repeat split; auto. intros u [].
  - set (r1 := if mem r p then delete r p else r).
    assert (Hn1 : NoDup (keys r1)).
    { subst r1. destruct (mem r p); auto using NoDup_keys_delete. }
    assert (Hp : lookup r1 p = None).
    { subst r1. destruct (mem r p) eqn:E; [now apply lookup_delete_same|].
      unfold mem in E. now destruct (lookup r p). }
    assert (Ho : forall u, u <> p -> lookup r1 u = lookup r u).
    { intros u N. subst r1. destruct (mem r p); auto.
      apply lookup_delete_other. congruence. }
    assert (Hl : length r1 <= length r).
    { subst r1. destruct (mem r p); auto using length_delete. }
    destruct (IH r1 Hn1) as (H1 & H2 & H3 & H4).
    split; [exact H1|]. split; [|split].
    + intros u [<-|Hu]; [|now apply H2].
      destruct (in_dec Nat.eq_dec p t) as [Hi|Hi]; [now apply H2|].
      now rewrite H3.
    + intros u Hu. rewrite H3 by tauto. apply Ho. intros ->. apply Hu. now left.
    + lia.
Qed.

Lemma drop_players_nil r : drop_players [] r = r.
Proof. reflexivity. Qed.

Lemma hand_total_two r :
  NoDup (keys r) -> dealt_two r -> hand_total r = 2 * length r.
Proof.
  unfold hand_total. induction r as [|[k v] t IH]; simpl; [reflexivity|].
  intros Hn Hd. inversion Hn as [|? ? Hk Ht]; subst.
  destruct (Hd k v) as (c1 & c2 & ->).
  { simpl. now rewrite Nat.eqb_refl. }
  simpl. rewrite IH; [lia|exact Ht|].
  intros u d Hl. apply (Hd u). simpl.
  destruct (Nat.eqb_spec k u); [|exact Hl].
  subst. exfalso. apply Hk. eapply lookup_In_keys; eauto.
Qed.

Lemma hand_total_undealt r : undealt r -> NoDup (keys r) -> hand_total r = 0.
Proof.
  unfold hand_total. induction r as [|[k v] t IH]; simpl; [reflexivity|].
  intros Hd Hn. inversion Hn as [|? ? Hk Ht]; subst.
  rewrite (Hd k v) by (simpl; now rewrite Nat.eqb_refl).
  simpl. apply IH; [|exact Ht].
  intros u d Hl. apply (Hd u). simpl.
  destruct (Nat.eqb_spec k u); [|exact Hl].
  subst. exfalso. apply Hk. eapply lookup_In_keys; eauto.
Qed.

(** ** Dealing *)

Lemma pop_two {A} (l : list A) :
  2 <= length l ->
  exists c1 c2 l2, pop l = Some (c1, l2 ++ [c2]) /\ pop (l2 ++ [c2]) = Some (c2, l2) /\
                   length l = 2 + length l2.
Proof.
  intros H.
  destruct (pop l) as [[c1 l1]|] eqn:E1.
  2: { apply pop_None in E1. subst. simpl in H. lia. }
  pose proof (pop_length E1) as L1.
  destruct (pop l1) as [[c2 l2]|] eqn:E2.
  2: { apply pop_None in E2. subst. simpl in L1. lia. }
  pose proof (pop_length E2) as L2.
  apply pop_Some in E2. subst l1.
  exists c1, c2, l2. split; [reflexivity|]. split; [apply pop_snoc|lia].
Qed.

Lemma deal_loop_spec ps st :
  NoDup ps ->
  (forall p, In p ps -> mem (players st) p = true) ->
  2 * length ps <= length (court_deck st) ->
  exists st',
    deal_loop ps st = mkRes (Val true) st' [] /\
    keys (players st') = keys (players st) /\
    length (court_deck st') + 2 * length ps = length (court_deck st) /\
    discarded_cards st' = discarded_cards st /\
    game_started st' = game_started st /\
    current_player st' = current_player st /\
    (forall p, In p ps ->
       exists c1 c2 d, lookup (players st) p = Some d /\
                       lookup (players st') p = Some (mkP [c1; c2] (coins d))) /\
    (forall p, ~ In p ps -> lookup (players st') p = lookup (players st) p).
Proof.
  revert st. induction ps as [|p t IH]; intros st Hn Hm Hlen.
  - exists st. simpl. repeat split; auto. intros p [].
  - inversion Hn as [|? ? Hp Ht]; subst. simpl length in Hlen.
    destruct (pop_two (court_deck st)) as (c1 & c2 & l2 & E1 & E2 & L); [lia|].
    destruct (proj1 (mem_lookup _ _) (Hm p (or_introl eq_refl))) as (d & El).
    set (s2 := set_court_deck l2 (set_court_deck (l2 ++ [c2]) st)).
    set (s3 := set_players (assign (players s2) p (mkP [c1; c2] (coins d))) s2).
    destruct (IH s3) as (st' & Hrun & Hk & Hd & Hdi & Hgs & Hcp & Hin & Hout).
    + exact Ht.
    + intros q Hq. simpl. apply mem_assign. apply Hm. now right.
    + simpl. lia.
    + exists st'. split.
      * cbn [deal_loop]. rewrite bind_get.
        assert (Hlt : (length (court_deck st) <? 2) = false) by (apply Nat.ltb_ge; lia).
        rewrite Hlt.
        rewrite (bind_val _ (pop_deck_found E1)). cbn [app].
        assert (E2' : pop (court_deck (set_court_deck (l2 ++ [c2]) st)) = Some (c2, l2))
          by exact E2.
        rewrite (bind_val _ (pop_deck_found E2')). cbn [app].
        assert (El' : lookup (players s2) p = Some d) by exact El.
        fold s2. rewrite (bind_val _ (set_cards_found El')). cbn [app].
        fold s3. rewrite Hrun. reflexivity.
      * split; [|split; [|split; [|split; [|split; [|split]]]]].
        -- rewrite Hk. simpl. apply keys_assign_present. exact (Hm p (or_introl eq_refl)).
        -- simpl in Hd. simpl. lia.
        -- now rewrite Hdi.
        -- now rewrite Hgs.
        -- now rewrite Hcp.
        -- intros q [<-|Hq].
           ++ exists c1, c2, d. split; [exact El|].
              rewrite Hout by exact Hp. simpl. apply lookup_assign_same.
           ++ destruct (Hin q Hq) as (a & b & dq & H1 & H2).
              exists a, b, dq. split; [|exact H2].
              simpl in H1. rewrite lookup_assign_other in H1; auto.
              intros <-. contradiction.
        -- intros q Hq. rewrite Hout by (intros H; apply Hq; now right).
           simpl. apply lookup_assign_other. intros <-. apply Hq. now left.
Qed.

Lemma final_bind_readers {A B} (c : M A) (k : A -> M B) st :
  (forall s, final (c s) = s) -> (forall a s, final (k a s) = s) ->
  final (bind c k st) = st.
Proof.
  intros Hc Hk. unfold bind. specialize (Hc st).
  destruct (c st) as [[a| |] s t]; simpl in *; subst; auto.
Qed.

Lemma list_sum_map_perm {A} (f : A -> nat) l l' :
  Permutation l l' -> list_sum (map f l) = list_sum (map f l').
Proof. intros Hp. induction Hp; simpl; lia. Qed.

Lemma NoDup_keys_lookup_perm r r' :
  NoDup (keys r) -> NoDup (keys r') -> Permutation (keys r') (keys r) ->
  (forall u, lookup r' u = lookup r u) ->
  hand_total r' = hand_total r.
Proof.
  intros Hn Hn' Hp Hl.
  assert (G : forall r, NoDup (keys r) ->
              hand_total r =
              list_sum (map (fun u => match lookup r u with
                                      | Some d => length (cards d) | None => 0 end)
                            (keys r))).
  { clear. unfold hand_total. induction r as [|[k v] t IH]; simpl; [reflexivity|].
    intros Hn. inversion Hn as [|? ? Hk Ht]; subst.
    rewrite Nat.eqb_refl. f_equal. rewrite IH by exact Ht.
    f_equal. apply map_ext_in. intros u Hu.
    destruct (Nat.eqb_spec k u); [subst; contradiction|reflexivity]. }
  rewrite (G r Hn), (G r' Hn').
  rewrite (map_ext _ (fun u => match lookup r u with
                               | Some d => length (cards d) | None => 0 end)).
  2: { intros u. now rewrite Hl. }
  now apply list_sum_map_perm.
Qed.

(** ** Starting a game *)

Lemma seated_at_start_spec e :
  NoDup (keys (seated_at_start e)) /\ undealt (seated_at_start e) /\
  (forall u, In u (keys (seated_at_start e)) <-> In u (joiners e)).
Proof.
  destruct (seat_joiners_spec (joiners e) []) as (H1 & H2 & H3).
  - constructor.
  - intros u d H. discriminate.
  - repeat split; auto.
    + intros Hu. apply H3 in Hu as [[]|H]; auto.
    + intros Hu. apply H3. now right.
Qed.

Lemma fresh_deck_length : length fresh_deck = 15.
Proof. reflexivity. Qed.

(** [start] up to the join phase. *)
Lemma start_unfold e st :
  has_perms e = true -> game_started st = false ->
  start e st =
  if length (seated_at_start e) <? 2 then
    mkRes (Val tt)
          (mkTable (seated_at_start e) (shuffle (rand_deck e) fresh_deck) [] false
                   (current_player st))
          [Err NotEnoughPlayers]
  else
    bind deal_cards
         (fun dealt =>
            if negb dealt then send_error DeckError ;; modify (set_game_started false)
            else start_after_deal e)
         (mkTable (seated_at_start e) (shuffle (rand_deck e) fresh_deck) [] true
                  (current_player st)).
Proof.
  intros Hp Hg. unfold start. rewrite Hp. cbn [negb]. rewrite bind_get, Hg.
  rewrite bind_modify. unfold shuffle_deck. rewrite bind_modify, bind_modify, bind_get.
  destruct st as [pl dk ds gs cp]. simpl in Hg. subst gs.
  unfold set_players, set_court_deck, set_discarded_cards, seated_at_start.
  cbn [players court_deck discarded_cards game_started current_player].
  destruct (length (seat_joiners (joiners e) []) <? 2); [reflexivity|].
  rewrite bind_modify. reflexivity.
Qed.

Lemma deal_cards_too_many sd :
  length (court_deck sd) = 15 -> 7 < length (players sd) ->
  deal_cards sd = mkRes (Val false) sd [].
Proof.
  intros Hd Hn. unfold deal_cards. rewrite bind_get, Hd.
  now rewrite (proj2 (Nat.ltb_lt _ _)) by lia.
Qed.

Lemma deal_cards_deals sd :
  length (court_deck sd) = 15 -> length (players sd) <= 7 ->
  NoDup (keys (players sd)) -> undealt (players sd) ->
  exists se,
    deal_cards sd = mkRes (Val true) se [] /\
    keys (players se) = keys (players sd) /\
    length (court_deck se) + 2 * length (players sd) = 15 /\
    discarded_cards se = discarded_cards sd /\
    game_started se = game_started sd /\
    current_player se = current_player sd /\
    dealt_two (players se).
Proof.
  intros Hd Hn Hnd Hu.
  assert (Hlen : length (keys (players sd)) = length (players sd))
    by (unfold keys; apply length_map).
  destruct (deal_loop_spec (keys (players sd)) sd) as
      (se & Hrun & Hk & Hdk & Hdi & Hgs & Hcp & Hin & Hout).
  { exact Hnd. }
  { intros p Hp. now apply mem_keys. }
  { rewrite Hlen. lia. }
  exists se. split.
  { unfold deal_cards. rewrite bind_get, Hd.
    now rewrite (proj2 (Nat.ltb_ge _ _)) by lia. }
  repeat split; auto.
  - rewrite Hlen in Hdk. lia.
  - intros u d Hl.
    assert (Hi : In u (keys (players sd))) by (rewrite <- Hk; eapply lookup_In_keys; eauto).
    destruct (Hin u Hi) as (c1 & c2 & d0 & H0 & H1).
    rewrite Hl in H1. injection H1 as ->. rewrite (Hu _ _ H0). simpl. eauto.
Qed.

Lemma start_after_deal_final e se :
  NoDup (keys (players se)) -> 1 <= length (players se) ->
  exists dealt first,
    NoDup (keys dealt) /\
    Permutation (keys dealt) (keys (players se)) /\
    (forall u, lookup dealt u = lookup (players se) u) /\
    In first (keys dealt) /\
    final (start_after_deal e se) =
    mkTable (drop_players (unreachable e dealt) dealt) (court_deck se)
            (discarded_cards se)
            (if length (drop_players (unreachable e dealt) dealt) <? 2
             then false else game_started se)
            (Some first).
Proof.
  intros Hnd Hlen. unfold start_after_deal. rewrite bind_get. cbv zeta.
  remember (shuffle (rand_order e) (keys (players se))) as pl eqn:Epl.
  assert (Hperm : Permutation pl (keys (players se))).
  { subst pl. apply shuffle_perm. }
  clear Epl.
  destruct (reorder_spec (players se) pl []) as (dealt & Hr & Hkd & Hind & Houtd).
  { eapply Permutation_NoDup; [symmetry; exact Hperm|exact Hnd]. }
  { intros p _ []. }
  { intros p Hp'. apply mem_keys. eapply Permutation_in; eauto. }
  simpl in Hkd.
  assert (Hlook : forall u, lookup dealt u = lookup (players se) u).
  { intros u. destruct (in_dec Nat.eq_dec u pl) as [Hi|Hi]; [now apply Hind|].
    rewrite Houtd by exact Hi. simpl. symmetry. apply lookup_None_keys.
    intros H. apply Hi. eapply Permutation_in; [symmetry|]; eauto. }
  assert (Hl : length pl = length (players se)).
  { rewrite (Permutation_length Hperm). unfold keys. apply length_map. }
  rewrite Hr.
  destruct pl as [|first rest]; [simpl in Hl; lia|].
  exists dealt, first.
  split; [|split; [|split; [|split]]].
  - rewrite Hkd. eapply Permutation_NoDup; [symmetry; exact Hperm|exact Hnd].
  - now rewrite Hkd.
  - exact Hlook.
  - rewrite Hkd. now left.
  - rewrite bind_modify, bind_modify, bind_modify, bind_get.
    cbn [players set_players set_current_player].
    fold (unreachable e dealt).
    destruct (length (drop_players (unreachable e dealt) dealt) <? 2).
    + reflexivity.
    + rewrite final_bind_readers.
      * reflexivity.
      * apply check_forced_coup_final.
      * intros [|] s; [reflexivity|apply enhanced_turn_announcement_final].
Qed.

(** The three ways [start] can go on a table without a running game:
    too few joiners, too many for the deck, or a deal followed by the
    removal of the players who cannot be sent their cards. *)
Lemma start_outcome e st :
  has_perms e = true -> game_started st = false ->
  (length (seated_at_start e) < 2 ->
     start e st = mkRes (Val tt)
                    (mkTable (seated_at_start e) (shuffle (rand_deck e) fresh_deck) []
                             false (current_player st))
                    [Err NotEnoughPlayers]) /\
  (7 < length (seated_at_start e) ->
     start e st = mkRes (Val tt)
                    (mkTable (seated_at_start e) (shuffle (rand_deck e) fresh_deck) []
                             false (current_player st))
                    [Err DeckError]) /\
  (2 <= length (seated_at_start e) <= 7 ->
     exists dealt deck1 first,
       NoDup (keys dealt) /\ dealt_two dealt /\
       Permutation (keys dealt) (keys (seated_at_start e)) /\
       length deck1 + 2 * length (seated_at_start e) = 15 /\
       In first (keys dealt) /\
       final (start e st) =
       mkTable (drop_players (unreachable e dealt) dealt) deck1 []
               (negb (length (drop_players (unreachable e dealt) dealt) <? 2))
               (Some first)).
Proof.
  intros Hp Hg. rewrite (start_unfold e st Hp Hg).
  destruct (seated_at_start_spec e) as (Hn0 & Hu0 & _).
  pose proof (shuffle_length (rand_deck e) fresh_deck) as Hdeck.
  change (length fresh_deck) with 15 in Hdeck.
  generalize dependent (shuffle (rand_deck e) fresh_deck). intros deck0 Hdeck.
  generalize dependent (seated_at_start e). intros r0 Hn0 Hu0.
  split; [|split].
  - intros Hlt. now rewrite (proj2 (Nat.ltb_lt _ _) Hlt).
  - intros Hgt. rewrite (proj2 (Nat.ltb_ge _ _)) by lia.
    rewrite (bind_pure _ (deal_cards_too_many (mkTable r0 deck0 [] true (current_player st)) Hdeck Hgt)).
    reflexivity.
  - intros [Hlo Hhi]. rewrite (proj2 (Nat.ltb_ge _ _)) by lia.
    destruct (deal_cards_deals (mkTable r0 deck0 [] true (current_player st)))
      as (se & Hrun & Hk & Hdk & Hdi & Hgs & Hcp & Htwo); auto.
    cbn [players court_deck discarded_cards game_started current_player]
      in Hk, Hdk, Hdi, Hgs, Hcp.
    rewrite (bind_val _ Hrun). cbn [negb final].
    destruct (start_after_deal_final e se) as (dealt & first & Hnd & Hperm & Hlook & Hin & Hfin).
    { now rewrite Hk. }
    { assert (length (keys (players se)) = length r0)
        by (rewrite Hk; unfold keys; apply length_map).
      unfold keys in H. rewrite length_map in H. lia. }
    exists dealt, (court_deck se), first.
    split; [exact Hnd|]. split; [|split; [|split; [|split]]].
    + intros u d Hl. rewrite Hlook in Hl. eapply Htwo; eauto.
    + now rewrite Hperm, Hk.
    + exact Hdk.
    + exact Hin.
    + rewrite Hfin, Hdi, Hgs.
      now destruct (length (drop_players (unreachable e dealt) dealt) <? 2).
Qed.

Lemma start_after_deal_crash e se first :
  NoDup (keys (players se)) -> 1 <= length (players se) ->
  let r := start_after_deal e se in
  current_player (final r) = Some first ->
  mem (players (final r)) first = false ->
  game_started (final r) = true ->
  oc r = Exn KeyError /\ trace r = [].
Proof.
  intros Hnd Hlen. unfold start_after_deal. rewrite bind_get. cbv zeta.
  remember (shuffle (rand_order e) (keys (players se))) as pl eqn:Epl.
  assert (Hperm : Permutation pl (keys (players se))).
  { subst pl. apply shuffle_perm. }
  clear Epl.
  destruct (reorder_spec (players se) pl []) as (dealt & Hr & _).
  { eapply Permutation_NoDup; [symmetry; exact Hperm|exact Hnd]. }
  { intros p _ []. }
  { intros p Hp'. apply mem_keys. eapply Permutation_in; eauto. }
  assert (Hl : length pl = length (players se)).
  { rewrite (Permutation_length Hperm). unfold keys. apply length_map. }
  rewrite Hr.
  destruct pl as [|first' rest]; [simpl in Hl; lia|].
  rewrite bind_modify, bind_modify, bind_modify, bind_get.
  cbn [players set_players set_current_player].
  destruct (length (drop_players
                      (filter (fun p => negb (dm_cards_ok e p)) (keys dealt)) dealt) <? 2).
  { cbn. discriminate. }
  match goal with |- context [bind (check_forced_coup e first') ?k ?s] =>
    set (s3 := s); set (k3 := k) end.
  assert (Hfin : final (bind (check_forced_coup e first') k3 s3) = s3).
  { apply final_bind_readers; [apply check_forced_coup_final|].
    intros [|] s; [reflexivity|apply enhanced_turn_announcement_final]. }
  rewrite Hfin. intros Hcp Hm _.
  assert (first' = first) by (cbn in Hcp; congruence). subst first'.
  assert (El : lookup (players s3) first = None).
  { unfold mem in Hm. now destruct (lookup (players s3) first). }
  unfold check_forced_coup.
  rewrite bind_assoc, (bind_exn _ (player_data_missing El)). split; reflexivity.
Qed.

Lemma start_crash e st first :
  has_perms e = true -> game_started st = false ->
  2 <= length (seated_at_start e) <= 7 ->
  current_player (final (start e st)) = Some first ->
  mem (players (final (start e st))) first = false ->
  game_started (final (start e st)) = true ->
  oc (start e st) = Exn KeyError /\ trace (start e st) = [].
Proof.
  intros Hp Hg [Hlo Hhi]. rewrite (start_unfold e st Hp Hg).
  destruct (seated_at_start_spec e) as (Hn0 & Hu0 & _).
  pose proof (shuffle_length (rand_deck e) fresh_deck) as Hdeck.
  change (length fresh_deck) with 15 in Hdeck.
  generalize dependent (shuffle (rand_deck e) fresh_deck). intros deck0 Hdeck.
  generalize dependent (seated_at_start e). intros r0 Hlo Hhi Hn0 Hu0.
  rewrite (proj2 (Nat.ltb_ge _ _)) by lia.
  destruct (deal_cards_deals (mkTable r0 deck0 [] true (current_player st)))
    as (se & Hrun & Hk & _); auto.
  cbn [players] in Hk.
  rewrite (bind_val _ Hrun). cbn [negb oc final trace app].
  apply start_after_deal_crash.
  - now rewrite Hk.
  - assert (length (keys (players se)) = length r0)
      by (rewrite Hk; unfold keys; apply length_map).
    unfold keys in H. rewrite length_map in H. lia.
Qed.

Lemma fewer_seats (r r' : roster) u :
  NoDup (keys r') -> (forall v, In v (keys r') -> In v (keys r)) ->
  In u (keys r) -> ~ In u (keys r') -> length r' < length r.
Proof.
  intros Hn Hsub Hu Hnu.
  assert (H : length (u :: keys r') <= length (keys r)).
  { apply NoDup_incl_length; [now constructor|].
    intros v [<-|Hv]; auto. }
  unfold keys in H. cbn [length] in H. rewrite !length_map in H. lia.
Qed.

(** A current player without a seat is out of reach of every action
    command: the others are turned down as out of turn, and the
    commands of the current player stop at a check or at the lookup of
    their own seat. *)
Lemma unseated_turn_is_stuck c e st :
  is_action c = true ->
  (forall u, current_player st = Some u -> mem (players st) u = false) ->
  final (run c e st) = st.
Proof.
  intros Ha Hcp. destruct (is_turn st (author e)) eqn:Ht.
  - assert (El : lookup (players st) (author e) = None).
    { unfold is_turn in Ht. destruct (current_player st) as [cp|]; [|discriminate].
      apply Nat.eqb_eq in Ht. subst cp. specialize (Hcp _ eq_refl).
      unfold mem in Hcp. now destruct (lookup (players st) (author e)). }
    destruct c; try discriminate; cbn [run];
      unfold income, foreign_aid, coup, assassinate, tax, steal, exchange;
      open_checks; rewrite ?Ht, ?El;
      repeat match goal with
             | |- context [if ?b then _ else _] => destruct b
             end; reflexivity.
  - destruct c; try discriminate; cbn [run];
      unfold income, foreign_aid, coup, assassinate, tax, steal, exchange;
      rewrite checked_turn, Ht; reflexivity.
Qed.

(** C3.  [start] drops the members it cannot reach after the deal, not
    before it.  A member who joined and cannot be sent their hand has
    been dealt two cards when they are taken off the roster, and the
    cards go with them: the deck is short of two cards for every joiner,
    dropped or not, and the table holds thirteen cards at most.  The
    player to move was chosen before the drop as well: when the shuffle
    of the seats put a member first who is then dropped, and two players
    or more remain, [start] leaves the game flagged as started with a
    current player who has no seat, and raises [KeyError] in
    [check_forced_coup] before any turn is announced; no action command
    can change that table any more.  The game is flagged as started
    exactly when two players or more remain. *)
Theorem start_drops_after_the_deal (e : env) (st : table) (u : user) :
  has_perms e = true -> game_started st = false ->
  2 <= length (seated_at_start e) <= 7 ->
  In u (joiners e) -> dm_cards_ok e u = false ->
  let r := start e st in
  let s := final r in
  mem (players s) u = false /\
  length (court_deck s) + 2 * length (seated_at_start e) = 15 /\
  length (players s) < length (seated_at_start e) /\
  total s <= 13 /\
  game_started s = negb (length (players s) <? 2) /\
  exists first,
    current_player s = Some first /\ In first (joiners e) /\
    (dm_cards_ok e first = false -> 2 <= length (players s) ->
       game_started s = true /\ mem (players s) first = false /\
       oc r = Exn KeyError /\ trace r = [] /\
       forall c e', is_action c = true -> final (run c e' s) = s).
Proof.
  intros Hp Hg Hn Hu Hdm. cbv zeta.
  pose proof (start_crash e st) as Hcrash. specialize (fun f => Hcrash f Hp Hg Hn).
  destruct (start_outcome e st Hp Hg) as (_ & _ & H). specialize (H Hn).
  destruct H as (dealt & deck1 & first & Hnd & Htwo & Hperm & Hdeck & Hfirst & Hfin).
  rewrite Hfin in *.
  cbn [players court_deck game_started current_player] in *.
  destruct (seated_at_start_spec e) as (_ & _ & Hj).
  destruct (drop_players_spec (unreachable e dealt) dealt Hnd) as (Hnk & Hin & Hout & _).
  assert (Hfail : forall v, In v (unreachable e dealt) <->
                            In v (keys dealt) /\ dm_cards_ok e v = false).
  { intros v. unfold unreachable. rewrite filter_In, negb_true_iff. tauto. }
  assert (Hseated : forall v, In v (joiners e) -> In v (keys dealt)).
  { intros v Hv. eapply Permutation_in; [symmetry; exact Hperm|]. now apply Hj. }
  assert (Hgone : forall v, In v (joiners e) -> dm_cards_ok e v = false ->
                            mem (drop_players (unreachable e dealt) dealt) v = false).
  { intros v Hv Hd. unfold mem. rewrite Hin; [reflexivity|]. apply Hfail. auto. }
  assert (Hsub : forall v d, lookup (drop_players (unreachable e dealt) dealt) v = Some d ->
                             lookup dealt v = Some d).
  { intros v d Hl.
    destruct (in_dec Nat.eq_dec v (unreachable e dealt)) as [Hi|Hi];
      [rewrite Hin in Hl by exact Hi; discriminate|].
    now rewrite Hout in Hl by exact Hi. }
  assert (Hlen : length dealt = length (seated_at_start e)).
  { pose proof (Permutation_length Hperm) as H. unfold keys in H.
    now rewrite !length_map in H. }
  assert (Hless : length (drop_players (unreachable e dealt) dealt)
                  < length (seated_at_start e)).
  { rewrite <- Hlen. apply (fewer_seats dealt _ u); auto.
    - intros v Hv. apply mem_keys, mem_lookup in Hv as (d & Hd).
      eapply lookup_In_keys, Hsub, Hd.
    - intros Hv. apply mem_keys in Hv. rewrite Hgone in Hv by assumption.
      discriminate. }
  assert (Hhands : hand_total (drop_players (unreachable e dealt) dealt)
                   = 2 * length (drop_players (unreachable e dealt) dealt)).
  { apply hand_total_two; [exact Hnk|]. intros v d Hl. eapply Htwo, Hsub, Hl. }
  split; [now apply Hgone|]. split; [exact Hdeck|]. split; [exact Hless|].
  split; [unfold total; cbn [players court_deck discarded_cards length]; lia|].
  split; [reflexivity|].
  exists first. split; [reflexivity|]. split.
  { apply Hj. eapply Permutation_in; [exact Hperm|exact Hfirst]. }
  intros Hd H2.
  assert (Hst : negb (length (drop_players (unreachable e dealt) dealt) <? 2) = true).
  { rewrite (proj2 (Nat.ltb_ge _ _)) by lia. reflexivity. }
  assert (Hm : mem (drop_players (unreachable e dealt) dealt) first = false).
  { unfold mem. rewrite Hin; [reflexivity|]. apply Hfail. auto. }
  split; [exact Hst|]. split; [exact Hm|].
  destruct (Hcrash first eq_refl Hm Hst) as [Hoc Htr].
  split; [exact Hoc|]. split; [exact Htr|].
  intros c e' Ha. apply unseated_turn_is_stuck; [exact Ha|].
  cbn [current_player players]. intros v [= <-]. exact Hm.
Qed.

Lemma start_drops_after_the_deal_witness :
  let r := start head_drop_env (new_table []) in
  let s := final r in
  dm_cards_ok head_drop_env 2 = false /\
  mem (players s) 2 = false /\ total s <= 13 /\
  game_started s = true /\ current_player s = Some 2 /\
  oc r = Exn KeyError /\ trace r = [] /\
  forall c e', is_action c = true -> final (run c e' s) = s.
Proof.
  destruct (start_drops_after_the_deal head_drop_env (new_table []) 2)
    as (H1 & _ & _ & H4 & _ & first & Hc & _ & Hcrash).
  - reflexivity.
  - reflexivity.
  - vm_compute. lia.
  - simpl. auto.
  - reflexivity.
  - assert (Hf : first = 2) by (vm_compute in Hc; congruence). subst first.
    destruct Hcrash as (G1 & G2 & G3 & G4 & G5).
    + reflexivity.
    + vm_compute. lia.
    + repeat split; assumption.
Defined.

(** ** Card conservation: the helpers *)

#[global] Instance same_total_preorder : PreOrder same_total.
Proof.
  split; unfold same_total.
  - intros st. reflexivity.
  - intros a b c H1 H2. congruence.
Qed.

#[global] Instance keeps_preorder s : PreOrder (keeps s).
Proof.
  split; unfold keeps.
  - intros st H. exact H.
  - intros a b c H1 H2 H. auto.
Qed.

Lemma keeps_same s st st' : total st' = total st -> keeps s st st'.
Proof. unfold keeps, bound. intros E. rewrite E. auto. Qed.

Lemma keeps_fresh s st st' : total st' = 15 -> keeps s st st'.
Proof. unfold keeps, bound. intros E _. destruct s; lia. Qed.

Lemma keeps_le st st' : total st' <= total st -> keeps false st st'.
Proof. unfold keeps, bound. lia. Qed.

Lemma rel_weaken x x' (R R' : table -> table -> Prop) {A} (c : M A) st :
  (x' = true -> x = true) -> (forall s s', R s s' -> R' s s') ->
  rel_at x R c st -> rel_at x' R' c st.
Proof.
  unfold rel_at. intros Hx HR H Hc. apply HR, H.
  destruct (oc (c st)); simpl in *; auto.
Qed.

Lemma same_total_keeps x s {A} (c : M A) :
  rel true same_total c -> rel x (keeps s) c.
Proof.
  intros H st. eapply rel_weaken; [| |apply H]; auto.
  intros a b E. now apply keeps_same.
Qed.

Lemma total_assign st p old d :
  lookup (players st) p = Some old ->
  total (set_players (assign (players st) p d) st) + length (cards old)
  = total st + length (cards d).
Proof.
  intros El. unfold total. simpl.
  pose proof (hand_total_assign (players st) p old d El). lia.
Qed.

Lemma total_delete st p old :
  lookup (players st) p = Some old ->
  total (set_players (delete (players st) p) st) + length (cards old) = total st.
Proof.
  intros El. unfold total. simpl.
  pose proof (hand_total_delete (players st) p old El). lia.
Qed.

Lemma add_coins_same_total p n : rel true same_total (add_coins p n).
Proof.
  intros st. unfold add_coins. rel_step.
  rapply rel_at_modify. unfold same_total.
  pose proof (total_assign st p d (mkP (cards d) (coins d + n)) H). simpl in *. lia.
Qed.

Lemma lose_influence_total p st :
  total (final (lose_influence_with_reveal p st)) = total st.
Proof.
  destruct (lookup (players st) p) as [d|] eqn:El.
  - destruct (pop (cards d)) as [[c rest]|] eqn:Hpop.
    + rewrite (lose_influence_found El Hpop). simpl.
      unfold after_loss, total. simpl.
      pose proof (hand_total_assign (players st) p d (mkP rest (coins d)) El) as H.
      pose proof (pop_length Hpop). simpl in H. rewrite length_app. simpl. lia.
    + apply pop_None in Hpop. rewrite (lose_influence_empty El Hpop). reflexivity.
  - unfold lose_influence_with_reveal.
    rewrite (bind_exn _ (player_data_missing El)). reflexivity.
Qed.

Lemma lose_influence_same_total p : rel true same_total (lose_influence_with_reveal p).
Proof. intros st _. apply lose_influence_total. Qed.

Lemma total_swapped st p d card_name top below :
  lookup (players st) p = Some d ->
  card_in card_name (cards d) = true ->
  pop (court_deck st) = Some (top, below) ->
  total (swapped st p d card_name top below) = total st.
Proof.
  intros El Hin Hpop. unfold swapped, total. simpl.
  pose proof (hand_total_assign (players st) p d
                (mkP (remove_first card_name (cards d)) (coins d)) El) as H1.
  pose proof (hand_total_assign
                (assign (players st) p (mkP (remove_first card_name (cards d)) (coins d)))
                p (mkP (remove_first card_name (cards d)) (coins d))
                (mkP (remove_first card_name (cards d) ++ [top]) (coins d))
                (lookup_assign_same _ _ _)) as H2.
  pose proof (remove_first_length _ _ Hin) as H3.
  pose proof (pop_length Hpop) as H4.
  simpl in H1, H2. rewrite length_app in H2. simpl in H2. lia.
Qed.

Lemma handle_card_swap_total p c st :
  total (final (handle_card_swap p c st)) = total st.
Proof.
  destruct (pop (court_deck st)) as [[top below]|] eqn:Hpop.
  - destruct (lookup (players st) p) as [d|] eqn:El.
    + destruct (card_in c (cards d)) eqn:Hin.
      * rewrite (handle_card_swap_done El Hin Hpop). simpl.
        now apply total_swapped.
      * unfold handle_card_swap. rewrite bind_get.
        destruct (length (court_deck st) <? 1); [reflexivity|].
        rewrite (bind_pure _ (player_data_found El)), Hin. reflexivity.
    + unfold handle_card_swap. rewrite bind_get.
      destruct (length (court_deck st) <? 1); [reflexivity|].
      rewrite (bind_exn _ (player_data_missing El)). reflexivity.
  - apply pop_None in Hpop. unfold handle_card_swap. rewrite bind_get, Hpop.
    reflexivity.
Qed.

Lemma handle_card_swap_same_total p c : rel true same_total (handle_card_swap p c).
Proof. intros st _. apply handle_card_swap_total. Qed.

Lemma total_reset st : total (reset_table st) = 15.
Proof. reflexivity. Qed.

Lemma total_shuffle_deck rs st :
  total (set_court_deck (shuffle rs (court_deck st)) st) = total st.
Proof. unfold total. simpl. now rewrite shuffle_length. Qed.

Lemma handle_player_elimination_keeps s e p :
  rel true (keeps s) (handle_player_elimination e p).
Proof.
  intros st. unfold handle_player_elimination. rel_step.
  destruct (length (cards d) =? 0) eqn:E; [|rel_step].
  apply Nat.eqb_eq in E.
  rapply rel_at_reader; [apply get_next_player_final|]. intros next _.
  rapply rel_at_modify_bind.
  { apply keeps_same. pose proof (total_delete st p d H). lia. }
  rel_step.
  match goal with |- context [check_win_condition ?s] =>
    destruct (check_win_condition s) as [w|] end; [|rel_step].
  rel_step.
  rapply rel_at_reader; [apply reveal_winner_hand_final|]. intros _ _.
  rapply rel_at_modify_bind; [now apply keeps_fresh|].
  unfold shuffle_deck.
  rapply rel_at_modify_bind; [apply keeps_same, total_shuffle_deck|].
  rel_step.
Qed.

Lemma challenge_loss_keeps s e legit loser :
  rel true (keeps s) (challenge_loss e legit loser).
Proof.
  intros st. unfold challenge_loss. rel_step.
  destruct (0 <? length (cards d)); [|rel_step].
  rapply rel_at_call; [apply same_total_keeps, lose_influence_same_total|]. intros _ s1.
  rapply rel_at_call; [apply handle_player_elimination_keeps|].
  intros [[el en] nx] s2. rel_step.
Qed.

Lemma handle_challenge_keeps s e claimer challenger c :
  rel true (keeps s) (handle_challenge e claimer challenger c).
Proof.
  intros st. unfold handle_challenge. rel_step.
  destruct (card_in c (cards d)); [|apply challenge_loss_keeps].
  rel_step.
  rapply rel_at_call; [apply same_total_keeps, handle_card_swap_same_total|]. intros _ s1.
  apply challenge_loss_keeps.
Qed.

Lemma handle_block_challenge_keeps s e blocker challenger vs :
  rel true (keeps s) (handle_block_challenge e blocker challenger vs).
Proof.
  intros st. unfold handle_block_challenge. rel_step.
  destruct (valid_card_found vs (cards d)); [|apply challenge_loss_keeps].
  rel_step.
  rapply rel_at_call; [apply same_total_keeps, handle_card_swap_same_total|]. intros _ s1.
  apply challenge_loss_keeps.
Qed.

Lemma strike_keeps s e target : rel true (keeps s) (strike e target).
Proof.
  intros st. unfold strike.
  rapply rel_at_call; [apply same_total_keeps, lose_influence_same_total|]. intros _ s1.
  rapply rel_at_call; [apply handle_player_elimination_keeps|].
  intros [[el en] nx] s2. rel_step.
Qed.

Lemma assassinate_target_keeps s e target : rel true (keeps s) (assassinate_target e target).
Proof.
  intros st. unfold assassinate_target. rel_step.
  destruct (is_player_alive st target); [apply strike_keeps|rel_step].
Qed.

Lemma steal_coins_same_total e target : rel true same_total (steal_coins e target).
Proof.
  intros st. unfold steal_coins. rel_step.
  destruct (is_player_alive st target); [|rel_step].
  rel_step.
  rapply rel_at_call; [apply add_coins_same_total|]. intros _ s1.
  apply add_coins_same_total.
Qed.

(** ** Card conservation: the turn scheduler and the commands *)

Lemma rel_at_any x (R : table -> table -> Prop) {A} (c : M A) st :
  rel true R c -> rel_at x R c st.
Proof.
  intros H. eapply rel_weaken; [| |apply H]; auto.
Qed.

Lemma rel_any x (R : table -> table -> Prop) {A} (c : M A) :
  rel true R c -> rel x R c.
Proof. intros H st. now apply rel_at_any. Qed.

Lemma validate_turn_final p st : final (validate_turn p st) = st.
Proof.
  unfold validate_turn. rewrite bind_get.
  destruct (current_player st) as [cp|]; [destruct (Nat.eqb p cp)|]; reflexivity.
Qed.

Lemma validate_target_final t st : final (validate_target t st) = st.
Proof.
  unfold validate_target. rewrite bind_get.
  destruct (negb (mem (players st) t)); [reflexivity|].
  destruct (negb (is_player_alive st t)); reflexivity.
Qed.

Lemma validate_self_target_final p t st : final (validate_self_target p t st) = st.
Proof. unfold validate_self_target. destruct (Nat.eqb p t); reflexivity. Qed.

Lemma validate_coins_final p n st : final (validate_coins p n st) = st.
Proof.
  unfold validate_coins. destruct (lookup (players st) p) as [d|] eqn:E.
  - rewrite (bind_pure _ (player_data_found E)). destruct (coins d <? n)%Z; reflexivity.
  - now rewrite (bind_exn _ (player_data_missing E)).
Qed.

Lemma validate_action_allowed_final p a st : final (validate_action_allowed p a st) = st.
Proof.
  unfold validate_action_allowed. destruct (lookup (players st) p) as [d|] eqn:E.
  - rewrite (bind_pure _ (player_data_found E)).
    destruct ((10 <=? coins d)%Z && negb (is_coup a)); reflexivity.
  - now rewrite (bind_exn _ (player_data_missing E)).
Qed.

Lemma target_in_game_final t st : final (target_in_game t st) = st.
Proof.
  unfold target_in_game. rewrite bind_get.
  destruct (negb (mem (players st) t)); reflexivity.
Qed.

Lemma target_has_coins_final t st : final (target_has_coins t st) = st.
Proof.
  unfold target_has_coins. destruct (lookup (players st) t) as [d|] eqn:E.
  - rewrite (bind_pure _ (player_data_found E)). destruct (coins d <? 1)%Z; reflexivity.
  - now rewrite (bind_exn _ (player_data_missing E)).
Qed.

Lemma rel_at_checked x R {HR : PreOrder R} (v : M bool) (k : M unit) st :
  (forall s, final (v s) = s) -> rel_at x R k st -> rel_at x R (checked v k) st.
Proof.
  intros Hv Hk. unfold checked. apply rel_at_reader; auto.
  intros [|] _; [exact Hk|]. now apply rel_at_ret.
Qed.

Lemma total_set_current_player p st : total (set_current_player p st) = total st.
Proof. reflexivity. Qed.

Lemma advance_turn_fuel_keeps s e :
  clean s e -> forall fuel cur, rel true (keeps s) (advance_turn_fuel fuel e cur).
Proof.
  intros Hc. induction fuel as [|f IH]; intros cur st; cbn [advance_turn_fuel];
    [rel_step|].
  rel_step. rapply rel_at_bind.
  - destruct (mem (players st) cur).
    + rapply rel_at_reader; [apply get_next_player_final|]. intros np _.
      rapply rel_at_modify_bind; [now apply keeps_same|]. rel_step.
    + destruct (keys (players st)) as [|p t]; [rel_step|].
      rapply rel_at_modify_bind; [now apply keeps_same|]. rel_step.
  - intros chosen _.
    match goal with |- rel_at _ _ _ ?s => generalize s end. intros s1.
    destruct chosen; cbn [negb]; [|rel_step].
    rel_step. destruct (current_player s1) as [cp|]; [|rel_step].
    destruct (get_member e cp) eqn:Eg.
    + rapply rel_at_reader; [apply check_forced_coup_final|]. intros forced _.
      destruct forced; [rel_step|].
      rapply rel_at_same. apply enhanced_turn_announcement_final.
    + destruct s.
      { destruct (Hc eq_refl) as [Hm _]. rewrite Hm in Eg. discriminate. }
      rel_step. rapply rel_at_modify_bind.
      { apply keeps_le. destruct (mem (players s1) cp) eqn:Em; [|lia].
        apply mem_lookup in Em as (d & El).
        pose proof (total_delete s1 cp d El). lia. }
      rel_step.
      match goal with |- context [check_win_condition ?t] =>
        destruct (check_win_condition t) as [w|] end; [|apply IH].
      rel_step. rapply rel_at_modify. apply keeps_le.
      unfold departure_reset, total. simpl. change (hand_total []) with 0. lia.
Qed.

Lemma advance_turn_keeps s e cur :
  clean s e -> rel true (keeps s) (advance_turn e cur).
Proof.
  intros Hc st. unfold advance_turn. rel_step. now apply advance_turn_fuel_keeps.
Qed.

Lemma bluff_exposed_keeps s e v :
  clean s e -> rel true (keeps s) (bluff_exposed e v).
Proof.
  intros Hc st. unfold bluff_exposed.
  destruct (is_author e (eliminated_player v)); [|now apply advance_turn_keeps].
  rapply rel_at_modify_bind; [now apply keeps_same|].
  destruct (next_player_result v); rel_step.
Qed.

Create HintDb coup_rel.
#[global] Hint Resolve handle_player_elimination_keeps challenge_loss_keeps
  handle_challenge_keeps handle_block_challenge_keeps strike_keeps
  assassinate_target_keeps advance_turn_keeps bluff_exposed_keeps : coup_rel.
#[global] Hint Resolve validate_turn_final validate_target_final
  validate_self_target_final validate_coins_final validate_action_allowed_final
  target_in_game_final target_has_coins_final : coup_rel.

(** Walks through the body of a command. *)
Ltac cmd_step :=
  first
    [ rel_step
    | lazymatch goal with
      | |- rel_at _ _ (checked _ _) _ =>
          rapply rel_at_checked; [solve [auto with coup_rel]|]
      | |- rel_at _ _ (then_advance _ _) _ => unfold then_advance
      | |- rel_at _ _ (bind (wait_for_reaction _ _ _ _) _) _ =>
          rapply rel_at_reader; [apply wait_for_reaction_final|intros ? _]
      | |- rel_at _ _ (bind (enhanced_turn_announcement _ _ _) _) _ =>
          rapply rel_at_reader; [apply enhanced_turn_announcement_final|intros ? _]
      | |- rel_at _ _ (bind (modify (set_current_player _)) _) _ =>
          rapply rel_at_modify_bind; [now apply keeps_same|]
      | |- rel_at _ _ (bind (add_coins _ _) _) _ =>
          rapply rel_at_call;
          [apply rel_any, same_total_keeps, add_coins_same_total|intros ? ?]
      | |- rel_at _ _ (bind (steal_coins _ _) _) _ =>
          rapply rel_at_call;
          [apply rel_any, same_total_keeps, steal_coins_same_total|intros ? ?]
      | |- rel_at _ _ (bind (match ?r with _ => _ end) _) _ => destruct r
      | |- rel_at _ _ (bind _ _) _ =>
          rapply rel_at_call; [apply rel_any; solve [auto with coup_rel]|intros ? ?]
      | |- rel_at _ _ (match ?r with _ => _ end) _ => destruct r
      | |- rel_at _ _ _ _ => apply rel_at_any; solve [auto with coup_rel]
      end ].

Lemma income_keeps s e : clean s e -> rel true (keeps s) (income e).
Proof. intros Hc st. unfold income. repeat cmd_step. Qed.

Lemma foreign_aid_keeps s e : clean s e -> rel true (keeps s) (foreign_aid e).
Proof. intros Hc st. unfold foreign_aid. repeat cmd_step. Qed.

Lemma coup_keeps s e t : clean s e -> rel true (keeps s) (coup e t).
Proof. intros Hc st. unfold coup. repeat cmd_step. Qed.

Lemma assassinate_keeps s e t : clean s e -> rel true (keeps s) (assassinate e t).
Proof. intros Hc st. unfold assassinate. repeat cmd_step. Qed.

Lemma tax_keeps s e : clean s e -> rel true (keeps s) (tax e).
Proof. intros Hc st. unfold tax. repeat cmd_step. Qed.

Lemma steal_keeps s e t : clean s e -> rel true (keeps s) (steal e t).
Proof. intros Hc st. unfold steal. repeat cmd_step. Qed.

Lemma end_keeps s e : rel true (keeps s) (end_ e).
Proof.
  intros st. unfold end_. rel_step.
  destruct (negb (game_started st)); [rel_step|].
  rapply rel_at_modify_bind; [now apply keeps_fresh|].
  unfold shuffle_deck. rapply rel_at_modify. apply keeps_same, total_shuffle_deck.
Qed.

(** ** Card conservation: exchange and start *)

Lemma select_cards_spec reactions n all sel ch sel' ch' :
  select_cards reactions n all sel ch = Selected sel' ch' ->
  NoDup sel -> (forall i, In i sel -> i < length all) -> length ch = length sel ->
  NoDup sel' /\ (forall i, In i sel' -> i < length all) /\ length ch' = length sel'.
Proof.
  revert sel ch. induction reactions as [|i rest IH]; intros sel ch; cbn [select_cards].
  - destruct (n <=? length ch); [|discriminate]. intros [= <- <-]. auto.
  - destruct (n <=? length ch); [intros [= <- <-]; auto|].
    destruct (4 <=? i); [apply IH|].
    destruct (existsb (Nat.eqb i) sel) eqn:Ex; [apply IH|].
    destruct (nth_error all i) as [c|] eqn:En; [|discriminate].
    intros H Hn Hb Hl. apply (IH _ _ H).
    + apply NoDup_app; [exact Hn|repeat constructor; simpl; tauto|].
      intros j Hj [E|[]]. subst j.
      assert (existsb (Nat.eqb i) sel = true)
        by (apply existsb_exists; exists i; split; auto; apply Nat.eqb_refl).
      congruence.
    + intros j Hj. apply in_app_or in Hj as [Hj|[<-|[]]]; auto.
      apply nth_error_Some. congruence.
    + rewrite !length_app. simpl. lia.
Qed.

Lemma unchosen_from_length all i sel :
  length (unchosen_from i all sel)
  + length (filter (fun j => existsb (Nat.eqb j) sel) (seq i (length all)))
  = length all.
Proof.
  revert i. induction all as [|c t IH]; intros i; simpl; [reflexivity|].
  specialize (IH (S i)).
  destruct (existsb (Nat.eqb i) sel); simpl; lia.
Qed.

Lemma selected_count sel n :
  NoDup sel -> (forall i, In i sel -> i < n) ->
  length (filter (fun j => existsb (Nat.eqb j) sel) (seq 0 n)) = length sel.
Proof.
  intros Hn Hb. apply Permutation_length, NoDup_Permutation.
  - apply NoDup_filter, seq_NoDup.
  - exact Hn.
  - intros j. rewrite filter_In, in_seq, existsb_exists. split.
    + intros (_ & k & Hk & E). apply Nat.eqb_eq in E. now subst.
    + intros Hj. split; [specialize (Hb j Hj); lia|].
      exists j. split; auto. apply Nat.eqb_refl.
Qed.

Lemma selection_sizes reactions n all sel ch :
  select_cards reactions n all [] [] = Selected sel ch ->
  length ch + length (unchosen_from 0 all sel) = length all.
Proof.
  intros H. destruct (select_cards_spec _ _ _ _ _ _ _ H) as (Hn & Hb & Hl).
  - constructor.
  - intros i [].
  - reflexivity.
  - pose proof (unchosen_from_length all 0 sel).
    pose proof (selected_count sel (length all) Hn Hb). lia.
Qed.

Lemma bound_total_eq s st st' : total st' = total st -> bound s st -> bound s st'.
Proof. intros E. unfold bound. now rewrite E. Qed.

Lemma bound_total_le st st' : total st' <= total st -> bound false st -> bound false st'.
Proof. unfold bound. lia. Qed.

Lemma covers_true x {A} (o : outcome A) : covers x o = true -> covers true o = true.
Proof. destruct o; simpl; auto. Qed.

Lemma rel_at_bind_val x (R : table -> table -> Prop) {A B} (c : M A) (k : A -> M B)
    st a s1 t1 :
  c st = mkRes (Val a) s1 t1 ->
  (covers x (oc (k a s1)) = true -> R st (final (k a s1))) ->
  rel_at x R (bind c k) st.
Proof. intros E H. unfold rel_at. now rewrite (bind_val _ E). Qed.

Lemma exchange_cards_keeps s e n :
  clean s e -> rel (negb s) (keeps s) (exchange_cards e n).
Proof.
  intros Hc st. unfold exchange_cards. rel_step.
  destruct (length (court_deck st) <? 2) eqn:Elen.
  { rel_step. apply rel_at_any. now apply advance_turn_keeps. }
  apply Nat.ltb_ge in Elen.
  destruct (pop_two (court_deck st) Elen) as (c1 & c2 & l2 & E1 & E2 & L).
  eapply rel_at_bind_val; [exact (pop_deck_found E1)|].
  assert (E2' : pop (court_deck (set_court_deck (l2 ++ [c2]) st)) = Some (c2, l2))
    by exact E2.
  rewrite (bind_val _ (pop_deck_found E2')). cbn [oc final].
  set (s2 := set_court_deck l2 (set_court_deck (l2 ++ [c2]) st)).
  assert (T2 : total s2 + 2 = total st) by (unfold total; simpl; lia).
  destruct (lookup (players s2) (author e)) as [d|] eqn:El.
  2: { rewrite (bind_exn _ (player_data_missing El)). simpl. intros Hx.
       apply negb_true_iff in Hx. subst s. unfold keeps.
       apply bound_total_le. lia. }
  rewrite (bind_pure _ (player_data_found El)). cbv zeta.
  pose proof (advance_turn_keeps s e (author e) Hc) as Hadv.
  destruct (negb (dm_exchange_ok e)).
  - unfold extend_deck. rewrite bind_modify.
    intros Hcov Hb. apply covers_true in Hcov. apply (Hadv _ Hcov).
    eapply bound_total_eq; [|exact Hb].
    unfold total. simpl. rewrite length_app. simpl. unfold total in T2. simpl in T2. lia.
  - destruct (select_cards (picks e) n
                (shuffle (rand_pool e) (cards d ++ [c1; c2])) [] [])
      as [sel ch| |] eqn:Esel.
    + apply selection_sizes in Esel.
      rewrite shuffle_length, length_app in Esel. simpl in Esel.
      rewrite (bind_val _ (set_cards_found El)). cbn [oc final].
      unfold extend_deck. rewrite bind_modify.
      intros Hcov Hb. apply covers_true in Hcov. apply (Hadv _ Hcov).
      eapply bound_total_eq; [|exact Hb].
      pose proof (total_assign s2 (author e) d (mkP ch (coins d)) El) as Ta.
      unfold total in *. simpl in *. rewrite length_app. lia.
    + simpl. intros Hx. apply negb_true_iff in Hx. subst s.
      unfold keeps. apply bound_total_le. lia.
    + simpl. discriminate.
Qed.

Lemma exchange_keeps s e : clean s e -> rel (negb s) (keeps s) (exchange e).
Proof.
  intros Hc st. unfold exchange. repeat cmd_step;
    try (apply exchange_cards_keeps; assumption).
Qed.

Lemma unreachable_none e r :
  (forall u, dm_cards_ok e u = true) -> unreachable e r = [].
Proof.
  intros H. unfold unreachable.
  induction (keys r) as [|k t IH]; simpl; [reflexivity|].
  rewrite H. exact IH.
Qed.

Lemma start_keeps s e : clean s e -> rel true (keeps s) (start e).
Proof.
  intros Hc st _ Hb.
  destruct (has_perms e) eqn:Hp.
  2: { unfold start. rewrite Hp. exact Hb. }
  destruct (game_started st) eqn:Hg.
  { unfold start. rewrite Hp. cbn [negb]. rewrite bind_get, Hg. exact Hb. }
  destruct (start_outcome e st Hp Hg) as (Hfew & Hmany & Hdeal).
  destruct (seated_at_start_spec e) as (Hn0 & Hu0 & _).
  assert (Hfresh : forall b cp,
            total (mkTable (seated_at_start e) (shuffle (rand_deck e) fresh_deck) [] b cp)
            = 15).
  { intros b cp. unfold total. cbn [court_deck players discarded_cards].
    rewrite shuffle_length, (hand_total_undealt _ Hu0 Hn0). reflexivity. }
  destruct (Nat.lt_ge_cases (length (seated_at_start e)) 2) as [H2|H2].
  { rewrite (Hfew H2). cbn [final]. specialize (Hfresh false (current_player st)).
    unfold bound. destruct s; lia. }
  destruct (Nat.lt_ge_cases 7 (length (seated_at_start e))) as [H7|H7].
  { rewrite (Hmany H7). cbn [final]. specialize (Hfresh false (current_player st)).
    unfold bound. destruct s; lia. }
  destruct (Hdeal (conj H2 H7)) as
      (dealt & deck1 & first & Hnd & Htwo & Hperm & Hdeck & _ & Hfin).
  rewrite Hfin.
  destruct (drop_players_spec (unreachable e dealt) dealt Hnd) as (Hnk & Hin & Hout & Hlen).
  assert (Hk2 : dealt_two (drop_players (unreachable e dealt) dealt)).
  { intros u d Hl.
    destruct (in_dec Nat.eq_dec u (unreachable e dealt)) as [Hi|Hi];
      [rewrite Hin in Hl by exact Hi; discriminate|].
    rewrite Hout in Hl by exact Hi. eapply Htwo; eauto. }
  assert (Hld : length dealt = length (seated_at_start e)).
  { pose proof (Permutation_length Hperm) as P. unfold keys in P.
    now rewrite !length_map in P. }
  unfold bound, total. cbn [court_deck players discarded_cards length].
  rewrite (hand_total_two _ Hnk Hk2).
  destruct s; [|lia].
  destruct (Hc eq_refl) as [_ Hdm].
  rewrite (unreachable_none e dealt Hdm), drop_players_nil. lia.
Qed.

Lemma run_keeps s e c : clean s e -> rel (negb s) (keeps s) (run c e).
Proof.
  intros Hc. destruct c; simpl run;
    try solve [apply rel_any; auto using start_keeps, end_keeps, income_keeps,
                 foreign_aid_keeps, coup_keeps, assassinate_keeps, tax_keeps,
                 steal_keeps].
  now apply exchange_keeps.
Qed.

(** ** Card conservation *)

Lemma total_new_table rs : total (new_table rs) = 15.
Proof.
  unfold total, new_table. cbn [court_deck players discarded_cards].
  now rewrite shuffle_length.
Qed.

Lemma reachable_bound st : reachable st -> total st <= 15.
Proof.
  induction 1 as [rs|st c e Hr IH Hcomp].
  - rewrite total_new_table. lia.
  - assert (Hc : clean false e) by (intros H; discriminate).
    apply (run_keeps false e c Hc st); [|exact IH].
    unfold completes in Hcomp. simpl. destruct (oc (run c e st)); auto.
Qed.

Lemma reachable_clean_exact st : reachable_clean st -> total st = 15.
Proof.
  induction 1 as [rs|st c e Hr IH Hlost Hval].
  - apply total_new_table.
  - assert (Hc : clean true e) by (intros _; exact Hlost).
    apply (run_keeps true e c Hc st); [|exact IH].
    now rewrite Hval.
Qed.

(** What the code keeps of the card count.  On every table a guild can
    reach, court deck, hands and discard pile together hold at most
    fifteen cards, and exactly fifteen on every table reached through
    commands that returned while nobody seated had left the guild or was
    out of reach of direct messages.  Influence loss and the card swap of
    an upheld claim leave the count as it is, whatever their outcome. *)
Theorem card_count_bounded :
  (forall st, reachable st -> total st <= 15) /\
  (forall st, reachable_clean st -> total st = 15) /\
  (forall p st, total (final (lose_influence_with_reveal p st)) = total st) /\
  (forall p c st, total (final (handle_card_swap p c st)) = total st).
Proof.
  split; [exact reachable_bound|]. split; [exact reachable_clean_exact|]. split.
  - exact lose_influence_total.
  - exact handle_card_swap_total.
Qed.

Lemma card_count_bounded_example :
  total (final (run CStart drop_env (new_table []))) <= 15.
Proof.
  apply (proj1 card_count_bounded).
  apply reach_run; [apply reach_new|reflexivity].
Defined.

(** C1.  The two removals of a player who still holds cards lose those
    cards.  Pre-game drop: three members join and member 2 cannot be
    sent the cards; the game starts with two players, four cards in
    hand, nine in the deck and none discarded, thirteen in all.
    Mid-game departure: three members join and are dealt to, fifteen
    cards in all; player 3 takes income after member 1 has left the
    guild; player 1 is removed with two cards in hand, the game goes on
    between players 3 and 2 with thirteen cards. *)
Theorem removal_loses_cards :
  let dropped := final (run CStart drop_env (new_table [])) in
  let seated := final (run CStart join_env (new_table [])) in
  let parted := run CIncome away_env seated in
  (reachable dropped /\ game_started dropped = true /\
   length (players dropped) = 2 /\ total dropped = 13) /\
  (reachable seated /\ game_started seated = true /\
   current_player seated = Some 3 /\ total seated = 15) /\
  (reachable (final parted) /\ oc parted = Val tt /\
   trace parted = [PlayerLeft 1; Turn 3 false] /\
   game_started (final parted) = true /\
   keys (players (final parted)) = [3; 2] /\
   total (final parted) = 13).
Proof.
  assert (H1 : reachable (final (run CStart drop_env (new_table [])))).
  { apply reach_run; [apply reach_new|reflexivity]. }
  assert (H2 : reachable (final (run CStart join_env (new_table [])))).
  { apply reach_run; [apply reach_new|reflexivity]. }
  assert (H3 : reachable (final (run CIncome away_env
                                   (final (run CStart join_env (new_table [])))))).
  { apply reach_run; [exact H2|reflexivity]. }
  cbv zeta. split; [|split].
  - split; [exact H1|]. vm_compute. repeat split.
  - split; [exact H2|]. vm_compute. repeat split.
  - split; [exact H3|]. vm_compute. repeat split.
Qed.

(** ** The fuel of [advance_turn] is enough *)

Lemma get_next_player_cases current st :
  (exists np, get_next_player current st = mkRes (Val np) st [] /\
              mem (players st) np = true) \/
  get_next_player current st = mkRes (Exn ValueError) st [] \/
  get_next_player current st = mkRes Hang st [].
Proof.
  unfold get_next_player. rewrite bind_get.
  destruct (index_of current (keys (players st))) as [i|]; [|right; left; reflexivity].
  match goal with |- context [next_alive ?a ?b ?c ?d] =>
    destruct (next_alive a b c d) as [np|] eqn:E end.
  - left. exists np. split; [reflexivity|].
    apply next_alive_sound in E as [Hin _]. now apply mem_keys.
  - right. right. reflexivity.
Qed.

Lemma length_delete_present r u :
  mem r u = true -> S (length (delete r u)) = length r.
Proof.
  unfold mem. induction r as [|[k v] t IH]; simpl; [discriminate|].
  destruct (Nat.eqb k u); simpl; [reflexivity|].
  intros H. now rewrite IH.
Qed.

(** What [advance_turn] does once the new current player [cp] is set. *)
Lemma advance_turn_fuel_step f e cur st :
  advance_turn_fuel (S f) e cur st =
  bind (if mem (players st) cur then
          np <- get_next_player cur ;;
          modify (set_current_player (Some np)) ;; ret true
        else
          match keys (players st) with
          | p :: _ => modify (set_current_player (Some p)) ;; ret true
          | [] => ret false
          end)
       (fun chosen =>
          if negb chosen then ret tt
          else
            st1 <- get ;;
            match current_player st1 with
            | None => send_error GameError
            | Some cp =>
                if get_member e cp then
                  forced_coup <- check_forced_coup e cp ;;
                  if forced_coup then ret tt
                  else enhanced_turn_announcement e (Some cp) false
                else
                  emit (PlayerLeft cp) ;;
                  modify (fun s => if mem (players s) cp
                                   then set_players (delete (players s) cp) s else s) ;;
                  st2 <- get ;;
                  match check_win_condition st2 with
                  | Some winner => emit (GameOver winner) ;; modify departure_reset
                  | None => advance_turn_fuel f e cp
                  end
            end) st.
Proof. cbn [advance_turn_fuel]. now rewrite bind_get. Qed.

Lemma advance_turn_fuel_enough e fuel :
  forall fuel' cur st,
    length (players st) < fuel -> fuel <= fuel' ->
    advance_turn_fuel fuel' e cur st = advance_turn_fuel fuel e cur st.
Proof.
  induction fuel as [|f IH]; intros fuel' cur st Hlen Hle; [lia|].
  destruct fuel' as [|f']; [lia|].
  rewrite !advance_turn_fuel_step.
  assert (Htail : forall cp s1,
            current_player s1 = Some cp -> mem (players s1) cp = true ->
            length (players s1) = length (players st) ->
            forall X : user -> M unit,
            (st1 <- get ;;
             match current_player st1 with
             | None => send_error GameError
             | Some cp =>
                 if get_member e cp then X cp
                 else
                   emit (PlayerLeft cp) ;;
                   modify (fun s => if mem (players s) cp
                                    then set_players (delete (players s) cp) s else s) ;;
                   st2 <- get ;;
                   match check_win_condition st2 with
                   | Some winner => emit (GameOver winner) ;; modify departure_reset
                   | None => advance_turn_fuel f' e cp
                   end
             end) s1 =
            (st1 <- get ;;
             match current_player st1 with
             | None => send_error GameError
             | Some cp =>
                 if get_member e cp then X cp
                 else
                   emit (PlayerLeft cp) ;;
                   modify (fun s => if mem (players s) cp
                                    then set_players (delete (players s) cp) s else s) ;;
                   st2 <- get ;;
                   match check_win_condition st2 with
                   | Some winner => emit (GameOver winner) ;; modify departure_reset
                   | None => advance_turn_fuel f e cp
                   end
             end) s1).
  { intros cp s1 Hcp Hm Hl X. rewrite !bind_get, Hcp.
    destruct (get_member e cp); [reflexivity|].
    rewrite !bind_emit, !bind_modify, !bind_get, Hm.
    match goal with |- context [check_win_condition ?s] =>
      destruct (check_win_condition s) as [w|] end; [reflexivity|].
    rewrite (IH f' cp); [reflexivity| |lia].
    cbn [players set_players].
    pose proof (length_delete_present _ _ Hm). lia. }
  destruct (mem (players st) cur) eqn:Em.
  - rewrite !bind_assoc.
    destruct (get_next_player_cases cur st) as [(np & Hn & Hnp)|[Hn|Hn]].
    + rewrite !(bind_pure _ Hn), !bind_assoc, !bind_modify, !bind_ret. cbn [negb].
      apply (Htail np (set_current_player (Some np) st) eq_refl Hnp eq_refl
               (fun cp => forced_coup <- check_forced_coup e cp ;;
                          if forced_coup then ret tt
                          else enhanced_turn_announcement e (Some cp) false)).
    + now rewrite !(bind_exn _ Hn).
    + now rewrite !(bind_hang _ Hn).
  - destruct (keys (players st)) as [|p t] eqn:Ek.
    + now rewrite !bind_ret.
    + rewrite !bind_assoc, !bind_modify, !bind_ret. cbn [negb].
      refine (Htail p (set_current_player (Some p) st) eq_refl _ eq_refl
               (fun cp => forced_coup <- check_forced_coup e cp ;;
                          if forced_coup then ret tt
                          else enhanced_turn_announcement e (Some cp) false)).
      cbn [players set_current_player]. apply mem_keys. rewrite Ek. now left.
Qed.

(** Any fuel above the one [advance_turn] starts with gives the same
    run: the scheduler's [Hang] is never a shortage of fuel. *)
Lemma advance_turn_fuel_adequate e cur st fuel :
  length (players st) < fuel ->
  advance_turn_fuel fuel e cur st = advance_turn e cur st.
Proof.
  intros H. unfold advance_turn. rewrite bind_get.
  apply advance_turn_fuel_enough; lia.
Qed.

(** * Further properties of the engine *)

(** ** Dealing *)

Lemma hands_keys r :
  NoDup (keys r) -> hands r = flat_map (hand_of r) (keys r).
Proof.
  induction r as [|[k v] t IH]; intros Hn; [reflexivity|].
  simpl in Hn. inversion Hn as [|? ? Hk Ht]; subst.
  unfold hands. cbn [flat_map keys map fst snd].
  unfold hand_of at 1. cbn [lookup]. rewrite Nat.eqb_refl. f_equal.
  fold (hands t). rewrite (IH Ht).
  rewrite !flat_map_concat_map. f_equal. apply map_ext_in.
  intros u Hu. unfold hand_of. cbn [lookup].
  destruct (Nat.eqb k u) eqn:E; [|reflexivity].
  apply Nat.eqb_eq in E. subst. contradiction.
Qed.

Lemma deal_loop_step p t st c1 c2 l2 d :
  court_deck st = l2 ++ [c2; c1] ->
  lookup (players st) p = Some d ->
  deal_loop (p :: t) st =
  deal_loop t (set_players (assign (players st) p (mkP [c1; c2] (coins d)))
                           (set_court_deck l2 st)).
Proof.
  intros Hd El. cbn [deal_loop]. rewrite bind_get.
  assert (Hlt : (length (court_deck st) <? 2) = false).
  { apply Nat.ltb_ge. rewrite Hd, length_app. simpl. lia. }
  rewrite Hlt.
  assert (E1 : pop (court_deck st) = Some (c1, l2 ++ [c2])).
  { rewrite Hd. change [c2; c1] with ([c2] ++ [c1]). rewrite app_assoc. apply pop_snoc. }
  rewrite (bind_val _ (pop_deck_found E1)). cbn [app].
  assert (E2 : pop (court_deck (set_court_deck (l2 ++ [c2]) st)) = Some (c2, l2))
    by apply pop_snoc.
  rewrite (bind_val _ (pop_deck_found E2)). cbn [app].
  assert (El' : lookup (players (set_court_deck l2 (set_court_deck (l2 ++ [c2]) st))) p
                = Some d) by exact El.
  rewrite (bind_val _ (set_cards_found El')).
  cbn [oc final trace app]. rewrite res_eta. reflexivity.
Qed.

Lemma last_two {A} (l : list A) :
  2 <= length l -> exists l2 c2 c1, l = l2 ++ [c2; c1].
Proof.
  intros H. destruct (pop_two l H) as (c1 & c2 & l2 & E1 & _ & _).
  apply pop_Some in E1. exists l2, c2, c1. rewrite E1, <- app_assoc. reflexivity.
Qed.

Lemma deal_loop_order ps : forall st st',
  NoDup ps ->
  (forall p, In p ps -> mem (players st) p = true) ->
  2 * length ps <= length (court_deck st) ->
  deal_loop ps st = mkRes (Val true) st' [] ->
  court_deck st = court_deck st' ++ rev (flat_map (hand_of (players st')) ps).
Proof.
  induction ps as [|p t IH]; intros st st' Hn Hm Hlen Hrun.
  - cbn in Hrun. injection Hrun as <-. simpl. now rewrite app_nil_r.
  - inversion Hn as [|? ? Hp Ht]; subst. simpl length in Hlen.
    destruct (last_two (court_deck st)) as (l2 & c2 & c1 & Hd); [lia|].
    destruct (proj1 (mem_lookup _ _) (Hm p (or_introl eq_refl))) as (d & El).
    rewrite (deal_loop_step p t st c1 c2 l2 d Hd El) in Hrun.
    set (s3 := set_players (assign (players st) p (mkP [c1; c2] (coins d)))
                           (set_court_deck l2 st)) in *.
    assert (Hm3 : forall q, In q t -> mem (players s3) q = true).
    { intros q Hq. simpl. apply mem_assign. apply Hm. now right. }
    assert (Hl3 : 2 * length t <= length (court_deck s3)).
    { simpl. rewrite Hd, length_app in Hlen. simpl in Hlen. lia. }
    pose proof (IH s3 st' Ht Hm3 Hl3 Hrun) as Hdeck.
    destruct (deal_loop_spec t s3 Ht Hm3 Hl3) as (s' & Hrun' & _ & _ & _ & _ & _ & _ & Hout).
    rewrite Hrun in Hrun'. injection Hrun' as <-.
    cbn [flat_map]. unfold hand_of at 1.
    rewrite (Hout p Hp). simpl lookup. rewrite lookup_assign_same. cbn [cards].
    rewrite rev_app_distr. simpl rev. rewrite app_assoc.
    simpl in Hdeck. rewrite <- Hdeck. exact Hd.
Qed.

(** X1.  [deal_cards] either refuses and leaves the table as it is (the
    deck holds fewer than two cards a player), or gives every seated
    player two cards off the end of the deck, in seat order, and leaves
    balances, discard pile and flags alone: the old deck is the new deck
    followed by the hands read backwards.  A hand held before the deal
    is overwritten. *)
Theorem deal_cards_two_off_the_top (st : table) :
  NoDup (keys (players st)) ->
  (length (court_deck st) < 2 * length (players st) ->
     deal_cards st = mkRes (Val false) st []) /\
  (2 * length (players st) <= length (court_deck st) ->
     exists s,
       deal_cards st = mkRes (Val true) s [] /\
       keys (players s) = keys (players st) /\
       (forall p d, lookup (players st) p = Some d ->
          exists c1 c2, lookup (players s) p = Some (mkP [c1; c2] (coins d))) /\
       court_deck st = court_deck s ++ rev (hands (players s)) /\
       length (court_deck s) + 2 * length (players st) = length (court_deck st) /\
       discarded_cards s = discarded_cards st /\
       game_started s = game_started st /\
       current_player s = current_player st).
Proof.
  intros Hn.
  assert (Hlen : length (keys (players st)) = length (players st))
    by (unfold keys; apply length_map).
  split; intros H.
  - unfold deal_cards. rewrite bind_get.
    assert (E : (length (court_deck st) <? length (players st) * 2) = true)
      by (apply Nat.ltb_lt; lia).
    now rewrite E.
  - assert (Hm : forall p, In p (keys (players st)) -> mem (players st) p = true)
      by (intros p Hp; now apply mem_keys).
    assert (Hl : 2 * length (keys (players st)) <= length (court_deck st))
      by (rewrite Hlen; lia).
    destruct (deal_loop_spec (keys (players st)) st Hn Hm Hl) as
        (s & Hrun & Hk & Hdk & Hdi & Hgs & Hcp & Hin & _).
    exists s.
    assert (Hdeal : deal_cards st = mkRes (Val true) s []).
    { unfold deal_cards. rewrite bind_get.
      assert (E : (length (court_deck st) <? length (players st) * 2) = false)
        by (apply Nat.ltb_ge; lia).
      now rewrite E. }
    split; [exact Hdeal|]. split; [exact Hk|]. split; [|split; [|split]].
    + intros p d El.
      destruct (Hin p (lookup_In_keys _ _ _ El)) as (c1 & c2 & d0 & H0 & H1).
      rewrite El in H0. injection H0 as <-. eauto.
    + rewrite (deal_loop_order (keys (players st)) st s Hn Hm Hl Hrun).
      f_equal. f_equal. rewrite hands_keys by (rewrite Hk; exact Hn).
      now rewrite Hk.
    + rewrite Hlen in Hdk. exact Hdk.
    + auto.
Qed.

Lemma deal_cards_two_off_the_top_witness :
  (length (court_deck lobby) < 2 * length (players lobby) ->
     deal_cards lobby = mkRes (Val false) lobby []) /\
  (2 * length (players lobby) <= length (court_deck lobby) ->
     exists s,
       deal_cards lobby = mkRes (Val true) s [] /\
       keys (players s) = keys (players lobby) /\
       (forall p d, lookup (players lobby) p = Some d ->
          exists c1 c2, lookup (players s) p = Some (mkP [c1; c2] (coins d))) /\
       court_deck lobby = court_deck s ++ rev (hands (players s)) /\
       length (court_deck s) + 2 * length (players lobby) = length (court_deck lobby) /\
       discarded_cards s = discarded_cards lobby /\
       game_started s = game_started lobby /\
       current_player s = current_player lobby).
Proof.
  apply (deal_cards_two_off_the_top lobby).
  repeat constructor; simpl; intuition discriminate.
Defined.

(** ** Influence loss, win check, elimination *)

(** X2.  [lose_influence_with_reveal] takes the last card of the hand,
    whatever it is: the card goes to the end of the discard pile and is
    announced, the rest of the hand, the balance, the other players, the
    deck and the flags stay.  An empty hand answers [False] and changes
    nothing; a player who is not seated is a [KeyError], with nothing
    changed either. *)
Theorem lose_influence_takes_last_card (p : user) (st : table) :
  let r := lose_influence_with_reveal p st in
  (lookup (players st) p = None -> r = mkRes (Exn KeyError) st []) /\
  (forall d, lookup (players st) p = Some d -> cards d = [] ->
     r = mkRes (Val None) st []) /\
  (forall d rest c, lookup (players st) p = Some d -> cards d = rest ++ [c] ->
     oc r = Val (Some c) /\ trace r = [Lost p c] /\
     lookup (players (final r)) p = Some (mkP rest (coins d)) /\
     (forall q, q <> p -> lookup (players (final r)) q = lookup (players st) q) /\
     keys (players (final r)) = keys (players st) /\
     discarded_cards (final r) = discarded_cards st ++ [c] /\
     court_deck (final r) = court_deck st /\
     game_started (final r) = game_started st /\
     current_player (final r) = current_player st).
Proof.
  cbv zeta. split; [|split].
  - intros El. unfold lose_influence_with_reveal.
    now rewrite (bind_exn _ (player_data_missing El)).
  - intros d El Hc. exact (lose_influence_empty El Hc).
  - intros d rest c El Hc.
    assert (Hp : pop (cards d) = Some (c, rest)) by (rewrite Hc; apply pop_snoc).
    rewrite (lose_influence_found El Hp). cbn [oc trace final].
    unfold after_loss. cbn [players discarded_cards court_deck game_started
                             current_player set_discarded_cards set_players].
    repeat split.
    + apply lookup_assign_same.
    + intros q Hq. apply lookup_assign_other. congruence.
    + apply keys_assign_present. apply mem_lookup. eauto.
Qed.

Lemma lose_influence_takes_last_card_witness :
  let r := lose_influence_with_reveal 1 trio in
  oc r = Val (Some Captain) /\ trace r = [Lost 1 Captain] /\
  lookup (players (final r)) 1 = Some (mkP [Duke] 7%Z) /\
  discarded_cards (final r) = [Captain; Captain].
Proof.
  destruct (lose_influence_takes_last_card 1 trio) as (_ & _ & H).
  destruct (H (mkP [Duke; Captain] 7%Z) [Duke] Captain eq_refl eq_refl)
    as (H1 & H2 & H3 & _ & _ & H6 & _).
  repeat split; assumption.
Defined.

Lemma filter_singleton_unique {A} (f : A -> bool) (l : list A) w :
  NoDup l ->
  (filter f l = [w] <-> In w l /\ f w = true /\ forall q, In q l -> f q = true -> q = w).
Proof.
  intros Hn. split.
  - intros E.
    assert (Hw : In w (filter f l)) by (rewrite E; now left).
    apply filter_In in Hw as [Hi Hf]. repeat split; auto.
    intros q Hq Hfq.
    assert (Hq' : In q (filter f l)) by (apply filter_In; auto).
    rewrite E in Hq'. destruct Hq' as [->|[]]. reflexivity.
  - intros (Hi & Hf & Hu).
    assert (Hnf : NoDup (filter f l)) by now apply NoDup_filter.
    assert (Hall : forall q, In q (filter f l) -> q = w).
    { intros q Hq. apply filter_In in Hq as [? ?]. auto. }
    assert (Hw : In w (filter f l)) by (apply filter_In; auto).
    destruct (filter f l) as [|a [|b t]].
    + destruct Hw.
    + f_equal. apply Hall. now left.
    + exfalso. inversion Hnf as [|? ? Ha _]; subst. apply Ha.
      rewrite (Hall a) by (now left). rewrite (Hall b) by (right; now left). now left.
Qed.

(** X3.  [check_win_condition] names [w] exactly when [w] is alive and
    nobody else is; with no live player, or with two or more, it answers
    [None]. *)
Theorem win_check_names_the_sole_survivor (st : table) (w : user) :
  NoDup (keys (players st)) ->
  (check_win_condition st = Some w <->
   is_player_alive st w = true /\
   forall q, is_player_alive st q = true -> q = w) /\
  (check_win_condition st = None <-> alive_count st <> 1).
Proof.
  intros Hn. split.
  - unfold check_win_condition.
    pose proof (filter_singleton_unique (is_player_alive st) (keys (players st)) w Hn)
      as Hs.
    split.
    + intros E.
      assert (E' : filter (is_player_alive st) (keys (players st)) = [w]).
      { destruct (filter (is_player_alive st) (keys (players st))) as [|a [|b t]];
          try discriminate. now injection E as ->. }
      apply Hs in E' as (_ & Ha & Hu). split; [exact Ha|].
      intros q Hq. apply Hu; [|exact Hq]. now apply mem_keys, alive_mem.
    + intros [Ha Hu].
      assert (E' : filter (is_player_alive st) (keys (players st)) = [w]).
      { apply Hs. split; [now apply mem_keys, alive_mem|]. split; [exact Ha|].
        intros q _ Hq. now apply Hu. }
      now rewrite E'.
  - pose proof (win_check_iff st) as Hw. split.
    + intros E H1. apply Hw in H1 as [w' H1]. congruence.
    + intros H1. destruct (check_win_condition st) as [w'|] eqn:E; [|reflexivity].
      exfalso. apply H1, Hw. eauto.
Qed.

Lemma win_check_names_the_sole_survivor_witness :
  (check_win_condition late_duel = Some 1 <->
   is_player_alive late_duel 1 = true /\
   forall q, is_player_alive late_duel q = true -> q = 1) /\
  (check_win_condition late_duel = None <-> alive_count late_duel <> 1).
Proof.
  apply (win_check_names_the_sole_survivor late_duel 1).
  repeat constructor; simpl; intuition discriminate.
Defined.

Lemma reveal_all_eq p cs st :
  reveal_all p cs st = mkRes (Val tt) st (map (Revealed p) cs).
Proof.
  induction cs as [|c t IH]; [reflexivity|].
  cbn [reveal_all map]. rewrite bind_emit, IH. reflexivity.
Qed.

Lemma nobody_alive_hangs current st :
  mem (players st) current = true ->
  (forall q, is_player_alive st q = false) ->
  get_next_player current st = mkRes Hang st [].
Proof.
  intros Hm Hd. unfold get_next_player. rewrite bind_get.
  apply mem_keys in Hm. destruct (index_of_Some _ _ Hm) as (i & Ei & _).
  rewrite Ei.
  match goal with |- context [next_alive ?a ?b ?c ?d] =>
    destruct (next_alive a b c d) as [q|] eqn:E end; [|reflexivity].
  apply next_alive_sound in E as [_ Ha]. rewrite Hd in Ha. discriminate.
Qed.

Lemma lookup_delete_sub r u v d :
  NoDup (keys r) -> lookup (delete r u) v = Some d -> v <> u /\ lookup r v = Some d.
Proof.
  intros Hn H. destruct (Nat.eq_dec v u) as [->|N].
  - rewrite lookup_delete_same in H by exact Hn. discriminate.
  - split; [exact N|]. rewrite lookup_delete_other in H by congruence. exact H.
Qed.

Lemma elimination_of_cardless e p st d q :
  NoDup (keys (players st)) ->
  lookup (players st) p = Some d -> cards d = [] ->
  is_player_alive st q = true ->
  match check_win_condition (without st p) with
  | None =>
      exists next,
        handle_player_elimination e p st
        = mkRes (Val (true, false, Some next)) (without st p) [] /\
        is_player_alive st next = true /\
        get_next_player p st = mkRes (Val next) st []
  | Some w =>
      exists dw, lookup (players st) w = Some dw /\ w <> p /\
        handle_player_elimination e p st
        = mkRes (Val (true, true, None))
                (mkTable [] (shuffle (rand_deck e) fresh_deck) [] false None)
                (GameOver w :: map (Revealed w) (cards dw))
  end.
Proof.
  intros Hn El Hc Hq. unfold handle_player_elimination.
  rewrite (bind_pure _ (player_data_found El)), Hc. cbn [length Nat.eqb].
  assert (Hm : mem (players st) p = true) by (apply mem_lookup; eauto).
  destruct (get_next_player_returns st p q Hm Hq) as (next & Hnext & Hal).
  rewrite (bind_pure _ Hnext), bind_modify, bind_get.
  fold (without st p).
  destruct (check_win_condition (without st p)) as [w|] eqn:Ew.
  - pose proof (check_win_alive _ _ Ew) as Hw.
    apply alive_hand in Hw as (dw & Elw & _).
    unfold without in Elw. cbn [players set_players] in Elw.
    apply lookup_delete_sub in Elw as [Nw Elw]; [|exact Hn].
    exists dw. split; [exact Elw|]. split; [exact Nw|].
    rewrite bind_emit. unfold reveal_winner_hand.
    assert (Elw' : lookup (players (without st p)) w = Some dw).
    { unfold without. cbn [players set_players].
      rewrite lookup_delete_other by congruence. exact Elw. }
    rewrite bind_assoc, (bind_pure _ (player_data_found Elw')).
    rewrite (bind_val _ (reveal_all_eq w (cards dw) (without st p))).
    rewrite bind_modify. unfold shuffle_deck. rewrite bind_modify.
    cbn [oc final trace ret]. rewrite app_nil_r. reflexivity.
  - exists next. split; [reflexivity|]. split; [exact Hal|exact Hnext].
Qed.

(** ** Fresh tables, the end of a game, unopposed and blocked actions *)

Lemma copies_perm c l l' : Permutation l l' -> copies c l = copies c l'.
Proof.
  unfold copies. induction 1; simpl; auto.
  - destruct (card_eqb c x); simpl; congruence.
  - destruct (card_eqb c x), (card_eqb c y); reflexivity.
  - congruence.
Qed.

Lemma copies_shuffled rs c : copies c (shuffle rs fresh_deck) = 3.
Proof.
  rewrite (copies_perm c _ _ (shuffle_perm rs fresh_deck)). now destruct c.
Qed.

Lemma out_of_turn_rejected c e st :
  is_action c = true -> is_turn st (author e) = false ->
  run c e st = rejection st NotYourTurn.
Proof.
  intros Ha Ht.
  destruct c; try discriminate; cbn [run];
    unfold income, foreign_aid, coup, assassinate, tax, steal, exchange;
    rewrite checked_turn, Ht; reflexivity.
Qed.

(** X5.  The table [get_game_state] creates for a guild it has not seen
    holds nobody, nothing discarded, no game and no current player; its
    deck holds three copies of each character, fifteen cards, however it
    was shuffled; and every action command on it, from anybody, is
    turned down as out of turn and leaves it as it is. *)
Theorem new_table_is_three_of_each (rs : list nat) :
  players (new_table rs) = [] /\ discarded_cards (new_table rs) = [] /\
  game_started (new_table rs) = false /\ current_player (new_table rs) = None /\
  length (court_deck (new_table rs)) = 15 /\
  (forall c, copies c (court_deck (new_table rs)) = 3) /\
  (forall c e, is_action c = true ->
     run c e (new_table rs) = rejection (new_table rs) NotYourTurn).
Proof.
  repeat split.
  - unfold new_table. cbn [court_deck]. now rewrite shuffle_length.
  - intros c. apply copies_shuffled.
  - intros c e Ha. now apply out_of_turn_rejected.
Qed.

(** X6.  [end] asks neither for a turn nor for a seat: whoever issues it
    on a running game gets roster, discard pile and flags cleared and a
    reshuffled deck of three copies of each character; after it every
    action command is turned down as out of turn, and a second [end] as
    having no game to end.  Without a game in progress the first [end]
    is turned down too and changes nothing. *)
Theorem end_resets_for_anybody (e e' : env) (st : table) :
  (game_started st = false -> end_ e st = rejection st NoGameInProgress) /\
  (game_started st = true ->
     let s := mkTable [] (shuffle (rand_deck e) fresh_deck) [] false None in
     end_ e st = mkRes (Val tt) s [] /\
     length (court_deck s) = 15 /\
     (forall c, copies c (court_deck s) = 3) /\
     (forall c, is_action c = true -> run c e' s = rejection s NotYourTurn) /\
     end_ e' s = rejection s NoGameInProgress).
Proof.
  split; intros Hg.
  - unfold end_. now rewrite bind_get, Hg.
  - cbv zeta. split; [|split; [|split; [|split]]].
    + unfold end_. now rewrite bind_get, Hg.
    + cbn [court_deck]. now rewrite shuffle_length.
    + intros c. apply copies_shuffled.
    + intros c Ha. now apply out_of_turn_rejected.
    + reflexivity.
Qed.

Lemma end_resets_for_anybody_witness :
  let s := mkTable [] (shuffle [] fresh_deck) [] false None in
  end_ away_env trio = mkRes (Val tt) s [] /\
  run CIncome (quiet_env 1) s = rejection s NotYourTurn /\
  end_ (quiet_env 1) s = rejection s NoGameInProgress.
Proof.
  destruct (end_resets_for_anybody away_env (quiet_env 1) trio) as (_ & H).
  destruct (H eq_refl) as (H1 & _ & _ & H4 & H5).
  split; [exact H1|]. split; [exact (H4 CIncome eq_refl)|exact H5].
Defined.

Lemma no_response_to_nothing e st a rs : find (eligible e st [] a) rs = None.
Proof.
  induction rs as [|r t IH]; [reflexivity|].
  cbn [find]. unfold eligible at 1. cbn [existsb]. now rewrite andb_false_r.
Qed.

(** X7.  Income, foreign aid and tax that nobody answers pay the player
    to move one, two and three coins: the command is the opening prompt
    (none for income, which cannot be answered at all) followed by
    [advance_turn] on the table with that balance raised and nothing
    else touched. *)
Theorem unopposed_gain (c : command) (e : env) (st : table) (d : pdata) (n : Z) :
  gain_of c = Some n ->
  is_turn st (author e) = true ->
  lookup (players st) (author e) = Some d ->
  (coins d < 10)%Z ->
  find (eligible e st (responses c) (author e)) (first_window e) = None ->
  let paid := with_coins st (author e) d n in
  let adv := advance_turn e (author e) paid in
  run c e st = mkRes (oc adv) (final adv) (opening_prompt c (author e) st ++ trace adv) /\
  lookup (players paid) (author e) = Some (mkP (cards d) (coins d + n)) /\
  (forall q, q <> author e -> lookup (players paid) q = lookup (players st) q) /\
  keys (players paid) = keys (players st) /\
  court_deck paid = court_deck st /\ discarded_cards paid = discarded_cards st.
Proof.
  intros Hg Ht El Hc Hf. cbv zeta.
  assert (H10 : (10 <=? coins d)%Z = false) by (apply Z.leb_gt; lia).
  split; [|repeat split].
  - destruct c; try discriminate; injection Hg as <-; cbn [run responses] in *;
      unfold income, foreign_aid, tax, then_advance, opening_prompt;
      cbn [responses];
      rewrite checked_turn, Ht, checked_allowed, El, H10; cbn [andb].
    + rewrite (bind_val _ (add_coins_found _ _ _ _ El)). cbn [app]. reflexivity.
    + rewrite !bind_assoc.
      rewrite (bind_val _ (wait_for_reaction_eq _ _ _ _ _)), Hf.
      rewrite bind_assoc, (bind_val _ (add_coins_found _ _ _ _ El)).
      rewrite bind_ret. cbn [oc final trace app]. reflexivity.
    + rewrite !bind_assoc.
      rewrite (bind_val _ (wait_for_reaction_eq _ _ _ _ _)), Hf.
      rewrite bind_assoc, (bind_val _ (add_coins_found _ _ _ _ El)).
      rewrite bind_ret. cbn [oc final trace app]. reflexivity.
  - unfold with_coins. cbn [players set_players]. apply lookup_assign_same.
  - intros q Hq. unfold with_coins. cbn [players set_players].
    apply lookup_assign_other. congruence.
  - unfold with_coins. cbn [players set_players].
    apply keys_assign_present. apply mem_lookup. eauto.
Qed.

Lemma unopposed_gain_witness :
  let e := quiet_env 1 in
  let d := mkP [Duke; Captain] 2%Z in
  let paid := with_coins duel (author e) d 3 in
  let adv := advance_turn e (author e) paid in
  run CTax e duel = mkRes (oc adv) (final adv) (opening_prompt CTax (author e) duel ++ trace adv) /\
  lookup (players paid) (author e) = Some (mkP (cards d) (coins d + 3)) /\
  (forall q, q <> author e -> lookup (players paid) q = lookup (players duel) q) /\
  keys (players paid) = keys (players duel) /\
  court_deck paid = court_deck duel /\ discarded_cards paid = discarded_cards duel.
Proof.
  apply (unopposed_gain CTax (quiet_env 1) duel (mkP [Duke; Captain] 2%Z) 3).
  - reflexivity.
  - reflexivity.
  - reflexivity.
  - simpl. lia.
  - reflexivity.
Defined.

(** ** Blocks nobody challenges, reactions, challenges and coins *)

(** X8.  A block of foreign aid or of a steal that nobody challenges
    cancels the action: after the two prompts the command is
    [advance_turn] on the table as the command found it, so nobody's
    cards or coins have moved. *)
Theorem unchallenged_block_cancels (c : command) (e : env) (st : table)
    (d : pdata) (blocker : user) :
  (c = CForeignAid \/
   exists t dt, c = CSteal t /\ is_player_alive st t = true /\ author e <> t /\
                lookup (players st) t = Some dt /\ (1 <= coins dt)%Z) ->
  is_turn st (author e) = true ->
  lookup (players st) (author e) = Some d ->
  (coins d < 10)%Z ->
  find (eligible e st (responses c) (author e)) (first_window e) = Some (EBlock, blocker) ->
  find (eligible e st [EChallenge] blocker) (second_window e) = None ->
  let adv := advance_turn e (author e) st in
  run c e st =
  mkRes (oc adv) (final adv)
        (Prompt (responses c) (author e) st :: Prompt [EChallenge] blocker st :: trace adv).
Proof.
  intros Hc Ht El Hd Hf1 Hf2. cbv zeta.
  assert (H10 : (10 <=? coins d)%Z = false) by (apply Z.leb_gt; lia).
  destruct Hc as [->|(t & dt & -> & Hal & N & Elt & Hdt)]; cbn [run responses] in *.
  - unfold foreign_aid, then_advance.
    rewrite checked_turn, Ht, checked_allowed, El, H10. cbn [andb].
    rewrite !bind_assoc.
    rewrite (bind_val _ (wait_for_reaction_eq _ _ _ _ _)), Hf1.
    rewrite !bind_assoc.
    rewrite (bind_val _ (wait_for_reaction_eq _ _ _ _ _)), Hf2.
    rewrite bind_ret. cbn [oc final trace app]. reflexivity.
  - unfold steal, then_advance.
    assert (Hm : mem (players st) t = true) by now apply alive_mem.
    assert (Hs : Nat.eqb (author e) t = false) by now apply Nat.eqb_neq.
    assert (H1 : (coins dt <? 1)%Z = false) by (apply Z.ltb_ge; lia).
    rewrite checked_turn, Ht, checked_target, Hm, Hal. cbn [negb].
    rewrite checked_self, Hs, checked_allowed, El, H10. cbn [andb].
    rewrite checked_in_game, Hm. cbn [negb].
    rewrite checked_has_coins, Elt, H1.
    rewrite !bind_assoc.
    rewrite (bind_val _ (wait_for_reaction_eq _ _ _ _ _)), Hf1.
    rewrite !bind_assoc.
    rewrite (bind_val _ (wait_for_reaction_eq _ _ _ _ _)), Hf2.
    rewrite bind_ret. cbn [oc final trace app]. reflexivity.
Qed.

Lemma unchallenged_block_cancels_witness :
  let adv := advance_turn block_env (author block_env) duel in
  run (CSteal 2) block_env duel =
  mkRes (oc adv) (final adv)
        (Prompt (responses (CSteal 2)) (author block_env) duel
           :: Prompt [EChallenge] 2 duel :: trace adv).
Proof.
  apply (unchallenged_block_cancels (CSteal 2) block_env duel (mkP [Duke; Captain] 2%Z) 2).
  - right. exists 2, (mkP [Contessa; Assassin] 2%Z).
    repeat split; try reflexivity; simpl; lia.
  - reflexivity.
  - reflexivity.
  - simpl. lia.
  - reflexivity.
  - reflexivity.
Defined.

Lemma find_first {A} (f : A -> bool) (l : list A) x :
  find f l = Some x ->
  f x = true /\
  exists before after, l = before ++ x :: after /\
                       forall y, In y before -> f y = false.
Proof.
  induction l as [|a t IH]; [discriminate|].
  cbn [find]. destruct (f a) eqn:E.
  - intros H. injection H as <-. split; [exact E|].
    exists [], t. split; [reflexivity|]. intros y [].
  - intros H. destruct (IH H) as (Hx & b & a' & -> & Hb). split; [exact Hx|].
    exists (a :: b), a'. split; [reflexivity|].
    intros y [<-|Hy]; auto.
Qed.

Lemma find_app {A} (f : A -> bool) (l l' : list A) :
  find f (l ++ l') = match find f l with Some x => Some x | None => find f l' end.
Proof.
  induction l as [|a t IH]; [reflexivity|].
  cbn [app find]. now destruct (f a).
Qed.

Lemma first_user_find e st valid initiator em us :
  existsb (emoji_eqb em) valid = true ->
  first_user e st initiator em us
  = find (eligible e st valid initiator) (map (fun u => (em, u)) us).
Proof.
  intros Hv. induction us as [|u t IH]; [reflexivity|].
  cbn [first_user map find]. unfold eligible at 1. cbn [fst snd]. rewrite Hv.
  fold (user_counts e st initiator u). rewrite andb_true_r.
  now destruct (user_counts e st initiator u).
Qed.

Lemma wrong_emoji_find e st valid initiator em us :
  existsb (emoji_eqb em) valid = false ->
  find (eligible e st valid initiator) (map (fun u => (em, u)) us) = None.
Proof.
  intros Hv. induction us as [|u t IH]; [reflexivity|].
  cbn [map find]. unfold eligible at 1. cbn [fst snd]. rewrite Hv.
  now rewrite andb_false_r.
Qed.

Lemma check_existing_find e st valid initiator s :
  check_existing_reactions e st valid initiator s
  = find (eligible e st valid initiator) (shown_pairs s).
Proof.
  destruct s as [rs|]; [|reflexivity]. cbn [check_existing_reactions shown_pairs].
  induction rs as [|[em us] t IH]; [reflexivity|].
  cbn [scan_reactions map concat fst snd]. rewrite find_app.
  destruct (existsb (emoji_eqb em) valid) eqn:Hv.
  - rewrite <- (first_user_find e st valid initiator em us Hv).
    now destruct (first_user e st initiator em us).
  - now rewrite (wrong_emoji_find e st valid initiator em us Hv).
Qed.

Lemma check_new_find e st valid initiator evs :
  match find (check_new_reaction e st valid initiator) evs with
  | Some (_, em, u) => Some (em, u)
  | None => None
  end
  = find (eligible e st valid initiator) (arrived_pairs evs).
Proof.
  unfold arrived_pairs.
  induction evs as [|[[on_message em] u] t IH]; [reflexivity|].
  cbn [find filter fst snd]. unfold check_new_reaction at 1.
  destruct on_message; cbn [map find].
  - unfold eligible at 1. cbn [fst snd].
    destruct (mem (players st) u), (is_player_alive st u),
      (negb (Nat.eqb u initiator)), (negb (is_bot e u)),
      (existsb (emoji_eqb em) valid); cbn [andb]; auto.
  - rewrite !andb_false_r. cbn [andb]. exact IH.
Qed.

Lemma countdown_find e st valid initiator ticks rounds k :
  countdown e st valid initiator ticks rounds k
  = find (eligible e st valid initiator)
         (concat (map (fun k => arrived_pairs (arrivals (ticks k))
                                ++ shown_pairs (shown_after (ticks k)))
                      (seq k rounds))).
Proof.
  revert k. induction rounds as [|r IH]; intros k; [reflexivity|].
  cbn [countdown seq map concat]. rewrite !find_app.
  rewrite <- check_new_find, <- check_existing_find, <- IH.
  destruct (find (check_new_reaction e st valid initiator) (arrivals (ticks k)))
    as [[[b em] u]|]; reflexivity.
Qed.

Lemma countdown_ext e st valid initiator ticks ticks' rounds k :
  (forall j, k <= j < k + rounds -> ticks' j = ticks j) ->
  countdown e st valid initiator ticks' rounds k
  = countdown e st valid initiator ticks rounds k.
Proof.
  revert k. induction rounds as [|r IH]; intros k H; [reflexivity|].
  cbn [countdown]. rewrite (H k) by lia. rewrite (IH (S k)); [reflexivity|].
  intros j Hj. apply H. lia.
Qed.

(** X9.  The polling loop of [wait_for_reaction] answers with the first
    reaction that counts in the order it comes to look at them: what the
    message shows when it is first fetched, then, for each of the
    [timeout + 1] seconds of the countdown, the events of that second on
    the message and what the message shows after it.  A reaction counts
    when its emoji is one the prompt accepts and it is from a seated
    player who holds a card, is not a bot and is not the initiator.  The
    answer is [(None, None)] exactly when nothing looked at counts; a
    fetch that fails shows nothing; and nothing that happens after the
    countdown matters.  The loop gives the answer of the model of
    [wait_for_reaction] the commands are run with, on that list. *)
Theorem reaction_is_first_that_counts (e : env) (valid : list emoji)
    (initiator : user) (timeout : nat) (first : snapshot) (ticks : nat -> tick)
    (st : table) :
  let seen := observed timeout first ticks in
  let answer := wait_for_reaction_loop e st valid initiator timeout first ticks in
  answer = find (eligible e st valid initiator) seen /\
  wait_for_reaction e valid initiator seen st
  = mkRes (Val answer) st [Prompt valid initiator st] /\
  match answer with
  | Some (em, u) =>
      mem (players st) u = true /\ is_player_alive st u = true /\
      u <> initiator /\ is_bot e u = false /\ In em valid /\
      exists before after,
        seen = before ++ (em, u) :: after /\
        forall x, In x before -> eligible e st valid initiator x = false
  | None => forall x, In x seen -> eligible e st valid initiator x = false
  end /\
  (forall ticks', (forall k, k <= timeout -> ticks' k = ticks k) ->
     wait_for_reaction_loop e st valid initiator timeout first ticks' = answer).
Proof.
  cbv zeta.
  assert (Hfind : wait_for_reaction_loop e st valid initiator timeout first ticks
                  = find (eligible e st valid initiator) (observed timeout first ticks)).
  { unfold wait_for_reaction_loop, observed.
    rewrite find_app, <- check_existing_find, <- countdown_find.
    now destruct (check_existing_reactions e st valid initiator first). }
  split; [exact Hfind|]. split; [now rewrite wait_for_reaction_eq, Hfind|].
  split.
  - rewrite Hfind.
    destruct (find (eligible e st valid initiator) (observed timeout first ticks))
      as [[em u]|] eqn:E.
    + apply find_first in E as (Hel & Hsplit).
      pose proof Hel as Hel'. unfold eligible in Hel'. cbn [fst snd] in Hel'.
      apply andb_prop in Hel' as [Hel' Hv]. apply andb_prop in Hel' as [Hel' Hb].
      apply andb_prop in Hel' as [Hel' Hi]. apply andb_prop in Hel' as [Hm Ha].
      repeat split; auto.
      * apply negb_true_iff, Nat.eqb_neq in Hi. exact Hi.
      * now apply negb_true_iff in Hb.
      * apply existsb_exists in Hv as (x & Hx & Hxe).
        destruct em, x; try discriminate; exact Hx.
    + intros x Hx. destruct (eligible e st valid initiator x) eqn:Ex; [|reflexivity].
      pose proof (find_none _ _ E x Hx) as Hn. congruence.
  - intros ticks' Hsame. unfold wait_for_reaction_loop.
    rewrite (countdown_ext e st valid initiator ticks ticks' (S timeout) 0);
      [reflexivity|].
    intros j Hj. apply Hsame. lia.
Qed.

Lemma reaction_is_first_that_counts_witness :
  let ticks := fun k =>
    match k with
    | 0 => mkTick [(true, EChallenge, 1)] (Some [(EChallenge, [0; 1]); (EBlock, [0])])
    | 1 => mkTick [(false, EBlock, 2)] None
    | 2 => mkTick [(true, EOther, 2); (true, EChallenge, 2); (true, EBlock, 2)] None
    | _ => mkTick [] (Some [(EBlock, [2])])
    end in
  wait_for_reaction_loop (quiet_env 1) duel [EChallenge; EBlock] 1 5
    (Some [(EChallenge, [0]); (EBlock, [0])]) ticks
  = Some (EChallenge, 2) /\
  wait_for_reaction_loop (quiet_env 1) duel [EChallenge; EBlock] 1 1
    (Some [(EChallenge, [0]); (EBlock, [0])]) ticks
  = None.
Proof.
  intros ticks. split.
  - destruct (reaction_is_first_that_counts (quiet_env 1) [EChallenge; EBlock] 1 5
                (Some [(EChallenge, [0]); (EBlock, [0])]) ticks duel) as (H & _).
    rewrite H. reflexivity.
  - destruct (reaction_is_first_that_counts (quiet_env 1) [EChallenge; EBlock] 1 1
                (Some [(EChallenge, [0]); (EBlock, [0])]) ticks duel) as (H & _).
    rewrite H. reflexivity.
Defined.

(** X10.  A challenge moves cards, never coins: whatever way
    [handle_challenge] or [handle_block_challenge] leaves (it returns, or
    raises on a missing seat), nobody has sat down and every player still
    seated has the balance they had. *)
Theorem challenge_moves_no_coins (e : env) (claimer challenger : user)
    (required_card : card) (valid_cards : list card) (st : table) :
  NoDup (keys (players st)) ->
  (forall r, r = handle_challenge e claimer challenger required_card st \/
             r = handle_block_challenge e claimer challenger valid_cards st ->
     oc r <> Hang ->
     NoDup (keys (players (final r))) /\
     forall p d', lookup (players (final r)) p = Some d' ->
       exists d, lookup (players st) p = Some d /\ coins d' = coins d).
Proof.
  intros Hn r Hr Hh.
  assert (Hc : covers true (oc r) = true) by (destruct (oc r); auto; congruence).
  destruct Hr as [-> | ->].
  - exact (handle_challenge_coins_kept e claimer challenger required_card st Hc Hn).
  - exact (handle_block_challenge_coins_kept e claimer challenger valid_cards st Hc Hn).
Qed.

Lemma challenge_moves_no_coins_witness :
  let r := handle_challenge (quiet_env 1) 1 2 Duke duel in
  NoDup (keys (players (final r))) /\
  forall p d', lookup (players (final r)) p = Some d' ->
    exists d, lookup (players duel) p = Some d /\ coins d' = coins d.
Proof.
  apply (challenge_moves_no_coins (quiet_env 1) 1 2 Duke [Captain; Ambassador] duel).
  - repeat constructor; simpl; intuition discriminate.
  - left. reflexivity.
  - vm_compute. discriminate.
Defined.

(** ** Turn order *)

Lemma next_alive_first fuel : forall st l i q,
  i < length l ->
  (next_alive fuel st l i = Some q <->
   exists k, k < fuel /\ nth_error l ((i + k) mod length l) = Some q /\
             is_player_alive st q = true /\
             forall j p, j < k -> nth_error l ((i + j) mod length l) = Some p ->
                         is_player_alive st p = false).
Proof.
  induction fuel as [|f IH]; intros st l i q Hi.
  - cbn [next_alive]. split; [discriminate|]. intros (k & Hk & _). lia.
  - cbn [next_alive].
    destruct (nth_error l i) as [p|] eqn:Ep.
    2: { apply nth_error_None in Ep. lia. }
    assert (Hmod0 : (i + 0) mod length l = i)
      by (rewrite Nat.add_0_r; apply Nat.mod_small; exact Hi).
    assert (Hshift : forall k, (((i + 1) mod length l) + k) mod length l
                               = (i + S k) mod length l).
    { intros k. rewrite Nat.Div0.add_mod_idemp_l. f_equal. lia. }
    destruct (is_player_alive st p) eqn:Ea.
    + split.
      * intros H. injection H as <-. exists 0. split; [lia|].
        rewrite Hmod0. repeat split; auto. intros j p' Hj. lia.
      * intros (k & Hk & Hn & Hq & Hdead). destruct k as [|k].
        -- rewrite Hmod0, Ep in Hn. exact Hn.
        -- exfalso. specialize (Hdead 0 p (Nat.lt_0_succ _)).
           rewrite Hmod0 in Hdead. rewrite (Hdead Ep) in Ea. discriminate.
    + assert (Hi' : (i + 1) mod length l < length l) by (apply Nat.mod_upper_bound; lia).
      rewrite (IH st l _ q Hi'). split.
      * intros (k & Hk & Hn & Hq & Hdead). exists (S k). split; [lia|].
        rewrite <- Hshift. repeat split; auto.
        intros j p' Hj Hp'. destruct j as [|j].
        -- rewrite Hmod0, Ep in Hp'. injection Hp' as <-. exact Ea.
        -- rewrite <- Hshift in Hp'. apply (Hdead j p'); [lia|exact Hp'].
      * intros (k & Hk & Hn & Hq & Hdead). destruct k as [|k].
        -- rewrite Hmod0, Ep in Hn. injection Hn as <-. congruence.
        -- exists k. split; [lia|]. rewrite Hshift. repeat split; auto.
           intros j p' Hj Hp'. rewrite Hshift in Hp'. apply (Hdead (S j) p'); [lia|exact Hp'].
Qed.

Lemma index_of_nth u l i :
  NoDup l -> nth_error l i = Some u -> index_of u l = Some i.
Proof.
  revert i. induction l as [|x t IH]; intros i Hn Hi; [destruct i; discriminate|].
  inversion Hn as [|? ? Hx Ht]; subst. cbn [index_of].
  destruct i as [|i]; cbn [nth_error] in Hi.
  - injection Hi as ->. now rewrite Nat.eqb_refl.
  - destruct (Nat.eqb x u) eqn:E.
    + apply Nat.eqb_eq in E. subst. exfalso. apply Hx. eapply nth_error_In; eauto.
    + now rewrite (IH i Ht Hi).
Qed.

Lemma index_of_None u l : ~ In u l -> index_of u l = None.
Proof.
  induction l as [|x t IH]; intros H; [reflexivity|].
  cbn [index_of]. destruct (Nat.eqb x u) eqn:E.
  - apply Nat.eqb_eq in E. subst. exfalso. apply H. now left.
  - rewrite IH; [reflexivity|]. intros Hi. apply H. now right.
Qed.

(** X11.  [get_next_player] reads the table without changing it.  For
    [current] at seat [i] it answers with the first player holding a
    card met from seat [i + 1] on, going round the table in seat order
    and back to [current] if need be; so with the neighbour alive it is
    the neighbour, and with nobody else alive it is [current] again.
    With no live player at the table the search never ends, and for a
    [current] who is not seated [list.index] raises [ValueError]. *)
Theorem next_player_is_first_alive_after (current : user) (st : table) :
  let l := keys (players st) in
  let r := get_next_player current st in
  final r = st /\ trace r = [] /\
  (~ In current l -> oc r = Exn ValueError) /\
  (forall i, NoDup l -> nth_error l i = Some current ->
     (forall q, oc r = Val q <->
        exists k, k < length l /\
          nth_error l ((i + 1 + k) mod length l) = Some q /\
          is_player_alive st q = true /\
          forall j p, j < k -> nth_error l ((i + 1 + j) mod length l) = Some p ->
                      is_player_alive st p = false) /\
     (oc r = Hang <-> forall q, In q l -> is_player_alive st q = false) /\
     (forall q, nth_error l ((i + 1) mod length l) = Some q ->
                is_player_alive st q = true -> oc r = Val q) /\
     (is_player_alive st current = true ->
      (forall q, q <> current -> is_player_alive st q = false) -> oc r = Val current)).
Proof.
  cbv zeta.
  split; [apply get_next_player_final|].
  assert (Htr : trace (get_next_player current st) = []).
  { destruct (get_next_player_cases current st) as [(np & -> & _)|[-> | ->]]; reflexivity. }
  split; [exact Htr|]. split.
  - intros Hn. unfold get_next_player. rewrite bind_get.
    now rewrite (index_of_None _ _ Hn).
  - intros i Hnd Hi.
    set (l := keys (players st)) in *.
    assert (Hil : i < length l) by (apply nth_error_Some; congruence).
    assert (Hstart : (i + 1) mod length l < length l)
      by (apply Nat.mod_upper_bound; lia).
    assert (Hshift : forall k, (((i + 1) mod length l) + k) mod length l
                               = (i + 1 + k) mod length l).
    { intros k. now rewrite Nat.Div0.add_mod_idemp_l. }
    assert (Hrun : get_next_player current st =
                   match next_alive (length l) st l ((i + 1) mod length l) with
                   | Some p => mkRes (Val p) st []
                   | None => mkRes Hang st []
                   end).
    { unfold get_next_player. rewrite bind_get. fold l.
      rewrite (index_of_nth _ _ _ Hnd Hi).
      destruct (next_alive (length l) st l ((i + 1) mod length l)); reflexivity. }
    assert (Hiff : forall q, oc (get_next_player current st) = Val q <->
              exists k, k < length l /\
                nth_error l ((i + 1 + k) mod length l) = Some q /\
                is_player_alive st q = true /\
                forall j p, j < k -> nth_error l ((i + 1 + j) mod length l) = Some p ->
                            is_player_alive st p = false).
    { intros q. rewrite Hrun.
      pose proof (next_alive_first (length l) st l _ q Hstart) as Hf.
      split.
      - intros H.
        destruct (next_alive (length l) st l ((i + 1) mod length l)) as [p|] eqn:E;
          [|discriminate].
        cbn [oc] in H. injection H as ->.
        destruct (proj1 Hf eq_refl) as (k & Hk & Hn & Hq & Hd).
        exists k. split; [exact Hk|]. rewrite <- Hshift. repeat split; auto.
        intros j p Hj Hp. rewrite <- Hshift in Hp. eauto.
      - intros (k & Hk & Hn & Hq & Hd).
        assert (E : next_alive (length l) st l ((i + 1) mod length l) = Some q).
        { apply Hf. exists k. split; [exact Hk|]. rewrite Hshift. repeat split; auto.
          intros j p Hj Hp. rewrite Hshift in Hp. eauto. }
        now rewrite E. }
    split; [exact Hiff|]. split; [|split].
    + rewrite Hrun. split.
      * intros H q Hq.
        destruct (next_alive (length l) st l ((i + 1) mod length l)) as [p|] eqn:E;
          [discriminate|].
        exact (next_alive_none st l _ Hstart E q Hq).
      * intros Hd.
        destruct (next_alive (length l) st l ((i + 1) mod length l)) as [p|] eqn:E;
          [|reflexivity].
        apply next_alive_sound in E as [Hp Ha]. rewrite (Hd p Hp) in Ha. discriminate.
    + intros q Hq Ha. apply Hiff. exists 0. split; [lia|].
      rewrite Nat.add_0_r. repeat split; auto. intros j p Hj. lia.
    + intros Ha Hothers. apply Hiff. exists (length l - 1). split; [lia|].
      assert (Hback : (i + 1 + (length l - 1)) mod length l = i).
      { replace (i + 1 + (length l - 1)) with (i + 1 * length l) by lia.
        rewrite Nat.Div0.mod_add. now apply Nat.mod_small. }
      rewrite Hback. repeat split; auto.
      intros j p Hj Hp. apply Hothers. intros ->.
      assert (Hji : (i + 1 + j) mod length l = i).
      { apply (proj1 (NoDup_nth_error l) Hnd); [|congruence].
        apply Nat.mod_upper_bound. lia. }
      assert (Hlt : i + 1 + j < i + length l) by lia.
      destruct (Nat.lt_ge_cases (i + 1 + j) (length l)) as [Hs|Hs].
      * rewrite Nat.mod_small in Hji by exact Hs. lia.
      * replace (i + 1 + j) with ((i + 1 + j - length l) + 1 * length l) in Hji by lia.
        rewrite Nat.Div0.mod_add in Hji. rewrite Nat.mod_small in Hji by lia. lia.
Qed.

Lemma next_player_is_first_alive_after_witness :
  oc (get_next_player 2 duel) = Val 1.
Proof.
  pose proof (next_player_is_first_alive_after 2 duel) as H. cbv zeta in H.
  destruct H as (_ & _ & _ & H).
  destruct (H 1) as (_ & _ & Hn & _).
  - repeat constructor; simpl; intuition discriminate.
  - reflexivity.
  - apply Hn; reflexivity.
Defined.

(** ** Elimination *)

Lemma next_player_in_seat_order current st i q :
  NoDup (keys (players st)) ->
  nth_error (keys (players st)) i = Some current ->
  get_next_player current st = mkRes (Val q) st [] ->
  exists k, k < length (keys (players st)) /\
    nth_error (keys (players st)) ((i + 1 + k) mod length (keys (players st))) = Some q /\
    forall j p, j < k ->
      nth_error (keys (players st)) ((i + 1 + j) mod length (keys (players st))) = Some p ->
      is_player_alive st p = false.
Proof.
  intros Hnd Hi Hrun. set (l := keys (players st)) in *.
  assert (Hil : i < length l) by (apply nth_error_Some; congruence).
  assert (Hstart : (i + 1) mod length l < length l)
    by (apply Nat.mod_upper_bound; lia).
  assert (Hshift : forall k, (((i + 1) mod length l) + k) mod length l
                             = (i + 1 + k) mod length l).
  { intros k. now rewrite Nat.Div0.add_mod_idemp_l. }
  unfold get_next_player in Hrun. rewrite bind_get in Hrun. fold l in Hrun.
  rewrite (index_of_nth _ _ _ Hnd Hi) in Hrun.
  destruct (next_alive (length l) st l ((i + 1) mod length l)) as [p|] eqn:E;
    [|discriminate].
  change (mkRes (Val p) st [] = mkRes (Val q) st []) in Hrun.
  injection Hrun as ->.
  destruct (proj1 (next_alive_first (length l) st l _ q Hstart) E)
    as (k & Hk & Hn & _ & Hd).
  exists k. split; [exact Hk|]. rewrite <- Hshift. split; [exact Hn|].
  intros j p Hj Hp. rewrite <- Hshift in Hp. eauto.
Qed.

(** X4.  [handle_player_elimination] touches nothing while the player
    holds a card.  A player without cards is taken off the roster; when
    that leaves exactly one live player the game is over: the winner is
    announced, their hand revealed, and roster, deck, discard pile and
    flags are reset; otherwise the game goes on and the player reported
    as next is the answer of [get_next_player] on the table before the
    removal: the first player holding a card met in seat order after the
    seat of the player removed, going round the table.  With nobody
    alive at all the search for the next player never ends. *)
Theorem elimination_only_without_cards (e : env) (p : user) (st : table) (d : pdata) :
  NoDup (keys (players st)) ->
  lookup (players st) p = Some d ->
  let r := handle_player_elimination e p st in
  let l := keys (players st) in
  (cards d <> [] -> r = mkRes (Val (false, false, None)) st []) /\
  (cards d = [] -> (forall q, is_player_alive st q = false) ->
     r = mkRes Hang st []) /\
  (cards d = [] -> (exists q, is_player_alive st q = true) ->
     mem (players (without st p)) p = false /\
     match check_win_condition (without st p) with
     | None =>
         exists next, r = mkRes (Val (true, false, Some next)) (without st p) [] /\
                      is_player_alive st next = true /\
                      next <> p /\
                      get_next_player p st = mkRes (Val next) st [] /\
                      exists i k, nth_error l i = Some p /\ k < length l /\
                        nth_error l ((i + 1 + k) mod length l) = Some next /\
                        forall j q, j < k ->
                          nth_error l ((i + 1 + j) mod length l) = Some q ->
                          is_player_alive st q = false
     | Some w =>
         exists dw, lookup (players st) w = Some dw /\ w <> p /\
           r = mkRes (Val (true, true, None))
                     (mkTable [] (shuffle (rand_deck e) fresh_deck) [] false None)
                     (GameOver w :: map (Revealed w) (cards dw))
     end).
Proof.
  intros Hn El. cbv zeta.
  split; [|split].
  - intros Hc. unfold handle_player_elimination.
    rewrite (bind_pure _ (player_data_found El)).
    destruct (cards d); [congruence|reflexivity].
  - intros Hc Hd. unfold handle_player_elimination.
    rewrite (bind_pure _ (player_data_found El)), Hc. cbn [length Nat.eqb].
    assert (Hm : mem (players st) p = true) by (apply mem_lookup; eauto).
    now rewrite (bind_hang _ (nobody_alive_hangs p st Hm Hd)).
  - intros Hc [q Hq]. split.
    + unfold mem, without. cbn [players set_players].
      now rewrite lookup_delete_same.
    + pose proof (elimination_of_cardless e p st d q Hn El Hc Hq) as H.
      destruct (check_win_condition (without st p)) as [w|]; [exact H|].
      destruct H as (next & Hr & Ha & Hg). exists next.
      split; [exact Hr|]. split; [exact Ha|]. split.
      { intros ->. unfold is_player_alive in Ha. rewrite El, Hc in Ha. discriminate. }
      split; [exact Hg|].
      destruct (In_nth_error (keys (players st)) p) as (i & Hi).
      { eapply lookup_In_keys; eauto. }
      destruct (next_player_in_seat_order p st i next Hn Hi Hg) as (k & Hk & Hnx & Hd).
      exists i, k. auto.
Qed.

Lemma elimination_only_without_cards_witness :
  handle_player_elimination (quiet_env 1) 3 trio_after_loss
  = mkRes (Val (true, false, Some 1)) (without trio_after_loss 3) [] /\
  handle_player_elimination (quiet_env 1) 2 duel_after_loss
  = mkRes (Val (true, true, None))
          (mkTable [] (shuffle [] fresh_deck) [] false None)
          [GameOver 1; Revealed 1 Duke; Revealed 1 Captain].
Proof.
  split.
  - destruct (elimination_only_without_cards (quiet_env 1) 3 trio_after_loss
                (mkP [] 2%Z)) as (_ & _ & H).
    + repeat constructor; simpl; intuition discriminate.
    + reflexivity.
    + destruct (H eq_refl (ex_intro _ 1 eq_refl)) as [_ Hm].
      change (check_win_condition (without trio_after_loss 3)) with (@None user) in Hm.
      destruct Hm as (next & Hr & _ & _ & Hg & _).
      assert (Hnext : next = 1) by (vm_compute in Hg; congruence).
      now rewrite Hr, Hnext.
  - destruct (elimination_only_without_cards (quiet_env 1) 2 duel_after_loss
                (mkP [] 2%Z)) as (_ & _ & H).
    + repeat constructor; simpl; intuition discriminate.
    + reflexivity.
    + destruct (H eq_refl (ex_intro _ 1 eq_refl)) as [_ Hm].
      change (check_win_condition (without duel_after_loss 2)) with (Some 1) in Hm.
      destruct Hm as (dw & Hl & _ & Hr).
      assert (Hdw : dw = mkP [Duke; Captain] 2%Z) by (vm_compute in Hl; congruence).
      now rewrite Hr, Hdw.
Defined.

(** ** The turn scheduler *)

Lemma nonempty_lookup (r : roster) : r <> [] -> exists u d, lookup r u = Some d.
Proof.
  destruct r as [|[u d] t]; [congruence|]. intros _. exists u, d.
  simpl. now rewrite Nat.eqb_refl.
Qed.

#[global] Instance only_removals_preorder : PreOrder only_removals.
Proof.
  split.
  - intros st Hn. repeat split; auto.
  - intros a b c Hab Hbc Hn.
    destruct (Hab Hn) as (Hnb & Hlb & Hdb).
    destruct (Hbc Hnb) as (Hnc & Hlc & Hdc).
    split; [exact Hnc|]. split; [eauto|].
    intros Hne. destruct (Hdc Hne) as [H1 H2].
    assert (Hb : players b <> []).
    { destruct (nonempty_lookup _ Hne) as (u & d & Hl).
      apply Hlc in Hl. intros Hb. rewrite Hb in Hl. discriminate. }
    destruct (Hdb Hb) as [H3 H4]. split; congruence.
Qed.

Lemma only_removals_same st st' :
  players st' = players st -> court_deck st' = court_deck st ->
  discarded_cards st' = discarded_cards st -> only_removals st st'.
Proof. intros Hp Hd Hdi Hn. rewrite Hp. repeat split; auto. Qed.

Lemma only_removals_wiped st st' : players st' = [] -> only_removals st st'.
Proof.
  intros Hp Hn. rewrite Hp. repeat split; try constructor; try congruence.
  intros u d H. discriminate.
Qed.

Lemma only_removals_delete st p : only_removals st (without st p).
Proof.
  intros Hn. unfold without. cbn [players set_players court_deck discarded_cards].
  split; [now apply NoDup_keys_delete|]. split; [|auto].
  intros u d H. now apply lookup_delete_sub in H as [_ H].
Qed.

Lemma handle_player_elimination_removals e p :
  rel true only_removals (handle_player_elimination e p).
Proof.
  intros st. unfold handle_player_elimination. rel_step.
  destruct (length (cards d) =? 0); [|rel_step].
  rapply rel_at_reader; [apply get_next_player_final|]. intros next _.
  rapply rel_at_modify_bind; [apply only_removals_delete|].
  rel_step.
  match goal with |- context [check_win_condition ?s] =>
    destruct (check_win_condition s) as [w|] end; [|rel_step].
  rel_step.
  rapply rel_at_reader; [apply reveal_winner_hand_final|]. intros _ _.
  rapply rel_at_modify_bind; [now apply only_removals_wiped|].
  rapply rel_at_modify_bind; [now apply only_removals_wiped|].
  rel_step.
Qed.

Lemma advance_turn_fuel_removals e :
  forall fuel cur, rel true only_removals (advance_turn_fuel fuel e cur).
Proof.
  induction fuel as [|f IH]; intros cur st; cbn [advance_turn_fuel]; [rel_step|].
  rel_step. rapply rel_at_bind.
  - destruct (mem (players st) cur).
    + rapply rel_at_reader; [apply get_next_player_final|]. intros np _.
      rapply rel_at_modify_bind; [now apply only_removals_same|]. rel_step.
    + destruct (keys (players st)) as [|p t]; [rel_step|].
      rapply rel_at_modify_bind; [now apply only_removals_same|]. rel_step.
  - intros chosen _.
    match goal with |- rel_at _ _ _ ?s => generalize s end. intros s1.
    destruct chosen; cbn [negb]; [|rel_step].
    rel_step. destruct (current_player s1) as [cp|]; [|rel_step].
    destruct (get_member e cp).
    + rapply rel_at_reader; [apply check_forced_coup_final|]. intros forced _.
      destruct forced; [rel_step|].
      rapply rel_at_same. apply enhanced_turn_announcement_final.
    + rel_step. rapply rel_at_modify_bind.
      { destruct (mem (players s1) cp); [apply only_removals_delete|reflexivity]. }
      rel_step.
      match goal with |- context [check_win_condition ?t] =>
        destruct (check_win_condition t) as [w|] end; [|apply IH].
      rel_step. rapply rel_at_modify. now apply only_removals_wiped.
Qed.

Lemma advance_turn_removals e cur : rel true only_removals (advance_turn e cur).
Proof.
  intros st. unfold advance_turn. rel_step. apply advance_turn_fuel_removals.
Qed.

Lemma turn_announced e cp s d :
  lookup (players s) cp = Some d -> get_member e cp = true ->
  (forced_coup <- check_forced_coup e cp ;;
   if forced_coup then ret tt else enhanced_turn_announcement e (Some cp) false) s
  = mkRes (Val tt) s [Turn cp (10 <=? coins d)%Z].
Proof.
  intros El Hm. unfold check_forced_coup.
  rewrite bind_assoc, (bind_pure _ (player_data_found El)).
  destruct (10 <=? coins d)%Z.
  - rewrite bind_assoc. unfold enhanced_turn_announcement. rewrite Hm.
    rewrite bind_emit, bind_ret. reflexivity.
  - rewrite bind_ret. unfold enhanced_turn_announcement. now rewrite Hm.
Qed.

Lemma all_alive_without st p : NoDup (keys (players st)) ->
  all_alive st -> all_alive (without st p).
Proof.
  intros Hn Ha u Hu. unfold without in *. cbn [players set_players] in *.
  pose proof (In_keys_delete _ _ _ Hu) as Hu'.
  specialize (Ha u Hu'). unfold is_player_alive in *. cbn [players set_players].
  apply mem_keys, mem_lookup in Hu as (d & Hd). rewrite Hd.
  apply lookup_delete_sub in Hd as [_ Hd]; [|exact Hn]. now rewrite Hd in Ha.
Qed.

Lemma advance_turn_fuel_hands_over e fuel : forall cur st,
  NoDup (keys (players st)) -> all_alive st -> length (players st) < fuel ->
  let r := advance_turn_fuel fuel e cur st in
  oc r = Val tt /\
  (players (final r) = [] \/
   exists cp forced tr,
     current_player (final r) = Some cp /\ is_player_alive (final r) cp = true /\
     get_member e cp = true /\ trace r = tr ++ [Turn cp forced]) /\
  (players (final r) <> [] ->
   forall u, mem (players st) u = true -> mem (players (final r)) u = false ->
             get_member e u = false).
Proof.
  induction fuel as [|f IH]; intros cur st Hn Ha Hlen; [lia|].
  cbv zeta. rewrite advance_turn_fuel_step.
  (* what happens once the turn is set to a seated, live [cp] *)
  assert (Htail : forall cp,
    is_player_alive st cp = true ->
    let r := (st1 <- get ;;
              match current_player st1 with
              | None => send_error GameError
              | Some cp =>
                  if get_member e cp then
                    forced_coup <- check_forced_coup e cp ;;
                    if forced_coup then ret tt
                    else enhanced_turn_announcement e (Some cp) false
                  else
                    emit (PlayerLeft cp) ;;
                    modify (fun s => if mem (players s) cp
                                     then set_players (delete (players s) cp) s else s) ;;
                    st2 <- get ;;
                    match check_win_condition st2 with
                    | Some winner => emit (GameOver winner) ;; modify departure_reset
                    | None => advance_turn_fuel f e cp
                    end
              end) (set_current_player (Some cp) st) in
    oc r = Val tt /\
    (players (final r) = [] \/
     exists cp forced tr,
       current_player (final r) = Some cp /\ is_player_alive (final r) cp = true /\
       get_member e cp = true /\ trace r = tr ++ [Turn cp forced]) /\
    (players (final r) <> [] ->
     forall u, mem (players st) u = true -> mem (players (final r)) u = false ->
               get_member e u = false)).
  { intros cp Hcp. cbv zeta. rewrite bind_get. cbn [current_player set_current_player].
    pose proof Hcp as Hcp'. apply alive_hand in Hcp' as (d & Ed & _).
    destruct (get_member e cp) eqn:Eg.
    - assert (Ed' : lookup (players (set_current_player (Some cp) st)) cp = Some d)
        by exact Ed.
      rewrite (turn_announced e cp _ d Ed' Eg). cbn [oc final trace].
      split; [reflexivity|]. split.
      + right. exists cp, (10 <=? coins d)%Z, []. repeat split; auto.
      + intros _ u Hu Hu'. cbn [players set_current_player] in Hu'. congruence.
    - rewrite bind_emit, bind_modify, bind_get.
      assert (Hm : mem (players (set_current_player (Some cp) st)) cp = true).
      { cbn [players set_current_player]. apply mem_lookup. eauto. }
      rewrite Hm.
      change (set_players (delete (players (set_current_player (Some cp) st)) cp)
                          (set_current_player (Some cp) st))
        with (without (set_current_player (Some cp) st) cp).
      set (s2 := without (set_current_player (Some cp) st) cp).
      destruct (check_win_condition s2) as [w|] eqn:Ew.
      + rewrite bind_emit. cbn [oc final trace modify departure_reset players].
        split; [reflexivity|]. split; [now left|]. intros H. congruence.
      + assert (Hn2 : NoDup (keys (players s2))).
        { unfold s2, without. cbn [players set_players set_current_player].
          now apply NoDup_keys_delete. }
        assert (Ha2 : all_alive s2).
        { apply (all_alive_without (set_current_player (Some cp) st) cp Hn). exact Ha. }
        assert (Hl2 : length (players s2) < f).
        { unfold s2, without. cbn [players set_players set_current_player].
          pose proof (length_delete_present (players st) cp) as Hd.
          cbn [players set_current_player] in Hm. specialize (Hd Hm). lia. }
        destruct (IH cp s2 Hn2 Ha2 Hl2) as (Hoc & Hcur & Hleft).
        cbn [oc final trace]. split; [exact Hoc|]. split.
        * destruct Hcur as [Hcur|(cp' & forced & tr & H1 & H2 & H3 & H4)]; [now left|].
          right. exists cp', forced, (PlayerLeft cp :: tr). repeat split; auto.
          rewrite H4. reflexivity.
        * intros Hne u Hu Hu'.
          destruct (Nat.eq_dec u cp) as [->|N]; [exact Eg|].
          apply (Hleft Hne u); [|exact Hu'].
          unfold s2, without, mem. cbn [players set_players set_current_player].
          rewrite lookup_delete_other by congruence. exact Hu. }
  destruct (mem (players st) cur) eqn:Em.
  - assert (Hcur : is_player_alive st cur = true) by (apply Ha; now apply mem_keys).
    destruct (get_next_player_returns st cur cur Em Hcur) as (np & Hnp & Hal).
    rewrite !bind_assoc, (bind_pure _ Hnp), !bind_assoc, bind_modify, bind_ret.
    cbn [negb]. exact (Htail np Hal).
  - destruct (keys (players st)) as [|p t] eqn:Ek.
    + rewrite bind_ret. cbn [negb ret oc final trace].
      assert (Hp : players st = []).
      { destruct (players st); [reflexivity|discriminate]. }
      split; [reflexivity|]. split; [now left|]. intros H. congruence.
    + rewrite !bind_assoc, bind_modify, bind_ret. cbn [negb].
      apply (Htail p). apply Ha. rewrite Ek. now left.
Qed.

(** X12.  At a table where every seated player holds a card,
    [advance_turn] always returns.  It leaves either an empty roster, or
    a current player who is seated, holds a card, is still a member of
    the guild and is the one announced last.  The players it took off the
    roster had all left the guild; nobody still seated was touched, and
    deck and discard pile are as found. *)
Theorem advance_turn_hands_over_to_a_live_member (e : env) (cur : user) (st : table) :
  NoDup (keys (players st)) -> all_alive st ->
  let r := advance_turn e cur st in
  oc r = Val tt /\
  (players (final r) = [] \/
   exists cp forced tr,
     current_player (final r) = Some cp /\ is_player_alive (final r) cp = true /\
     get_member e cp = true /\ trace r = tr ++ [Turn cp forced]) /\
  (forall u d, lookup (players (final r)) u = Some d -> lookup (players st) u = Some d) /\
  (players (final r) <> [] ->
   court_deck (final r) = court_deck st /\
   discarded_cards (final r) = discarded_cards st /\
   forall u, mem (players st) u = true -> mem (players (final r)) u = false ->
             get_member e u = false).
Proof.
  intros Hn Ha. cbv zeta.
  assert (Hrun : advance_turn e cur st
                 = advance_turn_fuel (S (length (players st))) e cur st).
  { unfold advance_turn. now rewrite bind_get. }
  destruct (advance_turn_fuel_hands_over e (S (length (players st))) cur st Hn Ha)
    as (Hoc & Hcur & Hleft); [lia|].
  rewrite <- Hrun in Hoc, Hcur, Hleft.
  assert (Hc : covers true (oc (advance_turn e cur st)) = true) by now rewrite Hoc.
  destruct (advance_turn_removals e cur st Hc Hn) as (_ & Hsub & Hpiles).
  split; [exact Hoc|]. split; [exact Hcur|]. split; [exact Hsub|].
  intros Hne. destruct (Hpiles Hne) as [H1 H2]. repeat split; auto.
Qed.

Lemma advance_turn_hands_over_to_a_live_member_witness :
  let r := advance_turn away_env 3 trio in
  oc r = Val tt /\
  (players (final r) = [] \/
   exists cp forced tr,
     current_player (final r) = Some cp /\ is_player_alive (final r) cp = true /\
     get_member away_env cp = true /\ trace r = tr ++ [Turn cp forced]) /\
  (forall u d, lookup (players (final r)) u = Some d -> lookup (players trio) u = Some d) /\
  (players (final r) <> [] ->
   court_deck (final r) = court_deck trio /\
   discarded_cards (final r) = discarded_cards trio /\
   forall u, mem (players trio) u = true -> mem (players (final r)) u = false ->
             get_member away_env u = false).
Proof.
  apply (advance_turn_hands_over_to_a_live_member away_env 3 trio).
  - repeat constructor; simpl; intuition discriminate.
  - intros u [<-|[<-|[<-|[]]]]; reflexivity.
Defined.

(** ** Coup *)

Lemma advance_turn_returns e cur st :
  NoDup (keys (players st)) -> all_alive st -> oc (advance_turn e cur st) = Val tt.
Proof.
  intros Hn Ha.
  assert (Hrun : advance_turn e cur st
                 = advance_turn_fuel (S (length (players st))) e cur st).
  { unfold advance_turn. now rewrite bind_get. }
  rewrite Hrun.
  apply (advance_turn_fuel_hands_over e (S (length (players st))) cur st Hn Ha). lia.
Qed.

Lemma all_alive_lookup st : all_alive st <->
  forall u d, lookup (players st) u = Some d -> cards d <> [].
Proof.
  split.
  - intros Ha u d El. specialize (Ha u (lookup_In_keys _ _ _ El)).
    apply alive_hand in Ha as (d' & El' & Hc). congruence.
  - intros H u Hu. apply mem_keys, mem_lookup in Hu as (d & El).
    apply alive_hand. exists d. split; [exact El|]. eauto.
Qed.


(** The target loses the last card of their hand and the turn passes:
    what [coup] and a successful [assassinate] end with. *)
Lemma strike_then_advance e s target dt rest c q :
  NoDup (keys (players s)) -> all_alive s ->
  q <> target -> mem (players s) q = true ->
  lookup (players s) target = Some dt -> cards dt = rest ++ [c] ->
  let T := then_advance e (strike e target) s in
  oc T = Val tt /\
  (exists tr, trace T = Lost target c :: tr) /\
  (forall d', lookup (players (final T)) target = Some d' ->
     d' = mkP rest (coins dt)) /\
  (rest = [] -> mem (players (final T)) target = false) /\
  (forall u d', u <> target ->
     lookup (players (final T)) u = Some d' -> lookup (players s) u = Some d') /\
  (players (final T) <> [] ->
     court_deck (final T) = court_deck s /\
     discarded_cards (final T) = discarded_cards s ++ [c]).
Proof.
  intros Hn Ha Nq Hq Elt Hc. cbv zeta.
  set (a := author e).
  set (hit := after_loss s target dt c rest).
  assert (Hpop : pop (cards dt) = Some (c, rest)) by (rewrite Hc; apply pop_snoc).
  assert (Hmt : mem (players s) target = true) by (apply mem_lookup; eauto).
  assert (Hhit_t : lookup (players hit) target = Some (mkP rest (coins dt))).
  { unfold hit, after_loss. cbn [players set_players set_discarded_cards].
    apply lookup_assign_same. }
  assert (Hhit_u : forall u, u <> target ->
                             lookup (players hit) u = lookup (players s) u).
  { intros u Nu. unfold hit, after_loss.
    cbn [players set_players set_discarded_cards].
    now rewrite lookup_assign_other by congruence. }
  assert (Hhit_k : keys (players hit) = keys (players s)).
  { unfold hit, after_loss. cbn [players set_players set_discarded_cards].
    now apply keys_assign_present. }
  assert (Hhit_n : NoDup (keys (players hit))) by (rewrite Hhit_k; exact Hn).
  assert (Hhit_deck : court_deck hit = court_deck s) by reflexivity.
  assert (Hhit_disc : discarded_cards hit = discarded_cards s ++ [c]) by reflexivity.
  assert (Hhit_alive : forall u, u <> target ->
                                 is_player_alive hit u = is_player_alive s u).
  { intros u Nu. now apply alive_after_loss. }
  assert (Halive : forall u d, u <> target -> lookup (players hit) u = Some d ->
                               cards d <> []).
  { intros u d Nu El.
    assert (Hu : is_player_alive hit u = true).
    { rewrite Hhit_alive by exact Nu. apply Ha.
      rewrite <- Hhit_k. eapply lookup_In_keys; eauto. }
    apply alive_hand in Hu as (d' & El' & Hd'). congruence. }
  assert (Hrun : then_advance e (strike e target) s =
    let T := (r <- handle_player_elimination e target ;;
              go <- (let '(_, ended, _) := r in ret (negb ended)) ;;
              if go then advance_turn e a else ret tt) hit in
    mkRes (oc T) (final T) (Lost target c :: trace T)).
  { unfold then_advance, strike. fold a. rewrite !bind_assoc.
    rewrite (bind_val _ (lose_influence_found Elt Hpop)). fold hit.
    cbn [oc final trace app]. rewrite !bind_assoc. reflexivity. }
  rewrite Hrun. cbv zeta. cbn [oc final trace].
  assert (Hadv : forall s0,
    NoDup (keys (players s0)) -> all_alive s0 ->
    (forall u d, lookup (players s0) u = Some d -> lookup (players hit) u = Some d) ->
    court_deck s0 = court_deck hit -> discarded_cards s0 = discarded_cards hit ->
    (rest = [] -> mem (players s0) target = false) ->
    let r := advance_turn e a s0 in
    oc r = Val tt /\
    (forall d', lookup (players (final r)) target = Some d' ->
       d' = mkP rest (coins dt)) /\
    (rest = [] -> mem (players (final r)) target = false) /\
    (forall u d', u <> target ->
       lookup (players (final r)) u = Some d' -> lookup (players s) u = Some d') /\
    (players (final r) <> [] ->
       court_deck (final r) = court_deck s /\
       discarded_cards (final r) = discarded_cards s ++ [c])).
  { intros s0 Hn0 Ha0 Hsub Hd0 Hdi0 Hgone. cbv zeta.
    pose proof (advance_turn_returns e a s0 Hn0 Ha0) as Hoc.
    assert (Hcov : covers true (oc (advance_turn e a s0)) = true) by now rewrite Hoc.
    destruct (advance_turn_removals e a s0 Hcov Hn0) as (_ & Hsub' & Hpiles).
    split; [exact Hoc|]. split; [|split; [|split]].
    - intros d' H. apply Hsub', Hsub in H. rewrite Hhit_t in H.
      now injection H as <-.
    - intros Hr. specialize (Hgone Hr). unfold mem in *.
      destruct (lookup (players (final (advance_turn e a s0))) target) eqn:E;
        [|reflexivity].
      apply Hsub' in E. now rewrite E in Hgone.
    - intros u d' Nu H. apply Hsub', Hsub in H. now rewrite Hhit_u in H.
    - intros Hne. destruct (Hpiles Hne) as [H1 H2]. split; congruence. }
  destruct rest as [|x rest'] eqn:Er.
  - (* the target had one card *)
    assert (Hqa : is_player_alive hit q = true).
    { rewrite Hhit_alive by exact Nq. apply Ha. now apply mem_keys. }
    pose proof (elimination_of_cardless e target hit (mkP [] (coins dt)) q
                  Hhit_n Hhit_t eq_refl Hqa) as Hel.
    destruct (check_win_condition (without hit target)) as [w|] eqn:Ew.
    + destruct Hel as (dw & _ & _ & Hel).
      rewrite (bind_val _ Hel). cbv beta iota. rewrite bind_ret.
      cbn [negb ret oc final trace players].
      split; [reflexivity|]. split; [eauto|].
      split; [intros d' Hd; discriminate|].
      split; [reflexivity|]. split; [intros u d' _ Hd; discriminate|].
      intros Hx. congruence.
    + destruct Hel as (next & Hel & _).
      rewrite (bind_val _ Hel). cbv beta iota. rewrite bind_ret.
      cbn [negb oc final trace app].
      assert (Hn0 : NoDup (keys (players (without hit target)))).
      { unfold without. cbn [players set_players]. now apply NoDup_keys_delete. }
      assert (Ha0 : all_alive (without hit target)).
      { apply all_alive_lookup. intros u d El.
        unfold without in El. cbn [players set_players] in El.
        apply lookup_delete_sub in El as [Nu El]; [|exact Hhit_n]. eauto. }
      destruct (Hadv (without hit target) Hn0 Ha0) as (H1 & H2 & H3 & H4 & H5);
        try reflexivity.
      * intros u d El. unfold without in El. cbn [players set_players] in El.
        now apply lookup_delete_sub in El as [_ El].
      * intros _. unfold mem, without. cbn [players set_players].
        now rewrite lookup_delete_same.
      * split; [exact H1|]. split; [eauto|]. repeat split; auto; apply H5; auto.
  - (* the target keeps a card *)
    rewrite <- Er in *.
    assert (Hne : rest <> []) by (rewrite Er; discriminate).
    assert (Hkeep : handle_player_elimination e target hit
                    = mkRes (Val (false, false, None)) hit []).
    { unfold handle_player_elimination.
      rewrite (bind_pure _ (player_data_found Hhit_t)). cbn [cards].
      destruct rest; [congruence|reflexivity]. }
    rewrite (bind_pure _ Hkeep). cbv beta iota. rewrite bind_ret. cbn [negb].
    assert (Ha0 : all_alive hit).
    { apply all_alive_lookup. intros u d El.
      destruct (Nat.eq_dec u target) as [->|Nu]; [|eauto].
      rewrite Hhit_t in El. injection El as <-. exact Hne. }
    destruct (Hadv hit Hhit_n Ha0) as (H1 & H2 & H3 & H4 & H5); auto.
    + intros Hr. congruence.
    + split; [exact H1|]. split; [eauto|]. repeat split; auto; apply H5; auto.
Qed.

(** X13.  A coup that passes its checks, at a table where every seated
    player holds a card, cannot be stopped and always returns.  The
    seven coins are taken first and stay taken; the first thing
    announced is the loss of the last card of the target's hand; a
    target left without cards is off the roster; nobody else still
    seated is touched; and unless the roster was wiped by a win, the deck
    is as found and the discard pile has grown by that one card. *)
Theorem coup_takes_seven_and_a_card (e : env) (st : table) (target : user)
    (da dt : pdata) (rest : list card) (c : card) :
  NoDup (keys (players st)) -> all_alive st ->
  is_turn st (author e) = true -> author e <> target ->
  lookup (players st) (author e) = Some da -> (7 <= coins da)%Z ->
  lookup (players st) target = Some dt -> cards dt = rest ++ [c] ->
  let r := coup e target st in
  oc r = Val tt /\
  (exists tr, trace r = Lost target c :: tr) /\
  (forall d', lookup (players (final r)) (author e) = Some d' ->
     d' = mkP (cards da) (coins da - 7)) /\
  (forall d', lookup (players (final r)) target = Some d' ->
     d' = mkP rest (coins dt)) /\
  (rest = [] -> mem (players (final r)) target = false) /\
  (forall q d', q <> author e -> q <> target ->
     lookup (players (final r)) q = Some d' -> lookup (players st) q = Some d') /\
  (players (final r) <> [] ->
     court_deck (final r) = court_deck st /\
     discarded_cards (final r) = discarded_cards st ++ [c]).
Proof.
  intros Hn Ha Ht N Ela H7 Elt Hc. cbv zeta.
  set (a := author e) in *.
  set (paid := with_coins st a da (-7)).
  assert (Hmt : mem (players st) target = true) by (apply mem_lookup; eauto).
  assert (Hma : mem (players st) a = true) by (apply mem_lookup; eauto).
  assert (Halt : is_player_alive st target = true) by (apply Ha; now apply mem_keys).
  assert (Hs : Nat.eqb a target = false) by now apply Nat.eqb_neq.
  assert (Hlt7 : (coins da <? 7)%Z = false) by (apply Z.ltb_ge; lia).
  assert (Eltp : lookup (players paid) target = Some dt).
  { unfold paid, with_coins. cbn [players set_players].
    rewrite lookup_assign_other by exact N. exact Elt. }
  assert (Elap : lookup (players paid) a = Some (mkP (cards da) (coins da - 7))).
  { unfold paid, with_coins. cbn [players set_players]. apply lookup_assign_same. }
  assert (Hpk : keys (players paid) = keys (players st)).
  { unfold paid, with_coins. cbn [players set_players]. now apply keys_assign_present. }
  assert (Hpos : (0 <? length (cards dt)) = true).
  { rewrite Hc, length_app. simpl. apply Nat.ltb_lt. lia. }
  (* the checks pass, the coins are paid, and the target is struck *)
  assert (Hrun : coup e target st = then_advance e (strike e target) paid).
  { unfold coup. fold a.
    rewrite checked_turn, Ht, checked_target, Hmt, Halt. cbn [negb].
    rewrite checked_self, Hs, checked_coins, Ela, Hlt7, checked_in_game, Hmt.
    cbn [negb].
    rewrite (bind_val _ (add_coins_found _ _ _ _ Ela)). fold paid.
    cbn [app]. rewrite res_eta. unfold then_advance.
    now rewrite bind_assoc, (bind_pure _ (player_data_found Eltp)), Hpos. }
  rewrite Hrun.
  destruct (strike_then_advance e paid target dt rest c a)
    as (H1 & H2 & H3 & H4 & H5 & H6); auto.
  { now rewrite Hpk. }
  { intros u Hu. unfold paid. rewrite alive_with_coins by exact Ela.
    apply Ha. now rewrite <- Hpk. }
  { unfold paid. now rewrite mem_with_coins by exact Ela. }
  split; [exact H1|]. split; [exact H2|]. split; [|split; [exact H3|]].
  - intros d' H. apply H5 in H; [|exact N]. rewrite Elap in H. now injection H as <-.
  - split; [exact H4|]. split; [|exact H6].
    intros q d' Nq Nt H. apply H5 in H; [|exact Nt].
    unfold paid, with_coins in H. cbn [players set_players] in H.
    now rewrite lookup_assign_other in H by congruence.
Qed.

Lemma coup_takes_seven_and_a_card_witness :
  let r := coup (quiet_env 1) 3 trio in
  oc r = Val tt /\
  (exists tr, trace r = Lost 3 Ambassador :: tr) /\
  (forall d', lookup (players (final r)) (author (quiet_env 1)) = Some d' ->
     d' = mkP (cards (mkP [Duke; Captain] 7%Z)) (coins (mkP [Duke; Captain] 7%Z) - 7)) /\
  (forall d', lookup (players (final r)) 3 = Some d' ->
     d' = mkP [] (coins (mkP [Ambassador] 2%Z))) /\
  (@nil card = [] -> mem (players (final r)) 3 = false) /\
  (forall q d', q <> author (quiet_env 1) -> q <> 3 ->
     lookup (players (final r)) q = Some d' -> lookup (players trio) q = Some d') /\
  (players (final r) <> [] ->
     court_deck (final r) = court_deck trio /\
     discarded_cards (final r) = discarded_cards trio ++ [Ambassador]).
Proof.
  apply (coup_takes_seven_and_a_card (quiet_env 1) trio 3
           (mkP [Duke; Captain] 7%Z) (mkP [Ambassador] 2%Z) [] Ambassador).
  - repeat constructor; simpl; intuition discriminate.
  - intros u [<-|[<-|[<-|[]]]]; reflexivity.
  - reflexivity.
  - simpl. lia.
  - reflexivity.
  - simpl. lia.
  - reflexivity.
  - reflexivity.
Defined.

(** ** Exchange *)

Lemma select_cards_chosen reactions n all : forall sel ch sel' ch',
  select_cards reactions n all sel ch = Selected sel' ch' ->
  Forall2 (fun i c => nth_error all i = Some c) sel ch ->
  length ch <= n ->
  Forall2 (fun i c => nth_error all i = Some c) sel' ch' /\ length ch' = n.
Proof.
  induction reactions as [|i rest IH]; intros sel ch sel' ch'; cbn [select_cards].
  - destruct (n <=? length ch) eqn:E; [|discriminate].
    intros [= <- <-] HF Hl. apply Nat.leb_le in E. split; [exact HF|lia].
  - destruct (n <=? length ch) eqn:E.
    { intros [= <- <-] HF Hl. apply Nat.leb_le in E. split; [exact HF|lia]. }
    apply Nat.leb_gt in E.
    destruct (4 <=? i); [apply IH|].
    destruct (existsb (Nat.eqb i) sel); [apply IH|].
    destruct (nth_error all i) as [c|] eqn:En; [|discriminate].
    intros H HF Hl. apply (IH _ _ _ _ H).
    + apply Forall2_app; [exact HF|]. constructor; [exact En|constructor].
    + rewrite length_app. simpl. lia.
Qed.

Lemma unchosen_from_ext all : forall i sel sel',
  (forall k, i <= k -> existsb (Nat.eqb k) sel = existsb (Nat.eqb k) sel') ->
  unchosen_from i all sel = unchosen_from i all sel'.
Proof.
  induction all as [|c t IH]; intros i sel sel' H; [reflexivity|].
  cbn [unchosen_from]. rewrite (H i (le_n i)).
  rewrite (IH (S i) sel sel') by (intros k Hk; apply H; lia). reflexivity.
Qed.

Lemma existsb_eqb_In k l : existsb (Nat.eqb k) l = true <-> In k l.
Proof.
  rewrite existsb_exists. split.
  - intros (x & Hx & E). apply Nat.eqb_eq in E. now subst.
  - intros H. exists k. split; [exact H|apply Nat.eqb_refl].
Qed.

Lemma Forall2_impl_In {A B} (P Q : A -> B -> Prop) l l' :
  Forall2 P l l' -> (forall a b, In a l -> P a b -> Q a b) -> Forall2 Q l l'.
Proof.
  induction 1 as [|a b l l' Hab HF IH]; intros H; constructor.
  - apply H; [now left|exact Hab].
  - apply IH. intros x y Hx. apply H. now right.
Qed.

Lemma selection_partition all : forall i sel ch,
  NoDup sel ->
  (forall j, In j sel -> i <= j < i + length all) ->
  Forall2 (fun j c => nth_error all (j - i) = Some c) sel ch ->
  Permutation (ch ++ unchosen_from i all sel) all.
Proof.
  induction all as [|c0 t IH]; intros i sel ch Hn Hb HF.
  - destruct sel as [|j s]; [|specialize (Hb j (or_introl eq_refl)); simpl in Hb; lia].
    inversion HF; subst. constructor.
  - cbn [unchosen_from].
    destruct (existsb (Nat.eqb i) sel) eqn:Ex.
    + apply existsb_eqb_In in Ex. apply in_split in Ex as (s1 & s2 & ->).
      apply Forall2_app_inv_l in HF as (ch1 & chr & HF1 & HF2 & ->).
      inversion HF2 as [|? c' ? ch2 Hc' HF2']; subst.
      rewrite Nat.sub_diag in Hc'. cbn [nth_error] in Hc'. injection Hc' as <-.
      apply NoDup_remove in Hn as [Hn' Hni].
      assert (Hb' : forall j, In j (s1 ++ s2) -> S i <= j < S i + length t).
      { intros j Hj.
        assert (Hj' : In j (s1 ++ i :: s2)).
        { apply in_app_or in Hj as [Hj|Hj]; apply in_or_app; [now left|right; now right]. }
        specialize (Hb j Hj'). simpl in Hb.
        assert (j <> i) by (intros ->; contradiction). lia. }
      assert (Hshift : forall j, S i <= j -> forall c,
                nth_error (c0 :: t) (j - i) = Some c -> nth_error t (j - S i) = Some c).
      { intros j Hj c. replace (j - i) with (S (j - S i)) by lia. auto. }
      assert (HF' : Forall2 (fun j c => nth_error t (j - S i) = Some c)
                            (s1 ++ s2) (ch1 ++ ch2)).
      { apply Forall2_app.
        - apply (Forall2_impl_In _ _ _ _ HF1). intros j c Hj.
          apply Hshift. apply Hb'. apply in_or_app. now left.
        - apply (Forall2_impl_In _ _ _ _ HF2'). intros j c Hj.
          apply Hshift. apply Hb'. apply in_or_app. now right. }
      pose proof (IH (S i) (s1 ++ s2) (ch1 ++ ch2) Hn' Hb' HF') as Hp.
      rewrite (unchosen_from_ext t (S i) (s1 ++ i :: s2) (s1 ++ s2)).
      * rewrite <- app_assoc. cbn [app].
        apply Permutation_sym. eapply Permutation_trans.
        2: { apply Permutation_middle. }
        constructor. rewrite app_assoc. now apply Permutation_sym.
      * intros k Hk.
        destruct (existsb (Nat.eqb k) (s1 ++ s2)) eqn:E2.
        -- apply existsb_eqb_In. apply existsb_eqb_In in E2.
           apply in_app_or in E2 as [E2|E2]; apply in_or_app; [now left|right; now right].
        -- destruct (existsb (Nat.eqb k) (s1 ++ i :: s2)) eqn:E1; [|reflexivity].
           apply existsb_eqb_In in E1.
           assert (In k (s1 ++ s2)).
           { apply in_app_or in E1 as [E1|[E1|E1]]; [apply in_or_app; now left|lia|
               apply in_or_app; now right]. }
           apply existsb_eqb_In in H. congruence.
    + assert (Hni : ~ In i sel).
      { intros Hi. apply existsb_eqb_In in Hi. congruence. }
      assert (Hb' : forall j, In j sel -> S i <= j < S i + length t).
      { intros j Hj. specialize (Hb j Hj). simpl in Hb.
        assert (j <> i) by (intros ->; contradiction). lia. }
      assert (HF' : Forall2 (fun j c => nth_error t (j - S i) = Some c) sel ch).
      { apply (Forall2_impl_In _ _ _ _ HF). intros j c Hj Hc.
        specialize (Hb' j Hj).
        replace (j - i) with (S (j - S i)) in Hc by lia. exact Hc. }
      pose proof (IH (S i) sel ch Hn Hb' HF') as Hp.
      apply Permutation_sym. eapply Permutation_trans; [|apply Permutation_middle].
      constructor. now apply Permutation_sym.
Qed.

Lemma selected_partition reactions n all sel ch :
  select_cards reactions n all [] [] = Selected sel ch ->
  length ch = n /\ Permutation (ch ++ unchosen_from 0 all sel) all.
Proof.
  intros H.
  destruct (select_cards_spec _ _ _ _ _ _ _ H) as (Hn & Hb & _);
    [constructor|intros i []|reflexivity|].
  destruct (select_cards_chosen _ _ _ _ _ _ _ H) as (HF & Hl);
    [constructor|simpl; lia|].
  split; [exact Hl|]. apply selection_partition; [exact Hn| |].
  - intros j Hj. specialize (Hb j Hj). lia.
  - clear - HF. induction HF; constructor; auto. now rewrite Nat.sub_0_r.
Qed.

(** X14.  An exchange that nobody challenges draws the two cards at the
    end of the deck and mixes them with the hand.  When the selection
    completes, the player holds as many cards as before, all taken from
    that pool, the other cards of the pool are back at the end of the
    deck, so hand and deck together hold the cards they held, the deck
    has the length it had, and the turn passes.  When the options cannot
    be sent by direct message the two cards go back and the hand is not
    touched.  A pick beyond the pool (the fourth option, for a player
    with one card) raises [IndexError] with the two drawn cards out of
    the deck and the turn not passed; a selection left unfinished never
    returns.  With fewer than two cards in the deck nothing is drawn and
    the turn passes. *)
Theorem exchange_returns_what_it_drew (e : env) (st : table) (d : pdata) :
  is_turn st (author e) = true ->
  lookup (players st) (author e) = Some d ->
  (coins d < 10)%Z ->
  find (eligible e st [EChallenge] (author e)) (first_window e) = None ->
  let a := author e in
  let p := Prompt [EChallenge] a st in
  (length (court_deck st) < 2 ->
     let adv := advance_turn e a st in
     exchange e st = mkRes (oc adv) (final adv) (p :: Err DeckError :: trace adv)) /\
  (forall below c2 c1, court_deck st = below ++ [c2; c1] ->
     let pool := shuffle (rand_pool e) (cards d ++ [c1; c2]) in
     (dm_exchange_ok e = false ->
        let adv := advance_turn e a (set_court_deck (below ++ [c1; c2]) st) in
        exchange e st = mkRes (oc adv) (final adv) (p :: trace adv)) /\
     (dm_exchange_ok e = true ->
        match select_cards (picks e) (length (cards d)) pool [] [] with
        | Selected sel chosen =>
            let returned := unchosen_from 0 pool sel in
            let mid := exchanged st a d below chosen returned in
            let adv := advance_turn e a mid in
            exchange e st = mkRes (oc adv) (final adv) (p :: trace adv) /\
            length chosen = length (cards d) /\
            length (court_deck mid) = length (court_deck st) /\
            Permutation (chosen ++ court_deck mid) (cards d ++ court_deck st) /\
            lookup (players mid) a = Some (mkP chosen (coins d)) /\
            (forall q, q <> a -> lookup (players mid) q = lookup (players st) q) /\
            discarded_cards mid = discarded_cards st
        | SelectionIndexError =>
            exchange e st = mkRes (Exn IndexError) (set_court_deck below st) [p]
        | SelectionHang =>
            exchange e st = mkRes Hang (set_court_deck below st) [p]
        end) /\
     (forall i rest, picks e = i :: rest -> length pool <= i < 4 ->
        cards d <> [] ->
        select_cards (picks e) (length (cards d)) pool [] [] = SelectionIndexError)).
Proof.
  intros Ht El Hc Hf. cbv zeta.
  assert (H10 : (10 <=? coins d)%Z = false) by (apply Z.leb_gt; lia).
  assert (Hhead : exchange e st =
    let r := exchange_cards e (length (cards d)) st in
    mkRes (oc r) (final r) (Prompt [EChallenge] (author e) st :: trace r)).
  { unfold exchange.
    rewrite checked_turn, Ht, checked_allowed, El, H10. cbn [andb].
    rewrite (bind_pure _ (player_data_found El)).
    rewrite (bind_val _ (wait_for_reaction_eq _ _ _ _ _)), Hf.
    rewrite bind_ret. cbn [oc final trace app]. reflexivity. }
  rewrite Hhead. cbv zeta. split.
  - intros Hlen. unfold exchange_cards. rewrite bind_get.
    apply Nat.ltb_lt in Hlen. rewrite Hlen.
    unfold send_error. rewrite bind_emit. reflexivity.
  - intros below c2 c1 Hd.
    assert (Hlen : (length (court_deck st) <? 2) = false).
    { apply Nat.ltb_ge. rewrite Hd, length_app. simpl. lia. }
    assert (E1 : pop (court_deck st) = Some (c1, below ++ [c2])).
    { rewrite Hd. change [c2; c1] with ([c2] ++ [c1]). rewrite app_assoc. apply pop_snoc. }
    assert (E2 : pop (court_deck (set_court_deck (below ++ [c2]) st)) = Some (c2, below))
      by apply pop_snoc.
    set (s2 := set_court_deck below (set_court_deck (below ++ [c2]) st)).
    assert (El2 : lookup (players s2) (author e) = Some d) by exact El.
    assert (Hdraw : exchange_cards e (length (cards d)) st =
      (let all_cards := shuffle (rand_pool e) (cards d ++ [c1; c2]) in
       if negb (dm_exchange_ok e) then
         extend_deck [c1; c2] ;; advance_turn e (author e)
       else
         match select_cards (picks e) (length (cards d)) all_cards [] [] with
         | SelectionHang => hang
         | SelectionIndexError => raise IndexError
         | Selected selected_indices chosen_cards =>
             set_cards (author e) chosen_cards ;;
             extend_deck (unchosen_from 0 all_cards selected_indices) ;;
             advance_turn e (author e)
         end) s2).
    { unfold exchange_cards. rewrite bind_get, Hlen.
      rewrite (bind_val _ (pop_deck_found E1)).
      rewrite (bind_val _ (pop_deck_found E2)). fold s2.
      rewrite (bind_pure _ (player_data_found El2)).
      cbn [oc final trace app]. now rewrite res_eta. }
    rewrite Hdraw. cbv zeta.
    split; [|split].
    + intros Hdm. rewrite Hdm. cbn [negb]. unfold extend_deck. rewrite bind_modify.
      reflexivity.
    + intros Hdm. rewrite Hdm. cbn [negb].
      destruct (select_cards (picks e) (length (cards d))
                  (shuffle (rand_pool e) (cards d ++ [c1; c2])) [] [])
        as [sel chosen| |] eqn:Esel.
      * destruct (selected_partition _ _ _ _ _ Esel) as (Hl & Hp).
        rewrite (bind_val _ (set_cards_found El2)).
        unfold extend_deck. rewrite bind_modify. cbn [oc final trace app].
        split; [reflexivity|]. split; [exact Hl|].
        unfold exchanged. cbn [court_deck players discarded_cards set_court_deck
                                 set_players].
        pose proof (Permutation_length Hp) as Hpl.
        rewrite shuffle_length, !length_app in Hpl. simpl in Hpl.
        split; [|split; [|split; [|split]]].
        -- rewrite Hd, !length_app. simpl. lia.
        -- rewrite Hd.
           eapply Permutation_trans; [apply Permutation_app_swap_app|].
           eapply Permutation_trans.
           { apply Permutation_app_head.
             eapply Permutation_trans; [exact Hp|apply shuffle_perm]. }
           eapply Permutation_trans; [apply Permutation_app_swap_app|].
           apply Permutation_app_head, Permutation_app_head, perm_swap.
        -- apply lookup_assign_same.
        -- intros q Hq. apply lookup_assign_other. congruence.
        -- reflexivity.
      * reflexivity.
      * reflexivity.
    + intros i rest Hpk Hi Hne.
      rewrite Hpk. cbn [select_cards length].
      assert (Hn : (length (cards d) <=? 0) = false).
      { apply Nat.leb_gt. destruct (cards d); [congruence|simpl; lia]. }
      rewrite Hn.
      assert (H4 : (4 <=? i) = false) by (apply Nat.leb_gt; lia).
      rewrite H4. cbn [existsb].
      assert (Hnone : nth_error (shuffle (rand_pool e) (cards d ++ [c1; c2])) i = None)
        by (apply nth_error_None; lia).
      now rewrite Hnone.
Qed.

Lemma exchange_returns_what_it_drew_witness :
  let d := mkP [Duke; Captain] 2%Z in
  let below := [Assassin; Captain; Ambassador; Contessa; Duke; Contessa; Duke;
                Assassin; Ambassador] in
  let mid := exchanged duel 1 d below [Captain; Duke] [Captain; Ambassador] in
  let adv := advance_turn pick_env 1 mid in
  exchange pick_env duel
  = mkRes (oc adv) (final adv) (Prompt [EChallenge] 1 duel :: trace adv) /\
  length (court_deck mid) = length (court_deck duel) /\
  Permutation ([Captain; Duke] ++ court_deck mid) (cards d ++ court_deck duel).
Proof.
  cbv zeta.
  destruct (exchange_returns_what_it_drew pick_env duel (mkP [Duke; Captain] 2%Z))
    as [_ H]; [reflexivity|reflexivity|simpl; lia|reflexivity|].
  destruct (H [Assassin; Captain; Ambassador; Contessa; Duke; Contessa; Duke;
               Assassin; Ambassador] Captain Ambassador eq_refl) as (_ & Hs & _).
  specialize (Hs eq_refl).
  lazymatch type of Hs with
  | match ?s with _ => _ end =>
      replace s with (Selected [0; 2] [Captain; Duke]) in Hs by reflexivity
  end.
  destruct Hs as (H1 & _ & H3 & H4 & _).
  split; [exact H1|]. split; [exact H3|exact H4].
Defined.

(** ** Starts that do not start a game *)

(** X15.  [start] without the bot's permissions leaves the table alone,
    and so does [start] while a game is running, which is turned down.
    Otherwise the table is reset first and everybody who reacted is
    seated once, with no cards and two coins; with fewer than two
    members seated, or with more than seven (two cards each would take
    more than the fifteen of the deck), the command stops there with an
    error: the game is not started, but the earlier roster and discard
    pile are gone and the new members stay seated. *)
Theorem start_refusals (e : env) (st : table) :
  (has_perms e = false -> final (start e st) = st) /\
  (has_perms e = true -> game_started st = true ->
     start e st = rejection st GameAlreadyInProgress) /\
  (has_perms e = true -> game_started st = false ->
     let n := length (nodup Nat.eq_dec (joiners e)) in
     let left_behind :=
       mkTable (seated_at_start e) (shuffle (rand_deck e) fresh_deck) [] false
               (current_player st) in
     length (seated_at_start e) = n /\
     (forall u, mem (seated_at_start e) u = true <-> In u (joiners e)) /\
     (forall u d, lookup (seated_at_start e) u = Some d -> d = mkP [] 2%Z) /\
     length (court_deck left_behind) = 15 /\
     (n < 2 -> start e st = mkRes (Val tt) left_behind [Err NotEnoughPlayers]) /\
     (7 < n -> start e st = mkRes (Val tt) left_behind [Err DeckError])).
Proof.
  split; [|split].
  - intros Hp. unfold start. now rewrite Hp.
  - intros Hp Hg. unfold start. rewrite Hp. cbn [negb]. now rewrite bind_get, Hg.
  - intros Hp Hg. cbv zeta.
    destruct (seated_at_start_spec e) as (Hnd & Hun & Hin).
    assert (Hlen : length (seated_at_start e) = length (nodup Nat.eq_dec (joiners e))).
    { transitivity (length (keys (seated_at_start e))).
      - unfold keys. now rewrite length_map.
      - apply Permutation_length, NoDup_Permutation.
        + exact Hnd.
        + apply NoDup_nodup.
        + intros u. rewrite nodup_In. apply Hin. }
    destruct (start_outcome e st Hp Hg) as (Hfew & Hmany & _).
    split; [exact Hlen|]. split; [|split; [|split; [|split]]].
    + intros u. rewrite mem_keys. apply Hin.
    + exact Hun.
    + cbn [court_deck]. now rewrite shuffle_length.
    + intros H. apply Hfew. lia.
    + intros H. apply Hmany. lia.
Qed.

Lemma start_refusals_witness :
  start crowd_env duel = rejection duel GameAlreadyInProgress /\
  start crowd_env (new_table [])
  = mkRes (Val tt)
          (mkTable (seated_at_start crowd_env)
                   (shuffle (rand_deck crowd_env) fresh_deck) [] false None)
          [Err DeckError].
Proof.
  destruct (start_refusals crowd_env duel) as (_ & H & _).
  destruct (start_refusals crowd_env (new_table [])) as (_ & _ & H'').
  split; [exact (H eq_refl eq_refl)|].
  destruct (H'' eq_refl eq_refl) as (_ & _ & _ & _ & _ & H7).
  apply H7. vm_compute. lia.
Defined.

(** ** Balances and hands on every table a guild can reach *)

#[global] Instance stays_well_kept_preorder : PreOrder stays_well_kept.
Proof.
  split.
  - intros st H. exact H.
  - intros a b c Hab Hbc H. auto.
Qed.

Lemma wk_same st st' : players st' = players st -> stays_well_kept st st'.
Proof. intros E [Hn H]. unfold well_kept. rewrite E. auto. Qed.

Lemma wk_wiped st st' : players st' = [] -> stays_well_kept st st'.
Proof.
  intros E _. unfold well_kept. rewrite E. split; [constructor|].
  intros u d H. discriminate.
Qed.

Lemma wk_delete st p : stays_well_kept st (without st p).
Proof.
  intros [Hn H]. unfold well_kept, without. cbn [players set_players].
  split; [now apply NoDup_keys_delete|].
  intros u d Hl. apply lookup_delete_sub in Hl as [_ Hl]; eauto.
Qed.

Lemma wk_assign st p d d' :
  lookup (players st) p = Some d ->
  (well_kept st -> (0 <= coins d')%Z /\ length (cards d') <= 2) ->
  stays_well_kept st (set_players (assign (players st) p d') st).
Proof.
  intros El Hd Hw. pose proof Hw as [Hn H]. unfold well_kept.
  cbn [players set_players]. split.
  - rewrite keys_assign_present; [exact Hn|]. apply mem_lookup. eauto.
  - intros u du Hl. destruct (Nat.eq_dec u p) as [->|N].
    + rewrite lookup_assign_same in Hl. injection Hl as <-. auto.
    + rewrite lookup_assign_other in Hl by congruence. eauto.
Qed.

Lemma set_cards_wk p cs st :
  (forall d, lookup (players st) p = Some d -> well_kept st -> length cs <= 2) ->
  rel_at true stays_well_kept (set_cards p cs) st.
Proof.
  intros H. unfold set_cards. rel_step.
  rapply rel_at_modify. apply (wk_assign st p d); [assumption|].
  intros Hw. cbn [coins cards]. split; [|eauto].
  destruct Hw as [_ Hw]. now apply (Hw p d).
Qed.

Lemma add_coins_wk p n st :
  (forall d, lookup (players st) p = Some d -> well_kept st -> (0 <= coins d + n)%Z) ->
  rel_at true stays_well_kept (add_coins p n) st.
Proof.
  intros H. unfold add_coins. rel_step.
  rapply rel_at_modify. apply (wk_assign st p d); [assumption|].
  intros Hw. cbn [coins cards]. split; [eauto|].
  destruct Hw as [_ Hw]. now apply (Hw p d).
Qed.

Lemma add_coins_gain_wk p n : (0 <= n)%Z -> rel true stays_well_kept (add_coins p n).
Proof.
  intros Hn st. apply add_coins_wk. intros d El [_ Hw].
  destruct (Hw p d El). lia.
Qed.

Lemma lose_influence_wk p : rel true stays_well_kept (lose_influence_with_reveal p).
Proof.
  intros st. unfold lose_influence_with_reveal. rel_step.
  destruct (pop (cards d)) as [[c rest]|] eqn:Ep; [|rel_step].
  rapply rel_at_bind.
  - apply set_cards_wk. intros d' El [_ Hw].
    assert (d' = d) by congruence. subst d'.
    destruct (Hw p d El) as [_ Hl]. pose proof (pop_length Ep). lia.
  - intros _ _.
    rapply rel_at_modify_bind; [now apply wk_same|]. repeat rel_step.
Qed.

Lemma handle_card_swap_wk p c : rel true stays_well_kept (handle_card_swap p c).
Proof.
  intros st.
  destruct (length (court_deck st) <? 1) eqn:Elen.
  { rapply rel_at_same. unfold handle_card_swap. now rewrite bind_get, Elen. }
  destruct (lookup (players st) p) as [d|] eqn:El.
  2: { rapply rel_at_same. unfold handle_card_swap.
       rewrite bind_get, Elen. now rewrite (bind_exn _ (player_data_missing El)). }
  destruct (card_in c (cards d)) eqn:Ec.
  2: { rapply rel_at_same. unfold handle_card_swap.
       rewrite bind_get, Elen, (bind_pure _ (player_data_found El)). now rewrite Ec. }
  destruct (pop (court_deck st)) as [[top below]|] eqn:Ep.
  2: { apply pop_None in Ep. rewrite Ep in Elen. discriminate. }
  intros _. rewrite (handle_card_swap_done El Ec Ep). cbn [final].
  intros Hw. pose proof Hw as [Hn H]. unfold well_kept, swapped.
  cbn [players set_players set_court_deck].
  assert (Hm : mem (players st) p = true) by (apply mem_lookup; eauto).
  split.
  - rewrite !keys_assign_present; auto. now apply mem_assign.
  - intros u du Hl. destruct (Nat.eq_dec u p) as [->|N].
    + rewrite lookup_assign_same in Hl. injection Hl as <-. cbn [coins cards].
      destruct (H p d El) as [Hc Hl]. split; [exact Hc|].
      rewrite length_app. simpl. pose proof (remove_first_length c (cards d) Ec). lia.
    + rewrite !lookup_assign_other in Hl by congruence. eauto.
Qed.

Lemma handle_player_elimination_wk e p :
  rel true stays_well_kept (handle_player_elimination e p).
Proof.
  intros st. unfold handle_player_elimination. rel_step.
  destruct (length (cards d) =? 0); [|rel_step].
  rapply rel_at_reader; [apply get_next_player_final|]. intros next _.
  rapply rel_at_modify_bind; [apply wk_delete|].
  rel_step.
  match goal with |- context [check_win_condition ?s] =>
    destruct (check_win_condition s) as [w|] end; [|rel_step].
  rel_step.
  rapply rel_at_reader; [apply reveal_winner_hand_final|]. intros _ _.
  rapply rel_at_modify_bind; [now apply wk_wiped|].
  rapply rel_at_modify_bind; [now apply wk_wiped|].
  rel_step.
Qed.

Lemma challenge_loss_wk e legit loser :
  rel true stays_well_kept (challenge_loss e legit loser).
Proof.
  intros st. unfold challenge_loss. rel_step.
  destruct (0 <? length (cards d)); [|rel_step].
  rapply rel_at_call; [apply lose_influence_wk|]. intros _ s.
  rapply rel_at_call; [apply handle_player_elimination_wk|].
  intros [[el en] nx] s'. rel_step.
Qed.

Lemma handle_challenge_wk e claimer challenger c :
  rel true stays_well_kept (handle_challenge e claimer challenger c).
Proof.
  intros st. unfold handle_challenge. rel_step.
  destruct (card_in c (cards d)); [|apply challenge_loss_wk].
  rel_step.
  rapply rel_at_call; [apply handle_card_swap_wk|]. intros _ s.
  apply challenge_loss_wk.
Qed.

Lemma handle_block_challenge_wk e blocker challenger vs :
  rel true stays_well_kept (handle_block_challenge e blocker challenger vs).
Proof.
  intros st. unfold handle_block_challenge. rel_step.
  destruct (valid_card_found vs (cards d)) as [found|]; [|apply challenge_loss_wk].
  rel_step.
  rapply rel_at_call; [apply handle_card_swap_wk|]. intros _ s.
  apply challenge_loss_wk.
Qed.

Lemma strike_wk e target : rel true stays_well_kept (strike e target).
Proof.
  intros st. unfold strike.
  rapply rel_at_call; [apply lose_influence_wk|]. intros _ s.
  rapply rel_at_call; [apply handle_player_elimination_wk|].
  intros [[el en] nx] s'. rel_step.
Qed.

Lemma assassinate_target_wk e target :
  rel true stays_well_kept (assassinate_target e target).
Proof.
  intros st. unfold assassinate_target. rel_step.
  destruct (is_player_alive st target); [apply strike_wk|rel_step].
Qed.

Lemma steal_coins_wk e target : rel true stays_well_kept (steal_coins e target).
Proof.
  intros st. unfold steal_coins. rel_step.
  destruct (is_player_alive st target); [|rel_step].
  rel_step. rename d into td, H into Elt.
  destruct (lookup (players st) (author e)) as [da|] eqn:Ela.
  2: { rapply rel_at_same. unfold add_coins.
       now rewrite bind_assoc, (bind_exn _ (player_data_missing Ela)). }
  eapply rel_at_bind_val; [exact (add_coins_found _ _ _ _ Ela)|].
  set (m := Z.min 2 (coins td)).
  set (s1 := with_coins st (author e) da m).
  assert (El1 : lookup (players s1) target
                = Some (if Nat.eqb (author e) target
                        then mkP (cards da) (coins da + m) else td)).
  { unfold s1, with_coins. cbn [players set_players].
    destruct (Nat.eqb_spec (author e) target) as [<-|N].
    - apply lookup_assign_same.
    - rewrite lookup_assign_other by exact N. exact Elt. }
  rewrite (add_coins_found _ _ _ _ El1). cbn [oc final].
  intros _ Hw. pose proof Hw as [Hn H].
  destruct (H _ _ Ela) as [Hca Hla]. destruct (H _ _ Elt) as [Hct Hlt].
  assert (Hw1 : well_kept s1).
  { apply (wk_assign st (author e) da); [exact Ela| |exact Hw].
    intros _. cbn [coins cards]. split; [lia|exact Hla]. }
  apply (wk_assign s1 target _ _ El1); [|exact Hw1].
  intros _. destruct (Nat.eqb_spec (author e) target) as [E|N]; cbn [coins cards].
  - assert (da = td) by congruence. subst td. split; [lia|exact Hla].
  - split; [lia|exact Hlt].
Qed.

Lemma advance_turn_fuel_wk e :
  forall fuel cur, rel true stays_well_kept (advance_turn_fuel fuel e cur).
Proof.
  induction fuel as [|f IH]; intros cur st; cbn [advance_turn_fuel]; [rel_step|].
  rel_step. rapply rel_at_bind.
  - destruct (mem (players st) cur).
    + rapply rel_at_reader; [apply get_next_player_final|]. intros np _.
      rapply rel_at_modify_bind; [now apply wk_same|]. rel_step.
    + destruct (keys (players st)) as [|p t]; [rel_step|].
      rapply rel_at_modify_bind; [now apply wk_same|]. rel_step.
  - intros chosen _.
    match goal with |- rel_at _ _ _ ?s => generalize s end. intros s1.
    destruct chosen; cbn [negb]; [|rel_step].
    rel_step. destruct (current_player s1) as [cp|]; [|rel_step].
    destruct (get_member e cp).
    + rapply rel_at_reader; [apply check_forced_coup_final|]. intros forced _.
      destruct forced; [rel_step|].
      rapply rel_at_same. apply enhanced_turn_announcement_final.
    + rel_step. rapply rel_at_modify_bind.
      { destruct (mem (players s1) cp); [apply wk_delete|reflexivity]. }
      rel_step.
      match goal with |- context [check_win_condition ?t] =>
        destruct (check_win_condition t) as [w|] end; [|apply IH].
      rel_step. rapply rel_at_modify. now apply wk_wiped.
Qed.

Lemma advance_turn_wk e cur : rel true stays_well_kept (advance_turn e cur).
Proof.
  intros st. unfold advance_turn. rel_step. apply advance_turn_fuel_wk.
Qed.

Lemma bluff_exposed_wk e v : rel true stays_well_kept (bluff_exposed e v).
Proof.
  intros st. unfold bluff_exposed.
  destruct (is_author e (eliminated_player v)); [|apply advance_turn_wk].
  rapply rel_at_modify_bind; [now apply wk_same|].
  destruct (next_player_result v); rel_step.
Qed.

Lemma rel_at_checked_coins x R {HR : PreOrder R} p n (k : M unit) st :
  (forall d, lookup (players st) p = Some d -> (n <= coins d)%Z -> rel_at x R k st) ->
  rel_at x R (checked (validate_coins p n) k) st.
Proof.
  intros H. unfold rel_at. rewrite checked_coins.
  destruct (lookup (players st) p) as [d|] eqn:El; [|intros _; reflexivity].
  destruct (coins d <? n)%Z eqn:E; [intros _; reflexivity|].
  apply (H d eq_refl). apply Z.ltb_ge in E. exact E.
Qed.

Create HintDb coup_wk.
#[global] Hint Resolve handle_player_elimination_wk challenge_loss_wk
  handle_challenge_wk handle_block_challenge_wk strike_wk assassinate_target_wk
  advance_turn_wk bluff_exposed_wk steal_coins_wk lose_influence_wk : coup_wk.
#[global] Hint Resolve validate_turn_final validate_target_final
  validate_self_target_final validate_coins_final validate_action_allowed_final
  target_in_game_final target_has_coins_final : coup_wk.

(** Walks through the body of a command. *)
Ltac wk_step :=
  first
    [ rel_step
    | lazymatch goal with
      | |- rel_at _ _ (checked _ _) _ =>
          rapply rel_at_checked; [solve [auto with coup_wk]|]
      | |- rel_at _ _ (then_advance _ _) _ => unfold then_advance
      | |- rel_at _ _ (bind (wait_for_reaction _ _ _ _) _) _ =>
          rapply rel_at_reader; [apply wait_for_reaction_final|intros ? _]
      | |- rel_at _ _ (bind (enhanced_turn_announcement _ _ _) _) _ =>
          rapply rel_at_reader; [apply enhanced_turn_announcement_final|intros ? _]
      | |- rel_at _ _ (bind (modify (set_current_player _)) _) _ =>
          rapply rel_at_modify_bind; [now apply wk_same|]
      | |- rel_at _ _ (bind (add_coins _ ?n) _) _ =>
          rapply rel_at_call; [apply add_coins_gain_wk; lia|intros ? ?]
      | |- rel_at _ _ (bind (match ?r with _ => _ end) _) _ => destruct r
      | |- rel_at _ _ (bind _ _) _ =>
          rapply rel_at_call; [solve [auto with coup_wk]|intros ? ?]
      | |- rel_at _ _ (match ?r with _ => _ end) _ => destruct r
      | |- rel_at _ _ _ _ => apply rel_at_any; solve [auto with coup_wk]
      end ].

Lemma income_wk e : rel true stays_well_kept (income e).
Proof. intros st. unfold income. repeat wk_step. Qed.

Lemma foreign_aid_wk e : rel true stays_well_kept (foreign_aid e).
Proof. intros st. unfold foreign_aid. repeat wk_step. Qed.

Lemma tax_wk e : rel true stays_well_kept (tax e).
Proof. intros st. unfold tax. repeat wk_step. Qed.

Lemma steal_wk e t : rel true stays_well_kept (steal e t).
Proof. intros st. unfold steal. repeat wk_step. Qed.

Lemma paid_wk e n st d (k : M unit) :
  lookup (players st) (author e) = Some d -> (n <= coins d)%Z ->
  (forall s, rel_at true stays_well_kept k s) ->
  rel_at true stays_well_kept (add_coins (author e) (- n) ;; k) st.
Proof.
  intros El Hn Hk. rapply rel_at_bind.
  - apply add_coins_wk. intros d' El' _. assert (d' = d) by congruence. subst. lia.
  - intros _ _. apply Hk.
Qed.

Lemma coup_wk e t : rel true stays_well_kept (coup e t).
Proof.
  intros st. unfold coup. do 3 wk_step.
  rapply rel_at_checked_coins. intros d El H7.
  wk_step. apply (paid_wk e 7 st d); auto.
  intros s. repeat wk_step.
Qed.

Lemma assassinate_wk e t : rel true stays_well_kept (assassinate e t).
Proof.
  intros st. unfold assassinate. do 3 wk_step.
  rapply rel_at_checked_coins. intros d El H3.
  do 2 wk_step. apply (paid_wk e 3 st d); auto.
  intros s. repeat wk_step.
Qed.

Lemma end_wk e : rel true stays_well_kept (end_ e).
Proof.
  intros st. unfold end_. rel_step.
  destruct (negb (game_started st)); [rel_step|].
  rapply rel_at_modify_bind; [now apply wk_wiped|].
  unfold shuffle_deck. rapply rel_at_modify. now apply wk_same.
Qed.

Lemma exchange_cards_wk e n : n <= 2 -> rel true stays_well_kept (exchange_cards e n).
Proof.
  intros Hn st. unfold exchange_cards. rel_step.
  destruct (length (court_deck st) <? 2) eqn:Elen.
  { rel_step. apply advance_turn_wk. }
  apply Nat.ltb_ge in Elen.
  destruct (pop_two (court_deck st) Elen) as (c1 & c2 & l2 & E1 & E2 & L).
  eapply rel_at_bind_val; [exact (pop_deck_found E1)|].
  assert (E2' : pop (court_deck (set_court_deck (l2 ++ [c2]) st)) = Some (c2, l2))
    by exact E2.
  rewrite (bind_val _ (pop_deck_found E2')). cbn [oc final].
  set (s2 := set_court_deck l2 (set_court_deck (l2 ++ [c2]) st)).
  assert (W2 : stays_well_kept st s2) by now apply wk_same.
  destruct (lookup (players s2) (author e)) as [d|] eqn:El.
  2: { rewrite (bind_exn _ (player_data_missing El)). cbn [oc final]. intros _. exact W2. }
  rewrite (bind_pure _ (player_data_found El)). cbv zeta.
  pose proof (advance_turn_wk e (author e)) as Hadv.
  destruct (negb (dm_exchange_ok e)).
  - unfold extend_deck. rewrite bind_modify.
    intros Hcov Hw. apply (Hadv _ Hcov).
    apply (wk_same s2); [reflexivity|]. now apply W2.
  - destruct (select_cards (picks e) n
                (shuffle (rand_pool e) (cards d ++ [c1; c2])) [] [])
      as [sel ch| |] eqn:Esel.
    + destruct (select_cards_chosen _ _ _ _ _ _ _ Esel) as (_ & Hl);
        [constructor|simpl; lia|].
      rewrite (bind_val _ (set_cards_found El)). cbn [oc final].
      unfold extend_deck. rewrite bind_modify.
      intros Hcov Hw. apply (Hadv _ Hcov).
      match goal with |- well_kept (set_court_deck _ ?s) =>
        apply (wk_same s); [reflexivity|] end.
      apply (wk_assign s2 (author e) d); [exact El| |now apply W2].
      intros [_ H2]. cbn [coins cards]. destruct (H2 _ _ El). split; [assumption|lia].
    + cbn [oc final raise]. intros _. exact W2.
    + cbn [oc hang]. discriminate.
Qed.

Lemma exchange_wk e : rel true stays_well_kept (exchange e).
Proof.
  intros st. unfold exchange. do 2 wk_step. rel_step.
  intros Hcov Hw.
  assert (Hn : length (cards d) <= 2) by (destruct Hw as [_ Hw]; now apply (Hw _ _ H)).
  revert Hcov Hw.
  match goal with |- covers true (oc (?c st)) = true -> _ -> _ =>
    change (rel_at true stays_well_kept c st) end.
  repeat wk_step; try (apply exchange_cards_wk; assumption).
Qed.

Lemma start_wk e : rel true stays_well_kept (start e).
Proof.
  intros st _ Hw.
  destruct (has_perms e) eqn:Hp.
  2: { unfold start. rewrite Hp. exact Hw. }
  destruct (game_started st) eqn:Hg.
  { unfold start. rewrite Hp. cbn [negb]. rewrite bind_get, Hg. exact Hw. }
  destruct (start_outcome e st Hp Hg) as (Hfew & Hmany & Hdeal).
  destruct (seated_at_start_spec e) as (Hn0 & Hu0 & _).
  assert (Hseated : forall deck disc b cp,
            well_kept (mkTable (seated_at_start e) deck disc b cp)).
  { intros deck disc b cp. split; [exact Hn0|].
    cbn [players]. intros u d El. rewrite (Hu0 _ _ El). simpl. lia. }
  destruct (Nat.lt_ge_cases (length (seated_at_start e)) 2) as [H2|H2].
  { rewrite (Hfew H2). apply Hseated. }
  destruct (Nat.lt_ge_cases 7 (length (seated_at_start e))) as [H7|H7].
  { rewrite (Hmany H7). apply Hseated. }
  destruct (Hdeal (conj H2 H7)) as
      (dealt & deck1 & first & Hnd & Htwo & _ & _ & _ & Hfin).
  rewrite Hfin.
  destruct (drop_players_spec (unreachable e dealt) dealt Hnd) as (Hnk & Hin & Hout & _).
  split; [exact Hnk|]. cbn [players]. intros u d El.
  destruct (in_dec Nat.eq_dec u (unreachable e dealt)) as [Hi|Hi];
    [rewrite Hin in El by exact Hi; discriminate|].
  rewrite Hout in El by exact Hi.
  destruct (Htwo _ _ El) as (c1 & c2 & ->). simpl. lia.
Qed.

Lemma run_wk c e : rel true stays_well_kept (run c e).
Proof.
  destruct c; cbn [run];
    auto using start_wk, end_wk, income_wk, foreign_aid_wk, coup_wk, assassinate_wk,
      tax_wk, steal_wk, exchange_wk.
Qed.

(** X16.  On every table a guild can reach, whatever the commands, the
    reactions, the departures and the failures on the way, no two seats
    belong to the same member, no balance is negative and no hand holds
    more than two cards. *)
Theorem reachable_tables_are_well_kept (st : table) :
  reachable st ->
  NoDup (keys (players st)) /\
  forall u d, lookup (players st) u = Some d ->
              (0 <= coins d)%Z /\ length (cards d) <= 2.
Proof.
  induction 1 as [rs|st c e Hr IH Hcomp].
  - split; [constructor|]. intros u d H. discriminate.
  - apply (run_wk c e st); [|exact IH].
    unfold completes in Hcomp. destruct (oc (run c e st)); auto.
Qed.

Lemma reachable_tables_are_well_kept_witness :
  let st := final (run CIncome away_env (final (run CStart join_env (new_table [])))) in
  NoDup (keys (players st)) /\
  forall u d, lookup (players st) u = Some d ->
              (0 <= coins d)%Z /\ length (cards d) <= 2.
Proof.
  apply reachable_tables_are_well_kept.
  apply reach_run; [apply reach_run; [apply reach_new|reflexivity]|reflexivity].
Defined.

(** * Delivery of messages *)

(** ** Direct messages *)





(** ** Messages on the channel *)

Lemma retry_from_spec send max_retries : forall todo attempt,
  attempt + todo = max_retries ->
  let r := safe_send_with_retry_from send max_retries attempt todo in
  send_attempts r <= todo /\
  length (send_sleeps r) <= send_attempts r /\
  (send_result r = ReturnedNone <-> todo = 0) /\
  (send_result r = Sent <->
   exists k, attempt <= k < max_retries /\ send k = Delivered /\
             forall j, attempt <= j < k -> is_rate_limited (send j) = true) /\
  (forall a, send_result r = Reraised a ->
     a <> Delivered /\
     exists k, attempt <= k < max_retries /\ send k = a /\
       (forall j, attempt <= j < k -> is_rate_limited (send j) = true) /\
       (is_rate_limited a = true -> k = max_retries - 1)).
Proof.
  induction todo as [|todo IH]; intros attempt Hsum; cbv zeta.
  - cbn [safe_send_with_retry_from send_attempts send_sleeps send_result length].
    split; [lia|]. split; [lia|]. split; [tauto|]. split.
    + split; [discriminate|]. intros (k & Hk & _). lia.
    + intros a H. discriminate.
  - cbn [safe_send_with_retry_from].
    assert (Hlast : forall k, attempt <= k < max_retries ->
              (forall j, attempt <= j < k -> is_rate_limited (send j) = true) ->
              is_rate_limited (send attempt) = false -> k = attempt).
    { intros k Hk Hj Hn. destruct (Nat.eq_dec k attempt) as [->|N]; [reflexivity|].
      rewrite Hj in Hn by lia. discriminate. }
    destruct (send attempt) as [| |s| |] eqn:Ea.
    + cbn [send_attempts send_sleeps send_result length].
      split; [lia|]. split; [lia|]. split; [split; [discriminate|lia]|]. split.
      * split; [|reflexivity]. intros _. exists attempt.
        split; [lia|]. split; [exact Ea|]. intros j Hj. lia.
      * intros a H. discriminate.
    + cbn [send_attempts send_sleeps send_result length].
      split; [lia|]. split; [lia|]. split; [split; [discriminate|lia]|]. split.
      * split; [discriminate|]. intros (k & Hk & Hs & Hj).
        rewrite (Hlast k Hk Hj) in Hs by reflexivity. congruence.
      * intros a H. injection H as <-. split; [discriminate|].
        exists attempt. split; [lia|]. split; [exact Ea|]. split; [intros j Hj; lia|].
        discriminate.
    + destruct (attempt =? max_retries - 1) eqn:El.
      * apply Nat.eqb_eq in El.
        cbn [send_attempts send_sleeps send_result length].
        split; [lia|]. split; [lia|]. split; [split; [discriminate|lia]|]. split.
        -- split; [discriminate|]. intros (k & Hk & Hs & Hj).
           assert (k = attempt) by lia. subst k. congruence.
        -- intros a H. injection H as <-. split; [discriminate|].
           exists attempt. split; [lia|]. split; [exact Ea|]. split; [intros j Hj; lia|].
           intros _. exact El.
      * apply Nat.eqb_neq in El.
        destruct (IH (S attempt) ltac:(lia)) as (H1 & H2 & H3 & H4 & H5).
        cbn [send_attempts send_sleeps send_result length].
        split; [lia|]. split; [lia|]. split; [|split].
        -- rewrite H3. split; intros H; lia.
        -- rewrite H4. split.
           ++ intros (k & Hk & Hs & Hj). exists k. split; [lia|]. split; [exact Hs|].
              intros j Hjr. destruct (Nat.eq_dec j attempt) as [->|N].
              ** now rewrite Ea.
              ** apply Hj. lia.
           ++ intros (k & Hk & Hs & Hj).
              assert (k <> attempt) by (intros ->; congruence).
              exists k. split; [lia|]. split; [exact Hs|]. intros j Hjr. apply Hj. lia.
        -- intros a Ha. destruct (H5 a Ha) as (Hn & k & Hk & Hs & Hj & Hr).
           split; [exact Hn|]. exists k. split; [lia|]. split; [exact Hs|].
           split; [|exact Hr].
           intros j Hjr. destruct (Nat.eq_dec j attempt) as [->|N].
           ** now rewrite Ea.
           ** apply Hj. lia.
    + cbn [send_attempts send_sleeps send_result length].
      split; [lia|]. split; [lia|]. split; [split; [discriminate|lia]|]. split.
      * split; [discriminate|]. intros (k & Hk & Hs & Hj).
        rewrite (Hlast k Hk Hj) in Hs by reflexivity. congruence.
      * intros a H. injection H as <-. split; [discriminate|].
        exists attempt. split; [lia|]. split; [exact Ea|]. split; [intros j Hj; lia|].
        discriminate.
    + cbn [send_attempts send_sleeps send_result length].
      split; [lia|]. split; [lia|]. split; [split; [discriminate|lia]|]. split.
      * split; [discriminate|]. intros (k & Hk & Hs & Hj).
        rewrite (Hlast k Hk Hj) in Hs by reflexivity. congruence.
      * intros a H. injection H as <-. split; [discriminate|].
        exists attempt. split; [lia|]. split; [exact Ea|]. split; [intros j Hj; lia|].
        discriminate.
Qed.

(** X18.  [safe_send_with_retry] tries again only after a rate limit.
    It returns the message exactly when one of the first [max_retries]
    attempts is delivered and all attempts before it were rate-limited.
    Any other failure is raised again at once, and a rate limit is
    raised again only on the last attempt.  It never makes more than
    [max_retries] attempts, and falls through to [None] only when
    [max_retries] is zero. *)
Theorem safe_send_with_retry_retries_rate_limits_only
    (send : nat -> attempt) (max_retries : nat) :
  let r := safe_send_with_retry send max_retries in
  send_attempts r <= max_retries /\
  length (send_sleeps r) <= send_attempts r /\
  (send_result r = ReturnedNone <-> max_retries = 0) /\
  (send_result r = Sent <->
   exists k, k < max_retries /\ send k = Delivered /\
             forall j, j < k -> is_rate_limited (send j) = true) /\
  (forall a, send_result r = Reraised a ->
     a <> Delivered /\
     exists k, k < max_retries /\ send k = a /\
       (forall j, j < k -> is_rate_limited (send j) = true) /\
       (is_rate_limited a = true -> k = max_retries - 1)).
Proof.
  cbv zeta. unfold safe_send_with_retry.
  destruct (retry_from_spec send max_retries max_retries 0 eq_refl)
    as (H1 & H2 & H3 & H4 & H5).
  split; [exact H1|]. split; [exact H2|]. split; [exact H3|]. split.
  - rewrite H4. split; intros (k & Hk & Hs & Hj); exists k;
      (split; [lia|]); (split; [exact Hs|]); intros j Hjr; apply Hj; lia.
  - intros a Ha. destruct (H5 a Ha) as (Hn & k & Hk & Hs & Hj & Hr).
    split; [exact Hn|]. exists k. split; [lia|]. split; [exact Hs|].
    split; [|exact Hr]. intros j Hjr. apply Hj. lia.
Qed.

Lemma safe_send_with_retry_retries_rate_limits_only_witness :
  let send := fun k => match k with 0 => RateLimited 1%Q | _ => Delivered end in
  send_result (safe_send_with_retry send 3) = Sent.
Proof.
  intros send.
  destruct (safe_send_with_retry_retries_rate_limits_only send 3)
    as (_ & _ & _ & H & _).
  apply H. exists 1. split; [lia|]. split; [reflexivity|].
  intros [|j] Hj; [reflexivity|lia].
Defined.

Lemma three_attempts_on_the_channel send :
  send_attempts (safe_send_with_retry send 3) <= 3 /\
  send_result (safe_send_with_retry send 3) <> ReturnedNone /\
  (forall a, send_result (safe_send_with_retry send 3) = Reraised a -> a <> Delivered).
Proof.
  unfold safe_send_with_retry.
  destruct (retry_from_spec send 3 3 0 eq_refl) as (H1 & _ & H3 & _ & H5).
  split; [exact H1|]. split.
  - intros H. apply H3 in H. discriminate.
  - intros a Ha. now destruct (H5 a Ha).
Qed.

Ltac embed_case :=
  repeat match goal with
         | |- _ /\ _ => split
         | |- _ <-> _ => split
         | |- forall _, _ => intro
         | H : _ /\ _ |- _ => destruct H
         | H : exists _, _ |- _ => destruct H
         | H : _ \/ _ |- _ => destruct H
         | H : Reraised _ = Reraised _ |- _ => injection H as ?; subst
         | H : Escaped _ = Escaped _ |- _ => injection H as ?; subst
         end;
  try discriminate; try congruence; try lia; eauto 6.

(** X19.  [send_embed] lets no [HTTPException] through.  The embed
    counts as sent exactly when [safe_send_with_retry] sent it.  When the
    embed cannot be sent for an [HTTPException] it falls back to plain
    text, and the fallback counts as sent exactly when
    [safe_send_with_retry] sent that; when the fallback fails for an
    [HTTPException] too, [send_embed] returns [None], and it returns
    [None] in no other case.  What it raises is what the embed or the
    fallback raised, and never an [HTTPException].  Embed and fallback
    together take at most six attempts. *)
Theorem send_embed_swallows_http_errors (send_e send_t : nat -> attempt) :
  let o := fst (send_embed send_e send_t) in
  let n := snd (send_embed send_e send_t) in
  let embed := send_result (safe_send_with_retry send_e 3) in
  let fallback := send_result (safe_send_with_retry send_t 3) in
  let embed_http := exists a, embed = Reraised a /\ is_http a = true in
  n <= 6 /\
  (o = EmbedSent <-> embed = Sent) /\
  (o = FallbackSent <-> embed_http /\ fallback = Sent) /\
  (o = NothingSent <->
   embed_http /\ exists a2, fallback = Reraised a2 /\ is_http a2 = true) /\
  (forall a, o = Escaped a <->
     (embed = Reraised a /\ is_http a = false) \/
     (embed_http /\ fallback = Reraised a /\ is_http a = false)) /\
  (forall a, o = Escaped a -> a = OtherError) /\
  (embed_http -> (exists a2, fallback = Reraised a2 /\ is_http a2 = true) ->
     o = NothingSent).
Proof.
  cbv zeta. unfold send_embed.
  pose proof (three_attempts_on_the_channel send_e) as He.
  pose proof (three_attempts_on_the_channel send_t) as Ht.
  destruct He as (He1 & He3 & He5). destruct Ht as (Ht1 & Ht3 & Ht5).
  assert (Hother : forall a, a <> Delivered -> is_http a = false -> a = OtherError).
  { intros a Hd Hh. destruct a; try discriminate; congruence. }
  destruct (send_result (safe_send_with_retry send_e 3)) as [|a|] eqn:Ee;
    [|destruct (is_http a) eqn:Eh|]; cbn [fst snd].
  - embed_case.
  - destruct (send_result (safe_send_with_retry send_t 3)) as [|a2|] eqn:Et;
      [|destruct (is_http a2) eqn:Eh2|]; cbn [fst snd].
    + embed_case.
    + embed_case.
    + pose proof (Hother a2 (Ht5 a2 eq_refl) Eh2). embed_case.
    + exfalso. now apply Ht3.
  - pose proof (Hother a (He5 a eq_refl) Eh). embed_case.
  - exfalso. now apply He3.
Qed.

Lemma send_embed_swallows_http_errors_witness :
  fst (send_embed (fun _ => HttpError) (fun _ => Delivered)) = FallbackSent /\
  fst (send_embed (fun _ => HttpError) (fun _ => Forbidden)) = NothingSent.
Proof.
  split.
  - destruct (send_embed_swallows_http_errors (fun _ => HttpError) (fun _ => Delivered))
      as (_ & _ & H & _).
    apply H. split; [exists HttpError; split; reflexivity|reflexivity].
  - destruct (send_embed_swallows_http_errors (fun _ => HttpError) (fun _ => Forbidden))
      as (_ & _ & _ & _ & _ & _ & H).
    apply H; [exists HttpError|exists Forbidden]; split; reflexivity.
Defined.

(** ** Who is dropped when the hands are sent *)

Lemma failed_players_filter forbidden_ok net r l :
  safe_send_multiple_dms l (send_cards_to_player forbidden_ok net r)
  = filter (fun p => negb (header_delivered net p)) l.
Proof.
  induction l as [|p t IH]; [reflexivity|].
  cbn [safe_send_multiple_dms filter].
  unfold send_cards_to_player at 1, send_player_cards, header_delivered at 1.
  destruct (dm_result (safe_send_dm (net p 0))) as [why|]; cbn [negb].
  - destruct forbidden_ok; now rewrite IH.
  - exact IH.
Qed.

(** X20.  At the start of a game a player is dropped for the header of
    their hand alone.  The players [safe_send_multiple_dms] reports as
    failed are, in seat order, exactly those whose header message was
    not delivered within the three attempts of [safe_send_dm], whether
    [send_cards_to_player] answers [False] or the exception goes through
    to the [except Exception] of [safe_send_multiple_dms]; this is the
    list [start] removes from the roster.  Once the header is through,
    [send_player_cards] returns whatever happens to the messages for the
    cards and to the footer, and the player stays seated. *)
Theorem dropped_for_the_header_alone (forbidden_ok : bool)
    (net : user -> nat -> nat -> attempt) (r : roster) :
  safe_send_multiple_dms (keys r) (send_cards_to_player forbidden_ok net r)
  = filter (fun p => negb (header_delivered net p)) (keys r) /\
  (forall e, (forall p, dm_cards_ok e p = header_delivered net p) ->
     unreachable e r
     = safe_send_multiple_dms (keys r) (send_cards_to_player forbidden_ok net r)) /\
  (forall p hand, header_delivered net p = true ->
     send_cards_to_player forbidden_ok net r p = ReturnedTrue /\
     exists undelivered,
       send_player_cards (net p) hand = CardsSent undelivered /\
       forall m, In m undelivered <->
                 1 <= m <= length hand + 1 /\
                 dm_result (safe_send_dm (net p m)) <> None).
Proof.
  split; [apply failed_players_filter|]. split.
  - intros e He. rewrite failed_players_filter. unfold unreachable.
    apply filter_ext. intros p. now rewrite He.
  - intros p hand Hh. unfold header_delivered in Hh.
    unfold send_cards_to_player, send_player_cards.
    destruct (dm_result (safe_send_dm (net p 0))) as [why|] eqn:E; [discriminate|].
    split; [reflexivity|]. eexists. split; [reflexivity|].
    intros m. rewrite filter_In, in_seq. split.
    + intros [Hm Hf]. split; [lia|].
      destruct (dm_result (safe_send_dm (net p m))); [discriminate|discriminate].
    + intros [Hm Hf]. split; [lia|].
      destruct (dm_result (safe_send_dm (net p m))); [reflexivity|congruence].
Qed.

Lemma dropped_for_the_header_alone_witness :
  let net := fun (p m k : nat) => if Nat.eqb p 2 then Forbidden else Delivered in
  safe_send_multiple_dms (keys (players trio))
    (send_cards_to_player true net (players trio)) = [2] /\
  send_cards_to_player true net (players trio) 1 = ReturnedTrue.
Proof.
  intros net.
  destruct (dropped_for_the_header_alone true net (players trio)) as (H1 & _ & H3).
  split; [rewrite H1; reflexivity|]. apply (H3 1 []). reflexivity.
Defined.

(** * Clean-up of inactive games *)

Lemma filter_keeps_all {A} (f : A -> bool) l :
  (forall x, In x l -> f x = true) -> filter f l = l.
Proof.
  induction l as [|x t IH]; intros H; [reflexivity|].
  cbn [filter]. rewrite (H x (or_introl eq_refl)), IH; [reflexivity|].
  intros y Hy. apply H. now right.
Qed.

Lemma del_game_filter (gs : games) id :
  NoDup (map fst gs) ->
  del_game gs id = filter (fun kv => negb (Nat.eqb (fst kv) id)) gs.
Proof.
  induction gs as [|[k g] t IH]; intros Hn; [reflexivity|].
  cbn [map fst] in Hn. inversion Hn as [|? ? Hk Ht]; subst.
  cbn [del_game filter fst]. destruct (Nat.eqb_spec k id) as [->|N]; cbn [negb].
  - symmetry. apply filter_keeps_all.
    intros [k' g'] Hin. cbn [fst]. destruct (Nat.eqb_spec k' id) as [->|]; [|reflexivity].
    exfalso. apply Hk. apply in_map_iff. exists (id, g'). auto.
  - now rewrite IH.
Qed.

Lemma NoDup_fst_filter (f : nat * guild_game -> bool) (gs : games) :
  NoDup (map fst gs) -> NoDup (map fst (filter f gs)).
Proof.
  induction gs as [|x t IH]; intros Hn; [constructor|].
  cbn [map] in Hn. inversion Hn as [|? ? Hx Ht]; subst.
  cbn [filter]. destruct (f x); [|auto].
  cbn [map]. constructor; [|auto].
  intros Hin. apply Hx. apply in_map_iff in Hin as (y & Hy & Hin).
  apply filter_In in Hin as [Hin _]. apply in_map_iff. eauto.
Qed.

Lemma deletions_filter (ids : list (nat * cleanup_reason)) : forall gs : games,
  NoDup (map fst gs) ->
  fold_left (fun acc kr => del_game acc (fst kr)) ids gs
  = filter (fun kv => negb (existsb (Nat.eqb (fst kv)) (map fst ids))) gs.
Proof.
  induction ids as [|[id r] t IH]; intros gs Hn.
  - cbn [fold_left map existsb negb]. symmetry. now apply filter_keeps_all.
  - cbn [fold_left fst]. rewrite del_game_filter by exact Hn.
    rewrite IH by now apply NoDup_fst_filter.
    clear. induction gs as [|x gs IH]; [reflexivity|].
    cbn [filter map fst existsb].
    destruct (Nat.eqb (fst x) id) eqn:E; cbn [negb orb].
    + exact IH.
    + cbn [filter]. destruct (existsb (Nat.eqb (fst x)) (map fst t)); cbn [negb];
        now rewrite IH.
Qed.

Lemma to_remove_ids now (gs : games) id :
  In id (map fst (to_remove now gs)) <->
  exists g, In (id, g) gs /\ survives now (id, g) = false.
Proof.
  unfold survives. cbn [snd].
  induction gs as [|[k g] t IH]; cbn [to_remove].
  - split; [intros []|intros (g & [] & _)].
  - destruct (should_remove now g) as [r|] eqn:E.
    + cbn [map fst In]. rewrite IH. split.
      * intros [->|(g' & Hin & Hs)]; [exists g; rewrite E; auto|].
        exists g'. auto.
      * intros (g' & [Heq|Hin] & Hs); [injection Heq as -> ->; now left|].
        right. eauto.
    + rewrite IH. split.
      * intros (g' & Hin & Hs). exists g'. split; [now right|exact Hs].
      * intros (g' & [Heq|Hin] & Hs).
        -- injection Heq as -> ->. rewrite E in Hs. discriminate.
        -- eauto.
Qed.

Lemma cleanup_is_filter now (gs : games) :
  NoDup (map fst gs) ->
  cleanup_inactive_games now gs = filter (survives now) gs.
Proof.
  intros Hn. unfold cleanup_inactive_games. rewrite deletions_filter by exact Hn.
  apply filter_ext_in. intros [id g] Hin. cbn [fst].
  destruct (survives now (id, g)) eqn:Es.
  - apply negb_true_iff.
    destruct (existsb (Nat.eqb id) (map fst (to_remove now gs))) eqn:Ex; [|reflexivity].
    apply existsb_eqb_In, to_remove_ids in Ex as (g' & Hin' & Hs).
    assert (g' = g).
    { clear - Hn Hin Hin'. induction gs as [|[k x] t IH]; [destruct Hin|].
      cbn [map fst] in Hn. inversion Hn as [|? ? Hk Ht]; subst.
      destruct Hin as [E|Hin], Hin' as [E'|Hin'].
      - congruence.
      - injection E as -> ->. exfalso. apply Hk. apply in_map_iff. exists (id, g'). auto.
      - injection E' as -> ->. exfalso. apply Hk. apply in_map_iff. exists (id, g). auto.
      - auto. }
    subst. congruence.
  - apply negb_false_iff. apply existsb_eqb_In, to_remove_ids. eauto.
Qed.

Lemma survives_iff now id g :
  survives now (id, g) = true <->
  (now - last_activity g <= inactive_threshold)%Q /\
  (game_started (state g) = true \/ (now - created_at g <= abandoned_threshold)%Q).
Proof.
  unfold survives, should_remove, Qgtb. cbn [snd].
  destruct (game_started (state g)); cbn [negb andb].
  - destruct (Qle_bool (now - last_activity g) inactive_threshold) eqn:E; cbn [negb].
    + apply Qle_bool_iff in E. tauto.
    + split; [discriminate|]. intros [H _]. apply Qle_bool_iff in H. congruence.
  - destruct (Qle_bool (now - created_at g) abandoned_threshold) eqn:Ec; cbn [negb].
    + apply Qle_bool_iff in Ec.
      destruct (Qle_bool (now - last_activity g) inactive_threshold) eqn:E; cbn [negb].
      * apply Qle_bool_iff in E. tauto.
      * split; [discriminate|]. intros [H _]. apply Qle_bool_iff in H. congruence.
    + split; [discriminate|]. intros [_ [H|H]]; [discriminate|].
      apply Qle_bool_iff in H. congruence.
Qed.

(** X21.  [cleanup_inactive_games] removes a game exactly when nothing
    touched it for more than two hours, or, for one that has not
    started, when it was created more than a day ago, even if it was
    touched a moment ago.  The games that stay keep their order and their
    state; a second clean-up at the same time removes nothing more;
    [force_cleanup] reports as removed the number of games condemned;
    and a running game survives any clean-up within two hours of the
    last command that touched it. *)
Theorem cleanup_removes_the_idle_and_the_stale (now : Q) (gs : games) :
  NoDup (map fst gs) ->
  let kept := cleanup_inactive_games now gs in
  kept = filter (survives now) gs /\
  (forall id g, In (id, g) kept <->
     In (id, g) gs /\
     (now - last_activity g <= 7200)%Q /\
     (game_started (state g) = true \/ (now - created_at g <= 86400)%Q)) /\
  cleanup_inactive_games now kept = kept /\
  force_cleanup now gs = (length (to_remove now gs), length kept) /\
  (forall id g t, In (id, g) gs -> game_started (state g) = true ->
     (now - t <= 7200)%Q ->
     survives now (id, touch t g) = true).
Proof.
  intros Hn. cbv zeta.
  pose proof (cleanup_is_filter now gs Hn) as Hf.
  assert (Hthr : forall g,
    ((now - last_activity g <= inactive_threshold)%Q /\
     (game_started (state g) = true \/ (now - created_at g <= abandoned_threshold)%Q))
    <-> ((now - last_activity g <= 7200)%Q /\
         (game_started (state g) = true \/ (now - created_at g <= 86400)%Q))).
  { intros g. unfold inactive_threshold, abandoned_threshold.
    assert (E1 : (2 * 60 * 60 == 7200)%Q) by reflexivity.
    assert (E2 : (24 * 60 * 60 == 86400)%Q) by reflexivity.
    rewrite E1, E2. tauto. }
  split; [exact Hf|]. split; [|split; [|split]].
  - intros id g. rewrite Hf, filter_In, survives_iff. now rewrite Hthr.
  - rewrite Hf. rewrite cleanup_is_filter by now apply NoDup_fst_filter.
    apply filter_keeps_all. intros x Hx. now apply filter_In in Hx.
  - unfold force_cleanup. rewrite Hf. f_equal.
    clear. induction gs as [|[k g] t IH]; [reflexivity|].
    cbn [filter to_remove length]. unfold survives at 1. cbn [snd].
    pose proof (filter_length_le (survives now) t) as Hle.
    destruct (should_remove now g); cbn [length]; lia.
  - intros id g t _ Hg Ht. apply survives_iff. cbn [touch last_activity state].
    split; [|now left]. unfold inactive_threshold.
    assert (E1 : (2 * 60 * 60 == 7200)%Q) by reflexivity. now rewrite E1.
Qed.

Lemma cleanup_removes_the_idle_and_the_stale_witness :
  let kept := cleanup_inactive_games 1000%Q sample_games in
  kept = filter (survives 1000%Q) sample_games /\
  (forall id g, In (id, g) kept <->
     In (id, g) sample_games /\
     (1000 - last_activity g <= 7200)%Q /\
     (game_started (state g) = true \/ (1000 - created_at g <= 86400)%Q)) /\
  cleanup_inactive_games 1000%Q kept = kept /\
  force_cleanup 1000%Q sample_games = (length (to_remove 1000%Q sample_games), length kept) /\
  (forall id g t, In (id, g) sample_games -> game_started (state g) = true ->
     (1000 - t <= 7200)%Q ->
     survives 1000%Q (id, touch t g) = true).
Proof.
  apply (cleanup_removes_the_idle_and_the_stale 1000%Q sample_games).
  repeat constructor; simpl; intuition discriminate.
Defined.

(** * The read-only commands *)

(** ** [table] *)

Lemma neighbour_is_next st current i q :
  NoDup (keys (players st)) ->
  nth_error (keys (players st)) i = Some current ->
  nth_error (keys (players st)) ((i + 1) mod length (keys (players st))) = Some q ->
  is_player_alive st q = true ->
  get_next_player current st = mkRes (Val q) st [].
Proof.
  intros Hn Hi Hq Ha. unfold get_next_player. rewrite bind_get.
  rewrite (index_of_nth _ _ _ Hn Hi).
  set (l := keys (players st)) in *.
  assert (Hil : i < length l) by (apply nth_error_Some; congruence).
  assert (Hstart : (i + 1) mod length l < length l)
    by (apply Nat.mod_upper_bound; lia).
  assert (E : next_alive (length l) st l ((i + 1) mod length l) = Some q).
  { apply next_alive_first; [exact Hstart|]. exists 0. split; [lia|].
    rewrite Nat.add_0_r, Nat.Div0.mod_mod. repeat split; auto. intros j p Hj. lia. }
  now rewrite E.
Qed.

Lemma index_of_split u l i :
  index_of u l = Some i ->
  exists before after, l = before ++ u :: after /\ length before = i.
Proof.
  revert i. induction l as [|x t IH]; intros i; [discriminate|].
  cbn [index_of]. destruct (Nat.eqb_spec x u) as [->|N].
  - intros [= <-]. exists [], t. auto.
  - destruct (index_of u t) as [j|]; [|discriminate]. intros [= <-].
    destruct (IH j eq_refl) as (b & a & -> & Hl).
    exists (x :: b), a. split; [reflexivity|]. simpl. now rewrite Hl.
Qed.

Lemma rotate_split {A} (before after : list A) x :
  rotate (length before) (before ++ x :: after) = x :: after ++ before.
Proof.
  unfold rotate. rewrite skipn_app, firstn_app, Nat.sub_diag.
  rewrite skipn_all, firstn_all. cbn [skipn firstn app]. now rewrite app_nil_r.
Qed.

Lemma filter_length_perm {A} (f : A -> bool) l l' :
  Permutation l l' -> length (filter f l) = length (filter f l').
Proof.
  induction 1; simpl; auto.
  - destruct (f x); simpl; congruence.
  - destruct (f x), (f y); reflexivity.
  - congruence.
Qed.

Lemma list_sum_cons x l : list_sum (x :: l) = x + list_sum l.
Proof. reflexivity. Qed.

Lemma list_sum_positive (l : list (card * nat)) :
  list_sum (map snd (filter (fun cn => 0 <? snd cn) l)) = list_sum (map snd l).
Proof.
  induction l as [|[c n] t IH]; [reflexivity|].
  cbn [filter snd]. destruct (0 <? n) eqn:E; cbn [map snd]; rewrite ?list_sum_cons.
  - now rewrite IH.
  - apply Nat.ltb_ge in E. rewrite IH. lia.
Qed.

Lemma count_discards_sum l :
  list_sum (map snd (count_discards l)) = length l.
Proof.
  unfold count_discards. rewrite list_sum_positive.
  cbn [map snd]. rewrite !list_sum_cons. change (list_sum []) with 0.
  assert (H : forall t, copies Ambassador t + copies Assassin t
                        + copies Captain t + copies Contessa t
                        + copies Duke t = length t).
  { unfold copies. induction t as [|c t IH]; [reflexivity|].
    destruct c; cbn [filter card_eqb length]; lia. }
  specialize (H l). lia.
Qed.

(** X22.  [table] is refused for an empty roster, and raises
    [ValueError] when the current player is not seated.  Otherwise it
    lists every seated player once, in seat order read from the current
    player round the table; it counts the players who hold a card; its
    discard counts add up to the discard pile; and the player its footer
    announces as next, when it shows one, is the player
    [get_next_player] would hand the turn to. *)
Theorem table_reads_from_the_current_seat (st : table) :
  NoDup (keys (players st)) ->
  (players st = [] -> table_cmd st = Refused) /\
  (forall cp, players st <> [] -> current_player st = Some cp ->
     mem (players st) cp = false -> table_cmd st = Crashed ValueError) /\
  (players st <> [] ->
   (forall cp, current_player st = Some cp -> mem (players st) cp = true) ->
     exists v, table_cmd st = Shown v /\
       Permutation (ordered_players v) (keys (players st)) /\
       (current_player st = None -> ordered_players v = keys (players st)) /\
       (forall cp, current_player st = Some cp ->
          exists before after,
            keys (players st) = before ++ cp :: after /\
            ordered_players v = cp :: after ++ before) /\
       alive_shown v = alive_count st /\
       list_sum (map snd (discard_shown v)) = length (discarded_cards st) /\
       deck_shown v = length (court_deck st) /\
       (forall cp q, current_player st = Some cp -> next_turn_shown v = Some q ->
          get_next_player cp st = mkRes (Val q) st [])).
Proof.
  intros Hn. split; [|split].
  - intros E. unfold table_cmd. now rewrite E.
  - intros cp Hne Hcp Hm. unfold table_cmd.
    destruct (players st) as [|x t] eqn:Ep; [congruence|]. rewrite <- Ep.
    rewrite Hcp. cbv zeta.
    rewrite index_of_None; [reflexivity|].
    intros Hin. apply mem_keys in Hin. congruence.
  - intros Hne Hseated. unfold table_cmd.
    destruct (players st) as [|x t] eqn:Ep; [congruence|]. rewrite <- Ep in *.
    cbv zeta.
    destruct (current_player st) as [cp|] eqn:Ecp.
    + specialize (Hseated cp eq_refl). apply mem_keys in Hseated.
      destruct (index_of_Some _ _ Hseated) as (i & Ei & Hi). rewrite Ei.
      destruct (index_of_split _ _ _ Ei) as (before & after & Hk & Hl).
      assert (Hrot : rotate i (keys (players st)) = cp :: after ++ before).
      { rewrite Hk, <- Hl. apply rotate_split. }
      rewrite Hrot. eexists. split; [reflexivity|].
      cbn [ordered_players alive_shown discard_shown deck_shown next_turn_shown].
      assert (Hperm : Permutation (cp :: after ++ before) (keys (players st))).
      { rewrite Hk. apply Permutation_sym.
        eapply Permutation_trans; [apply Permutation_app_comm|].
        cbn [app]. constructor. apply Permutation_refl. }
      split; [exact Hperm|]. split; [discriminate|]. split.
      { intros cp' [= <-]. exists before, after. auto. }
      split; [unfold alive_count; now apply filter_length_perm|].
      split; [apply count_discards_sum|]. split; [reflexivity|].
      intros cp' q [= <-] Hq.
      assert (Hnth : nth_error (keys (players st)) i = Some cp).
      { rewrite Hk, <- Hl, nth_error_app2, Nat.sub_diag by lia. reflexivity. }
      destruct (after ++ before) as [|nx rest] eqn:Eab; [discriminate|].
      destruct (is_player_alive st nx) eqn:Ea; [|discriminate].
      injection Hq as <-.
      apply (neighbour_is_next st cp i nx Hn Hnth); [|exact Ea].
      rewrite Hk, length_app. cbn [length].
      destruct after as [|a after'].
      * cbn [app] in Eab. subst before. cbn [length].
        replace (i + 1) with (1 * (S (length rest) + 1)) by (cbn [length] in Hl; lia).
        rewrite Nat.Div0.mod_mul. reflexivity.
      * cbn [app] in Eab. injection Eab as -> _.
        rewrite Nat.mod_small by (cbn [length]; lia).
        rewrite nth_error_app2 by lia.
        replace (i + 1 - length before) with 1 by lia. reflexivity.
    + eexists. split; [reflexivity|].
      cbn [ordered_players alive_shown discard_shown deck_shown next_turn_shown].
      split; [apply Permutation_refl|]. split; [reflexivity|].
      split; [discriminate|]. split; [reflexivity|].
      split; [apply count_discards_sum|]. split; [reflexivity|].
      intros cp q H. discriminate.
Qed.

Lemma table_reads_from_the_current_seat_witness :
  exists v, table_cmd trio = Shown v /\
    Permutation (ordered_players v) (keys (players trio)) /\
    alive_shown v = alive_count trio /\
    (forall cp q, current_player trio = Some cp -> next_turn_shown v = Some q ->
       get_next_player cp trio = mkRes (Val q) trio []).
Proof.
  destruct (table_reads_from_the_current_seat trio) as (_ & _ & H).
  - repeat constructor; simpl; intuition discriminate.
  - destruct H as (v & H1 & H2 & _ & _ & H5 & _ & _ & H8).
    + discriminate.
    + intros cp [= <-]. reflexivity.
    + exists v. auto.
Defined.

(** ** [debug_cards] *)



(** * Assassination *)

(** X24.  An assassination that passes its checks and that nobody
    answers, at a table where every seated player holds a card, always
    returns.  The three coins are taken before the prompt and stay
    taken; after the prompt the first thing announced is the loss of the
    last card of the target's hand; a target left without cards is off
    the roster; nobody else still seated is touched; and unless the
    roster was wiped by a win, the deck is as found and the discard pile
    has grown by that one card. *)
Theorem unanswered_assassination_takes_three_and_a_card (e : env) (st : table)
    (target : user) (da dt : pdata) (rest : list card) (c : card) :
  NoDup (keys (players st)) -> all_alive st ->
  is_turn st (author e) = true -> author e <> target ->
  lookup (players st) (author e) = Some da -> (3 <= coins da < 10)%Z ->
  lookup (players st) target = Some dt -> cards dt = rest ++ [c] ->
  find (eligible e (with_coins st (author e) da (-3)) [EChallenge; EBlock] (author e))
       (first_window e) = None ->
  let paid := with_coins st (author e) da (-3) in
  let r := assassinate e target st in
  oc r = Val tt /\
  (exists tr, trace r = Prompt [EChallenge; EBlock] (author e) paid
                        :: Lost target c :: tr) /\
  (forall d', lookup (players (final r)) (author e) = Some d' ->
     d' = mkP (cards da) (coins da - 3)) /\
  (forall d', lookup (players (final r)) target = Some d' ->
     d' = mkP rest (coins dt)) /\
  (rest = [] -> mem (players (final r)) target = false) /\
  (forall q d', q <> author e -> q <> target ->
     lookup (players (final r)) q = Some d' -> lookup (players st) q = Some d') /\
  (players (final r) <> [] ->
     court_deck (final r) = court_deck st /\
     discarded_cards (final r) = discarded_cards st ++ [c]).
Proof.
  intros Hn Ha Ht N Ela [Hlo Hhi] Elt Hc Hw. cbv zeta.
  set (a := author e) in *.
  set (paid := with_coins st a da (-3)) in *.
  assert (Halt : is_player_alive st target = true).
  { apply Ha. eapply lookup_In_keys; eauto. }
  assert (Hs : Nat.eqb a target = false) by now apply Nat.eqb_neq.
  assert (H3 : (coins da <? 3)%Z = false) by (apply Z.ltb_ge; lia).
  assert (H10 : (10 <=? coins da)%Z = false) by (apply Z.leb_gt; lia).
  assert (Eltp : lookup (players paid) target = Some dt).
  { unfold paid, with_coins. cbn [players set_players].
    rewrite lookup_assign_other by exact N. exact Elt. }
  assert (Elap : lookup (players paid) a = Some (mkP (cards da) (coins da - 3))).
  { unfold paid, with_coins. cbn [players set_players]. apply lookup_assign_same. }
  assert (Hpk : keys (players paid) = keys (players st)).
  { unfold paid, with_coins. cbn [players set_players].
    apply keys_assign_present, mem_lookup; eauto. }
  assert (Haltp : is_player_alive paid target = true).
  { unfold paid. now rewrite alive_with_coins by exact Ela. }
  (* the checks pass, the coins are paid, nobody reacts, the target is struck *)
  assert (Hrun : assassinate e target st =
    let T := then_advance e (strike e target) paid in
    mkRes (oc T) (final T) (Prompt [EChallenge; EBlock] a paid :: trace T)).
  { unfold assassinate. fold a. open_checks.
    rewrite Ht, (alive_mem _ _ Halt), Halt, Hs, Ela, H3, H10. cbn [negb andb].
    rewrite (bind_val _ (add_coins_found _ _ _ _ Ela)). cbn [app]. fold paid.
    unfold then_advance.
    rewrite bind_assoc, (bind_val _ (wait_for_reaction_eq _ _ _ _ _)), Hw.
    unfold assassinate_target. rewrite bind_assoc, bind_get, Haltp.
    cbn [oc final trace app]. reflexivity. }
  rewrite Hrun. cbv zeta. cbn [oc final trace].
  destruct (strike_then_advance e paid target dt rest c a)
    as (H1 & (tr & H2) & H3' & H4 & H5 & H6); auto.
  { now rewrite Hpk. }
  { intros u Hu. unfold paid. rewrite alive_with_coins by exact Ela.
    apply Ha. now rewrite <- Hpk. }
  { unfold paid. rewrite mem_with_coins by exact Ela. apply mem_lookup; eauto. }
  split; [exact H1|]. split; [exists tr; now rewrite H2|].
  split; [|split; [exact H3'|]].
  - intros d' H. apply H5 in H; [|exact N]. rewrite Elap in H. now injection H as <-.
  - split; [exact H4|]. split; [|exact H6].
    intros q d' Nq Nt H. apply H5 in H; [|exact Nt].
    unfold paid, with_coins in H. cbn [players set_players] in H.
    now rewrite lookup_assign_other in H by congruence.
Qed.

Lemma unanswered_assassination_takes_three_and_a_card_witness :
  let paid := with_coins trio 1 (mkP [Duke; Captain] 7%Z) (-3) in
  let r := assassinate (quiet_env 1) 3 trio in
  oc r = Val tt /\
  (exists tr, trace r = Prompt [EChallenge; EBlock] 1 paid :: Lost 3 Ambassador :: tr) /\
  mem (players (final r)) 3 = false /\
  (forall d', lookup (players (final r)) 1 = Some d' -> d' = mkP [Duke; Captain] 4%Z).
Proof.
  destruct (unanswered_assassination_takes_three_and_a_card (quiet_env 1) trio 3
              (mkP [Duke; Captain] 7%Z) (mkP [Ambassador] 2%Z) [] Ambassador)
    as (H1 & H2 & H3 & _ & H5 & _).
  - repeat constructor; simpl; intuition discriminate.
  - intros u [<-|[<-|[<-|[]]]]; reflexivity.
  - reflexivity.
  - simpl. lia.
  - reflexivity.
  - simpl. lia.
  - reflexivity.
  - reflexivity.
  - reflexivity.
  - split; [exact H1|]. split; [exact H2|]. split; [exact (H5 eq_refl)|exact H3].
Defined.

Lemma advance_turn_only_removes e cur s :
  NoDup (keys (players s)) -> all_alive s ->
  let r := advance_turn e cur s in
  oc r = Val tt /\
  (forall u d, lookup (players (final r)) u = Some d -> lookup (players s) u = Some d) /\
  (players (final r) <> [] ->
   court_deck (final r) = court_deck s /\ discarded_cards (final r) = discarded_cards s).
Proof.
  intros Hn Ha. cbv zeta.
  pose proof (advance_turn_returns e cur s Hn Ha) as Hoc.
  assert (Hcov : covers true (oc (advance_turn e cur s)) = true) by now rewrite Hoc.
  destruct (advance_turn_removals e cur s Hcov Hn) as (_ & Hsub & Hpiles).
  auto.
Qed.

(** X25.  A target who challenges an assassin holding the Assassin loses
    their whole hand to one command: a card for the challenge and, if
    they have one left, a card for the assassination that then goes
    ahead.  The command always returns; the assassin has paid three
    coins and swapped the revealed Assassin, which went to the bottom of
    the deck, for the card on top; the target's cards are revealed last
    card first and end on the discard pile; the target is off the roster;
    and nobody else still seated is touched. *)
Theorem challenging_a_true_assassin_costs_the_hand (e : env) (st : table)
    (target : user) (da dt : pdata) (top : card) (below : list card) :
  NoDup (keys (players st)) -> all_alive st ->
  is_turn st (author e) = true -> author e <> target ->
  lookup (players st) (author e) = Some da -> (3 <= coins da < 10)%Z ->
  card_in Assassin (cards da) = true ->
  lookup (players st) target = Some dt -> length (cards dt) <= 2 ->
  court_deck st = below ++ [top] ->
  find (eligible e (with_coins st (author e) da (-3)) [EChallenge; EBlock] (author e))
       (first_window e) = Some (EChallenge, target) ->
  let paid := with_coins st (author e) da (-3) in
  let r := assassinate e target st in
  oc r = Val tt /\
  (exists tr, trace r = Prompt [EChallenge; EBlock] (author e) paid
                        :: Revealed (author e) Assassin
                        :: map (Lost target) (rev (cards dt)) ++ tr) /\
  mem (players (final r)) target = false /\
  (forall d', lookup (players (final r)) (author e) = Some d' ->
     d' = mkP (remove_first Assassin (cards da) ++ [top]) (coins da - 3)) /\
  (forall q d', q <> author e -> q <> target ->
     lookup (players (final r)) q = Some d' -> lookup (players st) q = Some d') /\
  (players (final r) <> [] ->
     court_deck (final r) = Assassin :: below /\
     discarded_cards (final r) = discarded_cards st ++ rev (cards dt)).
Proof.
  intros Hn Ha Ht N Ela [Hlo Hhi] Hass Elt Hlen Hdeck Hw. cbv zeta.
  set (a := author e) in *.
  set (paid := with_coins st a da (-3)) in *.
  set (da' := mkP (cards da) (coins da - 3)).
  set (sw := swapped paid a da' Assassin top below).
  assert (Halt : is_player_alive st target = true).
  { apply Ha. eapply lookup_In_keys; eauto. }
  assert (Hma : mem (players st) a = true) by (apply mem_lookup; eauto).
  assert (Hs : Nat.eqb a target = false) by now apply Nat.eqb_neq.
  assert (H3 : (coins da <? 3)%Z = false) by (apply Z.ltb_ge; lia).
  assert (H10 : (10 <=? coins da)%Z = false) by (apply Z.leb_gt; lia).
  assert (Elap : lookup (players paid) a = Some da').
  { unfold paid, with_coins. cbn [players set_players]. apply lookup_assign_same. }
  assert (Hpop : pop (court_deck paid) = Some (top, below)).
  { unfold paid, with_coins. cbn [court_deck set_players]. rewrite Hdeck.
    apply pop_snoc. }
  (* the table after the swap *)
  assert (Hsw_a : lookup (players sw) a
                  = Some (mkP (remove_first Assassin (cards da) ++ [top]) (coins da - 3))).
  { unfold sw, swapped. cbn [players set_players set_court_deck].
    apply lookup_assign_same. }
  assert (Hsw_u : forall u, u <> a -> lookup (players sw) u = lookup (players st) u).
  { intros u Nu. unfold sw, swapped, paid, with_coins.
    cbn [players set_players set_court_deck].
    now rewrite !lookup_assign_other by congruence. }
  assert (Hsw_k : keys (players sw) = keys (players st)).
  { unfold sw, swapped, paid, with_coins.
    cbn [players set_players set_court_deck].
    rewrite !keys_assign_present; auto using mem_assign. }
  assert (Hsw_n : NoDup (keys (players sw))) by (rewrite Hsw_k; exact Hn).
  assert (Hsw_deck : court_deck sw = Assassin :: below) by reflexivity.
  assert (Hsw_disc : discarded_cards sw = discarded_cards st) by reflexivity.
  assert (Hsw_alive : forall u d, lookup (players sw) u = Some d -> cards d <> []).
  { intros u d El. destruct (Nat.eq_dec u a) as [->|Nu].
    - rewrite Hsw_a in El. injection El as <-. cbn [cards].
      destruct (remove_first Assassin (cards da)); discriminate.
    - rewrite Hsw_u in El by exact Nu.
      apply (proj1 (all_alive_lookup st) Ha u d El). }
  assert (Elts : lookup (players sw) target = Some dt).
  { rewrite Hsw_u by congruence. exact Elt. }
  destruct (pop_nonempty (cards dt)) as (c & rest & Hpc).
  { apply (proj1 (all_alive_lookup st) Ha target dt Elt). }
  assert (Hc : cards dt = rest ++ [c]) by now apply pop_Some.
  assert (Hpos : (0 <? length (cards dt)) = true).
  { rewrite Hc, length_app. simpl. apply Nat.ltb_lt. lia. }
  set (hit := after_loss sw target dt c rest).
  (* the command up to the elimination check of the challenge *)
  assert (Hrun : assassinate e target st =
    let T := then_advance e
               (v <- (r <- handle_player_elimination e target ;;
                      let '(eliminated, ended, next) := r in
                      ret (mkVerdict true ended
                             (if eliminated then Some target else None) next)) ;;
                if game_ended v then ret false
                else if claim_legitimate v then assassinate_target e target
                else bluff_exposed e v ;; ret false) hit in
    mkRes (oc T) (final T)
          (Prompt [EChallenge; EBlock] a paid :: Revealed a Assassin
           :: Lost target c :: trace T)).
  { unfold assassinate. fold a. open_checks.
    rewrite Ht, (alive_mem _ _ Halt), Halt, Hs, Ela, H3, H10. cbn [negb andb].
    rewrite (bind_val _ (add_coins_found _ _ _ _ Ela)). cbn [app]. fold paid.
    unfold then_advance.
    rewrite bind_assoc, (bind_val _ (wait_for_reaction_eq _ _ _ _ _)), Hw.
    unfold handle_challenge.
    rewrite !bind_assoc, (bind_pure _ (player_data_found Elap)).
    cbn [cards da']. rewrite Hass.
    rewrite !bind_assoc, bind_emit. cbn [oc final trace app].
    rewrite !bind_assoc.
    rewrite (bind_val _ (handle_card_swap_done Elap Hass Hpop)). fold sw.
    cbn [oc final trace app].
    unfold challenge_loss.
    rewrite !bind_assoc, (bind_pure _ (player_data_found Elts)), Hpos.
    rewrite !bind_assoc, (bind_val _ (lose_influence_found Elts Hpc)). fold hit.
    cbn [oc final trace app]. rewrite !bind_assoc. reflexivity. }
  rewrite Hrun. cbv zeta. cbn [oc final trace].
  (* the table after the lost challenge *)
  assert (Hhit_t : lookup (players hit) target = Some (mkP rest (coins dt))).
  { unfold hit, after_loss. cbn [players set_players set_discarded_cards].
    apply lookup_assign_same. }
  assert (Hhit_u : forall u, u <> target ->
                             lookup (players hit) u = lookup (players sw) u).
  { intros u Nu. unfold hit, after_loss.
    cbn [players set_players set_discarded_cards].
    now rewrite lookup_assign_other by congruence. }
  assert (Hhit_k : keys (players hit) = keys (players sw)).
  { unfold hit, after_loss. cbn [players set_players set_discarded_cards].
    apply keys_assign_present, mem_lookup. eauto. }
  assert (Hhit_n : NoDup (keys (players hit))) by (rewrite Hhit_k; exact Hsw_n).
  assert (Hhit_deck : court_deck hit = Assassin :: below) by reflexivity.
  assert (Hhit_disc : discarded_cards hit = discarded_cards st ++ [c]) by reflexivity.
  assert (Hhit_a : is_player_alive hit a = true).
  { apply alive_hand. rewrite Hhit_u, Hsw_a by exact N. eexists. split; [reflexivity|].
    cbn [cards]. destruct (remove_first Assassin (cards da)); discriminate. }
  assert (Hhit_m : mem (players hit) a = true) by now apply alive_mem.
  (* what every table met from here on says about the table found *)
  assert (Hclose : forall f,
    (forall u d, lookup (players f) u = Some d ->
                 u <> target /\ lookup (players sw) u = Some d) ->
    mem (players f) target = false /\
    (forall d', lookup (players f) a = Some d' ->
       d' = mkP (remove_first Assassin (cards da) ++ [top]) (coins da - 3)) /\
    (forall q d', q <> a -> q <> target ->
       lookup (players f) q = Some d' -> lookup (players st) q = Some d')).
  { intros f Hf. split; [|split].
    - unfold mem. destruct (lookup (players f) target) eqn:E; [|reflexivity].
      now apply Hf in E as [E _].
    - intros d' H. apply Hf in H as [_ H]. rewrite Hsw_a in H. now injection H as <-.
    - intros q d' Nq _ H. apply Hf in H as [_ H]. now rewrite Hsw_u in H. }
  destruct rest as [|c1 [|c2 rest']].
  - (* the target held one card: the challenge took it *)
    assert (Hrev : rev (cards dt) = [c]) by now rewrite Hc.
    rewrite Hrev. cbn [map app].
    pose proof (elimination_of_cardless e target hit (mkP [] (coins dt)) a
                  Hhit_n Hhit_t eq_refl Hhit_a) as Hel.
    unfold then_advance. rewrite !bind_assoc.
    destruct (check_win_condition (without hit target)) as [w|] eqn:Ew.
    + destruct Hel as (dw & _ & _ & Hel).
      rewrite (bind_val _ Hel). cbv beta iota. rewrite !bind_ret.
      cbn [game_ended]. rewrite bind_ret.
      cbn [ret oc final trace players].
      split; [reflexivity|]. split; [eauto|].
      destruct (Hclose (mkTable [] (shuffle (rand_deck e) fresh_deck) [] false None))
        as (G1 & G2 & G3); [intros u d Hd; discriminate|].
      split; [exact G1|]. split; [exact G2|]. split; [exact G3|].
      intros Hx. cbn [players] in Hx. congruence.
    + destruct Hel as (next & Hel & _).
      rewrite (bind_val _ Hel). cbv beta iota. rewrite !bind_ret.
      cbn [game_ended claim_legitimate].
      assert (Hgone : is_player_alive (without hit target) target = false).
      { unfold is_player_alive, without. cbn [players set_players].
        now rewrite lookup_delete_same. }
      unfold assassinate_target. rewrite bind_assoc, bind_get, Hgone, bind_ret.
      cbn [oc final trace app].
      assert (Hn0 : NoDup (keys (players (without hit target)))).
      { unfold without. cbn [players set_players]. now apply NoDup_keys_delete. }
      assert (Hsub0 : forall u d, lookup (players (without hit target)) u = Some d ->
                                  u <> target /\ lookup (players sw) u = Some d).
      { intros u d El. unfold without in El. cbn [players set_players] in El.
        apply lookup_delete_sub in El as [Nu El]; [|exact Hhit_n].
        split; [exact Nu|]. now rewrite Hhit_u in El. }
      assert (Ha0 : all_alive (without hit target)).
      { apply all_alive_lookup. intros u d El. apply Hsub0 in El as [_ El]. eauto. }
      destruct (advance_turn_only_removes e (author e) (without hit target) Hn0 Ha0)
        as (A1 & A2 & A3).
      split; [exact A1|]. split; [eauto|].
      destruct (Hclose (final (advance_turn e (author e) (without hit target))))
        as (G1 & G2 & G3); [intros u d Hd; apply Hsub0, A2, Hd|].
      split; [exact G1|]. split; [exact G2|]. split; [exact G3|].
      intros Hx. destruct (A3 Hx) as [D1 D2]. rewrite D1, D2. split; reflexivity.
  - (* the target held two cards: the assassination takes the other *)
    assert (Hrev : rev (cards dt) = [c; c1]) by now rewrite Hc.
    rewrite Hrev. cbn [map app].
    assert (Hkeep : handle_player_elimination e target hit
                    = mkRes (Val (false, false, None)) hit []).
    { unfold handle_player_elimination.
      now rewrite (bind_pure _ (player_data_found Hhit_t)). }
    assert (Hhit_alive : is_player_alive hit target = true).
    { unfold is_player_alive. now rewrite Hhit_t. }
    assert (Hstrike : then_advance e
               (v <- (r <- handle_player_elimination e target ;;
                      let '(eliminated, ended, next) := r in
                      ret (mkVerdict true ended
                             (if eliminated then Some target else None) next)) ;;
                if game_ended v then ret false
                else if claim_legitimate v then assassinate_target e target
                else bluff_exposed e v ;; ret false) hit
             = then_advance e (strike e target) hit).
    { unfold then_advance. rewrite !bind_assoc.
      rewrite (bind_pure _ Hkeep). cbv beta iota. rewrite !bind_ret.
      cbn [game_ended claim_legitimate].
      unfold assassinate_target. now rewrite bind_assoc, bind_get, Hhit_alive. }
    rewrite Hstrike.
    assert (Ha0 : all_alive hit).
    { apply all_alive_lookup. intros u d El.
      destruct (Nat.eq_dec u target) as [->|Nu].
      - rewrite Hhit_t in El. injection El as <-. discriminate.
      - rewrite Hhit_u in El by exact Nu. eauto. }
    destruct (strike_then_advance e hit target (mkP [c1] (coins dt)) [] c1 a
                Hhit_n Ha0 N Hhit_m Hhit_t eq_refl)
      as (S1 & (tr & S2) & S3 & S4 & S5 & S6).
    split; [exact S1|]. split; [exists tr; now rewrite S2|].
    destruct (Hclose (final (then_advance e (strike e target) hit)))
      as (G1 & G2 & G3).
    { intros u d Hd. destruct (Nat.eq_dec u target) as [->|Nu].
      - specialize (S4 eq_refl). unfold mem in S4. now rewrite Hd in S4.
      - split; [exact Nu|]. apply S5 in Hd; [|exact Nu]. now rewrite Hhit_u in Hd. }
    split; [exact G1|]. split; [exact G2|]. split; [exact G3|].
    intros Hx. destruct (S6 Hx) as [D1 D2]. rewrite D1, D2, Hhit_deck, Hhit_disc.
    split; [reflexivity|]. now rewrite <- app_assoc.
  - (* no hand holds three cards *)
    rewrite Hc, length_app in Hlen. cbn [length] in Hlen. lia.
Qed.

Lemma challenging_a_true_assassin_costs_the_hand_witness :
  let r := assassinate doubt_env 2 ambush in
  oc r = Val tt /\ mem (players (final r)) 2 = false /\
  (players (final r) <> [] ->
   court_deck (final r)
   = [Assassin; Assassin; Captain; Ambassador; Contessa; Duke; Contessa; Duke; Assassin] /\
   discarded_cards (final r) = [Captain; Captain; Contessa]).
Proof.
  destruct (challenging_a_true_assassin_costs_the_hand doubt_env ambush 2
              (mkP [Duke; Assassin] 3%Z) (mkP [Contessa; Captain] 2%Z) Ambassador
              [Assassin; Captain; Ambassador; Contessa; Duke; Contessa; Duke; Assassin])
    as (H1 & _ & H3 & _ & _ & H6).
  - repeat constructor; simpl; intuition discriminate.
  - intros u [<-|[<-|[<-|[]]]]; reflexivity.
  - reflexivity.
  - simpl. lia.
  - reflexivity.
  - simpl. lia.
  - reflexivity.
  - reflexivity.
  - simpl. lia.
  - reflexivity.
  - reflexivity.
  - split; [exact H1|]. split; [exact H3|exact H6].
Defined.

(** * Whose coins a command can touch *)

#[global] Instance ledger_preorder who : PreOrder (ledger who).
Proof.
  split.
  - intros st Hn. split; [exact Hn|]. intros p d' H. exists d'. auto.
  - intros a b c Hab Hbc Hn.
    destruct (Hab Hn) as [Hnb Hb]. destruct (Hbc Hnb) as [Hnc Hc].
    split; [exact Hnc|]. intros p d2 H.
    destruct (Hc p d2 H) as (d1 & H1 & Hd1).
    destruct (Hb p d1 H1) as (d & Hd & Hd0). exists d. split; [exact Hd|].
    destruct Hd1 as [Hi|E1]; [now left|].
    destruct Hd0 as [Hi|E0]; [now left|]. right. congruence.
Qed.

Lemma ledger_of_coins_kept who st st' : coins_kept st st' -> ledger who st st'.
Proof.
  intros H Hn. destruct (H Hn) as [Hn' Hc]. split; [exact Hn'|].
  intros p d' Hl. destruct (Hc p d' Hl) as (d & Hd & E). eauto.
Qed.

Lemma coins_kept_of_removals st st' : only_removals st st' -> coins_kept st st'.
Proof.
  intros H Hn. destruct (H Hn) as (Hn' & Hsub & _). split; [exact Hn'|].
  intros p d' Hl. exists d'. auto.
Qed.

Lemma ledger_call who {A} (c : M A) : rel true coins_kept c -> rel true (ledger who) c.
Proof.
  intros H st. apply (rel_weaken true true coins_kept (ledger who) c st); auto.
  apply ledger_of_coins_kept.
Qed.

Lemma add_coins_ledger who p n : In p who -> rel true (ledger who) (add_coins p n).
Proof.
  intros Hi st. unfold add_coins. rel_step. rapply rel_at_modify.
  intros Hn. cbn [players set_players]. split.
  - rewrite keys_assign_present; [exact Hn|]. apply mem_lookup. eauto.
  - intros q d' Hl. destruct (Nat.eq_dec q p) as [->|N].
    + exists d. auto.
    + rewrite lookup_assign_other in Hl by congruence. exists d'. auto.
Qed.

Lemma strike_coins_kept e target : rel true coins_kept (strike e target).
Proof.
  intros st. unfold strike.
  rapply rel_at_call; [apply lose_influence_coins_kept|]. intros _ s.
  rapply rel_at_call; [apply handle_player_elimination_coins_kept|].
  intros [[el en] nx] s'. rel_step.
Qed.

Lemma assassinate_target_coins_kept e target :
  rel true coins_kept (assassinate_target e target).
Proof.
  intros st. unfold assassinate_target. rel_step.
  destruct (is_player_alive st target); [apply strike_coins_kept|rel_step].
Qed.

Lemma advance_turn_coins_kept e cur : rel true coins_kept (advance_turn e cur).
Proof.
  intros st.
  apply (rel_weaken true true only_removals coins_kept (advance_turn e cur) st); auto.
  - apply coins_kept_of_removals.
  - apply advance_turn_removals.
Qed.

Lemma bluff_exposed_coins_kept e v : rel true coins_kept (bluff_exposed e v).
Proof.
  intros st. unfold bluff_exposed.
  destruct (is_author e (eliminated_player v)); [|apply advance_turn_coins_kept].
  rapply rel_at_modify_bind; [now apply coins_kept_same|].
  destruct (next_player_result v); rel_step.
Qed.

Lemma steal_coins_ledger e target :
  rel true (ledger [author e; target]) (steal_coins e target).
Proof.
  intros st. unfold steal_coins. rel_step.
  destruct (is_player_alive st target); [|rel_step].
  rel_step.
  rapply rel_at_call; [apply add_coins_ledger; simpl; auto|]. intros _ s.
  apply add_coins_ledger. simpl. auto.
Qed.

Section Ledger.
Variable who : list user.

Lemma handle_challenge_ledger e claimer challenger c :
  rel true (ledger who) (handle_challenge e claimer challenger c).
Proof. apply ledger_call, handle_challenge_coins_kept. Qed.

Lemma handle_block_challenge_ledger e blocker challenger vs :
  rel true (ledger who) (handle_block_challenge e blocker challenger vs).
Proof. apply ledger_call, handle_block_challenge_coins_kept. Qed.

Lemma strike_ledger e target : rel true (ledger who) (strike e target).
Proof. apply ledger_call, strike_coins_kept. Qed.

Lemma assassinate_target_ledger e target :
  rel true (ledger who) (assassinate_target e target).
Proof. apply ledger_call, assassinate_target_coins_kept. Qed.

Lemma advance_turn_ledger e cur : rel true (ledger who) (advance_turn e cur).
Proof. apply ledger_call, advance_turn_coins_kept. Qed.

Lemma bluff_exposed_ledger e v : rel true (ledger who) (bluff_exposed e v).
Proof. apply ledger_call, bluff_exposed_coins_kept. Qed.

Lemma set_cards_ledger p cs : rel true (ledger who) (set_cards p cs).
Proof. apply ledger_call, set_cards_coins_kept. Qed.

Lemma pop_deck_ledger : rel true (ledger who) pop_deck.
Proof. apply ledger_call, pop_deck_coins_kept. Qed.

Lemma ledger_same st st' : players st' = players st -> ledger who st st'.
Proof. intros E. now apply ledger_of_coins_kept, coins_kept_same. Qed.

Lemma ledger_wiped st st' : players st' = [] -> ledger who st st'.
Proof. intros E. now apply ledger_of_coins_kept, coins_kept_empty. Qed.
End Ledger.

Create HintDb ledger_hints.
#[global] Hint Resolve handle_challenge_ledger handle_block_challenge_ledger
  strike_ledger assassinate_target_ledger advance_turn_ledger bluff_exposed_ledger
  set_cards_ledger pop_deck_ledger steal_coins_ledger : ledger_hints.
#[global] Hint Resolve validate_turn_final validate_target_final
  validate_self_target_final validate_coins_final validate_action_allowed_final
  target_in_game_final target_has_coins_final : ledger_hints.

(** Walks through the body of a command. *)
Ltac ledger_step :=
  first
    [ rel_step
    | lazymatch goal with
      | |- rel_at _ _ (checked _ _) _ =>
          rapply rel_at_checked; [solve [auto with ledger_hints]|]
      | |- rel_at _ _ (then_advance _ _) _ => unfold then_advance
      | |- rel_at _ _ (bind (wait_for_reaction _ _ _ _) _) _ =>
          rapply rel_at_reader; [apply wait_for_reaction_final|intros ? _]
      | |- rel_at _ _ (bind (enhanced_turn_announcement _ _ _) _) _ =>
          rapply rel_at_reader; [apply enhanced_turn_announcement_final|intros ? _]
      | |- rel_at _ _ (bind (modify (set_current_player _)) _) _ =>
          rapply rel_at_modify_bind; [now apply ledger_same|]
      | |- rel_at _ _ (bind (extend_deck _) _) _ =>
          unfold extend_deck; rapply rel_at_modify_bind; [now apply ledger_same|]
      | |- rel_at _ _ (bind (add_coins _ _) _) _ =>
          rapply rel_at_call; [apply add_coins_ledger; simpl; auto|intros ? ?]
      | |- rel_at _ _ (bind (match ?r with _ => _ end) _) _ => destruct r
      | |- rel_at _ _ (bind _ _) _ =>
          rapply rel_at_call; [solve [auto with ledger_hints]|intros ? ?]
      | |- rel_at _ _ (match ?r with _ => _ end) _ => destruct r
      | |- rel_at _ _ _ _ => apply rel_at_any; solve [auto with ledger_hints]
      end ].

Lemma income_ledger e : rel true (ledger [author e]) (income e).
Proof. intros st. unfold income. repeat ledger_step. Qed.

Lemma foreign_aid_ledger e : rel true (ledger [author e]) (foreign_aid e).
Proof. intros st. unfold foreign_aid. repeat ledger_step. Qed.

Lemma tax_ledger e : rel true (ledger [author e]) (tax e).
Proof. intros st. unfold tax. repeat ledger_step. Qed.

Lemma coup_ledger e t : rel true (ledger [author e]) (coup e t).
Proof. intros st. unfold coup. repeat ledger_step. Qed.

Lemma assassinate_ledger e t : rel true (ledger [author e]) (assassinate e t).
Proof. intros st. unfold assassinate. repeat ledger_step. Qed.

Lemma steal_ledger e t : rel true (ledger [author e; t]) (steal e t).
Proof. intros st. unfold steal. repeat ledger_step. Qed.

Lemma exchange_cards_ledger e n : rel true (ledger [author e]) (exchange_cards e n).
Proof. intros st. unfold exchange_cards. repeat ledger_step. Qed.

Lemma exchange_ledger e : rel true (ledger [author e]) (exchange e).
Proof.
  intros st. unfold exchange. repeat ledger_step; apply exchange_cards_ledger.
Qed.

Lemma end_ledger e : rel true (ledger [author e]) (end_ e).
Proof.
  intros st. unfold end_. rel_step.
  destruct (negb (game_started st)); [rel_step|].
  rapply rel_at_modify_bind; [now apply ledger_wiped|].
  unfold shuffle_deck. rapply rel_at_modify. now apply ledger_same.
Qed.

Lemma run_ledger c e : c <> CStart -> rel true (ledger (parties c e)) (run c e).
Proof.
  intros Hc. destruct c; cbn [run parties]; try congruence;
    auto using end_ledger, income_ledger, foreign_aid_ledger, coup_ledger,
      assassinate_ledger, tax_ledger, steal_ledger, exchange_ledger.
Qed.

(** X26.  No command but [start] seats anybody, and none touches the
    balance of a player other than the one who issued it and, for a
    steal, its target: whatever the reactions, challenges, blocks,
    eliminations and departures on the way, and whether the handler
    returns or raises, every player seated afterwards was seated before
    and, unless they are one of those two, has the balance they had. *)
Theorem commands_touch_only_their_parties (c : command) (e : env) (st : table) :
  c <> CStart -> NoDup (keys (players st)) ->
  oc (run c e st) <> Hang ->
  NoDup (keys (players (final (run c e st)))) /\
  forall p d', lookup (players (final (run c e st))) p = Some d' ->
    exists d, lookup (players st) p = Some d /\
      (p = author e \/ c = CSteal p \/ coins d' = coins d).
Proof.
  intros Hc Hn Hoc.
  assert (Hcov : covers true (oc (run c e st)) = true).
  { destruct (oc (run c e st)); [reflexivity|reflexivity|congruence]. }
  destruct (run_ledger c e Hc st Hcov Hn) as [Hn' Hl]. split; [exact Hn'|].
  intros p d' Hp. destruct (Hl p d' Hp) as (d & Hd & Hw). exists d.
  split; [exact Hd|]. destruct Hw as [Hi|E]; [|auto].
  destruct c; cbn [parties In] in Hi; intuition (subst; auto).
Qed.

Lemma commands_touch_only_their_parties_witness :
  let r := run (CAssassinate 2) doubt_env ambush in
  NoDup (keys (players (final r))) /\
  forall p d', lookup (players (final r)) p = Some d' ->
    exists d, lookup (players ambush) p = Some d /\
      (p = author doubt_env \/ CAssassinate 2 = CSteal p \/ coins d' = coins d).
Proof.
  apply (commands_touch_only_their_parties (CAssassinate 2) doubt_env ambush).
  - discriminate.
  - repeat constructor; simpl; intuition discriminate.
  - vm_compute. discriminate.
Defined.
